(** * Shallow embedding of the Klein-Kramers phase-space solver

    The development follows [KleinKramers2d::Evolve] of
    [KleinKramers2d.cpp]: the flat buffers [F], [FF], [PF], [KK1..KK4],
    [Feq_loc] and [TAMask], the index vectors [TB], [TBL], [TBL_P], [ExFF],
    [ExBD], and the phases of one time step (frontier build, extrapolation
    loop, moments and local Maxwellian, Runge-Kutta 4, normalization,
    truncation and bounding-box rebuild).

    Idealisations, stated once:
    - a [double] stored in a buffer is a real number ([R]); rounding and
      overflow are not modelled.  Where the source itself tests for the
      IEEE special values ([isnan], [isinf], [isfinite]) the intermediate
      value is a [dval], a real or one of +inf, -inf, NaN, produced by the
      operations that can create them ([/] by zero, [sqrt] and [log] of a
      negative number);
    - an [int] is an integer ([Z]); [/] and [%] on [int] are [Z.quot] and
      [Z.rem];
    - a raw array is a total function from its flat index; a
      [std::vector] is a list;
    - an OpenMP loop is run in its sequential order. *)

From Stdlib Require Import ZArith List Bool Reals Lra Lia.
From Stdlib Require Import Lists.Finite Sorted.
Import ListNotations.
Local Open Scope Z_scope.

(** ** Comparisons on [double] as booleans *)

Definition Rltb (x y : R) : bool := if Rlt_dec x y then true else false.
Definition Rleb (x y : R) : bool := if Rle_dec x y then true else false.
Definition Reqb (x y : R) : bool := if Req_dec_T x y then true else false.

(** ** IEEE special values

    [dval] is the value of a [double] expression that the source guards
    with [isfinite], [isnan] or [isinf]. *)

Inductive dval : Type :=
| Fin (r : R)
| PInf
| NInf
| NaN.

Definition isfinite (d : dval) : bool :=
  match d with Fin _ => true | _ => false end.

Definition isnan (d : dval) : bool :=
  match d with NaN => true | _ => false end.

Definition isinf (d : dval) : bool :=
  match d with PInf | NInf => true | _ => false end.

Definition dreal (d : dval) : R :=
  match d with Fin r => r | _ => 0%R end.

Definition dneg (d : dval) : dval :=
  match d with
  | Fin r => Fin (- r)
  | PInf => NInf
  | NInf => PInf
  | NaN => NaN
  end.

(** [a > b]; every comparison with NaN is false. *)
Definition dgt (a b : dval) : bool :=
  match a, b with
  | NaN, _ | _, NaN => false
  | Fin x, Fin y => Rltb y x
  | PInf, PInf => false
  | PInf, _ => true
  | NInf, _ => false
  | Fin _, NInf => true
  | Fin _, PInf => false
  end.

(** The infinity of the sign of [r], for [r <> 0]. *)
Definition dinf_sign (r : R) : dval :=
  if Rltb 0 r then PInf else NInf.

(** [a / b] on two finite operands. *)
Definition ddiv (a b : R) : dval :=
  if Reqb b 0 then (if Reqb a 0 then NaN else dinf_sign a)
  else Fin (a / b).

Definition dmul (a b : dval) : dval :=
  match a, b with
  | NaN, _ | _, NaN => NaN
  | Fin x, Fin y => Fin (x * y)
  | Fin x, PInf | PInf, Fin x =>
      if Reqb x 0 then NaN else dinf_sign x
  | Fin x, NInf | NInf, Fin x =>
      if Reqb x 0 then NaN else dinf_sign (- x)
  | PInf, PInf | NInf, NInf => PInf
  | PInf, NInf | NInf, PInf => NInf
  end.

Definition dadd (a b : dval) : dval :=
  match a, b with
  | NaN, _ | _, NaN => NaN
  | Fin x, Fin y => Fin (x + y)
  | PInf, NInf | NInf, PInf => NaN
  | PInf, _ | _, PInf => PInf
  | NInf, _ | _, NInf => NInf
  end.

Definition dsub (a b : dval) : dval := dadd a (dneg b).

(** [sqrt], [exp] and [std::log] of the C library. *)
Definition dsqrt (d : dval) : dval :=
  match d with
  | Fin r => if Rltb r 0 then NaN else Fin (sqrt r)
  | PInf => PInf
  | NInf => NaN
  | NaN => NaN
  end.

Definition dexp (d : dval) : dval :=
  match d with
  | Fin r => Fin (exp r)
  | PInf => PInf
  | NInf => Fin 0
  | NaN => NaN
  end.

Definition dlog (r : R) : dval :=
  if Rltb 0 r then Fin (ln r)
  else if Reqb r 0 then NInf else NaN.

(** ** Index vectors

    [std::sort], [std::unique] and [std::set_difference] on a
    [MeshIndex] (a [std::vector<int>]). *)

Fixpoint insert_sorted (x : Z) (l : list Z) : list Z :=
  match l with
  | [] => [x]
  | y :: l' => if x <=? y then x :: l else y :: insert_sorted x l'
  end.

Definition sort (l : list Z) : list Z := fold_right insert_sorted [] l.

(** [std::unique]: drops an element equal to the one before it. *)
Fixpoint unique (l : list Z) : list Z :=
  match l with
  | [] => []
  | x :: l' =>
      match l' with
      | [] => [x]
      | y :: _ => if x =? y then unique l' else x :: unique l'
      end
  end.

(** [std::set_difference] of two sorted ranges: an element of the first
    range is kept unless it is matched by an element of the second. *)
Fixpoint set_difference (a b : list Z) {struct a} : list Z :=
  let fix go (b : list Z) {struct b} : list Z :=
    match a with
    | [] => []
    | x :: a' =>
        match b with
        | [] => a
        | y :: b' =>
            if x <? y then x :: set_difference a' b
            else if y <? x then go b'
            else set_difference a' b'
        end
    end
  in go b.

(** ** Parameters read by [init] *)

(** The potential selected at compile time ([KK2DPOT_DW1], [KK2DPOT_DW2],
    [KK2DPOT_DW3]; the default is [KK2DPOT_DW2]). *)
Inductive PotType : Type := KK2DPOT_DW1 | KK2DPOT_DW2 | KK2DPOT_DW3.

Record Params : Type := mkParams {
  BoxShape_0 : Z;            (* BoxShape[0], number of x grid points *)
  BoxShape_1 : Z;            (* BoxShape[1], number of p grid points *)
  EDGE : Z;
  Box_0 : R;                 (* Box[0], lower x bound *)
  Box_2 : R;                 (* Box[2], lower p bound *)
  H_0 : R;                   (* H[0] *)
  H_1 : R;                   (* H[1] *)
  kk : R;                    (* time step *)
  m : R;
  kb : R;
  temp : R;
  gamma : R;
  hb : R;
  A_0 : R;
  A_1 : R;
  Wave0_0 : R;
  Wave0_1 : R;
  TolH : R;
  TolL : R;
  TolHd : R;
  TolLd : R;
  ExReduce : R;
  ExLimit : Z;
  isFullGrid : bool;
  isIsothermal : bool;
  isLinearizedCollision : bool;
  POT : PotType
}.

Definition BIG_NUMBER : Z := 2147483647.

(** ** Buffers and bookkeeping of [Evolve] *)

Record State : Type := mkState {
  F : Z -> R;
  Feq_loc : Z -> R;
  FF : Z -> R;
  PF : Z -> R;
  KK1 : Z -> R;
  KK2 : Z -> R;
  KK3 : Z -> R;
  KK4 : Z -> R;
  Density : Z -> R;
  Velocity : Z -> R;
  Temperature : Z -> R;
  TAMask : Z -> bool;
  x1_min : Z;
  x1_max : Z;
  x2_min : Z;
  x2_max : Z;
  ta_size : Z;
  TB : list Z;
  TBL : list Z;
  TBL_P : list Z;
  ExFF : list Z;
  ExBD : list Z;
  ExCheck : list bool;
  ExTBL : list R;
  Excount : Z;
  isExtrapolate : bool;
  isFirstExtrp : bool
}.

Definition set_F (v : Z -> R) (st : State) : State :=
  mkState v (Feq_loc st) (FF st) (PF st) (KK1 st) (KK2 st) (KK3 st) (KK4 st)
    (Density st) (Velocity st) (Temperature st) (TAMask st) (x1_min st)
    (x1_max st) (x2_min st) (x2_max st) (ta_size st) (TB st) (TBL st)
    (TBL_P st) (ExFF st) (ExBD st) (ExCheck st) (ExTBL st) (Excount st)
    (isExtrapolate st) (isFirstExtrp st).

Definition set_Feq_loc (v : Z -> R) (st : State) : State :=
  mkState (F st) v (FF st) (PF st) (KK1 st) (KK2 st) (KK3 st) (KK4 st)
    (Density st) (Velocity st) (Temperature st) (TAMask st) (x1_min st)
    (x1_max st) (x2_min st) (x2_max st) (ta_size st) (TB st) (TBL st)
    (TBL_P st) (ExFF st) (ExBD st) (ExCheck st) (ExTBL st) (Excount st)
    (isExtrapolate st) (isFirstExtrp st).

Definition set_FF (v : Z -> R) (st : State) : State :=
  mkState (F st) (Feq_loc st) v (PF st) (KK1 st) (KK2 st) (KK3 st) (KK4 st)
    (Density st) (Velocity st) (Temperature st) (TAMask st) (x1_min st)
    (x1_max st) (x2_min st) (x2_max st) (ta_size st) (TB st) (TBL st)
    (TBL_P st) (ExFF st) (ExBD st) (ExCheck st) (ExTBL st) (Excount st)
    (isExtrapolate st) (isFirstExtrp st).

Definition set_PF (v : Z -> R) (st : State) : State :=
  mkState (F st) (Feq_loc st) (FF st) v (KK1 st) (KK2 st) (KK3 st) (KK4 st)
    (Density st) (Velocity st) (Temperature st) (TAMask st) (x1_min st)
    (x1_max st) (x2_min st) (x2_max st) (ta_size st) (TB st) (TBL st)
    (TBL_P st) (ExFF st) (ExBD st) (ExCheck st) (ExTBL st) (Excount st)
    (isExtrapolate st) (isFirstExtrp st).

Definition set_KK1 (v : Z -> R) (st : State) : State :=
  mkState (F st) (Feq_loc st) (FF st) (PF st) v (KK2 st) (KK3 st) (KK4 st)
    (Density st) (Velocity st) (Temperature st) (TAMask st) (x1_min st)
    (x1_max st) (x2_min st) (x2_max st) (ta_size st) (TB st) (TBL st)
    (TBL_P st) (ExFF st) (ExBD st) (ExCheck st) (ExTBL st) (Excount st)
    (isExtrapolate st) (isFirstExtrp st).

Definition set_KK2 (v : Z -> R) (st : State) : State :=
  mkState (F st) (Feq_loc st) (FF st) (PF st) (KK1 st) v (KK3 st) (KK4 st)
    (Density st) (Velocity st) (Temperature st) (TAMask st) (x1_min st)
    (x1_max st) (x2_min st) (x2_max st) (ta_size st) (TB st) (TBL st)
    (TBL_P st) (ExFF st) (ExBD st) (ExCheck st) (ExTBL st) (Excount st)
    (isExtrapolate st) (isFirstExtrp st).

Definition set_KK3 (v : Z -> R) (st : State) : State :=
  mkState (F st) (Feq_loc st) (FF st) (PF st) (KK1 st) (KK2 st) v (KK4 st)
    (Density st) (Velocity st) (Temperature st) (TAMask st) (x1_min st)
    (x1_max st) (x2_min st) (x2_max st) (ta_size st) (TB st) (TBL st)
    (TBL_P st) (ExFF st) (ExBD st) (ExCheck st) (ExTBL st) (Excount st)
    (isExtrapolate st) (isFirstExtrp st).

Definition set_KK4 (v : Z -> R) (st : State) : State :=
  mkState (F st) (Feq_loc st) (FF st) (PF st) (KK1 st) (KK2 st) (KK3 st) v
    (Density st) (Velocity st) (Temperature st) (TAMask st) (x1_min st)
    (x1_max st) (x2_min st) (x2_max st) (ta_size st) (TB st) (TBL st)
    (TBL_P st) (ExFF st) (ExBD st) (ExCheck st) (ExTBL st) (Excount st)
    (isExtrapolate st) (isFirstExtrp st).

Definition set_Density (v : Z -> R) (st : State) : State :=
  mkState (F st) (Feq_loc st) (FF st) (PF st) (KK1 st) (KK2 st) (KK3 st)
    (KK4 st) v (Velocity st) (Temperature st) (TAMask st) (x1_min st)
    (x1_max st) (x2_min st) (x2_max st) (ta_size st) (TB st) (TBL st)
    (TBL_P st) (ExFF st) (ExBD st) (ExCheck st) (ExTBL st) (Excount st)
    (isExtrapolate st) (isFirstExtrp st).

Definition set_Velocity (v : Z -> R) (st : State) : State :=
  mkState (F st) (Feq_loc st) (FF st) (PF st) (KK1 st) (KK2 st) (KK3 st)
    (KK4 st) (Density st) v (Temperature st) (TAMask st) (x1_min st)
    (x1_max st) (x2_min st) (x2_max st) (ta_size st) (TB st) (TBL st)
    (TBL_P st) (ExFF st) (ExBD st) (ExCheck st) (ExTBL st) (Excount st)
    (isExtrapolate st) (isFirstExtrp st).

Definition set_Temperature (v : Z -> R) (st : State) : State :=
  mkState (F st) (Feq_loc st) (FF st) (PF st) (KK1 st) (KK2 st) (KK3 st)
    (KK4 st) (Density st) (Velocity st) v (TAMask st) (x1_min st) (x1_max st)
    (x2_min st) (x2_max st) (ta_size st) (TB st) (TBL st) (TBL_P st) (ExFF st)
    (ExBD st) (ExCheck st) (ExTBL st) (Excount st) (isExtrapolate st)
    (isFirstExtrp st).

Definition set_TAMask (v : Z -> bool) (st : State) : State :=
  mkState (F st) (Feq_loc st) (FF st) (PF st) (KK1 st) (KK2 st) (KK3 st)
    (KK4 st) (Density st) (Velocity st) (Temperature st) v (x1_min st)
    (x1_max st) (x2_min st) (x2_max st) (ta_size st) (TB st) (TBL st)
    (TBL_P st) (ExFF st) (ExBD st) (ExCheck st) (ExTBL st) (Excount st)
    (isExtrapolate st) (isFirstExtrp st).

Definition set_x1_min (v : Z) (st : State) : State :=
  mkState (F st) (Feq_loc st) (FF st) (PF st) (KK1 st) (KK2 st) (KK3 st)
    (KK4 st) (Density st) (Velocity st) (Temperature st) (TAMask st) v
    (x1_max st) (x2_min st) (x2_max st) (ta_size st) (TB st) (TBL st)
    (TBL_P st) (ExFF st) (ExBD st) (ExCheck st) (ExTBL st) (Excount st)
    (isExtrapolate st) (isFirstExtrp st).

Definition set_x1_max (v : Z) (st : State) : State :=
  mkState (F st) (Feq_loc st) (FF st) (PF st) (KK1 st) (KK2 st) (KK3 st)
    (KK4 st) (Density st) (Velocity st) (Temperature st) (TAMask st)
    (x1_min st) v (x2_min st) (x2_max st) (ta_size st) (TB st) (TBL st)
    (TBL_P st) (ExFF st) (ExBD st) (ExCheck st) (ExTBL st) (Excount st)
    (isExtrapolate st) (isFirstExtrp st).

Definition set_x2_min (v : Z) (st : State) : State :=
  mkState (F st) (Feq_loc st) (FF st) (PF st) (KK1 st) (KK2 st) (KK3 st)
    (KK4 st) (Density st) (Velocity st) (Temperature st) (TAMask st)
    (x1_min st) (x1_max st) v (x2_max st) (ta_size st) (TB st) (TBL st)
    (TBL_P st) (ExFF st) (ExBD st) (ExCheck st) (ExTBL st) (Excount st)
    (isExtrapolate st) (isFirstExtrp st).

Definition set_x2_max (v : Z) (st : State) : State :=
  mkState (F st) (Feq_loc st) (FF st) (PF st) (KK1 st) (KK2 st) (KK3 st)
    (KK4 st) (Density st) (Velocity st) (Temperature st) (TAMask st)
    (x1_min st) (x1_max st) (x2_min st) v (ta_size st) (TB st) (TBL st)
    (TBL_P st) (ExFF st) (ExBD st) (ExCheck st) (ExTBL st) (Excount st)
    (isExtrapolate st) (isFirstExtrp st).

Definition set_ta_size (v : Z) (st : State) : State :=
  mkState (F st) (Feq_loc st) (FF st) (PF st) (KK1 st) (KK2 st) (KK3 st)
    (KK4 st) (Density st) (Velocity st) (Temperature st) (TAMask st)
    (x1_min st) (x1_max st) (x2_min st) (x2_max st) v (TB st) (TBL st)
    (TBL_P st) (ExFF st) (ExBD st) (ExCheck st) (ExTBL st) (Excount st)
    (isExtrapolate st) (isFirstExtrp st).

Definition set_TB (v : list Z) (st : State) : State :=
  mkState (F st) (Feq_loc st) (FF st) (PF st) (KK1 st) (KK2 st) (KK3 st)
    (KK4 st) (Density st) (Velocity st) (Temperature st) (TAMask st)
    (x1_min st) (x1_max st) (x2_min st) (x2_max st) (ta_size st) v (TBL st)
    (TBL_P st) (ExFF st) (ExBD st) (ExCheck st) (ExTBL st) (Excount st)
    (isExtrapolate st) (isFirstExtrp st).

Definition set_TBL (v : list Z) (st : State) : State :=
  mkState (F st) (Feq_loc st) (FF st) (PF st) (KK1 st) (KK2 st) (KK3 st)
    (KK4 st) (Density st) (Velocity st) (Temperature st) (TAMask st)
    (x1_min st) (x1_max st) (x2_min st) (x2_max st) (ta_size st) (TB st) v
    (TBL_P st) (ExFF st) (ExBD st) (ExCheck st) (ExTBL st) (Excount st)
    (isExtrapolate st) (isFirstExtrp st).

Definition set_TBL_P (v : list Z) (st : State) : State :=
  mkState (F st) (Feq_loc st) (FF st) (PF st) (KK1 st) (KK2 st) (KK3 st)
    (KK4 st) (Density st) (Velocity st) (Temperature st) (TAMask st)
    (x1_min st) (x1_max st) (x2_min st) (x2_max st) (ta_size st) (TB st)
    (TBL st) v (ExFF st) (ExBD st) (ExCheck st) (ExTBL st) (Excount st)
    (isExtrapolate st) (isFirstExtrp st).

Definition set_ExFF (v : list Z) (st : State) : State :=
  mkState (F st) (Feq_loc st) (FF st) (PF st) (KK1 st) (KK2 st) (KK3 st)
    (KK4 st) (Density st) (Velocity st) (Temperature st) (TAMask st)
    (x1_min st) (x1_max st) (x2_min st) (x2_max st) (ta_size st) (TB st)
    (TBL st) (TBL_P st) v (ExBD st) (ExCheck st) (ExTBL st) (Excount st)
    (isExtrapolate st) (isFirstExtrp st).

Definition set_ExBD (v : list Z) (st : State) : State :=
  mkState (F st) (Feq_loc st) (FF st) (PF st) (KK1 st) (KK2 st) (KK3 st)
    (KK4 st) (Density st) (Velocity st) (Temperature st) (TAMask st)
    (x1_min st) (x1_max st) (x2_min st) (x2_max st) (ta_size st) (TB st)
    (TBL st) (TBL_P st) (ExFF st) v (ExCheck st) (ExTBL st) (Excount st)
    (isExtrapolate st) (isFirstExtrp st).

Definition set_ExCheck (v : list bool) (st : State) : State :=
  mkState (F st) (Feq_loc st) (FF st) (PF st) (KK1 st) (KK2 st) (KK3 st)
    (KK4 st) (Density st) (Velocity st) (Temperature st) (TAMask st)
    (x1_min st) (x1_max st) (x2_min st) (x2_max st) (ta_size st) (TB st)
    (TBL st) (TBL_P st) (ExFF st) (ExBD st) v (ExTBL st) (Excount st)
    (isExtrapolate st) (isFirstExtrp st).

Definition set_ExTBL (v : list R) (st : State) : State :=
  mkState (F st) (Feq_loc st) (FF st) (PF st) (KK1 st) (KK2 st) (KK3 st)
    (KK4 st) (Density st) (Velocity st) (Temperature st) (TAMask st)
    (x1_min st) (x1_max st) (x2_min st) (x2_max st) (ta_size st) (TB st)
    (TBL st) (TBL_P st) (ExFF st) (ExBD st) (ExCheck st) v (Excount st)
    (isExtrapolate st) (isFirstExtrp st).

Definition set_Excount (v : Z) (st : State) : State :=
  mkState (F st) (Feq_loc st) (FF st) (PF st) (KK1 st) (KK2 st) (KK3 st)
    (KK4 st) (Density st) (Velocity st) (Temperature st) (TAMask st)
    (x1_min st) (x1_max st) (x2_min st) (x2_max st) (ta_size st) (TB st)
    (TBL st) (TBL_P st) (ExFF st) (ExBD st) (ExCheck st) (ExTBL st) v
    (isExtrapolate st) (isFirstExtrp st).

Definition set_isExtrapolate (v : bool) (st : State) : State :=
  mkState (F st) (Feq_loc st) (FF st) (PF st) (KK1 st) (KK2 st) (KK3 st)
    (KK4 st) (Density st) (Velocity st) (Temperature st) (TAMask st)
    (x1_min st) (x1_max st) (x2_min st) (x2_max st) (ta_size st) (TB st)
    (TBL st) (TBL_P st) (ExFF st) (ExBD st) (ExCheck st) (ExTBL st)
    (Excount st) v (isFirstExtrp st).

Definition set_isFirstExtrp (v : bool) (st : State) : State :=
  mkState (F st) (Feq_loc st) (FF st) (PF st) (KK1 st) (KK2 st) (KK3 st)
    (KK4 st) (Density st) (Velocity st) (Temperature st) (TAMask st)
    (x1_min st) (x1_max st) (x2_min st) (x2_max st) (ta_size st) (TB st)
    (TBL st) (TBL_P st) (ExFF st) (ExBD st) (ExCheck st) (ExTBL st)
    (Excount st) (isExtrapolate st) v.

(** Write of one array element. *)
Definition upd {A : Type} (a : Z -> A) (k : Z) (v : A) : Z -> A :=
  fun x => if x =? k then v else a x.

(** ** Loops *)

(** The indices [lo, lo+1, ..., hi-1]. *)
Definition zrange (lo hi : Z) : list Z :=
  map (fun n => lo + Z.of_nat n) (seq 0 (Z.to_nat (hi - lo))).

(** [for (i = lo; i < hi; i++) body]. *)
Definition for_loop {S : Type} (lo hi : Z) (body : Z -> S -> S) (s : S) : S :=
  fold_left (fun s i => body i s) (zrange lo hi) s.

(** [for (i = 0; i < v.size(); i++) body(v[i])]. *)
Definition for_each {A S : Type} (v : list A) (body : A -> S -> S) (s : S)
  : S :=
  fold_left (fun s a => body a s) v s.

(** [int(b)] for a [bool]. *)
Definition b2z (b : bool) : Z := if b then 1 else 0.

Section Solver.

Variable p : Params.

Definition M1 : Z := BoxShape_1 p.
Definition W1 : Z := BoxShape_1 p.
Definition O1 : Z := BoxShape_0 p * BoxShape_1 p.

(** ** Potentials ([POTENTIAL_X], [WAVEFUNCTION]) *)

Definition Vx_DW1 (x1 x2 : R) : R :=
  (28 / 1000 * (x1 * x1 * x1) - 2 / 100 * x1)%R.

Definition Vx_DW2 (x1 x2 : R) : R := 0%R.

Definition Vx_DW3 (x1 x2 : R) : R :=
  if Rltb (112556 / 100000) x1 then 0%R
  else (x1 * (2 / 10 - 2981 / 10000 * x1))%R.

Definition POTENTIAL_X (x1 x2 : R) : R :=
  match POT p with
  | KK2DPOT_DW1 => Vx_DW1 x1 x2
  | KK2DPOT_DW2 => Vx_DW2 x1 x2
  | KK2DPOT_DW3 => Vx_DW3 x1 x2
  end.

Definition PI_INV : R := (1 / PI)%R.
Definition HBSQ_INV : R := (1 / (hb p * hb p))%R.
Definition PIHB_INV : R := (1 / (PI * hb p))%R.

Definition Wavefunction_DW1 (x1 x2 : R) : R :=
  (PIHB_INV * exp (- 2 * A_0 p * (x1 - Wave0_0 p) ^ 2)
   * exp (- (1 / 2) * HBSQ_INV * ((x2 - Wave0_1 p) ^ 2 / A_1 p)))%R.

Definition Wavefunction_DW2 (x1 x2 : R) : R :=
  (PIHB_INV * exp (- 2 * A_0 p * (x1 - Wave0_0 p) ^ 2)
   * exp (- (1 / 2) * HBSQ_INV * ((x2 - Wave0_1 p) ^ 2 / A_1 p)))%R.

Definition Wavefunction_DW3 (x1 x2 : R) : R :=
  (PI_INV / hb p * exp (- 2 * A_0 p * (x1 - Wave0_0 p) ^ 2)
   * exp ((- 1 / (2 * hb p * hb p * A_1 p)) * (x2 - Wave0_1 p) ^ 2))%R.

Definition WAVEFUNCTION (x1 x2 : R) : R :=
  match POT p with
  | KK2DPOT_DW1 => Wavefunction_DW1 x1 x2
  | KK2DPOT_DW2 => Wavefunction_DW2 x1 x2
  | KK2DPOT_DW3 => Wavefunction_DW3 x1 x2
  end.

(** ** Constants of [Evolve] *)

Definition k2h0m : R := (kk p / (2 * H_0 p * m p))%R.
Definition k2h1 : R := (kk p / (2 * H_1 p))%R.
Definition kgamma : R := (kk p * gamma p)%R.
Definition TolHd_sq : R := (TolHd p * TolHd p)%R.
Definition TolLd_sq : R := (TolLd p * TolLd p)%R.

(** ** Moments and local Maxwellian *)

(** [sum = 0; for (i2 = lo; i2 < hi; i2++) if (live) sum += term]. *)
Definition row_sum (lo hi : Z) (live : Z -> bool) (term : Z -> R) : R :=
  for_loop lo hi
    (fun i2 acc => if live i2 then (acc + term i2)%R else acc) 0%R.

(** [density * sqrt(1/(2*PI*m*kb*T)) * exp(-pow(p_j - m*u, 2)/(2*m*kb*T))]. *)
Definition maxwellian (density velocity_dft T : R) (i2 : Z) : dval :=
  dmul
    (dmul (Fin density) (dsqrt (ddiv 1 (2 * PI * m p * kb p * T))))
    (dexp (ddiv (- ((Box_2 p + IZR i2 * H_1 p) - m p * velocity_dft) ^ 2)
                (2 * m p * kb p * T))).

(** [density * sqrt(1/(2*PI*m*kb*temp)) * exp(-pow(p_j, 2)/(2*m*kb*temp))]. *)
Definition maxwellian_lin (density : R) (i2 : Z) : dval :=
  dmul
    (dmul (Fin density) (dsqrt (ddiv 1 (2 * PI * m p * kb p * temp p))))
    (dexp (ddiv (- (Box_2 p + IZR i2 * H_1 p) ^ 2)
                (2 * m p * kb p * temp p))).

(** [(feq > 1/(H[0]*H[1]) || !isfinite(feq)) ? 0 : feq]. *)
Definition feq_guard (feq : dval) : R :=
  if dgt feq (ddiv 1 (H_0 p * H_1 p)) || negb (isfinite feq)
  then 0%R else dreal feq.

(** [for (i2 = lo; i2 < hi; i2++) if (live) Feq_loc[i1*W1+i2] = val]. *)
Definition row_feq (lo hi : Z) (live : State -> Z -> Z -> bool) (i1 : Z)
  (val : Z -> R) (st : State) : State :=
  for_loop lo hi
    (fun i2 s =>
       if live s i1 i2
       then set_Feq_loc (upd (Feq_loc s) (i1 * W1 + i2) (val i2)) s
       else s) st.

Definition store_moments (i1 : Z) (density velocity_dft temp_loc : R)
  (st : State) : State :=
  set_Temperature (upd (Temperature st) i1 temp_loc)
    (set_Velocity (upd (Velocity st) i1 velocity_dft)
       (set_Density (upd (Density st) i1 density) st)).

Definition row_density (lo hi : Z) (live : State -> Z -> Z -> bool)
  (i1 : Z) (st : State) : R :=
  row_sum lo hi (live st i1) (fun i2 => (F st (i1 * W1 + i2) * H_1 p)%R).

Definition row_velocity (lo hi : Z) (live : State -> Z -> Z -> bool)
  (i1 : Z) (density : R) (st : State) : R :=
  (row_sum lo hi (live st i1)
     (fun i2 => (Box_2 p + IZR i2 * H_1 p) * F st (i1 * W1 + i2) * H_1 p)
   / (m p * density))%R.

Definition row_temperature (lo hi : Z) (live : State -> Z -> Z -> bool)
  (i1 : Z) (density velocity_dft : R) (st : State) : R :=
  (row_sum lo hi (live st i1)
     (fun i2 => (Box_2 p + IZR i2 * H_1 p - m p * velocity_dft) ^ 2
                * F st (i1 * W1 + i2) * H_1 p)
   / (m p * kb p * density))%R.

(** One iteration of the [i1] loop of "Update the 3 Momentum Moments
    before time integration".  The truncated-grid copies run [i2] over
    [x2_min..x2_max] under [if (TAMask[i1*W1+i2])]; the full-grid copy runs
    [i2] over [0..BoxShape[1]-1] with no test. *)
Definition moments_row (lo hi : Z) (live : State -> Z -> Z -> bool)
  (i1 : Z) (st : State) : State :=
  let density := row_density lo hi live i1 st in
  if Rleb density 0 then
    store_moments i1 0 0 0 (row_feq lo hi live i1 (fun _ => 0%R) st)
  else if isLinearizedCollision p then
    store_moments i1 density 0 (temp p)
      (row_feq lo hi live i1
         (fun i2 => feq_guard (maxwellian_lin density i2)) st)
  else if isIsothermal p then
    let velocity_dft := row_velocity lo hi live i1 density st in
    store_moments i1 density velocity_dft (temp p)
      (row_feq lo hi live i1
         (fun i2 => feq_guard (maxwellian density velocity_dft (temp p) i2))
         st)
  else
    let velocity_dft := row_velocity lo hi live i1 density st in
    let temp_loc := row_temperature lo hi live i1 density velocity_dft st in
    store_moments i1 density velocity_dft temp_loc
      (row_feq lo hi live i1
         (fun i2 => feq_guard (maxwellian density velocity_dft temp_loc i2))
         st).

Definition live_mask (st : State) (i1 i2 : Z) : bool :=
  TAMask st (i1 * W1 + i2).

Definition live_all (st : State) (i1 i2 : Z) : bool := true.

(** Truncated grid: rows [x1_min..x1_max]. *)
Definition moments_feq_trunc (st : State) : State :=
  for_loop (x1_min st) (x1_max st + 1)
    (fun i1 s => moments_row (x2_min s) (x2_max s + 1) live_mask i1 s) st.

(** Full grid: rows [0..BoxShape[0]-1]. *)
Definition moments_feq_full (st : State) : State :=
  for_loop 0 (BoxShape_0 p)
    (fun i1 s => moments_row 0 (BoxShape_1 p) live_all i1 s) st.

(** The moments computed once before the time iteration: the same three
    sums, with no [Feq_loc] written.  The source branches on the collision
    mode outside the [i1] loop. *)
Definition init_moments_row_lin (lo hi : Z)
  (live : State -> Z -> Z -> bool) (i1 : Z) (st : State) : State :=
  let density := row_density lo hi live i1 st in
  if Rleb density 0 then store_moments i1 0 0 0 st
  else store_moments i1 density 0 (temp p) st.

Definition init_moments_row_iso (lo hi : Z)
  (live : State -> Z -> Z -> bool) (i1 : Z) (st : State) : State :=
  let density := row_density lo hi live i1 st in
  if Rleb density 0 then store_moments i1 0 0 0 st
  else
    let velocity_dft := row_velocity lo hi live i1 density st in
    store_moments i1 density velocity_dft (temp p) st.

Definition init_moments_row_fp (lo hi : Z)
  (live : State -> Z -> Z -> bool) (i1 : Z) (st : State) : State :=
  let density := row_density lo hi live i1 st in
  if Rleb density 0 then store_moments i1 0 0 0 st
  else
    let velocity_dft := row_velocity lo hi live i1 density st in
    let temp_loc := row_temperature lo hi live i1 density velocity_dft st in
    store_moments i1 density velocity_dft temp_loc st.

Definition init_moments (st : State) : State :=
  if negb (isFullGrid p) then
    if isLinearizedCollision p then
      for_loop (x1_min st) (x1_max st + 1)
        (fun i1 s =>
           init_moments_row_lin (x2_min s) (x2_max s + 1) live_mask i1 s) st
    else if isIsothermal p then
      for_loop (x1_min st) (x1_max st + 1)
        (fun i1 s =>
           init_moments_row_iso (x2_min s) (x2_max s + 1) live_mask i1 s) st
    else
      for_loop (x1_min st) (x1_max st + 1)
        (fun i1 s =>
           init_moments_row_fp (x2_min s) (x2_max s + 1) live_mask i1 s) st
  else
    if isLinearizedCollision p then
      for_loop 0 (BoxShape_0 p)
        (fun i1 s => init_moments_row_lin 0 (BoxShape_1 p) live_all i1 s) st
    else if isIsothermal p then
      for_loop 0 (BoxShape_0 p)
        (fun i1 s => init_moments_row_iso 0 (BoxShape_1 p) live_all i1 s) st
    else
      for_loop 0 (BoxShape_0 p)
        (fun i1 s => init_moments_row_fp 0 (BoxShape_1 p) live_all i1 s) st.

(** ** Runge-Kutta 4

    The body of the four stage loops.  The source repeats it in the three
    callers (bounding box under [TAMask], the [ExBD] list, the edge-free
    interior); here it is written once for a cell [(i1, i2)]. *)

Definition RK4_1_cell (i1 i2 : Z) (st : State) : State :=
  let xx1 := (Box_0 p + IZR i1 * H_0 p)%R in
  let xx2 := (Box_2 p + IZR i2 * H_1 p)%R in
  let f0 := F st (i1 * W1 + i2) in
  let f1p := F st ((i1 + 1) * W1 + i2) in
  let f1m := F st ((i1 - 1) * W1 + i2) in
  let f2p := F st (i1 * W1 + (i2 + 1)) in
  let f2m := F st (i1 * W1 + (i2 - 1)) in
  let feq := Feq_loc st (i1 * W1 + i2) in
  let st1 :=
    set_KK1
      (upd (KK1 st) (i1 * W1 + i2)
         (- k2h0m * xx2 * (f1p - f1m)
          + k2h1 * POTENTIAL_X xx1 xx2 * (f2p - f2m)
          + kgamma * (feq - f0))%R) st in
  set_FF
    (upd (FF st1) (i1 * W1 + i2)
       (F st1 (i1 * W1 + i2) + KK1 st1 (i1 * W1 + i2) / 6)%R) st1.

Definition RK4_2_cell (i1 i2 : Z) (st : State) : State :=
  let xx1 := (Box_0 p + IZR i1 * H_0 p)%R in
  let xx2 := (Box_2 p + IZR i2 * H_1 p)%R in
  let f0 := F st (i1 * W1 + i2) in
  let f1p := F st ((i1 + 1) * W1 + i2) in
  let f1m := F st ((i1 - 1) * W1 + i2) in
  let f2p := F st (i1 * W1 + (i2 + 1)) in
  let f2m := F st (i1 * W1 + (i2 - 1)) in
  let kk0 := KK1 st (i1 * W1 + i2) in
  let kk1p := KK1 st ((i1 + 1) * W1 + i2) in
  let kk1m := KK1 st ((i1 - 1) * W1 + i2) in
  let kk2p := KK1 st (i1 * W1 + (i2 + 1)) in
  let kk2m := KK1 st (i1 * W1 + (i2 - 1)) in
  let feq := Feq_loc st (i1 * W1 + i2) in
  let st1 :=
    set_KK2
      (upd (KK2 st) (i1 * W1 + i2)
         (- k2h0m * xx2 * (f1p + 1 / 2 * kk1p - f1m - 1 / 2 * kk1m)
          + k2h1 * POTENTIAL_X xx1 xx2
            * (f2p + 1 / 2 * kk2p - f2m - 1 / 2 * kk2m)
          + kgamma * (feq - f0 - 1 / 2 * kk0))%R) st in
  set_FF
    (upd (FF st1) (i1 * W1 + i2)
       (FF st1 (i1 * W1 + i2) + KK2 st1 (i1 * W1 + i2) / 3)%R) st1.

Definition RK4_3_cell (i1 i2 : Z) (st : State) : State :=
  let xx1 := (Box_0 p + IZR i1 * H_0 p)%R in
  let xx2 := (Box_2 p + IZR i2 * H_1 p)%R in
  let f0 := F st (i1 * W1 + i2) in
  let f1p := F st ((i1 + 1) * W1 + i2) in
  let f1m := F st ((i1 - 1) * W1 + i2) in
  let f2p := F st (i1 * W1 + (i2 + 1)) in
  let f2m := F st (i1 * W1 + (i2 - 1)) in
  let kk0 := KK2 st (i1 * W1 + i2) in
  let kk1p := KK2 st ((i1 + 1) * W1 + i2) in
  let kk1m := KK2 st ((i1 - 1) * W1 + i2) in
  let kk2p := KK2 st (i1 * W1 + (i2 + 1)) in
  let kk2m := KK2 st (i1 * W1 + (i2 - 1)) in
  let feq := Feq_loc st (i1 * W1 + i2) in
  let st1 :=
    set_KK3
      (upd (KK3 st) (i1 * W1 + i2)
         (- k2h0m * xx2 * (f1p + 1 / 2 * kk1p - f1m - 1 / 2 * kk1m)
          + k2h1 * POTENTIAL_X xx1 xx2
            * (f2p + 1 / 2 * kk2p - f2m - 1 / 2 * kk2m)
          + kgamma * (feq - f0 - 1 / 2 * kk0))%R) st in
  set_FF
    (upd (FF st1) (i1 * W1 + i2)
       (FF st1 (i1 * W1 + i2) + KK3 st1 (i1 * W1 + i2) / 3)%R) st1.

Definition RK4_4_cell (i1 i2 : Z) (st : State) : State :=
  let xx1 := (Box_0 p + IZR i1 * H_0 p)%R in
  let xx2 := (Box_2 p + IZR i2 * H_1 p)%R in
  let f0 := F st (i1 * W1 + i2) in
  let f1p := F st ((i1 + 1) * W1 + i2) in
  let f1m := F st ((i1 - 1) * W1 + i2) in
  let f2p := F st (i1 * W1 + (i2 + 1)) in
  let f2m := F st (i1 * W1 + (i2 - 1)) in
  let kk0 := KK3 st (i1 * W1 + i2) in
  let kk1p := KK3 st ((i1 + 1) * W1 + i2) in
  let kk1m := KK3 st ((i1 - 1) * W1 + i2) in
  let kk2p := KK3 st (i1 * W1 + (i2 + 1)) in
  let kk2m := KK3 st (i1 * W1 + (i2 - 1)) in
  let feq := Feq_loc st (i1 * W1 + i2) in
  let st1 :=
    set_KK4
      (upd (KK4 st) (i1 * W1 + i2)
         (- k2h0m * xx2 * (f1p + kk1p - f1m - kk1m)
          + k2h1 * POTENTIAL_X xx1 xx2 * (f2p + kk2p - f2m - kk2m)
          + kgamma * (feq - f0 - kk0))%R) st in
  set_FF
    (upd (FF st1) (i1 * W1 + i2)
       (FF st1 (i1 * W1 + i2) + KK4 st1 (i1 * W1 + i2) / 6)%R) st1.

(** A stage loop over the edge-free interior (CASE 3, full grid). *)
Definition stage_full (cell : Z -> Z -> State -> State) (st : State)
  : State :=
  for_loop (EDGE p) (BoxShape_0 p - EDGE p)
    (fun i1 => for_loop (EDGE p) (BoxShape_1 p - EDGE p)
                 (fun i2 => cell i1 i2)) st.

(** A stage loop over the bounding box under [if (TAMask[i1*W1+i2])]
    (CASE 2 and the first pass of CASE 1). *)
Definition stage_box (cell : Z -> Z -> State -> State) (st : State)
  : State :=
  for_loop (x1_min st) (x1_max st + 1)
    (fun i1 s1 =>
       for_loop (x2_min s1) (x2_max s1 + 1)
         (fun i2 s => if TAMask s (i1 * W1 + i2) then cell i1 i2 s else s)
         s1) st.

(** A stage loop over the [ExBD] list (later passes of CASE 1). *)
Definition stage_ExBD (cell : Z -> Z -> State -> State) (st : State)
  : State :=
  for_each (ExBD st)
    (fun e s => cell (Z.quot e M1) (Z.rem e M1) s) st.

Definition RK4 (stage : (Z -> Z -> State -> State) -> State -> State)
  (st : State) : State :=
  stage RK4_4_cell (stage RK4_3_cell (stage RK4_2_cell (stage RK4_1_cell st))).

Definition RK4_full : State -> State := RK4 stage_full.
Definition RK4_box : State -> State := RK4 stage_box.
Definition RK4_ExBD : State -> State := RK4 stage_ExBD.

(** CASE 3 of a time step: full grid. *)
Definition CASE3 (st : State) : State := RK4_full (moments_feq_full st).

(** CASE 2 of a time step: truncated grid, no extrapolation. *)
Definition CASE2 (st : State) : State := RK4_box (moments_feq_trunc st).

(** ** Normalization *)

(** [norm = 0; for ... norm += FF[i1*W1+i2]], over the live cells of the
    bounding box (truncated grid) or over the edge-free interior (full
    grid), applied to the buffer [f]. *)
Definition region_sum (f : Z -> R) (st : State) : R :=
  if negb (isFullGrid p) then
    for_loop (x1_min st) (x1_max st + 1)
      (fun i1 =>
         for_loop (x2_min st) (x2_max st + 1)
           (fun i2 acc =>
              if TAMask st (i1 * W1 + i2)
              then (acc + f (i1 * W1 + i2)%Z)%R else acc)) 0%R
  else
    for_loop (EDGE p) (BoxShape_0 p - EDGE p)
      (fun i1 =>
         for_loop (EDGE p) (BoxShape_1 p - EDGE p)
           (fun i2 acc => (acc + f (i1 * W1 + i2)%Z)%R)) 0%R.

(** [norm *= H[0] * H[1]]: the value logged as "Normalization factor". *)
Definition norm_factor (st : State) : R :=
  (region_sum (FF st) st * (H_0 p * H_1 p))%R.

(** [val = norm * FF[k]; FF[k] = val; F[k] = val; PF[k] = val]. *)
Definition normalize_cell (norm : R) (i1 i2 : Z) (st : State) : State :=
  let val := (norm * FF st (i1 * W1 + i2))%R in
  set_PF (upd (PF st) (i1 * W1 + i2) val)
    (set_F (upd (F st) (i1 * W1 + i2) val)
       (set_FF (upd (FF st) (i1 * W1 + i2) val) st)).

(** The two normalization loops.  The buffers hold reals, so [norm] is the
    real quotient: this is what the code stores where the factor is not
    0, and where no cell is multiplied.  At a factor 0 with a cell to
    multiply the code stores the non-finite doubles of
    [normalized_value] below, which the buffers of the model do not
    hold. *)
Definition normalization (st : State) : State :=
  let norm := (1 / norm_factor st)%R in
  if negb (isFullGrid p) then stage_box (normalize_cell norm) st
  else stage_full (normalize_cell norm) st.



(** ** Truncation and rebuild of the active region *)

(** The squared gradient with the edge rule: a neighbour outside the mask
    is replaced by the centre value and the divisor is the number of live
    neighbours. *)
Definition grad_sq (f : Z -> R) (st : State) (g1 g2 : Z) : R :=
  let nx1 := b2z (TAMask st ((g1 + 1) * W1 + g2))
             + b2z (TAMask st ((g1 - 1) * W1 + g2)) in
  let nx2 := b2z (TAMask st (g1 * W1 + (g2 + 1)))
             + b2z (TAMask st (g1 * W1 + (g2 - 1))) in
  let f1p := if TAMask st ((g1 + 1) * W1 + g2)
             then f ((g1 + 1) * W1 + g2) else f (g1 * W1 + g2) in
  let f1m := if TAMask st ((g1 - 1) * W1 + g2)
             then f ((g1 - 1) * W1 + g2) else f (g1 * W1 + g2) in
  let f2p := if TAMask st (g1 * W1 + (g2 + 1))
             then f (g1 * W1 + (g2 + 1)) else f (g1 * W1 + g2) in
  let f2m := if TAMask st (g1 * W1 + (g2 - 1))
             then f (g1 * W1 + (g2 - 1)) else f (g1 * W1 + g2) in
  ((if nx1 =? 0 then 0 else (Rabs (f1p - f1m) / (IZR nx1 * H_0 p)) ^ 2)
   + (if nx2 =? 0 then 0 else (Rabs (f2p - f2m) / (IZR nx2 * H_1 p)) ^ 2))%R.

(** First pass: a live cell below both thresholds gets [PF = 0]. *)
Definition truncate_cell (i1 i2 : Z) (st : State) : State :=
  if TAMask st (i1 * W1 + i2) then
    if Rltb (PF st (i1 * W1 + i2)) (TolH p) then
      if Rltb (grad_sq (FF st) st i1 i2) TolHd_sq
      then set_PF (upd (PF st) (i1 * W1 + i2) 0%R) st
      else st
    else st
  else st.

(** Second pass: the mask is recomputed from [PF]. *)
Definition remask_cell (i1 i2 : Z) (st : State) : State :=
  if Reqb (PF st (i1 * W1 + i2)) 0 then
    set_F (upd (F st) (i1 * W1 + i2) 0%R)
      (set_TAMask (upd (TAMask st) (i1 * W1 + i2) false) st)
  else
    if negb (TAMask st (i1 * W1 + i2))
    then set_TAMask (upd (TAMask st) (i1 * W1 + i2) true) st
    else st.

(** A loop over the whole bounding box, with no mask test. *)
Definition box_loop (cell : Z -> Z -> State -> State) (st : State) : State :=
  for_loop (x1_min st) (x1_max st + 1)
    (fun i1 s1 =>
       for_loop (x2_min s1) (x2_max s1 + 1) (fun i2 s => cell i1 i2 s) s1)
    st.

(** "Rebuild TA box": bounding box and size of the mask over the
    edge-free interior. *)
Definition grow_box (g1 g2 : Z) (st : State) : State :=
  set_x2_max (if g2 >? x2_max st then g2 else x2_max st)
    (set_x2_min (if g2 <? x2_min st then g2 else x2_min st)
       (set_x1_max (if g1 >? x1_max st then g1 else x1_max st)
          (set_x1_min (if g1 <? x1_min st then g1 else x1_min st) st))).

Definition reset_box (st : State) : State :=
  set_x2_max (- BIG_NUMBER)
    (set_x2_min BIG_NUMBER
       (set_x1_max (- BIG_NUMBER) (set_x1_min BIG_NUMBER st))).

Definition rebuild_box (st : State) : State :=
  stage_full
    (fun i1 i2 s =>
       if TAMask s (i1 * W1 + i2)
       then set_ta_size (ta_size s + 1) (grow_box i1 i2 s) else s)
    (set_ta_size 0 (reset_box st)).

(** The boundary ring: live cells of the box with a non-live 4-neighbour. *)
Definition boundary_ring (st : State) : list Z :=
  for_loop (x1_min st) (x1_max st + 1)
    (fun i1 =>
       for_loop (x2_min st) (x2_max st + 1)
         (fun i2 (tmpVec : list Z) =>
            if TAMask st (i1 * W1 + i2)
               && (negb (TAMask st ((i1 - 1) * W1 + i2))
                   || negb (TAMask st ((i1 + 1) * W1 + i2))
                   || negb (TAMask st (i1 * W1 + (i2 - 1)))
                   || negb (TAMask st (i1 * W1 + (i2 + 1))))
            then tmpVec ++ [i1 * W1 + i2] else tmpVec)) [].

Definition rebuild_TB (st : State) : State :=
  if ta_size st =? 0 then st else set_TB (boundary_ring st) st.

(** "TA expansion": the non-live 4-neighbours of the ring, inside the
    edge-free interior less one cell. *)
Definition expansion_targets (st : State) : list Z :=
  for_each (TB st)
    (fun e (tmpVec : list Z) =>
       let g1 := Z.quot e M1 in
       let g2 := Z.rem e M1 in
       let v1 := if (g1 + 1 <? BoxShape_0 p - EDGE p - 1)
                    && negb (TAMask st ((g1 + 1) * W1 + g2))
                 then tmpVec ++ [(g1 + 1) * W1 + g2] else tmpVec in
       let v2 := if (g1 - 1 >? EDGE p)
                    && negb (TAMask st ((g1 - 1) * W1 + g2))
                 then v1 ++ [(g1 - 1) * W1 + g2] else v1 in
       let v3 := if (g2 + 1 <? BoxShape_1 p - EDGE p - 1)
                    && negb (TAMask st (g1 * W1 + (g2 + 1)))
                 then v2 ++ [g1 * W1 + (g2 + 1)] else v2 in
       if (g2 - 1 >? EDGE p) && negb (TAMask st (g1 * W1 + (g2 - 1)))
       then v3 ++ [g1 * W1 + (g2 - 1)] else v3) [].

(** [TAMask[tmpVec[i]] = 1] and the box grows to hold the cell. *)
Definition absorb (tmpVec : list Z) (st : State) : State :=
  for_each tmpVec
    (fun e s =>
       grow_box (Z.quot e M1) (Z.rem e M1)
         (set_TAMask (upd (TAMask s) e true) s)) st.

Definition count_box (st : State) : State :=
  set_ta_size
    (for_loop (x1_min st) (x1_max st + 1)
       (fun i1 =>
          for_loop (x2_min st) (x2_max st + 1)
            (fun i2 n => if TAMask st (i1 * W1 + i2) then n + 1 else n)) 0)
    st.

(** "Truncation and TA" at the end of a truncated-grid step. *)
Definition truncation (st : State) : State :=
  let s1 := box_loop truncate_cell st in
  let s2 := box_loop remask_cell s1 in
  let s3 := rebuild_box s2 in
  let s4 := rebuild_TB s3 in
  let s5 := absorb (expansion_targets s4) s4 in
  count_box s5.

(** ** Frontier and extrapolation *)

(** "Check if TB of f is higher than TolL": the frontier [TBL] built from
    the boundary ring before the extrapolation loop. *)
Definition frontier_test (st : State) (e : Z) : bool :=
  let g1 := Z.quot e M1 in
  let g2 := Z.rem e M1 in
  let b1 := Rleb (TolL p) (PF st (g1 * W1 + g2)) in
  let b2 := Rleb TolLd_sq (grad_sq (F st) st g1 g2) in
  let b3 := (g1 >? EDGE p) && (g2 >? EDGE p) in
  let b4 := (g1 <? BoxShape_0 p - EDGE p - 1)
            && (g2 <? BoxShape_1 p - EDGE p - 1) in
  (b1 || b2) && b3 && b4.

Definition build_TBL (st : State) : State :=
  let tmpVec :=
    for_each (TB st)
      (fun e (tmpVec : list Z) =>
         if frontier_test st e then tmpVec ++ [e] else tmpVec) [] in
  set_TBL_P tmpVec (set_TBL tmpVec st).

(** "Find extrapolation target": the zero-valued 4-neighbours of the
    frontier cells. *)
Definition extrap_targets (st : State) : list Z :=
  for_each (TBL st)
    (fun e (tmpVec : list Z) =>
       let g1 := Z.quot e M1 in
       let g2 := Z.rem e M1 in
       let v1 := if (g1 - 1 >? EDGE p)
                    && Reqb (F st ((g1 - 1) * W1 + g2)) 0
                 then tmpVec ++ [(g1 - 1) * W1 + g2] else tmpVec in
       let v2 := if (g1 + 1 <? BoxShape_0 p - EDGE p - 1)
                    && Reqb (F st ((g1 + 1) * W1 + g2)) 0
                 then v1 ++ [(g1 + 1) * W1 + g2] else v1 in
       let v3 := if (g2 - 1 >? EDGE p)
                    && Reqb (F st (g1 * W1 + (g2 - 1))) 0
                 then v2 ++ [g1 * W1 + (g2 - 1)] else v2 in
       if (g2 + 1 <? BoxShape_1 p - EDGE p - 1)
          && Reqb (F st (g1 * W1 + (g2 + 1))) 0
       then v3 ++ [g1 * W1 + (g2 + 1)] else v3) [].

(** The local variables of the extrapolation of one target. *)
Record ExAcc : Type := mkExAcc {
  ex_sum : R;
  ex_count : Z;
  ex_isEmpty : bool;
  val_min_abs : R;
  val_min : R;
  min_dir : Z
}.

Definition ExAcc_init : ExAcc :=
  mkExAcc 0 0 true (IZR BIG_NUMBER) (IZR BIG_NUMBER) (-1).

(** [exp(2.0 * std::log(f1) - std::log(f2))].  On reals this is exactly
    [f1 * f1 / f2] for positive operands; the code holds its rounding.
    The difference matters only where a comparison is decided by it: at
    [f1 = f2] the exact candidate equals [f1], and the strict test
    [val_min_abs < |sum / count|] of the fallback depends on the last bits
    of [exp] and [log], which the model does not describe. *)
Definition extrap_val (f1 f2 : R) : dval :=
  dexp (dsub (dmul (Fin 2) (dlog f1)) (dlog f2)).

(** One of the four direction blocks: [f1] is the nearest cell along the
    direction, [f2] the second one, [dir] is 0 for x and 1 for p. *)
Definition extrap_dir (f1 f2 : R) (dir : Z) (a : ExAcc) : ExAcc :=
  if negb (Reqb f1 0) then
    let a1 :=
      if Rltb (Rabs f1) (val_min_abs a) && negb (Reqb f2 0)
      then mkExAcc (ex_sum a) (ex_count a) (ex_isEmpty a) (Rabs f1) f1 dir
      else a in
    if negb (Reqb f2 0) then
      let val := extrap_val f1 f2 in
      if negb (isnan val || isnan (dneg val))
         && negb (isinf val || isinf (dneg val))
      then mkExAcc (ex_sum a1 + dreal val) (ex_count a1 + 1) false
             (val_min_abs a1) (val_min a1) (min_dir a1)
      else a1
    else a1
  else a.

(** The accumulators after the four blocks, in the order of the source:
    [-x], [+x], [-p], [+p]. *)
Definition extrap_acc (f : Z -> R) (g1 g2 : Z) : ExAcc :=
  extrap_dir (f (g1 * W1 + (g2 + 1))) (f (g1 * W1 + (g2 + 2))) 1
    (extrap_dir (f (g1 * W1 + (g2 - 1))) (f (g1 * W1 + (g2 - 2))) 1
       (extrap_dir (f ((g1 + 1) * W1 + g2)) (f ((g1 + 2) * W1 + g2)) 0
          (extrap_dir (f ((g1 - 1) * W1 + g2)) (f ((g1 - 2) * W1 + g2)) 0
             ExAcc_init))).

(** [H[d]] for the two-element vector [H]; any other index is outside
    the vector. *)
Definition H_at (d : Z) : option R :=
  if d =? 0 then Some (H_0 p) else if d =? 1 then Some (H_1 p) else None.

(** What the extrapolation leaves in [Check[i]] and [ExTBL[i]]:
    [ExUnassigned] is [Check[i] = false]; [ExOutOfRange] is a read of [H]
    outside the vector. *)
Inductive ExResult : Type :=
| ExUnassigned
| ExAssigned (v : R)
| ExOutOfRange.

Definition extrap_result (a : ExAcc) : ExResult :=
  if ex_isEmpty a then ExUnassigned
  else if Rltb (val_min_abs a) (Rabs (ex_sum a / IZR (ex_count a))) then
    match H_at (min_dir a) with
    | Some h => ExAssigned (val_min a * exp (- ExReduce p * h))
    | None => ExOutOfRange
    end
  else ExAssigned (ex_sum a / IZR (ex_count a)).

Definition extrapolate_cell (st : State) (e : Z) : ExResult :=
  extrap_result (extrap_acc (F st) (Z.quot e M1) (Z.rem e M1)).

(** The loop filling [Check] and [ExTBL]; [None] when some target reads
    [H] outside the vector. *)
Fixpoint extrapolate_list (st : State) (l : list Z)
  : option (list bool * list R) :=
  match l with
  | [] => Some ([], [])
  | e :: l' =>
      match extrapolate_cell st e, extrapolate_list st l' with
      | ExOutOfRange, _ => None
      | _, None => None
      | ExUnassigned, Some (c, v) => Some (false :: c, 0%R :: v)
      | ExAssigned x, Some (c, v) => Some (true :: c, x :: v)
      end
  end.

(** [if (Check[i]) F[ExFF[i]] = ExTBL[i]]. *)
Definition commit_extrapolation (st : State) : State :=
  for_each (combine (ExFF st) (combine (ExCheck st) (ExTBL st)))
    (fun ecv s =>
       if fst (snd ecv) then set_F (upd (F s) (fst ecv) (snd (snd ecv))) s
       else s) st.

Definition count_checked (st : State) : Z :=
  for_each (combine (ExFF st) (ExCheck st))
    (fun ec n => if snd ec then n + 1 else n) 0.

(** The block under the first [if (ExFF.size() > 0)] of a pass. *)
Definition extrapolate_block (st : State) : option State :=
  let s1 :=
    set_ExFF
      (unique (sort (set_difference (sort (ExFF st)) (sort (TBL st)))))
      (set_TBL (sort (TBL st)) st) in
  match extrapolate_list s1 (ExFF s1) with
  | None => None
  | Some (chk, vals) =>
      let s2 := commit_extrapolation (set_ExTBL vals (set_ExCheck chk s1)) in
      if count_checked s2 =? 0
      then Some (set_ExCheck [] (set_ExTBL [] (set_ExFF [] s2)))
      else Some s2
  end.

(** "Check Extending nonzero Area" of the first pass. *)
Definition expand_first (st : State) : list Z :=
  for_each (combine (ExFF st) (ExCheck st))
    (fun ec (tmpVec : list Z) =>
       if snd ec then
         let g1 := Z.quot (fst ec) M1 in
         let g2 := Z.rem (fst ec) M1 in
         let v0 := tmpVec ++ [g1 * W1 + g2] in
         let v1 := if (g1 + 1 <? BoxShape_0 p - EDGE p - 1)
                      && negb (TAMask st ((g1 + 1) * W1 + g2))
                   then v0 ++ [(g1 + 1) * W1 + g2] else v0 in
         let v2 := if (g1 - 1 >? EDGE p)
                      && negb (TAMask st ((g1 - 1) * W1 + g2))
                   then v1 ++ [(g1 - 1) * W1 + g2] else v1 in
         let v3 := if (g2 + 1 <? BoxShape_1 p - EDGE p - 1)
                      && negb (TAMask st (g1 * W1 + (g2 + 1)))
                   then v2 ++ [g1 * W1 + (g2 + 1)] else v2 in
         if (g2 - 1 >? EDGE p) && negb (TAMask st (g1 * W1 + (g2 - 1)))
         then v3 ++ [g1 * W1 + (g2 - 1)] else v3
       else tmpVec) [].

(** The same for a later pass: the target itself is pushed only when it
    is not live yet. *)
Definition expand_later (st : State) : list Z :=
  for_each (combine (ExFF st) (ExCheck st))
    (fun ec (tmpVec : list Z) =>
       if snd ec then
         let g1 := Z.quot (fst ec) M1 in
         let g2 := Z.rem (fst ec) M1 in
         let v0 := if negb (TAMask st (g1 * W1 + g2))
                   then tmpVec ++ [g1 * W1 + g2] else tmpVec in
         let v1 := if (g1 + 1 <? BoxShape_0 p - EDGE p - 1)
                      && negb (TAMask st ((g1 + 1) * W1 + g2))
                   then v0 ++ [(g1 + 1) * W1 + g2] else v0 in
         let v2 := if (g1 - 1 >? EDGE p)
                      && negb (TAMask st ((g1 - 1) * W1 + g2))
                   then v1 ++ [(g1 - 1) * W1 + g2] else v1 in
         let v3 := if (g2 + 1 <? BoxShape_1 p - EDGE p - 1)
                      && negb (TAMask st (g1 * W1 + (g2 + 1)))
                   then v2 ++ [g1 * W1 + (g2 + 1)] else v2 in
         if (g2 - 1 >? EDGE p) && negb (TAMask st (g1 * W1 + (g2 - 1)))
         then v3 ++ [g1 * W1 + (g2 - 1)] else v3
       else tmpVec) [].

(** The neighbour offsets up to Manhattan distance 4. *)
Definition neighlist : list (Z * Z) :=
  for_loop 1 5
    (fun d =>
       for_loop (- d) (d + 1)
         (fun n1 (l : list (Z * Z)) =>
            let n2 := d - Z.abs n1 in
            if negb (n2 =? 0) then l ++ [(n1, n2); (n1, - n2)]
            else l ++ [(n1, 0)])) [].

(** The working set of a later pass. *)
Definition build_ExBD (st : State) : list Z :=
  unique (sort
    (for_each (combine (ExFF st) (ExCheck st))
       (fun ec (bd : list Z) =>
          if snd ec then
            let g1 := Z.quot (fst ec) M1 in
            let g2 := Z.rem (fst ec) M1 in
            for_each neighlist
              (fun n (bd : list Z) =>
                 if TAMask st ((g1 + fst n) * W1 + (g2 + snd n))
                 then bd ++ [(g1 + fst n) * W1 + (g2 + snd n)] else bd)
              (bd ++ [fst ec])
          else bd) [])).

(** "Update the local Maxwellian before time integration" of a later
    pass, from the stored row moments. *)
Definition feq_ExBD (st : State) : State :=
  for_each (ExBD st)
    (fun e s =>
       let g1 := Z.quot e M1 in
       let g2 := Z.rem e M1 in
       let density := Density s g1 in
       if Rltb 0 density then
         let velocity_dft := Velocity s g1 in
         let temp_loc := Temperature s g1 in
         set_Feq_loc
           (upd (Feq_loc s) (g1 * W1 + g2)
              (feq_guard (maxwellian density velocity_dft temp_loc g2))) s
       else set_Feq_loc (upd (Feq_loc s) (g1 * W1 + g2) 0%R) s) st.

Definition zero_Density (st : State) : State :=
  for_loop 0 (BoxShape_0 p)
    (fun i1 s => set_Density (upd (Density s) i1 0%R) s) st.

(** The branch [if (isFirstExtrp)]. *)
Definition first_pass_body (st : State) : State :=
  let s1 := absorb (expand_first st) st in
  let s2 := zero_Density s1 in
  let s3 := moments_feq_trunc s2 in
  set_isFirstExtrp false (RK4_box s3).

(** The last branch: a later pass with targets. *)
Definition later_pass_body (st : State) : State :=
  let s2 :=
    if (0 <? Z.of_nat (length (ExFF st))) then
      let s1 := absorb (expand_later st) st in
      set_ExBD (build_ExBD s1) s1
    else st in
  RK4_ExBD (feq_ExBD s2).

(** The test of "Check Multiple Expanding" on the tentative field. *)
Definition refrontier_test (st : State) (e : Z) : bool :=
  let g1 := Z.quot e M1 in
  let g2 := Z.rem e M1 in
  let f0 := FF st (g1 * W1 + g2) in
  let b1 := Rleb (TolH p) f0 in
  let b2 := Rleb TolHd_sq (grad_sq (FF st) st g1 g2) in
  let b3 := (g2 >? EDGE p) && (g2 >? EDGE p) in
  let b4 := (g1 <? BoxShape_0 p - EDGE p - 1)
            && (g2 <? BoxShape_1 p - EDGE p - 1) in
  (b1 || b2) && b3 && b4.

(** The block under the last [if (ExFF.size() > 0)] of a pass. *)
Definition rebuild_frontier (st : State) : State :=
  let tmpVec :=
    for_each (combine (ExFF st) (ExCheck st))
      (fun ec (tmpVec : list Z) =>
         if snd ec then
           if refrontier_test st (fst ec) then tmpVec ++ [fst ec]
           else tmpVec
         else tmpVec) [] in
  let tbl := set_difference (sort tmpVec) (sort (TBL_P st)) in
  let tbl_p := unique (sort (sort (TBL_P st) ++ tbl)) in
  let s1 := set_Excount (Excount st + 1) (set_TBL_P tbl_p (set_TBL tbl st)) in
  if Excount s1 =? ExLimit p then set_TBL [] s1 else s1.

(** One pass of the loop
    [while (TBL.size() != 0 && !isFullGrid && Excount < ExLimit)]. *)
Definition ext_pass (st : State) : option State :=
  let s0 := set_TBL (unique (sort (TBL st))) (set_isExtrapolate true st) in
  let s1 := set_ExFF (extrap_targets s0) s0 in
  match (if 0 <? Z.of_nat (length (ExFF s1)) then extrapolate_block s1
         else Some s1) with
  | None => None
  | Some s2 =>
      let s3 :=
        if isFirstExtrp s2 then first_pass_body s2
        else if Z.of_nat (length (ExFF s2)) =? 0 then set_TBL [] s2
        else later_pass_body s2 in
      Some (if 0 <? Z.of_nat (length (ExFF s3)) then rebuild_frontier s3
            else s3)
  end.

Definition loop_cond (st : State) : bool :=
  negb (Z.of_nat (length (TBL st)) =? 0)
  && negb (isFullGrid p)
  && (Excount st <? ExLimit p).

(** How a run of the loop ends: normally, after [passes] passes; by a
    read outside [H]; or with the fuel of the model used up. *)
Inductive LoopResult : Type :=
| Finished (st : State) (passes : nat)
| OutOfRange
| OutOfFuel.

Fixpoint ext_loop (fuel : nat) (passes : nat) (st : State) : LoopResult :=
  if loop_cond st then
    match fuel with
    | O => OutOfFuel
    | S fuel' =>
        match ext_pass st with
        | None => OutOfRange
        | Some st' => ext_loop fuel' (S passes) st'
        end
    end
  else Finished st passes.

(** ** One time step *)

Inductive StepResult : Type :=
| StepDone (st : State)
| StepOutOfRange
| StepOutOfFuel.

(** The RK4 update outside the extrapolation loop: CASE 2 or CASE 3,
    skipped when the loop has run. *)
Definition update_without_extrapolation (st : State) : State :=
  if negb (isExtrapolate st) && negb (isFullGrid p) then CASE2 st
  else if negb (isExtrapolate st) && isFullGrid p then CASE3 st
  else st.

(** The phases of a step that follow the extrapolation loop. *)
Definition finish_step (st : State) : State :=
  let s1 := normalization (update_without_extrapolation st) in
  if negb (isFullGrid p) then truncation s1 else s1.

(** The phases of a step that precede the extrapolation loop. *)
Definition begin_step (st : State) : State :=
  let s0 := set_Excount 0 st in
  let s1 := if negb (isFullGrid p) then build_TBL s0 else s0 in
  set_isFirstExtrp true (set_isExtrapolate false s1).

(** The body of the time iteration (file output and the observables
    "Trans" and "Corr" are left out: they write no buffer of the step). *)
Definition step (fuel : nat) (st : State) : StepResult :=
  match ext_loop fuel O (begin_step st) with
  | Finished s _ => StepDone (finish_step s)
  | OutOfRange => StepOutOfRange
  | OutOfFuel => StepOutOfFuel
  end.

(** ** Initialization *)

Definition st_zero : State :=
  mkState (fun _ => 0%R) (fun _ => 0%R) (fun _ => 0%R) (fun _ => 0%R)
    (fun _ => 0%R) (fun _ => 0%R) (fun _ => 0%R) (fun _ => 0%R)
    (fun _ => 0%R) (fun _ => 0%R) (fun _ => 0%R) (fun _ => false)
    0 0 0 0 0 [] [] [] [] [] [] [] 0 false true.

Definition init_wavefunction (st : State) : State :=
  stage_full
    (fun i1 i2 s =>
       set_F
         (upd (F s) (i1 * W1 + i2)
            (WAVEFUNCTION (Box_0 p + IZR i1 * H_0 p)
                          (Box_2 p + IZR i2 * H_1 p))) s) st.

Definition init_norm (st : State) : R :=
  (for_loop (EDGE p) (BoxShape_0 p - EDGE p)
     (fun i1 =>
        for_loop (EDGE p) (BoxShape_1 p - EDGE p)
          (fun i2 acc => (acc + F st (i1 * W1 + i2))%R)) 0%R
   * (H_0 p * H_1 p))%R.

Definition init_normalize (st : State) : State :=
  let norm := (1 / init_norm st)%R in
  stage_full
    (fun i1 i2 s =>
       let s1 :=
         set_F (upd (F s) (i1 * W1 + i2) (norm * F s (i1 * W1 + i2))%R) s in
       set_PF (upd (PF s1) (i1 * W1 + i2) (F s1 (i1 * W1 + i2))) s1) st.

(** "Initial truncation": the first loop. *)
Definition init_truncate_cell (i1 i2 : Z) (st : State) : State :=
  let nx1 := 2 in
  let nx2 := 2 in
  let f1p := F st ((i1 + 1) * W1 + i2) in
  let f1m := F st ((i1 - 1) * W1 + i2) in
  let f2p := F st (i1 * W1 + (i2 + 1)) in
  let f2m := F st (i1 * W1 + (i2 - 1)) in
  let b1 := Rltb (F st (i1 * W1 + i2)) (TolH p) in
  let b2 :=
    Rltb
      ((if nx1 =? 0 then 0 else (Rabs (f1p - f1m) / (IZR nx1 * H_0 p)) ^ 2)
       + (if nx2 =? 0 then 0
          else (Rabs (f2p - f2m) / (IZR nx2 * H_1 p)) ^ 2))%R
      TolHd_sq in
  if b1 && b2 then set_PF (upd (PF st) (i1 * W1 + i2) 0%R) st
  else set_ta_size (ta_size st + 1)
         (set_TAMask (upd (TAMask st) (i1 * W1 + i2) true) st).

(** "TA box": the box of the mask; [F] is cleared outside the mask. *)
Definition init_box_cell (i1 i2 : Z) (st : State) : State :=
  if TAMask st (i1 * W1 + i2) then grow_box i1 i2 st
  else set_F (upd (F st) (i1 * W1 + i2) 0%R) st.

Definition absorb_init (tmpVec : list Z) (st : State) : State :=
  for_each tmpVec
    (fun e s =>
       let g1 := Z.quot e M1 in
       let g2 := Z.rem e M1 in
       grow_box g1 g2
         (if negb (TAMask s (g1 * W1 + g2))
          then set_TAMask (upd (TAMask s) (g1 * W1 + g2) true) s
          else s)) st.

Definition initial_truncation (st : State) : State :=
  let s1 := stage_full init_truncate_cell (set_ta_size 0 (reset_box st)) in
  if ta_size s1 =? 0 then s1
  else
    let s2 := stage_full init_box_cell s1 in
    let s3 := set_TB (boundary_ring s2) s2 in
    let tmpVec := unique (sort (expansion_targets s3)) in
    count_box (absorb_init tmpVec s3).

(** The state at the start of the time iteration. *)
Definition Evolve_init : State :=
  let s1 := init_normalize (init_wavefunction st_zero) in
  let s2 := if negb (isFullGrid p) then initial_truncation s1 else s1 in
  init_moments s2.

(** [n] iterations of the time loop. *)
Fixpoint run (fuel : nat) (n : nat) (st : State) : StepResult :=
  match n with
  | O => StepDone st
  | S n' =>
      match step fuel st with
      | StepDone st' => run fuel n' st'
      | r => r
      end
  end.

(** ** Index helpers and potentials *)

(** [IdxToGrid]: the two grid coordinates of a flat index. *)
Definition IdxToGrid (idx : Z) : Z * Z := (Z.quot idx M1, Z.rem idx M1).

(** [GridToIdx]: the flat index of a cell. *)
Definition GridToIdx (x1 x2 : Z) : Z := x1 * M1 + x2.

Definition Potential_DW1 (x1 x2 : R) : R :=
  (7 / 1000 * (x1 * x1 * x1 * x1) - 1 / 100 * (x1 * x1))%R.

Definition Potential_DW2 (x1 x2 : R) : R := 0%R.

Definition Potential_DW3 (x1 x2 : R) : R :=
  if Rltb (112556 / 100000) x1 then (- (15 / 1000))%R
  else (x1 * x1 * (1 / 10 - 9936666666667 / 100000000000000 * x1))%R.

(** The macro [POTENTIAL]. *)
Definition POTENTIAL (x1 x2 : R) : R :=
  match POT p with
  | KK2DPOT_DW1 => Potential_DW1 x1 x2
  | KK2DPOT_DW2 => Potential_DW2 x1 x2
  | KK2DPOT_DW3 => Potential_DW3 x1 x2
  end.

(** ** Observables *)

(** The body of [if (isTrans)] in the report block: [pftrans], the sum of
    [PF] over the rows from [idx_x0] on, over the columns of the bounding
    box (truncated grid) or of the edge-free interior (full grid), times
    [H[0] * H[1]].  [idx_x0] is the row index that [init] computes from
    [trans_x0]. *)
Definition transmittance (idx_x0 : Z) (st : State) : R :=
  ((if negb (isFullGrid p) then
      for_loop idx_x0 (x1_max st + 1)
        (fun i1 =>
           for_loop (x2_min st) (x2_max st + 1)
             (fun i2 pftrans => (pftrans + PF st (i1 * W1 + i2)%Z)%R)) 0%R
    else
      for_loop idx_x0 (BoxShape_0 p - EDGE p)
        (fun i1 =>
           for_loop (EDGE p) (BoxShape_1 p - EDGE p)
             (fun i2 pftrans => (pftrans + PF st (i1 * W1 + i2)%Z)%R)) 0%R)
   * (H_0 p * H_1 p))%R.

(** ** Cell lists of the nested loops *)

(** The cells visited by [for i1 in lo1..hi1-1, for i2 in lo2..hi2-1], in
    visiting order. *)
Definition cells (lo1 hi1 lo2 hi2 : Z) : list (Z * Z) :=
  flat_map (fun i1 => map (pair i1) (zrange lo2 hi2)) (zrange lo1 hi1).

Definition idx (c : Z * Z) : Z := fst c * W1 + snd c.

(** The Klein-Kramers stage operator of the specification, applied to a
    field [g] with the equilibrium field [feq], at cell [(i, j)]. *)
Definition stage_op (g feq : Z -> R) (i j : Z) : R :=
  (- (kk p / (2 * H_0 p * m p)) * (Box_2 p + IZR j * H_1 p)
     * (g ((i + 1) * W1 + j)%Z - g ((i - 1) * W1 + j)%Z)
   + (kk p / (2 * H_1 p))
     * POTENTIAL_X (Box_0 p + IZR i * H_0 p) (Box_2 p + IZR j * H_1 p)
     * (g (i * W1 + (j + 1))%Z - g (i * W1 + (j - 1))%Z)
   + kk p * gamma p * (feq (i * W1 + j)%Z - g (i * W1 + j)%Z))%R.

(** ** The frontier stays inside the grid *)

(** A flat index whose cell lies in the interior, one cell away from the
    edge halo. *)
Definition interior (e : Z) : Prop :=
  Z.quot e M1 > EDGE p /\ Z.rem e M1 > EDGE p
  /\ Z.quot e M1 < BoxShape_0 p - EDGE p - 1
  /\ Z.rem e M1 < BoxShape_1 p - EDGE p - 1.

Definition in_grid (k : Z) : Prop := 0 <= k < O1.

(** The eight cells read by the extrapolation of the target [e]. *)
Definition reads_in_grid (e : Z) : Prop :=
  let g1 := Z.quot e M1 in
  let g2 := Z.rem e M1 in
  in_grid ((g1 - 1) * W1 + g2) /\ in_grid ((g1 - 2) * W1 + g2)
  /\ in_grid ((g1 + 1) * W1 + g2) /\ in_grid ((g1 + 2) * W1 + g2)
  /\ in_grid (g1 * W1 + (g2 - 1)) /\ in_grid (g1 * W1 + (g2 - 2))
  /\ in_grid (g1 * W1 + (g2 + 1)) /\ in_grid (g1 * W1 + (g2 + 2)).

(** The state after [n] passes of the extrapolation loop. *)
Fixpoint passes (n : nat) (st : State) : option State :=
  match n with
  | O => Some st
  | S n' =>
      match passes n' st with
      | Some s => ext_pass s
      | None => None
      end
  end.

(** The state from which a pass computes its targets: [TBL] sorted and
    without duplicates. *)
Definition pass_start (st : State) : State :=
  set_TBL (unique (sort (TBL st))) (set_isExtrapolate true st).

(** ** Termination measure of the extrapolation loop *)

(** A bound on the passes still to run: the extrapolating passes left
    before [Excount] reaches [ExLimit], and one for a first pass that
    finds no target. *)
Definition remaining_passes (st : State) : nat :=
  if loop_cond st
  then (Z.to_nat (ExLimit p - Excount st)
        + (if isFirstExtrp st then 1 else 0))%nat
  else O.

(** ** Consistency of the mask and the distribution *)

(** [F] vanishes on every cell that is not live. *)
Definition nonlive_zero (st : State) : Prop :=
  forall k, TAMask st k = false -> F st k = 0%R.

(** The targets of the current pass that the extrapolation assigned. *)
Definition checked (st : State) (k : Z) : Prop :=
  In (k, true) (combine (ExFF st) (ExCheck st)).

(** No cell is live: the boundary ring and the bounding box are empty. *)
Definition idle (st : State) : Prop :=
  TB st = [] /\ x1_max st < x1_min st /\ (forall k, TAMask st k = false).

End Solver.

(** ** Views, regions and values used to state the properties *)

Section Views.

Variable p : Params.

Definition view1 (st : State) :=
  (F st, Feq_loc st, KK2 st, KK3 st, KK4 st).

Definition view2 (st : State) :=
  (F st, Feq_loc st, KK1 st, KK3 st, KK4 st).

Definition view3 (st : State) :=
  (F st, Feq_loc st, KK1 st, KK2 st, KK4 st).

Definition view4 (st : State) :=
  (F st, Feq_loc st, KK1 st, KK2 st, KK3 st).

(** The moment pass writes [Feq_loc], [Density], [Velocity] and
    [Temperature] only. *)
Definition fields_kept (st st' : State) : Prop :=
  F st' = F st /\ FF st' = FF st /\ PF st' = PF st
  /\ KK1 st' = KK1 st /\ KK2 st' = KK2 st
  /\ KK3 st' = KK3 st /\ KK4 st' = KK4 st
  /\ TAMask st' = TAMask st
  /\ x1_min st' = x1_min st /\ x1_max st' = x1_max st
  /\ x2_min st' = x2_min st /\ x2_max st' = x2_max st.

Definition guarded (cell : Z -> Z -> State -> State) (i1 i2 : Z)
  (s : State) : State :=
  if TAMask s (i1 * W1 p + i2) then cell i1 i2 s else s.

(** The sum of a buffer over the live cells of a cell list. *)
Definition sum_cells (live : Z -> bool) (f : Z -> R) (L : list (Z * Z))
  (acc : R) : R :=
  fold_left
    (fun acc c => if live (idx p c) then (acc + f (idx p c))%R else acc)
    L acc.

(** The cells a step updates: the live cells of the bounding box on the
    truncated grid, the edge-free interior on the full grid. *)
Definition update_region (st : State) (i1 i2 : Z) : Prop :=
  if isFullGrid p
  then EDGE p <= i1 < BoxShape_0 p - EDGE p
       /\ EDGE p <= i2 < BoxShape_1 p - EDGE p
  else x1_min st <= i1 <= x1_max st /\ x2_min st <= i2 <= x2_max st
       /\ TAMask st (i1 * W1 p + i2) = true.

(** The columns of the region lie inside a row of the flat buffers. *)
Definition region_in_row (st : State) : Prop :=
  if isFullGrid p then 0 <= EDGE p
  else 0 <= x2_min st /\ x2_max st < W1 p.

Definition view_mask (st : State) :=
  (TAMask st, x1_min st, x1_max st, x2_min st, x2_max st).

Definition Rsum (l : list R) : R := fold_right Rplus 0%R l.

(** The live columns of row [i]: the columns of the bounding box whose
    cell is in the mask. *)
Definition live_cols (st : State) (i : Z) : list Z :=
  filter (fun j => TAMask st (i * W1 p + j))
    (zrange (x2_min st) (x2_max st + 1)).

Definition view_rows (st : State) :=
  (F st, TAMask st, x2_min st, x2_max st).

Definition moments_at (st : State) (i : Z) : R * R * R :=
  (Density st i, Velocity st i, Temperature st i).

(** The three moments of row [i], as the specification writes them. *)
Definition rho_spec (st : State) (i : Z) : R :=
  (H_1 p * Rsum (map (fun j => F st (i * W1 p + j)) (live_cols st i)))%R.

Definition u_spec (st : State) (i : Z) : R :=
  (H_1 p / (m p * rho_spec st i)
   * Rsum (map (fun j => (Box_2 p + IZR j * H_1 p) * F st (i * W1 p + j))%R
             (live_cols st i)))%R.

Definition T_spec (st : State) (i : Z) : R :=
  (H_1 p / (m p * kb p * rho_spec st i)
   * Rsum (map (fun j => (Box_2 p + IZR j * H_1 p - m p * u_spec st i) ^ 2
                         * F st (i * W1 p + j))%R
             (live_cols st i)))%R.

(** What the guard leaves in [Feq_loc] for a computed value [feq]: 0 when
    [feq] exceeds [1/(H[0]*H[1])] or is not finite, [feq] itself
    otherwise. *)
Definition sanitised (feq : dval) (v : R) : Prop :=
  (dgt feq (ddiv 1 (H_0 p * H_1 p)) = true \/ isfinite feq = false ->
   v = 0%R)
  /\ (dgt feq (ddiv 1 (H_0 p * H_1 p)) = false -> isfinite feq = true ->
      Fin v = feq).

(** The three places that build [Feq_loc]: the moment pass over the
    bounding box (CASE 2 and the first pass of the extrapolation loop),
    the moment pass of the full grid (CASE 3) and the update over [ExBD]
    (later passes of the extrapolation loop). *)
Inductive FeqPath : Type := FeqBox | FeqFull | FeqExBD.

Definition feq_pass (path : FeqPath) (st : State) : State :=
  match path with
  | FeqBox => moments_feq_trunc p st
  | FeqFull => moments_feq_full p st
  | FeqExBD => feq_ExBD p st
  end.

(** The cells whose [Feq_loc] a pass computes from the moments. *)
Definition feq_cell (path : FeqPath) (st : State) (i1 i2 : Z) : Prop :=
  match path with
  | FeqBox =>
      0 <= x2_min st /\ x2_max st < W1 p
      /\ x1_min st <= i1 <= x1_max st /\ x2_min st <= i2 <= x2_max st
      /\ TAMask st (i1 * W1 p + i2) = true
  | FeqFull => 0 <= i1 < BoxShape_0 p /\ 0 <= i2 < BoxShape_1 p
  | FeqExBD =>
      exists e, In e (ExBD st)
                /\ i1 = Z.quot e (M1 p) /\ i2 = Z.rem e (M1 p)
  end.

Section RowFeqDefs.

(** The columns [lo..hi-1] and the liveness test of one caller. *)
Variable lo hi : State -> Z.
Variable live : State -> Z -> Z -> bool.

Definition view_feq (st : State) := (F st, TAMask st, lo st, hi st).

Definition row_cell (st : State) (i : Z) (k : Z) : Prop :=
  exists j, lo st <= j < hi st /\ live st i j = true /\ k = i * W1 p + j.

(** The moments and the equilibrium value that one iteration of the row
    loop computes from the state. *)
Definition row_moments (st : State) (i : Z) : R * R * R :=
  let density := row_density p (lo st) (hi st) live i st in
  if Rleb density 0 then (0%R, 0%R, 0%R)
  else if isLinearizedCollision p then (density, 0%R, temp p)
  else if isIsothermal p then
    (density, row_velocity p (lo st) (hi st) live i density st, temp p)
  else
    let u := row_velocity p (lo st) (hi st) live i density st in
    (density, u, row_temperature p (lo st) (hi st) live i density u st).

Definition row_feq_stored (st : State) (i j : Z) : R :=
  if Rleb (row_density p (lo st) (hi st) live i st) 0 then 0%R
  else feq_guard p
         (maxwellian p (fst (fst (row_moments st i)))
            (snd (fst (row_moments st i))) (snd (row_moments st i)) j).

End RowFeqDefs.

(** The index vectors and flags of the extrapolation loop. *)
Definition work (st : State) :=
  (TB st, TBL st, TBL_P st, ExFF st, ExCheck st, ExTBL st, Excount st,
   isExtrapolate st, isFirstExtrp st).

(** The distribution and the mask. *)
Definition fm (st : State) := (F st, TAMask st).

(** The targets pushed for one frontier cell. *)
Definition targets_of (st : State) (e : Z) : list Z :=
  let g1 := Z.quot e (M1 p) in
  let g2 := Z.rem e (M1 p) in
  (if (g1 - 1 >? EDGE p) && Reqb (F st ((g1 - 1) * W1 p + g2)) 0
   then [(g1 - 1) * W1 p + g2] else [])
  ++ (if (g1 + 1 <? BoxShape_0 p - EDGE p - 1)
         && Reqb (F st ((g1 + 1) * W1 p + g2)) 0
      then [(g1 + 1) * W1 p + g2] else [])
  ++ (if (g2 - 1 >? EDGE p) && Reqb (F st (g1 * W1 p + (g2 - 1))) 0
      then [g1 * W1 p + (g2 - 1)] else [])
  ++ (if (g2 + 1 <? BoxShape_1 p - EDGE p - 1)
         && Reqb (F st (g1 * W1 p + (g2 + 1))) 0
      then [g1 * W1 p + (g2 + 1)] else []).

(** What the first loop of the initial truncation leaves untouched. *)
Definition trunc_view (st : State) :=
  (F st, TB st, x1_min st, x1_max st).

(** A flat index that no cell of the edge-free interior has. *)
Definition halo (k : Z) : Prop :=
  forall i j, EDGE p <= i < BoxShape_0 p - EDGE p ->
              EDGE p <= j < BoxShape_1 p - EDGE p -> k <> i * W1 p + j.

(** The distribution buffers and the stage buffers. *)
Definition bufs (st : State) :=
  (F st, PF st, FF st, KK1 st, KK2 st, KK3 st, KK4 st).

Definition bufs_at (st : State) (k : Z) :=
  (F st k, PF st k, FF st k, KK1 st k, KK2 st k, KK3 st k, KK4 st k).

(** The four stage loops over one cell list. *)
Definition RK4_cells (L : list (Z * Z)) (st : State) : State :=
  fold_left (fun s c => RK4_4_cell p (fst c) (snd c) s) L
    (fold_left (fun s c => RK4_3_cell p (fst c) (snd c) s) L
       (fold_left (fun s c => RK4_2_cell p (fst c) (snd c) s) L
          (fold_left (fun s c => RK4_1_cell p (fst c) (snd c) s) L st))).

(** The live cells of the bounding box, in the order of the loops. *)
Definition live_cells (st : State) : list (Z * Z) :=
  filter (fun c => TAMask st (idx p c))
    (cells (x1_min st) (x1_max st + 1) (x2_min st) (x2_max st + 1)).

(** The four directions of the extrapolation, in the order of the source. *)
Inductive Dir : Type := Xm | Xp | Pm | Pp.

(** The nearest and the second cell of the target [(g1, g2)] along a
    direction, and the grid step of the direction. *)
Definition dir_near (g1 g2 : Z) (d : Dir) : Z :=
  match d with
  | Xm => (g1 - 1) * W1 p + g2
  | Xp => (g1 + 1) * W1 p + g2
  | Pm => g1 * W1 p + (g2 - 1)
  | Pp => g1 * W1 p + (g2 + 1)
  end.

Definition dir_far (g1 g2 : Z) (d : Dir) : Z :=
  match d with
  | Xm => (g1 - 2) * W1 p + g2
  | Xp => (g1 + 2) * W1 p + g2
  | Pm => g1 * W1 p + (g2 - 2)
  | Pp => g1 * W1 p + (g2 + 2)
  end.

Definition dir_step (d : Dir) : R :=
  match d with Xm | Xp => H_0 p | Pm | Pp => H_1 p end.

(** The accumulator records a direction, or it is still the initial one. *)
Definition acc_ok (a : ExAcc) : Prop :=
  (min_dir a = -1 /\ val_min_abs a = IZR BIG_NUMBER /\ ex_isEmpty a = true)
  \/ min_dir a = 0 \/ min_dir a = 1.

(** What the first loop of the truncation reads and never writes. *)
Definition prune_view (st : State) :=
  (F st, FF st, TAMask st, x1_min st, x1_max st, x2_min st, x2_max st).

(** The test of the first loop of the truncation at a cell: live, below
    [TolH] and of gradient below [TolHd]. *)
Definition pruned (st : State) (i j : Z) : bool :=
  TAMask st (i * W1 p + j)
  && Rltb (PF st (i * W1 p + j)) (TolH p)
  && Rltb (grad_sq p (FF st) st i j) (TolHd_sq p).

(** The cell [(i, j)] lies in the bounding box. *)
Definition in_box (st : State) (i j : Z) : Prop :=
  x1_min st <= i <= x1_max st /\ x2_min st <= j <= x2_max st.

(** The bounding box of [st'] contains the one of [st]. *)
Definition box_le (st st' : State) : Prop :=
  x1_min st' <= x1_min st /\ x1_max st <= x1_max st'
  /\ x2_min st' <= x2_min st /\ x2_max st <= x2_max st'.

(** Ascending, and strictly ascending, index vectors. *)
Definition ascending (l : list Z) : Prop := StronglySorted Z.le l.

Definition strictly_ascending (l : list Z) : Prop := StronglySorted Z.lt l.

(** The cells of the neighbour scan of the checked target [e] that [k]
    can be: the target itself, or a live cell at Manhattan distance 1 to 4
    of it. *)
Definition scanned (st : State) (e k : Z) : Prop :=
  k = e
  \/ exists n1 n2, 1 <= Z.abs n1 + Z.abs n2 <= 4
       /\ k = (Z.quot e (M1 p) + n1) * W1 p + (Z.rem e (M1 p) + n2)
       /\ TAMask st k = true.

(** The first row of the update region. *)
Definition row_lo (st : State) : Z :=
  if isFullGrid p then EDGE p else x1_min st.

(** The cell [(i, j)] fails both tests of the initial truncation: its
    density is below [TolH] and the squared central difference of [F] is
    below [TolHd^2]. *)
Definition init_dropped (st : State) (i j : Z) : Prop :=
  (F st (i * W1 p + j) < TolH p)%R
  /\ ((Rabs (F st ((i + 1) * W1 p + j) - F st ((i - 1) * W1 p + j))
       / (2 * H_0 p)) ^ 2
      + (Rabs (F st (i * W1 p + (j + 1)) - F st (i * W1 p + (j - 1)))
         / (2 * H_1 p)) ^ 2
      < TolHd_sq p)%R.

(** The cells of the edge-free interior. *)
Definition edge_free (i j : Z) : Prop :=
  EDGE p <= i < BoxShape_0 p - EDGE p /\ EDGE p <= j < BoxShape_1 p - EDGE p.

(** 4-neighbours. *)
Definition adjacent (i j i' j' : Z) : Prop :=
  Z.abs (i - i') + Z.abs (j - j') = 1.

(** The four candidates of the expansion around the ring cell [e]. *)
Definition expands_to (e t : Z) : Prop :=
  let g1 := Z.quot e (M1 p) in
  let g2 := Z.rem e (M1 p) in
  (t = (g1 + 1) * W1 p + g2 /\ g1 + 1 < BoxShape_0 p - EDGE p - 1)
  \/ (t = (g1 - 1) * W1 p + g2 /\ g1 - 1 > EDGE p)
  \/ (t = g1 * W1 p + (g2 + 1) /\ g2 + 1 < BoxShape_1 p - EDGE p - 1)
  \/ (t = g1 * W1 p + (g2 - 1) /\ g2 - 1 > EDGE p).

(** The cell of a flat index, as the list loops decode it. *)
Definition cell_of (e : Z) : Z * Z := (Z.quot e (M1 p), Z.rem e (M1 p)).

(** The wavefunction at the grid point [(i, j)]. *)
Definition wave_at (i j : Z) : R :=
  WAVEFUNCTION p (Box_0 p + IZR i * H_0 p) (Box_2 p + IZR j * H_1 p).

End Views.

(** ** Concrete configurations *)

(** A grid of [N x N] points with unit steps over [[-c, ...]], unit
    physical constants and the default potential. *)
Definition example_params (N E : Z) (c : R) (gam tolH tolL tolHd tolLd : R)
  (exlimit : Z) (full : bool) : Params :=
  mkParams N N E c c 1 1 (1 / 100) 1 1 1 gam 1 (1 / 2) (1 / 2) 0 0
    tolH tolL tolHd tolLd 1 exlimit full false false KK2DPOT_DW2.

(** Full grid, [3 x 3] points, edge 1: the only interior cell is [(1,1)],
    flat index 4, at [x = 0], [p = 0]; no friction. *)
Definition P_full3 : Params :=
  example_params 3 1 (-1) 0 (1 / 2) (1 / 2) 1 1 1 true.

(** Truncated grid, [7 x 7] points, edge 2, at most one extrapolation:
    the only cell that can enter the frontier is [(3,3)], flat index 24. *)
Definition P_trunc7 : Params :=
  example_params 7 2 (-3) 1 (1 / 2) (1 / 2) 1 1 1 false.

(** Truncated grid, [5 x 5] points, edge 2: the only interior cell is
    [(2,2)], flat index 12; the cutoff [TolH = 2] is above the
    normalized density 1 of that cell. *)
Definition P_trunc5 : Params :=
  example_params 5 2 (-2) 1 2 (1 / 2) 1 1 1 false.

(** One live cell, [(3,3)], flat index 24, holding the whole density: it
    is the bounding box and the boundary ring. *)
Definition st_ring24 : State :=
  set_TB [24]
    (set_ta_size 1
       (set_x2_max 3 (set_x2_min 3 (set_x1_max 3 (set_x1_min 3
          (set_TAMask (fun k => k =? 24)
             (set_PF (fun k => if k =? 24 then 1%R else 0%R)
                (set_F (fun k => if k =? 24 then 1%R else 0%R)
                   st_zero)))))))).

(** [F] is -1 at the interior cell 4 and 0 elsewhere. *)
Definition st_negative : State :=
  set_F (fun k => if k =? 4 then (-1)%R else 0%R) st_zero.


(** Row 3 has density 1 and the cell [(3,3)] is in [ExBD]. *)
Definition st_exbd24 : State :=
  set_ExBD [24] (set_Density (fun i => if i =? 3 then 1%R else 0%R) st_zero).

(** As [P_trunc5] with the cutoff [TolH = 1/2] below the normalized
    density of the interior cell, which stays live. *)
Definition P_live5 : Params :=
  example_params 5 2 (-2) 1 (1 / 2) (1 / 2) 1 1 1 false.

(** A configuration with another potential and other collision modes. *)
Definition with_modes (pot : PotType) (iso lin : bool) (q : Params)
  : Params :=
  mkParams (BoxShape_0 q) (BoxShape_1 q) (EDGE q) (Box_0 q) (Box_2 q)
    (H_0 q) (H_1 q) (kk q) (m q) (kb q) (temp q) (gamma q) (hb q)
    (A_0 q) (A_1 q) (Wave0_0 q) (Wave0_1 q) (TolH q) (TolL q) (TolHd q)
    (TolLd q) (ExReduce q) (ExLimit q) (isFullGrid q) iso lin pot.

(** [P_trunc7] with the double-well potential DW1. *)
Definition P_dw1 : Params := with_modes KK2DPOT_DW1 false false P_trunc7.

(** [P_trunc7] with the isothermal collision term. *)
Definition P_iso7 : Params := with_modes KK2DPOT_DW2 true false P_trunc7.

(** On the [7 x 7] grid, the target [(3,3)] has the neighbours
    [F(2,3) = 2] and [F(1,3) = 4] along [-x] and no other. *)
Definition st_pair : State :=
  set_F (fun k => if k =? 17 then 2%R else if k =? 10 then 4%R else 0%R)
    st_zero.

(** Truncated grid, [8 x 8] points, edge 2: the interior cells that can
    enter the frontier or be a target have coordinates 3 and 4. *)
Definition P_trunc8 : Params :=
  example_params 8 2 (-3) 1 (1 / 2) (1 / 2) 1 1 3 false.

(** On the [8 x 8] grid: the frontier cell [(3,3)], flat index 27, holds
    1 and the live cell [(2,3)] behind it holds 2; the target [(4,3)],
    flat index 35, has this pair along [-x]. *)
Definition st_front27 : State :=
  set_TBL_P [27]
    (set_TBL [27]
       (set_TB [27]
          (set_ta_size 2
             (set_x2_max 3 (set_x2_min 3 (set_x1_max 3 (set_x1_min 2
                (set_TAMask (fun k => (k =? 27) || (k =? 19))
                   (set_PF (fun k => if k =? 27 then 1%R
                                     else if k =? 19 then 2%R else 0%R)
                      (set_F (fun k => if k =? 27 then 1%R
                                       else if k =? 19 then 2%R else 0%R)
                         st_zero)))))))))).


(** Truncated grid, [9 x 9] points, edge 3: the only interior cell is
    [(4,4)], flat index 40. *)
Definition P_trunc9 : Params :=
  example_params 9 3 (-4) 1 (1 / 2) (1 / 2) 1 1 1 false.

(** [st_ring24] after a Runge-Kutta update that left [FF = 2] at the live
    cell. *)
Definition st_ff24 : State :=
  set_FF (fun k => if k =? 24 then 2%R else 0%R) st_ring24.

(** [F] is 1 at the cell [(3,3)] of the [7 x 7] grid and 0 elsewhere; no
    cell is live. *)
Definition st_one24 : State :=
  set_F (fun k => if k =? 24 then 1%R else 0%R) st_zero.

(** [st_ring24] in a later pass whose only target, the cell [(3,3)], has
    been extrapolated. *)
Definition st_later24 : State :=
  set_ExCheck [true] (set_ExFF [24] st_ring24).

(** Truncated grid, [7 x 7] points, edge 2, at most one extrapolation, a
    narrow Gaussian centred on the cell [(3,3)], flat index 24: the
    initial truncation keeps that cell only. *)
Definition P_peak7 : Params :=
  mkParams 7 7 2 (-3) (-3) 1 1 (1 / 100) 1 1 1 1 1 4 (1 / 16) 0 0
    (1 / 10) (1 / 10) 1 1 1 1 false false false KK2DPOT_DW2.

(** Truncated grid, [8 x 7] points, edge 2, momentum step [1e-14] with
    [hb = 1e-14]: a Gaussian centred on the cell [(5,3)], flat index 38,
    whose normalized density is of the order of [1 / (H[0] * H[1])]
    [= 1e14], above [BIG_NUMBER].  The initial truncation keeps the cells
    [(5,3)] and [(4,3)], flat indices 38 and 31. *)
Definition P_huge : Params :=
  mkParams 8 7 2 (-5) (-3 / 100000000000000) 1 (1 / 100000000000000)
    (1 / 100) 1 1 1 1 (1 / 100000000000000) 1 (1 / 16) 0 0
    500000000000 500000000000
    10000000000000000000000000000 10000000000000000000000000000
    1 3 false false false KK2DPOT_DW2.

(** The phases are unfolded by name in the proofs, never by [simpl]. *)
Arguments for_loop : simpl never.
Arguments for_each : simpl never.
Arguments RK4 : simpl never.
Arguments RK4_box : simpl never.
Arguments RK4_ExBD : simpl never.
Arguments RK4_full : simpl never.
Arguments moments_feq_trunc : simpl never.
Arguments moments_feq_full : simpl never.
Arguments init_moments : simpl never.
Arguments first_pass_body : simpl never.
Arguments later_pass_body : simpl never.
Arguments extrapolate_block : simpl never.
Arguments extrapolate_list : simpl never.
Arguments commit_extrapolation : simpl never.
Arguments rebuild_frontier : simpl never.
Arguments ext_pass : simpl never.
Arguments normalization : simpl never.
Arguments truncation : simpl never.
Arguments absorb : simpl never.
Arguments absorb_init : simpl never.
Arguments initial_truncation : simpl never.
Arguments init_normalize : simpl never.
Arguments init_wavefunction : simpl never.
Arguments CASE2 : simpl never.
Arguments CASE3 : simpl never.

Section Properties.

Variable p : Params.

(** ** Comparisons on reals *)

Lemma Rltb_true x y : Rltb x y = true <-> (x < y)%R.
Proof. unfold Rltb; destruct (Rlt_dec x y); split; intros; try easy. Qed.

Lemma Rltb_false x y : Rltb x y = false <-> (y <= x)%R.
Proof.
  unfold Rltb; destruct (Rlt_dec x y); split; intros; try easy; lra.
Qed.

Lemma Rleb_true x y : Rleb x y = true <-> (x <= y)%R.
Proof. unfold Rleb; destruct (Rle_dec x y); split; intros; try easy. Qed.

Lemma Rleb_false x y : Rleb x y = false <-> (y < x)%R.
Proof.
  unfold Rleb; destruct (Rle_dec x y); split; intros; try easy; lra.
Qed.

Lemma Reqb_true x y : Reqb x y = true <-> x = y.
Proof. unfold Reqb; destruct (Req_dec_T x y); split; intros; try easy. Qed.

Lemma Reqb_false x y : Reqb x y = false <-> x <> y.
Proof. unfold Reqb; destruct (Req_dec_T x y); split; intros; try easy. Qed.

(** * Properties *)

(** ** Arrays, ranges and loops *)

Lemma upd_same {A : Type} (a : Z -> A) k v : upd a k v k = v.
Proof. unfold upd. now rewrite Z.eqb_refl. Qed.

Lemma upd_other {A : Type} (a : Z -> A) k v x : x <> k -> upd a k v x = a x.
Proof. unfold upd. intros H. apply Z.eqb_neq in H. now rewrite H. Qed.

Lemma in_zrange lo hi i : In i (zrange lo hi) <-> lo <= i < hi.
Proof.
  unfold zrange. rewrite in_map_iff. split.
  - intros (n & <- & Hn). apply in_seq in Hn. lia.
  - intros Hi. exists (Z.to_nat (i - lo)). split; [lia|].
    apply in_seq. lia.
Qed.

Lemma NoDup_zrange lo hi : NoDup (zrange lo hi).
Proof.
  unfold zrange. apply Injective_map_NoDup_in.
  - intros a b _ _ Hab. lia.
  - apply seq_NoDup.
Qed.

Lemma zrange_empty lo hi : hi <= lo -> zrange lo hi = [].
Proof.
  intros Hle. unfold zrange. replace (Z.to_nat (hi - lo)) with O by lia.
  reflexivity.
Qed.

Lemma in_cells lo1 hi1 lo2 hi2 c :
  In c (cells lo1 hi1 lo2 hi2)
  <-> lo1 <= fst c < hi1 /\ lo2 <= snd c < hi2.
Proof.
  unfold cells. rewrite in_flat_map. split.
  - intros (i1 & Hi1 & Hc). apply in_map_iff in Hc as (i2 & <- & Hi2).
    apply in_zrange in Hi1, Hi2. simpl. lia.
  - intros [H1 H2]. exists (fst c). split; [now apply in_zrange|].
    apply in_map_iff. exists (snd c). split; [now destruct c|].
    now apply in_zrange.
Qed.

Lemma for_loop2_cells {S : Type} lo1 hi1 lo2 hi2
  (body : Z -> Z -> S -> S) (s : S) :
  for_loop lo1 hi1 (fun i1 => for_loop lo2 hi2 (fun i2 => body i1 i2)) s
  = fold_left (fun s c => body (fst c) (snd c) s) (cells lo1 hi1 lo2 hi2) s.
Proof.
  unfold for_loop, cells. revert s.
  induction (zrange lo1 hi1) as [|i1 l IH]; intros s; simpl; [reflexivity|].
  rewrite fold_left_app, <- IH. f_equal.
  generalize (zrange lo2 hi2) s. clear.
  intros l2. induction l2 as [|i2 l2 IH]; intros s; simpl; [reflexivity|].
  apply IH.
Qed.

Lemma fold_left_inv {A S : Type} (P : S -> Prop) (f : S -> A -> S) l s :
  P s -> (forall s a, In a l -> P s -> P (f s a)) -> P (fold_left f l s).
Proof.
  revert s. induction l as [|a l IH]; intros s Hs Hf; simpl; [exact Hs|].
  apply IH.
  - apply Hf; [now left|exact Hs].
  - intros s' a' Ha'. apply Hf. now right.
Qed.

Lemma for_loop_inv {S : Type} (P : S -> Prop) lo hi (body : Z -> S -> S) s :
  P s -> (forall i s, lo <= i < hi -> P s -> P (body i s)) ->
  P (for_loop lo hi body s).
Proof.
  intros Hs Hb. unfold for_loop. apply fold_left_inv; [exact Hs|].
  intros s' i Hi. apply Hb. now apply in_zrange.
Qed.

(** A flat index determines its cell when the column lies in [0, W1). *)
Lemma idx_inj (c d : Z * Z) :
  0 <= snd c < W1 p -> 0 <= snd d < W1 p -> idx p c = idx p d -> c = d.
Proof.
  destruct c as [i j], d as [i' j']. unfold idx. simpl. intros Hc Hd He.
  assert (i = i') by nia. subst i'. f_equal. lia.
Qed.

Lemma NoDup_idx_cells lo1 hi1 lo2 hi2 :
  0 <= lo2 -> hi2 <= W1 p ->
  NoDup (map (idx p) (cells lo1 hi1 lo2 hi2)).
Proof.
  intros Hlo Hhi. apply Injective_map_NoDup_in.
  - intros c d Hc Hd. apply in_cells in Hc, Hd. apply idx_inj; lia.
  - unfold cells. generalize (NoDup_zrange lo1 hi1).
    generalize (zrange lo1 hi1) as l1. induction l1 as [|i1 l1 IH]; intros Hnd.
    + constructor.
    + simpl. inversion Hnd as [|? ? Hni Hnd']; subst.
      apply NoDup_app.
      * apply Injective_map_NoDup_in; [|apply NoDup_zrange].
        intros a b _ _ Hab. now inversion Hab.
      * now apply IH.
      * intros c Hc1 Hc2. apply in_map_iff in Hc1 as (i2 & <- & _).
        apply in_flat_map in Hc2 as (i1' & Hi1' & Hc2).
        apply in_map_iff in Hc2 as (i2' & Heq & _). inversion Heq; subst.
        contradiction.
Qed.

(** ** Runge-Kutta stage loops *)

Section StageLoop.

(** One stage loop writes a stage buffer [K] and [FF] at the visited cell
    and reads a [view] of the state that no iteration changes. *)
Variable V : Type.
Variable view : State -> V.
Variable K : State -> Z -> R.
Variable cell : Z -> Z -> State -> State.

Hypothesis cell_view : forall i j st, view (cell i j st) = view st.
Hypothesis cell_frame : forall i j st k,
  k <> i * W1 p + j ->
  K (cell i j st) k = K st k /\ FF (cell i j st) k = FF st k.
Hypothesis cell_local : forall i j st st',
  view st = view st' ->
  FF st (i * W1 p + j) = FF st' (i * W1 p + j) ->
  K st (i * W1 p + j) = K st' (i * W1 p + j) ->
  K (cell i j st) (i * W1 p + j) = K (cell i j st') (i * W1 p + j)
  /\ FF (cell i j st) (i * W1 p + j) = FF (cell i j st') (i * W1 p + j).

Lemma stage_loop_spec (L : list (Z * Z)) (st : State) :
  NoDup (map (idx p) L) ->
  let st' := fold_left (fun s c => cell (fst c) (snd c) s) L st in
  view st' = view st
  /\ (forall k, ~ In k (map (idx p) L) ->
        K st' k = K st k /\ FF st' k = FF st k)
  /\ (forall c, In c L ->
        K st' (idx p c) = K (cell (fst c) (snd c) st) (idx p c)
        /\ FF st' (idx p c) = FF (cell (fst c) (snd c) st) (idx p c)).
Proof.
  revert st. induction L as [|a L IH]; intros st Hnd; simpl.
  - repeat split; intros; try contradiction; reflexivity.
  - inversion Hnd as [|? ? Hna Hnd']; subst.
    destruct (IH (cell (fst a) (snd a) st) Hnd') as (Hv & Hout & Hin).
    split; [|split].
    + rewrite Hv. apply cell_view.
    + intros k Hk. destruct (Hout k) as [HK HF].
      { intros Hk'. apply Hk. now right. }
      rewrite HK, HF. apply cell_frame. intros ->. apply Hk. now left.
    + intros c [<-|Hc].
      * destruct (Hout (idx p a) Hna) as [HK HF]. now rewrite HK, HF.
      * destruct (Hin c Hc) as [HK HF]. rewrite HK, HF.
        assert (Hne : fst c * W1 p + snd c <> fst a * W1 p + snd a).
        { intros He. apply Hna.
          change (fst c * W1 p + snd c) with (idx p c) in He.
          change (fst a * W1 p + snd a) with (idx p a) in He.
          rewrite <- He. now apply in_map. }
        apply cell_local; [apply cell_view| |];
          now apply cell_frame.
Qed.

End StageLoop.

Lemma stage_full_cells (cell : Z -> Z -> State -> State) st :
  stage_full p cell st
  = fold_left (fun s c => cell (fst c) (snd c) s)
      (cells (EDGE p) (BoxShape_0 p - EDGE p)
             (EDGE p) (BoxShape_1 p - EDGE p)) st.
Proof. unfold stage_full. apply for_loop2_cells. Qed.

Ltac stage_cell_tac :=
  intros; simpl;
  repeat match goal with
         | |- context [upd _ ?k _ ?k] => rewrite upd_same
         | H : ?x <> ?k |- context [upd _ ?k _ ?x] =>
             rewrite (upd_other _ k _ x H)
         end.

Lemma RK4_1_spec L st :
  NoDup (map (idx p) L) ->
  let st' := fold_left (fun s c => RK4_1_cell p (fst c) (snd c) s) L st in
  view1 st' = view1 st
  /\ (forall k, ~ In k (map (idx p) L) ->
        KK1 st' k = KK1 st k /\ FF st' k = FF st k)
  /\ (forall c, In c L ->
        KK1 st' (idx p c) = KK1 (RK4_1_cell p (fst c) (snd c) st) (idx p c)
        /\ FF st' (idx p c)
           = FF (RK4_1_cell p (fst c) (snd c) st) (idx p c)).
Proof.
  apply (stage_loop_spec _ view1 KK1 (RK4_1_cell p)).
  - reflexivity.
  - unfold RK4_1_cell. stage_cell_tac. split; reflexivity.
  - unfold RK4_1_cell, view1. intros i j s s' Hv _ _. simpl.
    rewrite !upd_same. inversion Hv as [[HF Hq H2 H3 H4]].
    split; reflexivity.
Qed.

Lemma RK4_2_spec L st :
  NoDup (map (idx p) L) ->
  let st' := fold_left (fun s c => RK4_2_cell p (fst c) (snd c) s) L st in
  view2 st' = view2 st
  /\ (forall k, ~ In k (map (idx p) L) ->
        KK2 st' k = KK2 st k /\ FF st' k = FF st k)
  /\ (forall c, In c L ->
        KK2 st' (idx p c) = KK2 (RK4_2_cell p (fst c) (snd c) st) (idx p c)
        /\ FF st' (idx p c)
           = FF (RK4_2_cell p (fst c) (snd c) st) (idx p c)).
Proof.
  apply (stage_loop_spec _ view2 KK2 (RK4_2_cell p)).
  - reflexivity.
  - unfold RK4_2_cell. stage_cell_tac. split; reflexivity.
  - unfold RK4_2_cell, view2. intros i j s s' Hv Hff _. simpl.
    rewrite !upd_same. inversion Hv as [[HF Hq H2 H3 H4]]. rewrite Hff.
    split; reflexivity.
Qed.

Lemma RK4_3_spec L st :
  NoDup (map (idx p) L) ->
  let st' := fold_left (fun s c => RK4_3_cell p (fst c) (snd c) s) L st in
  view3 st' = view3 st
  /\ (forall k, ~ In k (map (idx p) L) ->
        KK3 st' k = KK3 st k /\ FF st' k = FF st k)
  /\ (forall c, In c L ->
        KK3 st' (idx p c) = KK3 (RK4_3_cell p (fst c) (snd c) st) (idx p c)
        /\ FF st' (idx p c)
           = FF (RK4_3_cell p (fst c) (snd c) st) (idx p c)).
Proof.
  apply (stage_loop_spec _ view3 KK3 (RK4_3_cell p)).
  - reflexivity.
  - unfold RK4_3_cell. stage_cell_tac. split; reflexivity.
  - unfold RK4_3_cell, view3. intros i j s s' Hv Hff _. simpl.
    rewrite !upd_same. inversion Hv as [[HF Hq H2 H3 H4]]. rewrite Hff.
    split; reflexivity.
Qed.

Lemma RK4_4_spec L st :
  NoDup (map (idx p) L) ->
  let st' := fold_left (fun s c => RK4_4_cell p (fst c) (snd c) s) L st in
  view4 st' = view4 st
  /\ (forall k, ~ In k (map (idx p) L) ->
        KK4 st' k = KK4 st k /\ FF st' k = FF st k)
  /\ (forall c, In c L ->
        KK4 st' (idx p c) = KK4 (RK4_4_cell p (fst c) (snd c) st) (idx p c)
        /\ FF st' (idx p c)
           = FF (RK4_4_cell p (fst c) (snd c) st) (idx p c)).
Proof.
  apply (stage_loop_spec _ view4 KK4 (RK4_4_cell p)).
  - reflexivity.
  - unfold RK4_4_cell. stage_cell_tac. split; reflexivity.
  - unfold RK4_4_cell, view4. intros i j s s' Hv Hff _. simpl.
    rewrite !upd_same. inversion Hv as [[HF Hq H2 H3 H4]]. rewrite Hff.
    split; reflexivity.
Qed.

Lemma RK4_1_cell_FF i j s :
  FF (RK4_1_cell p i j s) (i * W1 p + j)
  = (F s (i * W1 p + j) + KK1 (RK4_1_cell p i j s) (i * W1 p + j) / 6)%R.
Proof. unfold RK4_1_cell. simpl. now rewrite !upd_same. Qed.

Lemma RK4_2_cell_FF i j s :
  FF (RK4_2_cell p i j s) (i * W1 p + j)
  = (FF s (i * W1 p + j) + KK2 (RK4_2_cell p i j s) (i * W1 p + j) / 3)%R.
Proof. unfold RK4_2_cell. simpl. now rewrite !upd_same. Qed.

Lemma RK4_3_cell_FF i j s :
  FF (RK4_3_cell p i j s) (i * W1 p + j)
  = (FF s (i * W1 p + j) + KK3 (RK4_3_cell p i j s) (i * W1 p + j) / 3)%R.
Proof. unfold RK4_3_cell. simpl. now rewrite !upd_same. Qed.

Lemma RK4_4_cell_FF i j s :
  FF (RK4_4_cell p i j s) (i * W1 p + j)
  = (FF s (i * W1 p + j) + KK4 (RK4_4_cell p i j s) (i * W1 p + j) / 6)%R.
Proof. unfold RK4_4_cell. simpl. now rewrite !upd_same. Qed.

Lemma fields_kept_refl st : fields_kept st st.
Proof. unfold fields_kept. tauto. Qed.

Lemma fields_kept_trans st1 st2 st3 :
  fields_kept st1 st2 -> fields_kept st2 st3 -> fields_kept st1 st3.
Proof. unfold fields_kept. intuition congruence. Qed.

Lemma row_feq_kept lo hi live i1 val st :
  fields_kept st (row_feq p lo hi live i1 val st).
Proof.
  unfold row_feq. apply for_loop_inv; [apply fields_kept_refl|].
  intros i s _ Hs. destruct (live s i1 i); [|exact Hs].
  eapply fields_kept_trans; [exact Hs|]. unfold fields_kept. simpl. tauto.
Qed.

Lemma store_moments_kept i1 a b c st :
  fields_kept st (store_moments i1 a b c st).
Proof. unfold fields_kept. simpl. tauto. Qed.

Lemma moments_row_kept lo hi live i1 st :
  fields_kept st (moments_row p lo hi live i1 st).
Proof.
  unfold moments_row.
  repeat match goal with
         | |- context [if ?b then _ else _] => destruct b
         end;
    (eapply fields_kept_trans; [apply row_feq_kept|apply store_moments_kept]).
Qed.

Lemma moments_feq_full_kept st : fields_kept st (moments_feq_full p st).
Proof.
  unfold moments_feq_full. apply for_loop_inv; [apply fields_kept_refl|].
  intros i s _ Hs. eapply fields_kept_trans; [exact Hs|].
  apply moments_row_kept.
Qed.

Lemma moments_feq_trunc_kept st : fields_kept st (moments_feq_trunc p st).
Proof.
  unfold moments_feq_trunc. apply for_loop_inv; [apply fields_kept_refl|].
  intros i s _ Hs. eapply fields_kept_trans; [exact Hs|].
  apply moments_row_kept.
Qed.

(** C1. In full-grid mode a time step computes, at every interior cell
    [(i, j)] of [[E, N_x-E) x [E, N_p-E)], the four stage fields
    [K1..K4] by the central-difference stage operator applied to [F],
    [F + K1/2], [F + K2/2] and [F + K3], with the same equilibrium field
    in all four stages, and the tentative field [FF] is
    [F + (K1 + 2 K2 + 2 K3 + K4)/6], accumulated as
    [F + K1/6 + K2/3 + K3/3 + K4/6]. *)
Theorem C1_full_grid_rk4 (st : State) (i j : Z) :
  0 <= EDGE p ->
  EDGE p <= i < BoxShape_0 p - EDGE p ->
  EDGE p <= j < BoxShape_1 p - EDGE p ->
  let feq := Feq_loc (moments_feq_full p st) in
  let st' := CASE3 p st in
  let c := i * W1 p + j in
  KK1 st' c = stage_op p (F st) feq i j
  /\ KK2 st' c = stage_op p (fun k => F st k + KK1 st' k / 2)%R feq i j
  /\ KK3 st' c = stage_op p (fun k => F st k + KK2 st' k / 2)%R feq i j
  /\ KK4 st' c = stage_op p (fun k => F st k + KK3 st' k)%R feq i j
  /\ FF st' c
     = (F st c
        + (KK1 st' c + 2 * KK2 st' c + 2 * KK3 st' c + KK4 st' c) / 6)%R
  /\ FF st' c
     = (F st c + KK1 st' c / 6 + KK2 st' c / 3 + KK3 st' c / 3
        + KK4 st' c / 6)%R
  /\ Feq_loc st' = feq
  /\ F st' = F st.
Proof.
  intros HE Hi Hj feq st' c.
  pose proof (moments_feq_full_kept st) as (HF0 & _).
  set (s0 := moments_feq_full p st) in *.
  set (L := cells (EDGE p) (BoxShape_0 p - EDGE p)
                  (EDGE p) (BoxShape_1 p - EDGE p)).
  assert (Hnd : NoDup (map (idx p) L)).
  { apply NoDup_idx_cells; unfold W1; lia. }
  assert (Hc : In (i, j) L) by (apply in_cells; simpl; lia).
  set (s1 := fold_left (fun s c => RK4_1_cell p (fst c) (snd c) s) L s0).
  set (s2 := fold_left (fun s c => RK4_2_cell p (fst c) (snd c) s) L s1).
  set (s3 := fold_left (fun s c => RK4_3_cell p (fst c) (snd c) s) L s2).
  set (s4 := fold_left (fun s c => RK4_4_cell p (fst c) (snd c) s) L s3).
  assert (Hst' : st' = s4).
  { unfold st', CASE3, RK4_full, RK4. now rewrite !stage_full_cells. }
  destruct (RK4_1_spec L s0 Hnd) as (Hv1 & _ & Hin1).
  destruct (RK4_2_spec L s1 Hnd) as (Hv2 & _ & Hin2).
  destruct (RK4_3_spec L s2 Hnd) as (Hv3 & _ & Hin3).
  destruct (RK4_4_spec L s3 Hnd) as (Hv4 & _ & Hin4).
  fold s1 in Hv1, Hin1. fold s2 in Hv2, Hin2.
  fold s3 in Hv3, Hin3. fold s4 in Hv4, Hin4.
  destruct (Hin1 _ Hc) as [HK1 HFF1]. destruct (Hin2 _ Hc) as [HK2 HFF2].
  destruct (Hin3 _ Hc) as [HK3 HFF3]. destruct (Hin4 _ Hc) as [HK4 HFF4].
  unfold view1 in Hv1. unfold view2 in Hv2. unfold view3 in Hv3.
  unfold view4 in Hv4.
  inversion Hv1 as [[F1 Q1 A1 B1 C1]]. inversion Hv2 as [[F2 Q2 A2 B2 C2]].
  inversion Hv3 as [[F3 Q3 A3 B3 C3]]. inversion Hv4 as [[F4 Q4 A4 B4 C4]].
  clear Hv1 Hv2 Hv3 Hv4 Hin1 Hin2 Hin3 Hin4.
  unfold idx in HK1, HK2, HK3, HK4, HFF1, HFF2, HFF3, HFF4.
  simpl fst in *. simpl snd in *. fold c in HK1, HK2, HK3, HK4.
  fold c in HFF1, HFF2, HFF3, HFF4.
  assert (E1 : KK1 s4 c = stage_op p (F st) feq i j).
  { rewrite A4, A3, A2, HK1. unfold RK4_1_cell, c. simpl.
    rewrite upd_same. unfold stage_op, feq, k2h0m, k2h1, kgamma.
    rewrite HF0. ring. }
  assert (E2 : KK2 s4 c
               = stage_op p (fun k => F st k + KK1 s4 k / 2)%R feq i j).
  { rewrite B4, B3, HK2. unfold RK4_2_cell, c. simpl.
    rewrite upd_same. unfold stage_op, feq, k2h0m, k2h1, kgamma.
    rewrite A4, A3, A2, F1, Q1, HF0. unfold Rdiv. ring. }
  assert (E3 : KK3 s4 c
               = stage_op p (fun k => F st k + KK2 s4 k / 2)%R feq i j).
  { rewrite C4, HK3. unfold RK4_3_cell, c. simpl.
    rewrite upd_same. unfold stage_op, feq, k2h0m, k2h1, kgamma.
    rewrite B4, B3, F2, F1, Q2, Q1, HF0. unfold Rdiv. ring. }
  assert (E4 : KK4 s4 c
               = stage_op p (fun k => F st k + KK3 s4 k)%R feq i j).
  { rewrite HK4. unfold RK4_4_cell, c. simpl.
    rewrite upd_same. unfold stage_op, feq, k2h0m, k2h1, kgamma.
    rewrite C4, F3, F2, F1, Q3, Q2, Q1, HF0. unfold Rdiv. ring. }
  assert (E6 : FF s4 c
               = (F st c + KK1 s4 c / 6 + KK2 s4 c / 3 + KK3 s4 c / 3
                  + KK4 s4 c / 6)%R).
  { unfold c in *. rewrite HFF4, RK4_4_cell_FF, <- HK4.
    rewrite HFF3, RK4_3_cell_FF, <- HK3.
    rewrite HFF2, RK4_2_cell_FF, <- HK2.
    rewrite HFF1, RK4_1_cell_FF, <- HK1.
    now rewrite HF0, C4, B4, B3, A4, A3, A2. }
  rewrite Hst'. repeat split; try assumption.
  - rewrite E6. field.
  - now rewrite Q4, Q3, Q2, Q1.
  - now rewrite F4, F3, F2, F1.
Qed.

(** ** Loops over the bounding box *)

Lemma fold_map_pair {S : Type} (body : Z -> Z -> S -> S) i1 l (s : S) :
  fold_left (fun s0 c => body (fst c) (snd c) s0) (map (pair i1) l) s
  = fold_left (fun s0 i2 => body i1 i2 s0) l s.
Proof.
  revert s. induction l as [|i2 l IH]; intros s; simpl; [reflexivity|].
  apply IH.
Qed.

Lemma for_loop2_dep_aux {S : Type} (lo2 hi2 : S -> Z)
  (body : Z -> Z -> S -> S) :
  (forall i j s, lo2 (body i j s) = lo2 s /\ hi2 (body i j s) = hi2 s) ->
  forall (l : list Z) (a b : Z) (s : S),
  lo2 s = a -> hi2 s = b ->
  fold_left
    (fun s1 i1 => for_loop (lo2 s1) (hi2 s1) (fun i2 s => body i1 i2 s) s1)
    l s
  = fold_left (fun s c => body (fst c) (snd c) s)
      (flat_map (fun i1 => map (pair i1) (zrange a b)) l) s.
Proof.
  intros Hb l a b. induction l as [|i1 l IH]; intros s Ha Hb';
    simpl; [reflexivity|].
  rewrite fold_left_app, fold_map_pair. unfold for_loop at 2.
  rewrite Ha, Hb'. apply IH.
  - rewrite <- Ha. apply fold_left_inv; [reflexivity|].
    intros s1 i2 _ H1. destruct (Hb i1 i2 s1) as [H3 _]. congruence.
  - rewrite <- Hb'. apply fold_left_inv; [reflexivity|].
    intros s1 i2 _ H1. destruct (Hb i1 i2 s1) as [_ H3]. congruence.
Qed.

Lemma for_loop2_dep_cells {S : Type} (lo2 hi2 : S -> Z)
  (body : Z -> Z -> S -> S) lo1 hi1 (s : S) :
  (forall i j s, lo2 (body i j s) = lo2 s /\ hi2 (body i j s) = hi2 s) ->
  for_loop lo1 hi1
    (fun i1 s1 => for_loop (lo2 s1) (hi2 s1) (fun i2 s => body i1 i2 s) s1) s
  = fold_left (fun s c => body (fst c) (snd c) s)
      (cells lo1 hi1 (lo2 s) (hi2 s)) s.
Proof.
  intros Hb. unfold for_loop at 1. unfold cells.
  now apply for_loop2_dep_aux.
Qed.

Lemma stage_box_cells cell st :
  (forall i j s, x2_min (cell i j s) = x2_min s
                 /\ x2_max (cell i j s) = x2_max s) ->
  stage_box p cell st
  = fold_left (fun s c => guarded p cell (fst c) (snd c) s)
      (cells (x1_min st) (x1_max st + 1) (x2_min st) (x2_max st + 1)) st.
Proof.
  intros Hc. unfold stage_box.
  apply (for_loop2_dep_cells x2_min (fun s => x2_max s + 1) (guarded p cell)).
  intros i j s. unfold guarded. destruct (TAMask s (i * W1 p + j)).
  - destruct (Hc i j s) as [-> ->]. tauto.
  - tauto.
Qed.

Lemma box_loop_cells cell st :
  (forall i j s, x2_min (cell i j s) = x2_min s
                 /\ x2_max (cell i j s) = x2_max s) ->
  box_loop cell st
  = fold_left (fun s c => cell (fst c) (snd c) s)
      (cells (x1_min st) (x1_max st + 1) (x2_min st) (x2_max st + 1)) st.
Proof.
  intros Hc. unfold box_loop.
  apply (for_loop2_dep_cells x2_min (fun s => x2_max s + 1) cell).
  intros i j s. destruct (Hc i j s) as [-> ->]. tauto.
Qed.

(** ** Normalization *)

Lemma sum_cells_scale live f g n L acc :
  (forall c, In c L -> live (idx p c) = true ->
             g (idx p c) = (n * f (idx p c))%R) ->
  sum_cells p live g L (n * acc) = (n * sum_cells p live f L acc)%R.
Proof.
  revert acc. induction L as [|c L IH]; intros acc Hg; simpl; [reflexivity|].
  destruct (live (idx p c)) eqn:Hl.
  - rewrite (Hg c (or_introl eq_refl) Hl).
    replace (n * acc + n * f (idx p c))%R with (n * (acc + f (idx p c)))%R
      by ring.
    apply IH. intros d Hd. apply Hg. now right.
  - apply IH. intros d Hd. apply Hg. now right.
Qed.

Lemma region_sum_trunc f st :
  isFullGrid p = false ->
  region_sum p f st
  = sum_cells p (TAMask st) f
      (cells (x1_min st) (x1_max st + 1) (x2_min st) (x2_max st + 1)) 0.
Proof.
  intros Hg. unfold region_sum. rewrite Hg. simpl.
  rewrite (for_loop2_cells _ _ _ _
             (fun i1 i2 acc =>
                if TAMask st (i1 * W1 p + i2)
                then (acc + f (i1 * W1 p + i2)%Z)%R else acc)).
  reflexivity.
Qed.

Lemma region_sum_full f st :
  isFullGrid p = true ->
  region_sum p f st
  = sum_cells p (fun _ => true) f
      (cells (EDGE p) (BoxShape_0 p - EDGE p)
             (EDGE p) (BoxShape_1 p - EDGE p)) 0.
Proof.
  intros Hg. unfold region_sum. rewrite Hg. simpl.
  rewrite (for_loop2_cells _ _ _ _
             (fun i1 i2 acc => (acc + f (i1 * W1 p + i2)%Z)%R)).
  reflexivity.
Qed.

Lemma normalize_cell_box n i j s :
  x2_min (normalize_cell p n i j s) = x2_min s
  /\ x2_max (normalize_cell p n i j s) = x2_max s.
Proof. unfold normalize_cell. simpl. tauto. Qed.

Lemma normalize_fold_spec (K : State -> Z -> R) (g : bool) n L st :
  (forall i j s, K (normalize_cell p n i j s)
                 = upd (K s) (i * W1 p + j) (n * FF s (i * W1 p + j))%R) ->
  NoDup (map (idx p) L) ->
  let cell := fun i j s =>
                if g then guarded p (normalize_cell p n) i j s
                else normalize_cell p n i j s in
  let st' := fold_left (fun s c => cell (fst c) (snd c) s) L st in
  view_mask st' = view_mask st
  /\ (forall c, In c L ->
        K st' (idx p c) = K (cell (fst c) (snd c) st) (idx p c)
        /\ FF st' (idx p c) = FF (cell (fst c) (snd c) st) (idx p c)).
Proof.
  intros HK Hnd cell st'.
  destruct (stage_loop_spec _ view_mask K cell) with (L := L) (st := st)
    as (Hv & _ & Hin); try assumption.
  - intros i j s. unfold cell, guarded.
    destruct g; [destruct (TAMask s (i * W1 p + j))|]; reflexivity.
  - intros i j s k Hk. unfold cell, guarded.
    destruct g; [destruct (TAMask s (i * W1 p + j))|];
      try (split; reflexivity);
      rewrite HK; unfold normalize_cell; simpl; now rewrite !upd_other.
  - intros i j s s' Hv Hff Hk. unfold cell, guarded.
    assert (Hm : TAMask s = TAMask s') by (unfold view_mask in Hv; congruence).
    rewrite Hm.
    destruct g; [destruct (TAMask s' (i * W1 p + j))|];
      try (split; assumption);
      rewrite !HK; unfold normalize_cell; simpl; rewrite !upd_same, Hff;
      split; reflexivity.
  - split; assumption.
Qed.

Lemma normalize_cell_F n i j s :
  F (normalize_cell p n i j s)
  = upd (F s) (i * W1 p + j) (n * FF s (i * W1 p + j))%R.
Proof. reflexivity. Qed.

Lemma normalize_cell_PF n i j s :
  PF (normalize_cell p n i j s)
  = upd (PF s) (i * W1 p + j) (n * FF s (i * W1 p + j))%R.
Proof. reflexivity. Qed.



(** ** Row loops *)

Section RowLoop.

(** A loop whose iteration [i] writes the observed keys it [touches];
    [good] holds of the states that agree with the initial one on what
    the iterations read. *)
Variable Key X : Type.
Variable good : State -> Prop.
Variable obs : State -> Key -> X.
Variable row : Z -> State -> State.
Variable touches : Z -> Key -> Prop.

Hypothesis row_good : forall i s, good s -> good (row i s).
Hypothesis row_frame : forall i s k,
  good s -> ~ touches i k -> obs (row i s) k = obs s k.
Hypothesis row_local : forall i s s' k,
  good s -> good s' -> touches i k -> obs (row i s) k = obs (row i s') k.

Lemma row_loop_spec (l : list Z) (st : State) :
  good st ->
  NoDup l ->
  (forall i i' k, In i l -> In i' l -> touches i k -> touches i' k -> i = i') ->
  let st' := fold_left (fun s i => row i s) l st in
  good st'
  /\ (forall i k, In i l -> touches i k -> obs st' k = obs (row i st) k)
  /\ (forall k, (forall i, In i l -> ~ touches i k) -> obs st' k = obs st k).
Proof.
  revert st. induction l as [|a l IH]; intros st Hg Hnd Hdisj; simpl.
  - repeat split; intros; try contradiction; try reflexivity; assumption.
  - inversion Hnd as [|? ? Hna Hnd']; subst.
    destruct (IH (row a st) (row_good a st Hg) Hnd') as (Hv & Hin & Hout).
    { intros i i' k Hi Hi'. apply Hdisj; now right. }
    split; [|split].
    + exact Hv.
    + intros i k [<-|Hi] Ht.
      * rewrite Hout; [reflexivity|].
        intros i' Hi' Ht'. apply Hna.
        rewrite (Hdisj a i' k); auto; [now left|now right].
      * rewrite (Hin i k Hi Ht).
        apply row_local; auto.
    + intros k Hk. rewrite Hout.
      * apply row_frame; [exact Hg|]. apply Hk. now left.
      * intros i Hi. apply Hk. now right.
Qed.

End RowLoop.

(** ** Sums over the live cells of a row *)

Lemma row_sum_spec lo hi live term :
  row_sum lo hi live term = Rsum (map term (filter live (zrange lo hi))).
Proof.
  unfold row_sum, for_loop.
  assert (H : forall l acc,
            fold_left (fun acc i2 => if live i2 then (acc + term i2)%R else acc)
              l acc
            = (acc + Rsum (map term (filter live l)))%R).
  { induction l as [|j l IH]; intros acc; simpl; [ring|].
    rewrite IH. destruct (live j); simpl; ring. }
  rewrite H. ring.
Qed.

Lemma Rsum_scale (t : Z -> R) h l :
  Rsum (map (fun j => t j * h)%R l) = (h * Rsum (map t l))%R.
Proof. induction l as [|j l IH]; simpl; [ring|]. rewrite IH. ring. Qed.

Lemma row_density_spec st i :
  row_density p (x2_min st) (x2_max st + 1) (live_mask p) i st
  = (H_1 p * Rsum (map (fun j => F st (i * W1 p + j)) (live_cols p st i)))%R.
Proof.
  unfold row_density. rewrite row_sum_spec.
  rewrite (Rsum_scale (fun j => F st (i * W1 p + j))). reflexivity.
Qed.

Lemma row_velocity_spec st i rho :
  row_velocity p (x2_min st) (x2_max st + 1) (live_mask p) i rho st
  = (H_1 p / (m p * rho)
     * Rsum (map (fun j => (Box_2 p + IZR j * H_1 p) * F st (i * W1 p + j))%R
               (live_cols p st i)))%R.
Proof.
  unfold row_velocity. rewrite row_sum_spec.
  rewrite (Rsum_scale
             (fun j => (Box_2 p + IZR j * H_1 p) * F st (i * W1 p + j))%R).
  unfold live_cols, live_mask, Rdiv. ring.
Qed.

Lemma row_temperature_spec st i rho u :
  row_temperature p (x2_min st) (x2_max st + 1) (live_mask p) i rho u st
  = (H_1 p / (m p * kb p * rho)
     * Rsum (map (fun j => (Box_2 p + IZR j * H_1 p - m p * u) ^ 2
                           * F st (i * W1 p + j))%R
               (live_cols p st i)))%R.
Proof.
  unfold row_temperature. rewrite row_sum_spec.
  rewrite (Rsum_scale
             (fun j => (Box_2 p + IZR j * H_1 p - m p * u) ^ 2
                       * F st (i * W1 p + j))%R).
  unfold live_cols, live_mask, Rdiv. ring.
Qed.

Lemma init_row_fp_moments st i :
  moments_at
    (init_moments_row_fp p (x2_min st) (x2_max st + 1) (live_mask p) i st) i
  = if Rleb (rho_spec p st i) 0 then (0%R, 0%R, 0%R)
    else (rho_spec p st i, u_spec p st i, T_spec p st i).
Proof.
  unfold init_moments_row_fp, moments_at.
  rewrite row_density_spec. fold (rho_spec p st i).
  destruct (Rleb (rho_spec p st i) 0); simpl; rewrite !upd_same;
    [reflexivity|].
  rewrite row_velocity_spec. fold (u_spec p st i).
  rewrite row_temperature_spec. reflexivity.
Qed.

Lemma init_moments_fp_rows st i :
  x1_min st <= i <= x1_max st ->
  moments_at
    (for_loop (x1_min st) (x1_max st + 1)
       (fun i1 s =>
          init_moments_row_fp p (x2_min s) (x2_max s + 1) (live_mask p) i1 s)
       st) i
  = if Rleb (rho_spec p st i) 0 then (0%R, 0%R, 0%R)
    else (rho_spec p st i, u_spec p st i, T_spec p st i).
Proof.
  intros Hi. rewrite <- init_row_fp_moments. unfold for_loop.
  destruct (row_loop_spec Z _ (fun s => view_rows s = view_rows st) moments_at
              (fun i1 s =>
                 init_moments_row_fp p (x2_min s) (x2_max s + 1)
                   (live_mask p) i1 s)
              (fun i k => k = i))
    with (l := zrange (x1_min st) (x1_max st + 1)) (st := st)
    as (_ & Hin & _).
  - intros i0 s Hs. rewrite <- Hs. unfold init_moments_row_fp.
    destruct (Rleb _ 0); reflexivity.
  - intros i0 s k _ Hk. unfold init_moments_row_fp, moments_at.
    destruct (Rleb _ 0); simpl; now rewrite !upd_other.
  - intros i0 s s' k Hv Hv' ->. rewrite <- Hv' in Hv. unfold view_rows in Hv.
    inversion Hv as [[HF Hm H1 H2]].
    unfold init_moments_row_fp, moments_at, row_density, row_velocity,
      row_temperature, live_mask.
    rewrite HF, Hm, H1, H2.
    destruct (Rleb _ 0); simpl; now rewrite !upd_same.
  - reflexivity.
  - apply NoDup_zrange.
  - intros; congruence.
  - apply Hin; [apply in_zrange; lia|reflexivity].
Qed.

(** C3. In full Fokker-Planck mode (neither linearized nor isothermal),
    for every row [i] of the bounding box the moment engine stores
    [rho_i = h_p Sum_j F(i,j)] over the live cells of the row and, when
    [rho_i > 0], [u_i = (h_p/(m rho_i)) Sum_j p_j F(i,j)] and
    [T_i = (h_p/(m k_B rho_i)) Sum_j (p_j - m u_i)^2 F(i,j)] with
    [p_j = p_lo + j h_p]; when [rho_i <= 0] the three are 0. *)
Theorem C3_moments_full_fokker_planck (st : State) (i : Z) :
  isFullGrid p = false ->
  isLinearizedCollision p = false ->
  isIsothermal p = false ->
  x1_min st <= i <= x1_max st ->
  let st' := init_moments p st in
  (0 < rho_spec p st i ->
     Density st' i = rho_spec p st i
     /\ Velocity st' i = u_spec p st i
     /\ Temperature st' i = T_spec p st i)%R
  /\ (rho_spec p st i <= 0 ->
        Density st' i = 0 /\ Velocity st' i = 0 /\ Temperature st' i = 0)%R.
Proof.
  intros Hg Hl Hiso Hi st'.
  assert (Hm : moments_at st' i
               = if Rleb (rho_spec p st i) 0 then (0%R, 0%R, 0%R)
                 else (rho_spec p st i, u_spec p st i, T_spec p st i)).
  { unfold st', init_moments. rewrite Hg, Hl, Hiso. simpl.
    now apply init_moments_fp_rows. }
  unfold moments_at in Hm. split; intros Hrho.
  - destruct (Rleb (rho_spec p st i) 0) eqn:E.
    + apply Rleb_true in E. lra.
    + inversion Hm. tauto.
  - destruct (Rleb (rho_spec p st i) 0) eqn:E.
    + inversion Hm. tauto.
    + apply Rleb_false in E. lra.
Qed.

(** ** Recomputation of the mask from [PF] *)

Lemma remask_cell_box i j s :
  x2_min (remask_cell p i j s) = x2_min s
  /\ x2_max (remask_cell p i j s) = x2_max s.
Proof.
  unfold remask_cell.
  destruct (Reqb _ 0); [|destruct (negb _)]; simpl; tauto.
Qed.

Lemma remask_fold_spec (L : list (Z * Z)) (st : State) :
  let st' := fold_left (fun s c => remask_cell p (fst c) (snd c) s) L st in
  PF st' = PF st
  /\ (forall k, In k (map (idx p) L) ->
        TAMask st' k = negb (Reqb (PF st k) 0)
        /\ F st' k = if Reqb (PF st k) 0 then 0%R else F st k)
  /\ (forall k, ~ In k (map (idx p) L) ->
        TAMask st' k = TAMask st k /\ F st' k = F st k).
Proof.
  revert st. induction L as [|c L IH]; intros st; simpl.
  - repeat split; intros; try contradiction; reflexivity.
  - destruct (IH (remask_cell p (fst c) (snd c) st)) as (HP & Hin & Hout).
    assert (HP1 : PF (remask_cell p (fst c) (snd c) st) = PF st).
    { unfold remask_cell.
      destruct (Reqb _ 0); [|destruct (negb _)]; reflexivity. }
    assert (Hc : TAMask (remask_cell p (fst c) (snd c) st) (idx p c)
                 = negb (Reqb (PF st (idx p c)) 0)
                 /\ F (remask_cell p (fst c) (snd c) st) (idx p c)
                    = if Reqb (PF st (idx p c)) 0 then 0%R
                      else F st (idx p c)).
    { unfold remask_cell, idx.
      destruct (Reqb (PF st (fst c * W1 p + snd c)) 0) eqn:E; simpl.
      - now rewrite !upd_same.
      - destruct (TAMask st (fst c * W1 p + snd c)) eqn:Em; simpl.
        + now rewrite Em.
        + now rewrite upd_same. }
    assert (Ho : forall k, k <> idx p c ->
                 TAMask (remask_cell p (fst c) (snd c) st) k = TAMask st k
                 /\ F (remask_cell p (fst c) (snd c) st) k = F st k).
    { intros k Hk. unfold remask_cell, idx in *.
      destruct (Reqb _ 0); [|destruct (negb _)]; simpl;
        rewrite ?upd_other by exact Hk; tauto. }
    rewrite HP1 in *. split; [exact HP|split].
    + intros k Hk.
      destruct (in_dec Z.eq_dec k (map (idx p) L)) as [HkL|HkL].
      * destruct (Hin k HkL) as [Hm HF]. split; [exact Hm|].
        rewrite HF. destruct (Reqb (PF st k) 0) eqn:E; [reflexivity|].
        destruct (Z.eq_dec k (idx p c)) as [->|Hne].
        -- destruct Hc as [_ Hc]. now rewrite Hc, E.
        -- now apply Ho.
      * destruct Hk as [Hk|Hk]; [subst k|contradiction].
        destruct (Hout _ HkL) as [Hm HF]. now rewrite Hm, HF.
    + intros k Hk. destruct (Hout k) as [Hm HF]; [tauto|].
      rewrite Hm, HF. apply Ho. intros ->. apply Hk. now left.
Qed.

(** C10. The second loop of the end-of-step truncation recomputes the
    mask from [PF] over the bounding box: after it, a cell of the box is
    live exactly when its [PF] is not 0, whatever the mask said before;
    where [PF] is 0 the cell's [F] is cleared, elsewhere [F] is kept; [PF]
    is not changed. *)
Theorem C10_mask_recomputed_from_PF (st : State) (i1 i2 : Z) :
  x1_min st <= i1 <= x1_max st ->
  x2_min st <= i2 <= x2_max st ->
  let st' := box_loop (remask_cell p) st in
  let k := i1 * W1 p + i2 in
  (TAMask st' k = true <-> PF st k <> 0%R)
  /\ (TAMask st' k = false <-> PF st k = 0%R)
  /\ (PF st k = 0%R -> F st' k = 0%R)
  /\ (PF st k <> 0%R -> F st' k = F st k)
  /\ PF st' = PF st.
Proof.
  intros H1 H2 st' k.
  assert (Hst' : st' = fold_left
                   (fun s c => remask_cell p (fst c) (snd c) s)
                   (cells (x1_min st) (x1_max st + 1)
                          (x2_min st) (x2_max st + 1)) st).
  { unfold st'. apply box_loop_cells. intros; apply remask_cell_box. }
  destruct (remask_fold_spec
              (cells (x1_min st) (x1_max st + 1) (x2_min st) (x2_max st + 1))
              st) as (HP & Hin & _).
  simpl in HP, Hin. rewrite <- Hst' in HP, Hin.
  destruct (Hin k) as [Hm HF].
  { apply in_map_iff. exists (i1, i2). split; [reflexivity|].
    apply in_cells. simpl. lia. }
  rewrite Hm, HF.
  destruct (Reqb (PF st k) 0) eqn:E; simpl.
  - apply Reqb_true in E. repeat split; try tauto; try congruence.
  - apply Reqb_false in E. repeat split; try tauto; try congruence.
Qed.

(** ** The local Maxwellian and its guard *)

Lemma feq_guard_sanitised feq : sanitised p feq (feq_guard p feq).
Proof.
  unfold sanitised, feq_guard.
  destruct (dgt feq (ddiv 1 (H_0 p * H_1 p))); simpl.
  - split; [reflexivity|discriminate].
  - destruct feq; simpl; split; intros; try reflexivity; try discriminate;
      intuition discriminate.
Qed.

Lemma maxwellian_lin_eq rho j :
  maxwellian_lin p rho j = maxwellian p rho 0 (temp p) j.
Proof.
  unfold maxwellian_lin, maxwellian.
  replace (- (Box_2 p + IZR j * H_1 p - m p * 0) ^ 2)%R
    with (- (Box_2 p + IZR j * H_1 p) ^ 2)%R by ring.
  reflexivity.
Qed.

Section RowFeq.

(** The columns [lo..hi-1] and the liveness test of one caller. *)
Variable lo hi : State -> Z.
Variable live : State -> Z -> Z -> bool.

Hypothesis live_view : forall s s' i j, TAMask s = TAMask s' ->
  live s i j = live s' i j.

Hypothesis lo_view : forall s s',
  (F s, TAMask s, x2_min s, x2_max s) = (F s', TAMask s', x2_min s', x2_max s')
  -> lo s = lo s' /\ hi s = hi s'.

Lemma row_feq_spec a b i val st :
  let st' := row_feq p a b live i val st in
  fields_kept st st'
  /\ Density st' = Density st /\ Velocity st' = Velocity st
  /\ Temperature st' = Temperature st
  /\ (forall j, a <= j < b -> live st i j = true ->
        Feq_loc st' (i * W1 p + j) = val j)
  /\ (forall k, (forall j, a <= j < b -> live st i j = true ->
                   k <> i * W1 p + j) ->
        Feq_loc st' k = Feq_loc st k).
Proof.
  unfold row_feq, for_loop.
  assert (H : forall l s,
            let s' := fold_left
                        (fun s i2 =>
                           if live s i i2
                           then set_Feq_loc
                                  (upd (Feq_loc s) (i * W1 p + i2) (val i2)) s
                           else s) l s in
            fields_kept s s'
            /\ Density s' = Density s /\ Velocity s' = Velocity s
            /\ Temperature s' = Temperature s
            /\ (forall j, In j l -> live s i j = true ->
                  Feq_loc s' (i * W1 p + j) = val j)
            /\ (forall k, (forall j, In j l -> live s i j = true ->
                             k <> i * W1 p + j) ->
                  Feq_loc s' k = Feq_loc s k)).
  { induction l as [|j l IH]; intros s; simpl.
    - repeat split; intros; try contradiction; reflexivity.
    - set (s1 := if live s i j
                 then set_Feq_loc (upd (Feq_loc s) (i * W1 p + j) (val j)) s
                 else s).
      destruct (IH s1) as (Hk & HD & HV & HT & Hin & Hout).
      assert (Hk1 : fields_kept s s1).
      { unfold s1. destruct (live s i j); [|apply fields_kept_refl].
        unfold fields_kept. simpl. tauto. }
      assert (Hm1 : Density s1 = Density s /\ Velocity s1 = Velocity s
                    /\ Temperature s1 = Temperature s).
      { unfold s1. destruct (live s i j); simpl; tauto. }
      assert (Hl : forall j', live s1 i j' = live s i j').
      { intros j'. apply live_view. apply Hk1. }
      split; [eapply fields_kept_trans; eassumption|].
      split; [intuition congruence|]. split; [intuition congruence|].
      split; [intuition congruence|]. split.
      + intros j' Hj' Hlive.
        destruct (in_dec Z.eq_dec j' l) as [Hjl|Hjl].
        * apply Hin; [exact Hjl|now rewrite Hl].
        * destruct Hj' as [->|Hj']; [|contradiction].
          rewrite Hout.
          -- unfold s1. rewrite Hlive. simpl. apply upd_same.
          -- intros j0 Hj0 _ He. apply Hjl.
             assert (j0 = j') by lia. now subst.
      + intros k Hk'. rewrite Hout.
        * unfold s1. destruct (live s i j) eqn:E; [|reflexivity].
          simpl. apply upd_other. apply Hk'; [now left|exact E].
        * intros j0 Hj0 Hl0. apply Hk'; [now right|now rewrite <- Hl]. }
  destruct (H (zrange a b) st) as (Hk & HD & HV & HT & Hin & Hout).
  repeat split; try assumption; try apply Hk.
  - intros j Hj. apply Hin. now apply in_zrange.
  - intros k Hk'. apply Hout. intros j Hj. apply Hk'. now apply in_zrange.
Qed.

Lemma store_moments_at_same i a b c s :
  moments_at (store_moments i a b c s) i = (a, b, c).
Proof. unfold moments_at, store_moments. simpl. now rewrite !upd_same. Qed.

Lemma store_moments_at_other i a b c s k :
  k <> i -> moments_at (store_moments i a b c s) k = moments_at s k.
Proof.
  intros Hk. unfold moments_at, store_moments. simpl.
  now rewrite !upd_other.
Qed.

Lemma store_moments_Feq i a b c s :
  Feq_loc (store_moments i a b c s) = Feq_loc s.
Proof. reflexivity. Qed.

Lemma row_feq_moments a b i val st k :
  moments_at (row_feq p a b live i val st) k = moments_at st k.
Proof.
  unfold moments_at.
  now destruct (row_feq_spec a b i val st) as (_ & -> & -> & -> & _).
Qed.

Lemma moments_row_spec st i :
  let st' := moments_row p (lo st) (hi st) live i st in
  fields_kept st st'
  /\ moments_at st' i = row_moments p lo hi live st i
  /\ (forall k, k <> i -> moments_at st' k = moments_at st k)
  /\ (forall j, lo st <= j < hi st -> live st i j = true ->
        Feq_loc st' (i * W1 p + j) = row_feq_stored p lo hi live st i j)
  /\ (forall k, ~ row_cell p lo hi live st i k -> Feq_loc st' k = Feq_loc st k).
Proof.
  intros st'.
  assert (Hout : forall val k, ~ row_cell p lo hi live st i k ->
            Feq_loc (row_feq p (lo st) (hi st) live i val st) k
            = Feq_loc st k).
  { intros val k Hk. apply row_feq_spec. intros j Hj Hl ->. apply Hk.
    exists j. tauto. }
  assert (Hin : forall val j, lo st <= j < hi st -> live st i j = true ->
            Feq_loc (row_feq p (lo st) (hi st) live i val st) (i * W1 p + j)
            = val j).
  { intros val j Hj Hl. now apply row_feq_spec. }
  split; [apply moments_row_kept|].
  unfold st', moments_row, row_feq_stored, row_moments.
  destruct (Rleb (row_density p (lo st) (hi st) live i st) 0) eqn:Ed;
    [|destruct (isLinearizedCollision p); [|destruct (isIsothermal p)]];
    cbn [fst snd];
    (split; [apply store_moments_at_same|]);
    (split; [intros k Hk; rewrite store_moments_at_other by exact Hk;
             apply row_feq_moments|]);
    (split; [intros j Hj Hl; rewrite store_moments_Feq, (Hin _ j Hj Hl);
             rewrite ?maxwellian_lin_eq; reflexivity|]);
    intros k Hk; rewrite store_moments_Feq; now apply Hout.
Qed.

Lemma row_sum_ext a b live1 live2 t1 t2 :
  (forall j, live1 j = live2 j) -> (forall j, t1 j = t2 j) ->
  row_sum a b live1 t1 = row_sum a b live2 t2.
Proof.
  intros Hl Ht. unfold row_sum, for_loop.
  generalize 0%R. induction (zrange a b) as [|j l IH]; intros acc; simpl;
    [reflexivity|].
  now rewrite Hl, Ht, IH.
Qed.

Lemma kept_bounds st s :
  fields_kept st s -> lo s = lo st /\ hi s = hi st.
Proof.
  intros Hk. apply lo_view. unfold fields_kept in Hk.
  destruct Hk as (-> & _ & _ & _ & _ & _ & _ & -> & _ & _ & -> & ->).
  reflexivity.
Qed.

Lemma kept_live st s i j : fields_kept st s -> live s i j = live st i j.
Proof. intros Hk. apply live_view. apply Hk. Qed.

Lemma row_density_kept st s i :
  fields_kept st s ->
  row_density p (lo s) (hi s) live i s
  = row_density p (lo st) (hi st) live i st.
Proof.
  intros Hk. destruct (kept_bounds _ _ Hk) as [-> ->].
  unfold row_density. apply row_sum_ext.
  - intros j. now apply kept_live.
  - intros j. destruct Hk as (-> & _). reflexivity.
Qed.

Lemma row_velocity_kept st s i rho :
  fields_kept st s ->
  row_velocity p (lo s) (hi s) live i rho s
  = row_velocity p (lo st) (hi st) live i rho st.
Proof.
  intros Hk. destruct (kept_bounds _ _ Hk) as [-> ->].
  unfold row_velocity. f_equal. apply row_sum_ext.
  - intros j. now apply kept_live.
  - intros j. destruct Hk as (-> & _). reflexivity.
Qed.

Lemma row_temperature_kept st s i rho u :
  fields_kept st s ->
  row_temperature p (lo s) (hi s) live i rho u s
  = row_temperature p (lo st) (hi st) live i rho u st.
Proof.
  intros Hk. destruct (kept_bounds _ _ Hk) as [-> ->].
  unfold row_temperature. f_equal. apply row_sum_ext.
  - intros j. now apply kept_live.
  - intros j. destruct Hk as (-> & _). reflexivity.
Qed.

Lemma row_moments_kept st s i :
  fields_kept st s -> row_moments p lo hi live s i = row_moments p lo hi live st i.
Proof.
  intros Hk. unfold row_moments.
  rewrite (row_density_kept _ _ i Hk).
  rewrite !(row_velocity_kept _ _ i _ Hk).
  rewrite !(row_temperature_kept _ _ i _ _ Hk). reflexivity.
Qed.

Lemma row_feq_stored_kept st s i j :
  fields_kept st s -> row_feq_stored p lo hi live s i j = row_feq_stored p lo hi live st i j.
Proof.
  intros Hk. unfold row_feq_stored.
  now rewrite (row_density_kept _ _ i Hk), (row_moments_kept _ _ i Hk).
Qed.

Lemma row_cell_kept st s i k :
  fields_kept st s -> row_cell p lo hi live s i k <-> row_cell p lo hi live st i k.
Proof.
  intros Hk. unfold row_cell. destruct (kept_bounds _ _ Hk) as [-> ->].
  split; intros (j & Hj & Hl & He); exists j;
    rewrite (kept_live _ _ i j Hk) in *; tauto.
Qed.

Lemma rows_loop_spec rlo rhi st :
  (forall j, lo st <= j < hi st -> 0 <= j < W1 p) ->
  let st' := for_loop rlo rhi
               (fun i1 s => moments_row p (lo s) (hi s) live i1 s) st in
  fields_kept st st'
  /\ (forall i, rlo <= i < rhi ->
        moments_at st' i = row_moments p lo hi live st i
        /\ (forall j, lo st <= j < hi st -> live st i j = true ->
              Feq_loc st' (i * W1 p + j) = row_feq_stored p lo hi live st i j)).
Proof.
  intros Hcols st'.
  set (row := fun i1 s => moments_row p (lo s) (hi s) live i1 s).
  assert (Est : st' = fold_left (fun s i => row i s) (zrange rlo rhi) st)
    by reflexivity.
  clearbody st'. subst st'.
  assert (Hgood : forall i s, fields_kept st s -> fields_kept st (row i s)).
  { intros i s Hs. eapply fields_kept_trans; [exact Hs|].
    apply moments_row_kept. }
  destruct (row_loop_spec Z _ (fields_kept st) moments_at row
              (fun i k => k = i))
    with (l := zrange rlo rhi) (st := st) as (Hk & HinM & _);
    try assumption.
  - intros i s k Hs Hne. unfold row. now apply (moments_row_spec s i).
  - intros i s s' k Hs Hs' ->. unfold row.
    destruct (moments_row_spec s i) as (_ & -> & _).
    destruct (moments_row_spec s' i) as (_ & -> & _).
    now rewrite (row_moments_kept _ _ i Hs), (row_moments_kept _ _ i Hs').
  - apply fields_kept_refl.
  - apply NoDup_zrange.
  - intros; congruence.
  - destruct (row_loop_spec Z _ (fields_kept st) Feq_loc row
                (fun i k => row_cell p lo hi live st i k))
      with (l := zrange rlo rhi) (st := st) as (_ & HinF & _);
      try assumption.
    + intros i s k Hs Hne. unfold row. apply (moments_row_spec s i).
      now rewrite (row_cell_kept _ _ i k Hs).
    + intros i s s' k Hs Hs' (j & Hj & Hl & ->). unfold row.
      destruct (moments_row_spec s i) as (_ & _ & _ & H1 & _).
      destruct (moments_row_spec s' i) as (_ & _ & _ & H2 & _).
      destruct (kept_bounds _ _ Hs) as [El Eh].
      destruct (kept_bounds _ _ Hs') as [El' Eh'].
      rewrite H1, H2;
        rewrite ?El, ?Eh, ?El', ?Eh', ?(kept_live _ _ i j Hs),
          ?(kept_live _ _ i j Hs'); try assumption.
      now rewrite (row_feq_stored_kept _ _ i j Hs),
        (row_feq_stored_kept _ _ i j Hs').
    + apply fields_kept_refl.
    + apply NoDup_zrange.
    + intros i i' k _ _ (j & Hj & _ & ->) (j' & Hj' & _ & He).
      apply Hcols in Hj, Hj'. nia.
    + split; [exact Hk|]. intros i Hi. split.
      * rewrite (HinM i i); [|apply in_zrange; lia|reflexivity].
        unfold row. apply (moments_row_spec st i).
      * intros j Hj Hl.
        rewrite (HinF i (i * W1 p + j));
          [|apply in_zrange; lia|exists j; tauto].
        unfold row. now apply (moments_row_spec st i).
Qed.

End RowFeq.

Lemma quot_rem_idx e : Z.quot e (M1 p) * W1 p + Z.rem e (M1 p) = e.
Proof.
  unfold M1, W1. rewrite (Z.quot_rem' e (BoxShape_1 p)) at 3. ring.
Qed.

Lemma moments_feq_trunc_spec st :
  0 <= x2_min st -> x2_max st < W1 p ->
  let st' := moments_feq_trunc p st in
  fields_kept st st'
  /\ (forall i, x1_min st <= i <= x1_max st ->
        moments_at st' i
        = row_moments p x2_min (fun s => x2_max s + 1) (live_mask p) st i
        /\ (forall j, x2_min st <= j <= x2_max st ->
              TAMask st (i * W1 p + j) = true ->
              Feq_loc st' (i * W1 p + j)
              = row_feq_stored p x2_min (fun s => x2_max s + 1) (live_mask p)
                  st i j)).
Proof.
  intros Hlo Hhi.
  destruct (rows_loop_spec x2_min (fun s => x2_max s + 1) (live_mask p))
    with (rlo := x1_min st) (rhi := x1_max st + 1) (st := st)
    as (Hk & Hin).
  - intros s s' i j Hm. unfold live_mask. now rewrite Hm.
  - intros s s' He. inversion He. split; congruence.
  - intros j Hj. lia.
  - split; [exact Hk|]. intros i Hi. destruct (Hin i) as [HM HF]; [lia|].
    split; [exact HM|]. intros j Hj Hl. apply HF; [lia|exact Hl].
Qed.

Lemma moments_feq_full_spec st :
  let st' := moments_feq_full p st in
  fields_kept st st'
  /\ (forall i, 0 <= i < BoxShape_0 p ->
        moments_at st' i
        = row_moments p (fun _ => 0) (fun _ => BoxShape_1 p) live_all st i
        /\ (forall j, 0 <= j < BoxShape_1 p ->
              Feq_loc st' (i * W1 p + j)
              = row_feq_stored p (fun _ => 0) (fun _ => BoxShape_1 p) live_all
                  st i j)).
Proof.
  destruct (rows_loop_spec (fun _ => 0) (fun _ => BoxShape_1 p) live_all)
    with (rlo := 0) (rhi := BoxShape_0 p) (st := st)
    as (Hk & Hin).
  - reflexivity.
  - tauto.
  - intros j Hj. unfold W1. lia.
  - split; [exact Hk|]. intros i Hi. destruct (Hin i Hi) as [HM HF].
    split; [exact HM|]. intros j Hj. now apply HF.
Qed.

Lemma feq_ExBD_spec st :
  let st' := feq_ExBD p st in
  Density st' = Density st /\ Velocity st' = Velocity st
  /\ Temperature st' = Temperature st
  /\ (forall e, In e (ExBD st) ->
        Feq_loc st' e
        = if Rltb 0 (Density st (Z.quot e (M1 p)))
          then feq_guard p
                 (maxwellian p (Density st (Z.quot e (M1 p)))
                    (Velocity st (Z.quot e (M1 p)))
                    (Temperature st (Z.quot e (M1 p))) (Z.rem e (M1 p)))
          else 0%R).
Proof.
  unfold feq_ExBD, for_each.
  set (val := fun (s : State) e =>
                if Rltb 0 (Density s (Z.quot e (M1 p)))
                then feq_guard p
                       (maxwellian p (Density s (Z.quot e (M1 p)))
                          (Velocity s (Z.quot e (M1 p)))
                          (Temperature s (Z.quot e (M1 p)))
                          (Z.rem e (M1 p)))
                else 0%R).
  set (body := fun (s : State) (e : Z) =>
                 set_Feq_loc
                   (upd (Feq_loc s)
                      (Z.quot e (M1 p) * W1 p + Z.rem e (M1 p)) (val s e)) s).
  assert (Hbody : forall l s,
            fold_left
              (fun s e =>
                 if Rltb 0 (Density s (Z.quot e (M1 p)))
                 then set_Feq_loc
                        (upd (Feq_loc s)
                           (Z.quot e (M1 p) * W1 p + Z.rem e (M1 p))
                           (feq_guard p
                              (maxwellian p (Density s (Z.quot e (M1 p)))
                                 (Velocity s (Z.quot e (M1 p)))
                                 (Temperature s (Z.quot e (M1 p)))
                                 (Z.rem e (M1 p))))) s
                 else set_Feq_loc
                        (upd (Feq_loc s)
                           (Z.quot e (M1 p) * W1 p + Z.rem e (M1 p)) 0%R) s)
              l s
            = fold_left body l s).
  { induction l as [|e l IH]; intros s; simpl; [reflexivity|].
    rewrite <- IH. f_equal. unfold body, val.
    destruct (Rltb 0 (Density s (Z.quot e (M1 p)))); reflexivity. }
  rewrite Hbody. clear Hbody.
  assert (H : forall l s,
            let s' := fold_left body l s in
            Density s' = Density s /\ Velocity s' = Velocity s
            /\ Temperature s' = Temperature s
            /\ (forall e, In e l -> Feq_loc s' e = val s e)
            /\ (forall k, ~ In k l -> Feq_loc s' k = Feq_loc s k)).
  { induction l as [|e l IH]; intros s; simpl.
    - repeat split; intros; try contradiction; reflexivity.
    - destruct (IH (body s e)) as (HD & HV & HT & Hin & Hout).
      assert (Hval : forall e', val (body s e) e' = val s e') by reflexivity.
      repeat split; try assumption.
      + intros e' He'. destruct (in_dec Z.eq_dec e' l) as [Hl|Hl].
        * now rewrite (Hin e' Hl).
        * destruct He' as [->|He']; [|contradiction].
          rewrite (Hout e' Hl). unfold body at 1. simpl.
          rewrite quot_rem_idx. apply upd_same.
      + intros k Hk. rewrite Hout by tauto. unfold body. simpl.
        rewrite quot_rem_idx. apply upd_other. intros ->. apply Hk. now left. }
  destruct (H (ExBD st) st) as (HD & HV & HT & Hin & _).
  repeat split; assumption.
Qed.

Lemma row_moments_density lo hi live st i :
  (fst (fst (row_moments p lo hi live st i)) > 0)%R ->
  Rleb (row_density p (lo st) (hi st) live i st) 0 = false.
Proof.
  unfold row_moments.
  destruct (Rleb (row_density p (lo st) (hi st) live i st) 0);
    [simpl; lra|reflexivity].
Qed.

(** C9. In each of the three places that build the equilibrium field, and
    in each collision mode, the value stored for a cell of a row with
    positive density is the local Maxwellian [feq] of the row's moments
    when [feq] is finite and at most [1/(h_x h_p)], and 0 when [feq]
    exceeds [1/(h_x h_p)] or is not finite. *)
Theorem C9_feq_sanitised (path : FeqPath) (st : State) (i1 i2 : Z) :
  feq_cell p path st i1 i2 ->
  let st' := feq_pass p path st in
  (0 < Density st' i1)%R ->
  sanitised p
    (maxwellian p (Density st' i1) (Velocity st' i1) (Temperature st' i1) i2)
    (Feq_loc st' (i1 * W1 p + i2)).
Proof.
  destruct path; simpl; intros Hc Hpos.
  - destruct Hc as (Hlo & Hhi & Hi1 & Hi2 & Hl).
    destruct (moments_feq_trunc_spec st Hlo Hhi) as (_ & Hin).
    destruct (Hin i1 Hi1) as [HM HF]. rewrite (HF i2 Hi2 Hl).
    unfold moments_at in HM. unfold row_feq_stored.
    pose proof (row_moments_density x2_min (fun s => x2_max s + 1)
                  (live_mask p) st i1) as E.
    cbv beta in E. rewrite E.
    + rewrite <- HM. simpl. apply feq_guard_sanitised.
    + rewrite <- HM. simpl. lra.
  - destruct (moments_feq_full_spec st) as (_ & Hin).
    destruct Hc as [Hi1 Hi2].
    destruct (Hin i1 Hi1) as [HM HF]. rewrite (HF i2 Hi2).
    unfold moments_at in HM. unfold row_feq_stored.
    pose proof (row_moments_density (fun _ => 0) (fun _ => BoxShape_1 p)
                  live_all st i1) as E.
    cbv beta in E. rewrite E.
    + rewrite <- HM. simpl. apply feq_guard_sanitised.
    + rewrite <- HM. simpl. lra.
  - destruct Hc as (e & He & -> & ->).
    destruct (feq_ExBD_spec st) as (HD & HV & HT & Hin).
    rewrite HD, HV, HT in *. rewrite quot_rem_idx, (Hin e He).
    apply Rltb_true in Hpos. rewrite Hpos. apply feq_guard_sanitised.
Qed.

(** ** Index vectors *)

Lemma in_insert_sorted x y l : In y (insert_sorted x l) <-> y = x \/ In y l.
Proof.
  induction l as [|z l IH]; simpl.
  - intuition.
  - destruct (x <=? z); simpl; rewrite ?IH; intuition.
Qed.

Lemma in_sort x l : In x (sort l) <-> In x l.
Proof.
  unfold sort. induction l as [|y l IH]; simpl; [tauto|].
  rewrite in_insert_sorted, IH. intuition.
Qed.

Lemma in_unique x l : In x (unique l) <-> In x l.
Proof.
  induction l as [|y l IH]; [simpl; tauto|].
  destruct l as [|z l'].
  - simpl. tauto.
  - change (unique (y :: z :: l'))
      with (if y =? z then unique (z :: l') else y :: unique (z :: l')).
    destruct (y =? z) eqn:E.
    + apply Z.eqb_eq in E. subst z. rewrite IH. simpl. tauto.
    + simpl In at 1. rewrite IH. simpl. tauto.
Qed.

Lemma in_set_difference x a b : In x (set_difference a b) -> In x a.
Proof.
  revert b. induction a as [|y a IH]; intros b; [destruct b; simpl; tauto|].
  induction b as [|z b IHb]; [simpl; tauto|].
  simpl. destruct (y <? z).
  - intros [->|H]; [now left|]. right. apply (IH (z :: b)). exact H.
  - destruct (z <? y).
    + exact IHb.
    + intros H. right. apply (IH b). exact H.
Qed.

Lemma sort_nil_iff l : sort l = [] <-> l = [].
Proof.
  split; [|intros ->; reflexivity].
  destruct l as [|x l]; [reflexivity|]. intros H.
  assert (Hin : In x (sort (x :: l))) by (apply in_sort; now left).
  rewrite H in Hin. contradiction.
Qed.

Lemma unique_nil_iff l : unique l = [] <-> l = [].
Proof.
  split; [|intros ->; reflexivity].
  destruct l as [|x l]; [reflexivity|]. intros H.
  assert (Hin : In x (unique (x :: l))) by (apply in_unique; now left).
  rewrite H in Hin. contradiction.
Qed.

(** A loop that pushes the elements passing a test. *)
Lemma in_push_if {A : Type} (t : A -> bool) (l : list A) (acc : list A) x :
  In x (for_each l (fun e tmpVec => if t e then tmpVec ++ [e] else tmpVec) acc)
  <-> In x acc \/ (In x l /\ t x = true).
Proof.
  unfold for_each. revert acc. induction l as [|e l IH]; intros acc; simpl.
  - tauto.
  - rewrite IH. destruct (t e) eqn:E.
    + rewrite in_app_iff. simpl. intuition (subst; auto).
    + intuition (subst; try congruence; auto).
Qed.

(** A loop that pushes, for each element, a list of derived elements. *)
Lemma in_push_list {A B : Type} (g : A -> list B) (l : list A)
  (body : A -> list B -> list B) (acc : list B) x :
  (forall e v y, In y (body e v) <-> In y v \/ In y (g e)) ->
  In x (for_each l body acc) <-> In x acc \/ exists e, In e l /\ In x (g e).
Proof.
  intros Hb. unfold for_each. revert acc.
  induction l as [|e l IH]; intros acc; simpl.
  - split; [tauto|]. intros [H|(e & [] & _)]. exact H.
  - rewrite IH, Hb. split.
    + intros [[H|H]|(e' & He' & H)]; [now left| |].
      * right. exists e. tauto.
      * right. exists e'. tauto.
    + intros [H|(e' & [<-|He'] & H)]; [tauto|tauto|].
      right. exists e'. tauto.
Qed.

(** Sorted index vectors. *)
Lemma insert_sorted_ascending x l :
  ascending l -> ascending (insert_sorted x l).
Proof.
  unfold ascending. induction l as [|y l IH]; intros H; cbn.
  - repeat constructor.
  - inversion H as [|? ? Hs Hf]; subst.
    destruct (x <=? y) eqn:E.
    + apply Z.leb_le in E. constructor; [exact H|].
      constructor; [exact E|].
      rewrite Forall_forall in Hf |- *. intros z Hz. specialize (Hf z Hz). lia.
    + apply Z.leb_gt in E. constructor; [now apply IH|].
      rewrite Forall_forall in Hf |- *. intros z Hz.
      apply in_insert_sorted in Hz. destruct Hz as [->|Hz]; [lia|].
      now apply Hf.
Qed.

Lemma sort_ascending l : ascending (sort l).
Proof.
  unfold sort. induction l as [|x l IH]; cbn; [constructor|].
  now apply insert_sorted_ascending.
Qed.

Lemma unique_strictly_ascending l :
  ascending l -> strictly_ascending (unique l).
Proof.
  unfold ascending, strictly_ascending.
  induction l as [|x l IH]; intros H; [constructor|].
  inversion H as [|? ? Hs Hf]; subst.
  destruct l as [|y l'].
  - cbn. repeat constructor.
  - change (unique (x :: y :: l'))
      with (if x =? y then unique (y :: l') else x :: unique (y :: l')).
    destruct (x =? y) eqn:E; [now apply IH|].
    apply Z.eqb_neq in E. constructor; [now apply IH|].
    rewrite Forall_forall in Hf |- *. intros z Hz.
    rewrite in_unique in Hz.
    apply StronglySorted_inv in Hs. destruct Hs as [Hs' Hf'].
    rewrite Forall_forall in Hf'.
    assert (Hxy : x <= y) by (apply Hf; now left).
    destruct Hz as [<-|Hz]; [lia|].
    specialize (Hf' z Hz). lia.
Qed.

Lemma strictly_ascending_NoDup l : strictly_ascending l -> NoDup l.
Proof.
  unfold strictly_ascending. induction 1 as [|x l Hs IH Hf]; constructor.
  - intros Hin. rewrite Forall_forall in Hf. specialize (Hf x Hin). lia.
  - exact IH.
Qed.

Lemma strictly_ascending_ascending l : strictly_ascending l -> ascending l.
Proof.
  unfold strictly_ascending, ascending.
  induction 1 as [|x l Hs IH Hf]; constructor; [exact IH|].
  rewrite Forall_forall in Hf |- *. intros z Hz. specialize (Hf z Hz). lia.
Qed.

(** The unfolding of the loop over the targets. *)
Lemma extrapolate_list_cons st e l :
  extrapolate_list p st (e :: l)
  = match extrapolate_cell p st e, extrapolate_list p st l with
    | ExOutOfRange, _ => None
    | _, None => None
    | ExUnassigned, Some (c, v) => Some (false :: c, 0%R :: v)
    | ExAssigned x, Some (c, v) => Some (true :: c, x :: v)
    end.
Proof. reflexivity. Qed.

Lemma extrapolate_list_nil st : extrapolate_list p st [] = Some ([], []).
Proof. reflexivity. Qed.

(** ** What the phases leave unchanged *)

Section Projection.

Variable X : Type.
Variable proj : State -> X.

Lemma for_loop_proj lo hi (body : Z -> State -> State) s :
  (forall i s, proj (body i s) = proj s) ->
  proj (for_loop lo hi body s) = proj s.
Proof.
  intros Hb. apply (for_loop_inv (fun s' => proj s' = proj s));
    [reflexivity|].
  intros i s' _ Hs. now rewrite Hb.
Qed.

Lemma for_each_proj {A : Type} (l : list A) (body : A -> State -> State) s :
  (forall a s, proj (body a s) = proj s) ->
  proj (for_each l body s) = proj s.
Proof.
  intros Hb. unfold for_each.
  apply (fold_left_inv (fun s' => proj s' = proj s)); [reflexivity|].
  intros s' a _ Hs. now rewrite Hb.
Qed.

Lemma stage_full_proj cell s :
  (forall i j s, proj (cell i j s) = proj s) ->
  proj (stage_full p cell s) = proj s.
Proof.
  intros Hc. unfold stage_full. apply for_loop_proj. intros i s'.
  apply for_loop_proj. intros j s''. apply Hc.
Qed.

Lemma stage_box_proj cell s :
  (forall i j s, proj (cell i j s) = proj s) ->
  proj (stage_box p cell s) = proj s.
Proof.
  intros Hc. unfold stage_box. apply for_loop_proj. intros i s'.
  apply for_loop_proj. intros j s''.
  destruct (TAMask s'' (i * W1 p + j)); [apply Hc|reflexivity].
Qed.

Lemma box_loop_proj cell s :
  (forall i j s, proj (cell i j s) = proj s) ->
  proj (box_loop cell s) = proj s.
Proof.
  intros Hc. unfold box_loop. apply for_loop_proj. intros i s'.
  apply for_loop_proj. intros j s''. apply Hc.
Qed.

Lemma stage_ExBD_proj cell s :
  (forall i j s, proj (cell i j s) = proj s) ->
  proj (stage_ExBD p cell s) = proj s.
Proof.
  intros Hc. unfold stage_ExBD. apply for_each_proj. intros e s'. apply Hc.
Qed.

Lemma RK4_proj stage s :
  (forall cell s, (forall i j s, proj (cell i j s) = proj s) ->
                  proj (stage cell s) = proj s) ->
  (forall i j s, proj (RK4_1_cell p i j s) = proj s) ->
  (forall i j s, proj (RK4_2_cell p i j s) = proj s) ->
  (forall i j s, proj (RK4_3_cell p i j s) = proj s) ->
  (forall i j s, proj (RK4_4_cell p i j s) = proj s) ->
  proj (RK4 p stage s) = proj s.
Proof.
  intros Hs H1 H2 H3 H4. unfold RK4.
  now rewrite (Hs _ _ H4), (Hs _ _ H3), (Hs _ _ H2), (Hs _ _ H1).
Qed.

Lemma moments_row_proj lo hi live i s :
  (forall v s, proj (set_Feq_loc v s) = proj s) ->
  (forall i a b c s, proj (store_moments i a b c s) = proj s) ->
  proj (moments_row p lo hi live i s) = proj s.
Proof.
  intros Hq Hs. unfold moments_row.
  assert (Hr : forall val, proj (row_feq p lo hi live i val s) = proj s).
  { intros val. unfold row_feq. apply for_loop_proj. intros j s'.
    destruct (live s' i j); [apply Hq|reflexivity]. }
  repeat match goal with
         | |- context [if ?b then _ else _] => destruct b
         end; now rewrite Hs, Hr.
Qed.

Lemma moments_feq_trunc_proj s :
  (forall v s, proj (set_Feq_loc v s) = proj s) ->
  (forall i a b c s, proj (store_moments i a b c s) = proj s) ->
  proj (moments_feq_trunc p s) = proj s.
Proof.
  intros Hq Hs. unfold moments_feq_trunc. apply for_loop_proj.
  intros i s'. now apply moments_row_proj.
Qed.

Lemma moments_feq_full_proj s :
  (forall v s, proj (set_Feq_loc v s) = proj s) ->
  (forall i a b c s, proj (store_moments i a b c s) = proj s) ->
  proj (moments_feq_full p s) = proj s.
Proof.
  intros Hq Hs. unfold moments_feq_full. apply for_loop_proj.
  intros i s'. now apply moments_row_proj.
Qed.

Lemma feq_ExBD_proj s :
  (forall v s, proj (set_Feq_loc v s) = proj s) ->
  proj (feq_ExBD p s) = proj s.
Proof.
  intros Hq. unfold feq_ExBD. apply for_each_proj. intros e s'.
  destruct (Rltb 0 _); apply Hq.
Qed.

Lemma zero_Density_proj s :
  (forall v s, proj (set_Density v s) = proj s) ->
  proj (zero_Density p s) = proj s.
Proof.
  intros Hd. unfold zero_Density. apply for_loop_proj. intros i s'. apply Hd.
Qed.

End Projection.

(** The Runge-Kutta update and the moment pass change neither the
    distribution and mask nor the index vectors. *)
Lemma RK4_box_work s : work (RK4_box p s) = work s.
Proof.
  apply RK4_proj; try reflexivity. intros cell s'. apply stage_box_proj.
Qed.

Lemma RK4_box_fm s : fm (RK4_box p s) = fm s.
Proof.
  apply RK4_proj; try reflexivity. intros cell s'. apply stage_box_proj.
Qed.

Lemma RK4_ExBD_work s : work (RK4_ExBD p s) = work s.
Proof.
  apply RK4_proj; try reflexivity. intros cell s'. apply stage_ExBD_proj.
Qed.

Lemma RK4_ExBD_fm s : fm (RK4_ExBD p s) = fm s.
Proof.
  apply RK4_proj; try reflexivity. intros cell s'. apply stage_ExBD_proj.
Qed.

Lemma RK4_full_fm s : fm (RK4_full p s) = fm s.
Proof.
  apply RK4_proj; try reflexivity. intros cell s'. apply stage_full_proj.
Qed.

Lemma absorb_work l s : work (absorb p l s) = work s.
Proof. unfold absorb. apply for_each_proj. reflexivity. Qed.

Lemma absorb_F l s : F (absorb p l s) = F s.
Proof. unfold absorb. apply for_each_proj. reflexivity. Qed.

Lemma absorb_mask l s k :
  TAMask (absorb p l s) k = true <-> TAMask s k = true \/ In k l.
Proof.
  unfold absorb, for_each. revert s.
  induction l as [|e l IH]; intros s; simpl; [tauto|].
  rewrite IH. simpl. unfold upd. destruct (k =? e) eqn:E.
  - apply Z.eqb_eq in E. subst. tauto.
  - apply Z.eqb_neq in E. intuition congruence.
Qed.

Lemma work_fields st st' :
  work st' = work st ->
  TB st' = TB st /\ TBL st' = TBL st /\ TBL_P st' = TBL_P st
  /\ ExFF st' = ExFF st /\ ExCheck st' = ExCheck st /\ ExTBL st' = ExTBL st
  /\ Excount st' = Excount st /\ isExtrapolate st' = isExtrapolate st
  /\ isFirstExtrp st' = isFirstExtrp st.
Proof. unfold work. intros H. inversion H. tauto. Qed.

Lemma fm_fields st st' :
  fm st' = fm st -> F st' = F st /\ TAMask st' = TAMask st.
Proof. unfold fm. intros H. inversion H. tauto. Qed.

(** ** One pass of the extrapolation loop *)

Lemma commit_work s : work (commit_extrapolation s) = work s.
Proof.
  unfold commit_extrapolation. apply for_each_proj. intros a s'.
  destruct (fst (snd a)); reflexivity.
Qed.

Lemma commit_mask s : TAMask (commit_extrapolation s) = TAMask s.
Proof.
  unfold commit_extrapolation. apply for_each_proj. intros a s'.
  destruct (fst (snd a)); reflexivity.
Qed.

Lemma count_checked_pos s :
  count_checked s <> 0 -> ExFF s <> [].
Proof.
  unfold count_checked, for_each.
  destruct (ExFF s); [simpl; congruence|discriminate].
Qed.

(** What the block under the first [if (ExFF.size() > 0)] does to the
    index vectors. *)
Lemma commit_proj {X : Type} (proj : State -> X) s :
  (forall v s, proj (set_F v s) = proj s) ->
  proj (commit_extrapolation s) = proj s.
Proof.
  intros Hp. unfold commit_extrapolation. apply for_each_proj. intros a s'.
  destruct (fst (snd a)); [apply Hp|reflexivity].
Qed.

Lemma extrapolate_block_work s1 s2 :
  extrapolate_block p s1 = Some s2 ->
  TB s2 = TB s1 /\ TBL s2 = sort (TBL s1) /\ TBL_P s2 = TBL_P s1
  /\ Excount s2 = Excount s1
  /\ isExtrapolate s2 = isExtrapolate s1
  /\ isFirstExtrp s2 = isFirstExtrp s1
  /\ TAMask s2 = TAMask s1
  /\ (forall e, In e (ExFF s2) -> In e (ExFF s1)).
Proof.
  unfold extrapolate_block.
  set (sb := set_ExFF _ (set_TBL _ s1)).
  destruct (extrapolate_list p sb (ExFF sb)) as [[chk vals]|];
    [|discriminate].
  set (sc := commit_extrapolation (set_ExTBL vals (set_ExCheck chk sb))).
  assert (Hsub : forall e, In e (ExFF sc) -> In e (ExFF s1)).
  { intros e. unfold sc. rewrite (commit_proj ExFF) by reflexivity.
    simpl. intros He. rewrite in_unique, in_sort in He.
    apply in_set_difference in He. now rewrite in_sort in He. }
  assert (H1 : TB sc = TB s1)
    by (unfold sc; now rewrite (commit_proj TB) by reflexivity).
  assert (H2 : TBL sc = sort (TBL s1))
    by (unfold sc; now rewrite (commit_proj TBL) by reflexivity).
  assert (H3 : TBL_P sc = TBL_P s1)
    by (unfold sc; now rewrite (commit_proj TBL_P) by reflexivity).
  assert (H4 : Excount sc = Excount s1)
    by (unfold sc; now rewrite (commit_proj Excount) by reflexivity).
  assert (H5 : isExtrapolate sc = isExtrapolate s1)
    by (unfold sc; now rewrite (commit_proj isExtrapolate) by reflexivity).
  assert (H6 : isFirstExtrp sc = isFirstExtrp s1)
    by (unfold sc; now rewrite (commit_proj isFirstExtrp) by reflexivity).
  assert (H7 : TAMask sc = TAMask s1)
    by (unfold sc; now rewrite (commit_proj TAMask) by reflexivity).
  destruct (count_checked sc =? 0); intros E; inversion E; subst s2; simpl;
    repeat split; try assumption; try contradiction.
Qed.

Lemma first_pass_body_work s :
  TB (first_pass_body p s) = TB s /\ TBL (first_pass_body p s) = TBL s
  /\ TBL_P (first_pass_body p s) = TBL_P s
  /\ ExFF (first_pass_body p s) = ExFF s
  /\ ExCheck (first_pass_body p s) = ExCheck s
  /\ ExTBL (first_pass_body p s) = ExTBL s
  /\ Excount (first_pass_body p s) = Excount s
  /\ isExtrapolate (first_pass_body p s) = isExtrapolate s
  /\ isFirstExtrp (first_pass_body p s) = false.
Proof.
  unfold first_pass_body.
  set (X := RK4_box p _).
  assert (HX : work X = work s).
  { unfold X. rewrite RK4_box_work.
    rewrite moments_feq_trunc_proj by reflexivity.
    rewrite zero_Density_proj by reflexivity. apply absorb_work. }
  clearbody X. apply work_fields in HX.
  destruct HX as (H1 & H2 & H3 & H4 & H5 & H6 & H7 & H8 & _).
  repeat split; assumption.
Qed.

Lemma later_pass_body_work s :
  work (later_pass_body p s) = work s.
Proof.
  unfold later_pass_body. rewrite RK4_ExBD_work.
  rewrite feq_ExBD_proj by reflexivity.
  destruct (0 <? Z.of_nat (length (ExFF s))); [|reflexivity].
  change (work (set_ExBD
                  (build_ExBD p (absorb p (expand_later p s) s))
                  (absorb p (expand_later p s) s)))
    with (work (absorb p (expand_later p s) s)).
  apply absorb_work.
Qed.

Lemma rebuild_frontier_spec s :
  let s' := rebuild_frontier p s in
  ExFF s' = ExFF s /\ ExCheck s' = ExCheck s
  /\ isFirstExtrp s' = isFirstExtrp s
  /\ isExtrapolate s' = isExtrapolate s
  /\ fm s' = fm s
  /\ Excount s' = Excount s + 1
  /\ (Excount s' = ExLimit p -> TBL s' = [])
  /\ (forall e, In e (TBL s') -> In e (ExFF s)).
Proof.
  unfold rebuild_frontier.
  set (tmpVec := for_each (combine (ExFF s) (ExCheck s)) _ []).
  set (tbl := set_difference (sort tmpVec) (sort (TBL_P s))).
  assert (Hsub : forall e, In e tbl -> In e (ExFF s)).
  { intros e He. apply in_set_difference in He. rewrite in_sort in He.
    unfold tmpVec in He.
    assert (Hgen : forall l acc,
              In e (for_each l
                      (fun (ec : Z * bool) (tmpVec : list Z) =>
                         if snd ec
                         then if refrontier_test p s (fst ec)
                              then tmpVec ++ [fst ec] else tmpVec
                         else tmpVec) acc) ->
              In e acc \/ In e (map fst l)).
    { unfold for_each. induction l as [|[x c] l IH]; intros acc; simpl;
        [tauto|].
      intros H. apply IH in H. destruct H as [H|H]; [|tauto].
      destruct c; simpl in H; [|tauto].
      destruct (refrontier_test p s x); [|tauto].
      apply in_app_iff in H. simpl in H. tauto. }
    apply Hgen in He. destruct He as [[]|He].
    apply in_map_iff in He as ([x c] & <- & Hxc).
    now apply in_combine_l in Hxc. }
  simpl. destruct (Excount s + 1 =? ExLimit p) eqn:E; simpl;
    repeat split; try assumption; try tauto.
  intros E'. apply Z.eqb_neq in E. contradiction.
Qed.

(** The index vectors after a pass, from those before it. *)
Lemma ext_pass_summary st st' :
  ext_pass p st = Some st' ->
  (forall e, In e (ExFF st') -> In e (extrap_targets p (pass_start st)))
  /\ isFirstExtrp st' = false
  /\ (ExFF st' <> [] ->
        Excount st' = Excount st + 1
        /\ (Excount st' = ExLimit p -> TBL st' = [])
        /\ (forall e, In e (TBL st') -> In e (ExFF st')))
  /\ (ExFF st' = [] ->
        Excount st' = Excount st
        /\ (if isFirstExtrp st
            then forall e, In e (TBL st') <-> In e (TBL st)
            else TBL st' = [])).
Proof.
  unfold ext_pass. fold (pass_start st).
  set (s0 := pass_start st).
  set (s1 := set_ExFF (extrap_targets p s0) s0).
  assert (Hs1 : TBL s1 = unique (sort (TBL st))
                /\ Excount s1 = Excount st
                /\ isFirstExtrp s1 = isFirstExtrp st
                /\ ExFF s1 = extrap_targets p s0) by (simpl; tauto).
  destruct Hs1 as (HT1 & HC1 & HF1 & HE1).
  set (blk := if 0 <? Z.of_nat (length (ExFF s1))
              then extrapolate_block p s1 else Some s1).
  assert (Hblk : forall s2, blk = Some s2 ->
            (forall e, In e (TBL s2) <-> In e (TBL st))
            /\ Excount s2 = Excount st
            /\ isFirstExtrp s2 = isFirstExtrp st
            /\ (forall e, In e (ExFF s2) -> In e (extrap_targets p s0))).
  { intros s2. unfold blk.
    destruct (0 <? Z.of_nat (length (ExFF s1))).
    - intros Hb. apply extrapolate_block_work in Hb.
      destruct Hb as (_ & HT & _ & HC & _ & HF & _ & HE).
      split; [|split; [|split]].
      + intros e. rewrite HT, HT1, in_sort, in_unique, in_sort. tauto.
      + congruence.
      + congruence.
      + intros e He. rewrite <- HE1. now apply HE.
    - intros E. inversion E; subst s2.
      split; [|split; [|split]].
      + intros e. rewrite HT1, in_unique, in_sort. tauto.
      + congruence.
      + congruence.
      + intros e He. now rewrite <- HE1. }
  destruct blk as [s2|]; [|discriminate].
  destruct (Hblk s2 eq_refl) as (HT2 & HC2 & HF2 & HE2). clear Hblk.
  set (s3 := if isFirstExtrp s2 then first_pass_body p s2
             else if Z.of_nat (length (ExFF s2)) =? 0 then set_TBL [] s2
                  else later_pass_body p s2).
  assert (Hs3 : ExFF s3 = ExFF s2 /\ Excount s3 = Excount s2
                /\ isFirstExtrp s3 = false
                /\ (if isFirstExtrp st then TBL s3 = TBL s2
                    else ExFF s2 = [] -> TBL s3 = [])).
  { unfold s3. rewrite <- HF2. destruct (isFirstExtrp s2) eqn:Ef.
    - destruct (first_pass_body_work s2)
        as (_ & H2 & _ & H4 & _ & _ & H7 & _ & H9). tauto.
    - destruct (Z.of_nat (length (ExFF s2)) =? 0) eqn:El.
      + repeat split; try reflexivity. exact Ef.
      + destruct (work_fields _ _ (later_pass_body_work s2))
          as (_ & H2 & _ & H4 & _ & _ & H7 & _ & H9).
        split; [exact H4|split; [exact H7|split]].
        * congruence.
        * intros Hnil. rewrite Hnil in El. discriminate. }
  destruct Hs3 as (HE3 & HC3 & HF3 & HT3).
  intros Hst'. inversion Hst' as [Hst'']. clear Hst'.
  destruct (0 <? Z.of_nat (length (ExFF s3))) eqn:Elen.
  - destruct (rebuild_frontier_spec s3)
      as (RE & _ & RF & _ & _ & RC & RL & RT).
    assert (Hne : ExFF s3 <> []).
    { destruct (ExFF s3); [discriminate|congruence]. }
    rewrite RE. split; [|split; [|split]].
    + intros e He. apply HE2. now rewrite <- HE3.
    + congruence.
    + intros _. repeat split; [lia|exact RL|exact RT].
    + intros Hnil. contradiction.
  - assert (Hnil : ExFF s3 = []).
    { destruct (ExFF s3); [reflexivity|discriminate]. }
    split; [|split; [|split]].
    + intros e He. rewrite Hnil in He. contradiction.
    + exact HF3.
    + intros Hne. contradiction.
    + intros _. split; [congruence|].
      destruct (isFirstExtrp st).
      * intros e. rewrite HT3. apply HT2.
      * apply HT3. congruence.
Qed.

(** ** The frontier stays in the interior *)

Lemma decode_idx i j :
  0 <= i -> 0 <= j < W1 p ->
  Z.quot (i * W1 p + j) (M1 p) = i /\ Z.rem (i * W1 p + j) (M1 p) = j.
Proof.
  intros Hi Hj. unfold M1, W1 in *.
  assert (H0 : 0 <= i * BoxShape_1 p + j) by nia.
  rewrite Z.quot_div_nonneg, Z.rem_mod_nonneg by lia.
  split.
  - symmetry. apply (Z.div_unique _ _ i j); lia.
  - symmetry. apply (Z.mod_unique _ _ i j); lia.
Qed.

Lemma in_build_TBL st e :
  In e (TBL (build_TBL p st)) -> In e (TB st) /\ frontier_test p st e = true.
Proof.
  unfold build_TBL. simpl. intros He.
  apply (in_push_if (frontier_test p st)) in He. destruct He as [[]|He].
  exact He.
Qed.

Lemma frontier_test_interior st e :
  frontier_test p st e = true -> interior p e.
Proof.
  unfold frontier_test, interior. intros H.
  apply andb_prop in H as [H H4]. apply andb_prop in H as [_ H3].
  apply andb_prop in H3 as [Ha Hb]. apply andb_prop in H4 as [Hc Hd].
  lia.
Qed.

Lemma in_extrap_targets st x :
  In x (extrap_targets p st) <-> exists e, In e (TBL st) /\ In x (targets_of p st e).
Proof.
  unfold extrap_targets.
  rewrite (in_push_list (targets_of p st)).
  - simpl. tauto.
  - intros e v y. unfold targets_of.
    repeat match goal with
           | |- context [if ?b then _ else _] => destruct b
           end;
      simpl; rewrite ?in_app_iff; simpl; rewrite ?in_app_iff; simpl; tauto.
Qed.

Lemma targets_interior st e x :
  0 <= EDGE p -> interior p e -> In x (targets_of p st e) -> interior p x.
Proof.
  intros HE (H1 & H2 & H3 & H4). unfold targets_of.
  set (g1 := Z.quot e (M1 p)) in *. set (g2 := Z.rem e (M1 p)) in *.
  intros Hx. rewrite !in_app_iff in Hx.
  assert (Hdec : forall i j, 0 <= i -> 0 <= j < W1 p ->
            EDGE p < i -> EDGE p < j -> i < BoxShape_0 p - EDGE p - 1 ->
            j < BoxShape_1 p - EDGE p - 1 -> interior p (i * W1 p + j)).
  { intros i j Hi Hj A B C D. unfold interior.
    destruct (decode_idx i j Hi Hj) as [-> ->]. lia. }
  destruct Hx as [Hx|[Hx|[Hx|Hx]]];
    match type of Hx with
    | In _ (if ?b then _ else _) =>
        destruct b eqn:Eb; [|contradiction];
        destruct Hx as [<-|[]]; apply andb_prop in Eb as [Eb _]
    end; apply Hdec; unfold W1; lia.
Qed.

Lemma interior_reads e :
  1 <= EDGE p -> interior p e -> reads_in_grid p e.
Proof.
  intros HE (H1 & H2 & H3 & H4). unfold reads_in_grid, in_grid, O1, W1.
  set (g1 := Z.quot e (M1 p)) in *. set (g2 := Z.rem e (M1 p)) in *.
  repeat split; nia.
Qed.

(** C7. Every index placed in the frontier [TBL], by the build from the
    boundary ring before the loop and by every rebuild inside the loop,
    is a cell [(i, j)] with [i > E], [j > E], [i < N_x-E-1] and
    [j < N_p-E-1]; the targets of the next pass then read only cells of
    the grid, two cells back included. *)
Theorem C7_frontier_interior (st : State) (n : nat) (st' : State) :
  1 <= EDGE p ->
  isFullGrid p = false ->
  passes p n (begin_step p st) = Some st' ->
  Forall (interior p) (TBL st')
  /\ (forall x, In x (extrap_targets p (pass_start st')) ->
        interior p x /\ reads_in_grid p x).
Proof.
  intros HE Hg Hn.
  assert (HT : Forall (interior p) (TBL st')).
  { revert st' Hn. induction n as [|n IH]; intros st' Hn.
    - simpl in Hn. inversion Hn; subst st'. apply Forall_forall.
      intros e He.
      assert (HT0 : TBL (begin_step p st)
                    = TBL (build_TBL p (set_Excount 0 st))).
      { unfold begin_step. rewrite Hg. reflexivity. }
      rewrite HT0 in He. apply in_build_TBL in He.
      now apply (frontier_test_interior (set_Excount 0 st) e).
    - simpl in Hn. destruct (passes p n (begin_step p st)) as [s|];
        [|discriminate].
      specialize (IH s eq_refl). rewrite Forall_forall in IH.
      destruct (ext_pass_summary s st' Hn) as (Htg & _ & Hne & Hnil).
      apply Forall_forall. intros e He.
      destruct (ExFF st') as [|x l] eqn:Ex.
      + destruct (Hnil eq_refl) as [_ Hcase].
        destruct (isFirstExtrp s).
        * apply IH. now apply Hcase.
        * rewrite Hcase in He. contradiction.
      + destruct Hne as (_ & _ & Hsub); [discriminate|].
        apply Hsub in He. apply Htg in He.
        apply in_extrap_targets in He as (e0 & He0 & Hx).
        apply (targets_interior (pass_start s) e0); [lia| |exact Hx].
        apply IH. simpl in He0. now rewrite in_unique, in_sort in He0. }
  split; [exact HT|].
  intros x Hx. apply in_extrap_targets in Hx as (e0 & He0 & Hx).
  assert (Hi : interior p x).
  { apply (targets_interior (pass_start st') e0); [lia| |exact Hx].
    rewrite Forall_forall in HT. apply HT.
    simpl in He0. now rewrite in_unique, in_sort in He0. }
  split; [exact Hi|]. now apply interior_reads.
Qed.

(** ** Termination of the extrapolation loop *)

Lemma loop_cond_true st :
  loop_cond p st = true ->
  TBL st <> [] /\ isFullGrid p = false /\ Excount st < ExLimit p.
Proof.
  unfold loop_cond. intros H.
  apply andb_prop in H as [H H3]. apply andb_prop in H as [H1 H2].
  repeat split.
  - intros E. rewrite E in H1. discriminate.
  - now destruct (isFullGrid p).
  - lia.
Qed.

Lemma loop_cond_nil st : TBL st = [] -> loop_cond p st = false.
Proof. unfold loop_cond. now intros ->. Qed.

Lemma remaining_passes_decrease st st' :
  loop_cond p st = true ->
  ext_pass p st = Some st' ->
  (remaining_passes p st' + 1 <= remaining_passes p st)%nat.
Proof.
  intros Hc Hp. destruct (loop_cond_true st Hc) as (_ & _ & Hlt).
  destruct (ext_pass_summary st st' Hp) as (_ & Hf & Hne & Hnil).
  unfold remaining_passes. rewrite Hc, Hf.
  destruct (loop_cond p st') eqn:Hc'; [|lia].
  destruct (loop_cond_true st' Hc') as (Ht' & _ & Hlt').
  destruct (ExFF st') as [|x l] eqn:Ex.
  - destruct (Hnil eq_refl) as [HC Hcase].
    destruct (isFirstExtrp st); [lia|contradiction].
  - destruct Hne as (HC & _ & _); [discriminate|].
    destruct (isFirstExtrp st); lia.
Qed.

Lemma ext_loop_bound fuel : forall st k,
  (remaining_passes p st <= fuel)%nat ->
  ext_loop p fuel k st <> OutOfFuel
  /\ (forall s n, ext_loop p fuel k st = Finished s n ->
        loop_cond p s = false
        /\ (k <= n <= k + remaining_passes p st)%nat).
Proof.
  induction fuel as [|fuel IH]; intros st k Hb; simpl.
  - destruct (loop_cond p st) eqn:Hc.
    + unfold remaining_passes in Hb. rewrite Hc in Hb.
      destruct (loop_cond_true st Hc) as (_ & _ & Hlt). lia.
    + split; [discriminate|]. intros s n E. inversion E; subst.
      split; [exact Hc|lia].
  - destruct (loop_cond p st) eqn:Hc.
    + destruct (ext_pass p st) as [st'|] eqn:Hp.
      * pose proof (remaining_passes_decrease st st' Hc Hp) as Hd.
        destruct (IH st' (S k)) as [H1 H2]; [lia|].
        split; [exact H1|]. intros s n E.
        destruct (H2 s n E) as [Hf Hn]. split; [exact Hf|lia].
      * split; discriminate.
    + split; [discriminate|]. intros s n E. inversion E; subst.
      split; [exact Hc|lia].
Qed.

(** A pass that finds no target: the first one still runs the update,
    a later one only clears the frontier. *)
Lemma ext_pass_no_target_first st :
  extrap_targets p (pass_start st) = [] ->
  isFirstExtrp st = true ->
  ext_pass p st = Some (first_pass_body p (set_ExFF [] (pass_start st))).
Proof.
  intros Ht Hf. unfold ext_pass. fold (pass_start st). rewrite Ht. cbn.
  rewrite Hf.
  destruct (first_pass_body_work (set_ExFF [] (pass_start st)))
    as (_ & _ & _ & H4 & _).
  rewrite H4. reflexivity.
Qed.

Lemma ext_pass_no_target_later st :
  extrap_targets p (pass_start st) = [] ->
  isFirstExtrp st = false ->
  ext_pass p st = Some (set_TBL [] (set_ExFF [] (pass_start st))).
Proof.
  intros Ht Hf. unfold ext_pass. fold (pass_start st). rewrite Ht. cbn.
  rewrite Hf. reflexivity.
Qed.

(** ** The distribution vanishes outside the mask *)

Lemma nonlive_zero_fm st st' :
  fm st' = fm st -> nonlive_zero st -> nonlive_zero st'.
Proof.
  unfold nonlive_zero. intros E H k. destruct (fm_fields _ _ E) as [HF HM].
  rewrite HF, HM. apply H.
Qed.

Lemma in_combine3 {A B C : Type} (l1 : list A) (l2 : list B) (l3 : list C)
  a b c :
  In (a, (b, c)) (combine l1 (combine l2 l3)) -> In (a, b) (combine l1 l2).
Proof.
  revert l2 l3. induction l1 as [|x l1 IH]; intros l2 l3; simpl; [tauto|].
  destruct l2 as [|y l2]; simpl; [tauto|].
  destruct l3 as [|z l3]; simpl; [tauto|].
  intros [E|H]; [inversion E; now left|right; eapply IH; eassumption].
Qed.

Lemma commit_F s k :
  ~ checked s k -> F (commit_extrapolation s) k = F s k.
Proof.
  unfold checked, commit_extrapolation, for_each. intros Hk.
  assert (H : forall (l : list (Z * (bool * R))) (s0 : State),
            (forall v, ~ In (k, (true, v)) l) ->
            F (fold_left
                 (fun (s : State) (ecv : Z * (bool * R)) =>
                    if fst (snd ecv)
                    then set_F (upd (F s) (fst ecv) (snd (snd ecv))) s
                    else s) l s0) k = F s0 k).
  { induction l as [|[e [c v]] l IH]; intros s0 Hl; simpl; [reflexivity|].
    rewrite IH.
    - destruct c; [|reflexivity]. simpl. apply upd_other. intros ->.
      apply (Hl v). now left.
    - intros v' Hv'. apply (Hl v'). now right. }
  apply H. intros v Hv. apply Hk. eapply in_combine3. exact Hv.
Qed.

Lemma count_checked_zero s :
  count_checked s = 0 -> forall k, ~ checked s k.
Proof.
  unfold count_checked, checked, for_each. intros H k.
  assert (Hge : forall l n, 0 <= n ->
            n <= fold_left (fun n (ec : Z * bool) =>
                              if snd ec then n + 1 else n) l n).
  { induction l as [|[e c] l IH]; intros n Hn; simpl; [lia|].
    destruct c; [|now apply IH].
    assert (Hn1 : 0 <= n + 1) by lia. specialize (IH (n + 1) Hn1). lia. }
  assert (Hpos : forall l n, 0 <= n -> In (k, true) l ->
            n < fold_left (fun n (ec : Z * bool) =>
                             if snd ec then n + 1 else n) l n).
  { induction l as [|[e c] l IH]; intros n Hn; simpl; [tauto|].
    intros [E|Hin].
    - inversion E; subst. specialize (Hge l (n + 1)). lia.
    - destruct c; [|now apply IH].
      assert (Hn1 : 0 <= n + 1) by lia.
      specialize (IH (n + 1) Hn1 Hin). lia. }
  intros Hin. specialize (Hpos _ 0 (Z.le_refl 0) Hin). lia.
Qed.

(** After the extrapolation block [F] differs from before at assigned
    targets only. *)
Lemma extrapolate_block_F s1 s2 :
  extrapolate_block p s1 = Some s2 ->
  forall k, ~ checked s2 k -> F s2 k = F s1 k.
Proof.
  unfold extrapolate_block.
  set (sb := set_ExFF _ (set_TBL _ s1)).
  destruct (extrapolate_list p sb (ExFF sb)) as [[chk vals]|];
    [|discriminate].
  set (sd := set_ExTBL vals (set_ExCheck chk sb)).
  set (sc := commit_extrapolation sd).
  assert (Hch : forall k, checked sc k <-> checked sd k).
  { intros k. unfold checked, sc.
    now rewrite (commit_proj ExFF), (commit_proj ExCheck) by reflexivity. }
  destruct (count_checked sc =? 0) eqn:Ec; intros E; inversion E; subst s2;
    intros k Hk.
  - apply Z.eqb_eq in Ec. simpl. unfold sc. rewrite commit_F; [reflexivity|].
    rewrite <- Hch. now apply count_checked_zero.
  - unfold sc. rewrite commit_F; [reflexivity|]. now rewrite <- Hch.
Qed.

Lemma in_expand_first s k : checked s k -> In k (expand_first p s).
Proof.
  unfold checked, expand_first, for_each.
  assert (H : forall l acc,
            In k acc \/ In (k, true) l ->
            In k (fold_left
                    (fun (tmpVec : list Z) (ec : Z * bool) =>
                       if snd ec then
                         let g1 := Z.quot (fst ec) (M1 p) in
                         let g2 := Z.rem (fst ec) (M1 p) in
                         let v0 := tmpVec ++ [g1 * W1 p + g2] in
                         let v1 := if (g1 + 1 <? BoxShape_0 p - EDGE p - 1)
                                      && negb (TAMask s ((g1 + 1) * W1 p + g2))
                                   then v0 ++ [(g1 + 1) * W1 p + g2] else v0 in
                         let v2 := if (g1 - 1 >? EDGE p)
                                      && negb (TAMask s ((g1 - 1) * W1 p + g2))
                                   then v1 ++ [(g1 - 1) * W1 p + g2] else v1 in
                         let v3 := if (g2 + 1 <? BoxShape_1 p - EDGE p - 1)
                                      && negb (TAMask s (g1 * W1 p + (g2 + 1)))
                                   then v2 ++ [g1 * W1 p + (g2 + 1)] else v2 in
                         if (g2 - 1 >? EDGE p)
                            && negb (TAMask s (g1 * W1 p + (g2 - 1)))
                         then v3 ++ [g1 * W1 p + (g2 - 1)] else v3
                       else tmpVec) l acc)).
  { induction l as [|[e c] l IH]; intros acc; simpl; [tauto|].
    intros Hk. apply IH.
    destruct Hk as [Hk|[E|Hk]]; [| |tauto].
    - left. destruct c; [|exact Hk]. simpl.
      repeat match goal with
             | |- context [if ?b then _ else _] => destruct b
             end; rewrite ?in_app_iff; tauto.
    - inversion E; subst. left. simpl. rewrite quot_rem_idx.
      repeat match goal with
             | |- context [if ?b then _ else _] => destruct b
             end; rewrite ?in_app_iff; simpl; tauto. }
  intros Hk. apply H. now right.
Qed.

Lemma in_expand_later s k :
  checked s k -> TAMask s k = true \/ In k (expand_later p s).
Proof.
  intros Hk. destruct (TAMask s k) eqn:Em; [now left|right].
  revert Hk. unfold checked, expand_later, for_each.
  assert (H : forall l acc,
            In k acc \/ In (k, true) l ->
            In k (fold_left
                    (fun (tmpVec : list Z) (ec : Z * bool) =>
                       if snd ec then
                         let g1 := Z.quot (fst ec) (M1 p) in
                         let g2 := Z.rem (fst ec) (M1 p) in
                         let v0 := if negb (TAMask s (g1 * W1 p + g2))
                                   then tmpVec ++ [g1 * W1 p + g2]
                                   else tmpVec in
                         let v1 := if (g1 + 1 <? BoxShape_0 p - EDGE p - 1)
                                      && negb (TAMask s ((g1 + 1) * W1 p + g2))
                                   then v0 ++ [(g1 + 1) * W1 p + g2] else v0 in
                         let v2 := if (g1 - 1 >? EDGE p)
                                      && negb (TAMask s ((g1 - 1) * W1 p + g2))
                                   then v1 ++ [(g1 - 1) * W1 p + g2] else v1 in
                         let v3 := if (g2 + 1 <? BoxShape_1 p - EDGE p - 1)
                                      && negb (TAMask s (g1 * W1 p + (g2 + 1)))
                                   then v2 ++ [g1 * W1 p + (g2 + 1)] else v2 in
                         if (g2 - 1 >? EDGE p)
                            && negb (TAMask s (g1 * W1 p + (g2 - 1)))
                         then v3 ++ [g1 * W1 p + (g2 - 1)] else v3
                       else tmpVec) l acc)).
  { induction l as [|[e c] l IH]; intros acc; simpl; [tauto|].
    intros Hk. apply IH.
    destruct Hk as [Hk|[E|Hk]]; [| |tauto].
    - left. destruct c; [|exact Hk]. simpl.
      repeat match goal with
             | |- context [if ?b then _ else _] => destruct b
             end; rewrite ?in_app_iff; tauto.
    - inversion E; subst. left. simpl. rewrite quot_rem_idx, Em. simpl.
      repeat match goal with
             | |- context [if ?b then _ else _] => destruct b
             end; rewrite ?in_app_iff; simpl; tauto. }
  intros Hk. apply H. now right.
Qed.

Lemma first_pass_body_fm s :
  F (first_pass_body p s) = F s
  /\ (forall k, TAMask (first_pass_body p s) k = true
                <-> TAMask s k = true \/ In k (expand_first p s)).
Proof.
  unfold first_pass_body.
  set (sa := absorb p (expand_first p s) s).
  set (X := RK4_box p (moments_feq_trunc p (zero_Density p sa))).
  assert (E : fm X = fm sa).
  { unfold X. rewrite RK4_box_fm.
    rewrite moments_feq_trunc_proj by reflexivity.
    now rewrite zero_Density_proj by reflexivity. }
  destruct (fm_fields _ _ E) as [HF HM]. clearbody X. split.
  - change (F X = F s). rewrite HF. apply absorb_F.
  - intros k.
    change (TAMask X k = true
            <-> (TAMask s k = true \/ In k (expand_first p s))).
    rewrite HM. apply absorb_mask.
Qed.

Lemma later_pass_body_fm s :
  ExFF s <> [] ->
  F (later_pass_body p s) = F s
  /\ (forall k, TAMask (later_pass_body p s) k = true
                <-> TAMask s k = true \/ In k (expand_later p s)).
Proof.
  intros Hne. unfold later_pass_body.
  assert (Hlen : (0 <? Z.of_nat (length (ExFF s))) = true).
  { destruct (ExFF s); [contradiction|reflexivity]. }
  rewrite Hlen.
  set (sa := absorb p (expand_later p s) s).
  set (X := RK4_ExBD p (feq_ExBD p (set_ExBD (build_ExBD p sa) sa))).
  assert (E : fm X = fm sa).
  { unfold X. rewrite RK4_ExBD_fm. now rewrite feq_ExBD_proj by reflexivity. }
  destruct (fm_fields _ _ E) as [HF HM]. clearbody X. split.
  - rewrite HF. apply absorb_F.
  - intros k. rewrite HM. apply absorb_mask.
Qed.

Lemma ext_pass_nonlive_zero st st' :
  ext_pass p st = Some st' -> nonlive_zero st -> nonlive_zero st'.
Proof.
  unfold ext_pass. fold (pass_start st).
  set (s0 := pass_start st).
  set (s1 := set_ExFF (extrap_targets p s0) s0).
  intros Hp Hinv.
  assert (Hblk : forall s2,
            (if 0 <? Z.of_nat (length (ExFF s1))
             then extrapolate_block p s1 else Some s1) = Some s2 ->
            TAMask s2 = TAMask st
            /\ (forall k, ~ checked s2 k -> F s2 k = F st k)
            /\ (ExFF s2 = [] -> forall k, F s2 k = F st k)).
  { intros s2. destruct (0 <? Z.of_nat (length (ExFF s1))) eqn:El.
    - intros Hb. pose proof (extrapolate_block_F s1 s2 Hb) as HF.
      apply extrapolate_block_work in Hb.
      destruct Hb as (_ & _ & _ & _ & _ & _ & HM & _).
      repeat split; [exact HM|exact HF|].
      intros Hnil k. apply HF. unfold checked. rewrite Hnil. simpl. tauto.
    - intros E. inversion E; subst s2. repeat split; reflexivity. }
  destruct (if 0 <? Z.of_nat (length (ExFF s1))
            then extrapolate_block p s1 else Some s1) as [s2|];
    [|discriminate].
  destruct (Hblk s2 eq_refl) as (HM2 & HF2 & Hnil2). clear Hblk.
  set (s3 := if isFirstExtrp s2 then first_pass_body p s2
             else if Z.of_nat (length (ExFF s2)) =? 0 then set_TBL [] s2
                  else later_pass_body p s2) in Hp.
  assert (H3 : nonlive_zero s3).
  { unfold s3. destruct (isFirstExtrp s2).
    - destruct (first_pass_body_fm s2) as [HF HM]. intros k Hk.
      rewrite HF. destruct (TAMask s2 k) eqn:Em2.
      + assert (Ht : TAMask (first_pass_body p s2) k = true)
          by (apply HM; now left).
        congruence.
      + rewrite HF2; [apply Hinv; congruence|].
        intros Hc. apply in_expand_first in Hc.
        assert (Ht : TAMask (first_pass_body p s2) k = true)
          by (apply HM; now right).
        congruence.
    - destruct (Z.of_nat (length (ExFF s2)) =? 0) eqn:El.
      + assert (Hnil : ExFF s2 = []).
        { destruct (ExFF s2); [reflexivity|discriminate]. }
        intros k Hk. cbn in *. rewrite (Hnil2 Hnil). apply Hinv.
        congruence.
      + assert (Hne : ExFF s2 <> []).
        { intros E. rewrite E in El. discriminate. }
        destruct (later_pass_body_fm s2 Hne) as [HF HM]. intros k Hk.
        rewrite HF. destruct (TAMask s2 k) eqn:Em2.
        * assert (Ht : TAMask (later_pass_body p s2) k = true)
            by (apply HM; now left).
          congruence.
        * rewrite HF2; [apply Hinv; congruence|].
          intros Hc. apply in_expand_later in Hc. destruct Hc as [Hc|Hc];
            [congruence|].
          assert (Ht : TAMask (later_pass_body p s2) k = true)
            by (apply HM; now right).
          congruence. }
  inversion Hp as [Hst']. destruct (0 <? Z.of_nat (length (ExFF s3))).
  - apply (nonlive_zero_fm s3); [apply rebuild_frontier_spec|exact H3].
  - exact H3.
Qed.

Lemma ext_loop_nonlive_zero fuel : forall k st s n,
  ext_loop p fuel k st = Finished s n ->
  nonlive_zero st -> nonlive_zero s.
Proof.
  induction fuel as [|fuel IH]; intros k st s n; simpl.
  - destruct (loop_cond p st); [discriminate|].
    intros E. now inversion E; subst.
  - destruct (loop_cond p st).
    + destruct (ext_pass p st) as [st'|] eqn:Hp; [|discriminate].
      intros E Hinv. apply (IH _ _ _ _ E).
      now apply (ext_pass_nonlive_zero st).
    + intros E. now inversion E; subst.
Qed.

Lemma begin_step_fm st : fm (begin_step p st) = fm st.
Proof.
  unfold begin_step. destruct (isFullGrid p); reflexivity.
Qed.

Lemma update_without_extrapolation_fm st :
  fm (update_without_extrapolation p st) = fm st.
Proof.
  unfold update_without_extrapolation, CASE2, CASE3.
  destruct (negb (isExtrapolate st) && negb (isFullGrid p)).
  - rewrite RK4_box_fm. now apply moments_feq_trunc_proj.
  - destruct (negb (isExtrapolate st) && isFullGrid p); [|reflexivity].
    rewrite RK4_full_fm. now apply moments_feq_full_proj.
Qed.

Lemma normalization_nonlive_zero st :
  isFullGrid p = false ->
  nonlive_zero st -> nonlive_zero (normalization p st).
Proof.
  intros Hg Hinv. unfold normalization. rewrite Hg. simpl.
  unfold stage_box.
  apply (for_loop_inv nonlive_zero); [exact Hinv|].
  intros i1 s1 _ H1.
  apply (for_loop_inv nonlive_zero); [exact H1|].
  intros i2 s _ Hs.
  destruct (TAMask s (i1 * W1 p + i2)) eqn:Em; [|exact Hs].
  intros k Hk. unfold normalize_cell in *. cbn in *.
  rewrite upd_other; [now apply Hs|]. intros ->. congruence.
Qed.

Lemma remask_nonlive_zero st :
  nonlive_zero st -> nonlive_zero (box_loop (remask_cell p) st).
Proof.
  intros Hinv. rewrite box_loop_cells by (intros; apply remask_cell_box).
  destruct (remask_fold_spec
              (cells (x1_min st) (x1_max st + 1) (x2_min st) (x2_max st + 1))
              st) as (_ & Hin & Hout).
  intros k Hk.
  destruct (in_dec Z.eq_dec k
              (map (idx p)
                 (cells (x1_min st) (x1_max st + 1)
                    (x2_min st) (x2_max st + 1)))) as [Hi|Hi].
  - destruct (Hin k Hi) as [Hm HF]. rewrite HF. rewrite Hm in Hk.
    destruct (Reqb (PF st k) 0); [reflexivity|discriminate].
  - destruct (Hout k Hi) as [Hm HF]. rewrite HF. apply Hinv. congruence.
Qed.

Lemma truncate_cell_fm i j s : fm (truncate_cell p i j s) = fm s.
Proof.
  unfold truncate_cell.
  repeat match goal with
         | |- context [if ?b then _ else _] => destruct b
         end; reflexivity.
Qed.

Lemma rebuild_box_fm s : fm (rebuild_box p s) = fm s.
Proof.
  unfold rebuild_box. rewrite stage_full_proj; [reflexivity|].
  intros i j s'. destruct (TAMask s' (i * W1 p + j)); reflexivity.
Qed.

Lemma truncation_nonlive_zero st :
  nonlive_zero st -> nonlive_zero (truncation p st).
Proof.
  intros Hinv. unfold truncation.
  set (s1 := box_loop (truncate_cell p) st).
  set (s2 := box_loop (remask_cell p) s1).
  set (s3 := rebuild_box p s2).
  set (s4 := rebuild_TB p s3).
  assert (H1 : nonlive_zero s1).
  { apply (nonlive_zero_fm st); [|exact Hinv].
    unfold s1. apply box_loop_proj. intros; apply truncate_cell_fm. }
  assert (H2 : nonlive_zero s2) by now apply remask_nonlive_zero.
  assert (H4 : nonlive_zero s4).
  { apply (nonlive_zero_fm s2); [|exact H2].
    unfold s4, rebuild_TB, s3.
    destruct (ta_size (rebuild_box p s2) =? 0);
      [|change (fm (set_TB (boundary_ring p (rebuild_box p s2))
                      (rebuild_box p s2)))
          with (fm (rebuild_box p s2))];
      apply rebuild_box_fm. }
  intros k Hk. unfold count_box in *. cbn in *.
  rewrite absorb_F. apply H4.
  destruct (TAMask s4 k) eqn:Em; [|reflexivity].
  assert (Ht : TAMask (absorb p (expansion_targets p s4) s4) k = true)
    by (apply absorb_mask; now left).
  congruence.
Qed.

Lemma step_nonlive_zero fuel st st' :
  isFullGrid p = false ->
  step p fuel st = StepDone st' ->
  nonlive_zero st -> nonlive_zero st'.
Proof.
  intros Hg. unfold step.
  destruct (ext_loop p fuel 0 (begin_step p st)) as [s n| |] eqn:El;
    try discriminate.
  intros E Hinv. inversion E; subst st'.
  assert (Hs : nonlive_zero s).
  { apply (ext_loop_nonlive_zero _ _ _ _ _ El).
    apply (nonlive_zero_fm st); [apply begin_step_fm|exact Hinv]. }
  unfold finish_step. rewrite Hg. simpl.
  apply truncation_nonlive_zero. apply normalization_nonlive_zero; [exact Hg|].
  apply (nonlive_zero_fm s); [apply update_without_extrapolation_fm|exact Hs].
Qed.

Lemma run_nonlive_zero fuel n : forall st st',
  isFullGrid p = false ->
  run p fuel n st = StepDone st' ->
  nonlive_zero st -> nonlive_zero st'.
Proof.
  induction n as [|n IH]; intros st st' Hg; simpl.
  - intros E. now inversion E; subst.
  - destruct (step p fuel st) as [s| |] eqn:Es; try discriminate.
    intros E Hinv. apply (IH s st' Hg E).
    now apply (step_nonlive_zero fuel st).
Qed.

(** *** Initialization *)

Lemma stage_full_F_outside cell st k :
  (forall i j s k, k <> i * W1 p + j -> F (cell i j s) k = F s k) ->
  ~ In k (map (idx p)
            (cells (EDGE p) (BoxShape_0 p - EDGE p)
                   (EDGE p) (BoxShape_1 p - EDGE p))) ->
  F (stage_full p cell st) k = F st k.
Proof.
  intros Hc Hk. rewrite stage_full_cells.
  apply (fold_left_inv (fun s => F s k = F st k)); [reflexivity|].
  intros s c Hin Hs. rewrite Hc; [exact Hs|].
  intros ->. apply Hk. apply in_map_iff. exists c. split; [reflexivity|exact Hin].
Qed.

Lemma init_box_fold_spec (L : list (Z * Z)) (st : State) :
  let st' := fold_left (fun s c => init_box_cell p (fst c) (snd c) s) L st in
  TAMask st' = TAMask st
  /\ (forall k, In k (map (idx p) L) -> TAMask st k = false ->
        F st' k = 0%R)
  /\ (forall k, ~ In k (map (idx p) L) -> F st' k = F st k).
Proof.
  revert st. induction L as [|c L IH]; intros st; simpl.
  - repeat split; intros; try contradiction; reflexivity.
  - destruct (IH (init_box_cell p (fst c) (snd c) st)) as (HM & Hin & Hout).
    assert (HM1 : TAMask (init_box_cell p (fst c) (snd c) st) = TAMask st).
    { unfold init_box_cell. destruct (TAMask st _); reflexivity. }
    assert (HF1 : forall k, TAMask st k = false ->
              k = idx p c -> F (init_box_cell p (fst c) (snd c) st) k = 0%R).
    { intros k Hk ->. unfold init_box_cell, idx in *. rewrite Hk. simpl.
      apply upd_same. }
    assert (HF2 : forall k, k <> idx p c ->
              F (init_box_cell p (fst c) (snd c) st) k = F st k).
    { intros k Hk. unfold init_box_cell, idx in *.
      destruct (TAMask st _); simpl; [reflexivity|now apply upd_other]. }
    rewrite HM1 in *. split; [exact HM|split].
    + intros k Hk Hm.
      destruct (in_dec Z.eq_dec k (map (idx p) L)) as [HkL|HkL].
      * now apply Hin.
      * destruct Hk as [Hk|Hk]; [|contradiction].
        rewrite (Hout k HkL). now apply HF1.
    + intros k Hk. rewrite Hout by tauto. apply HF2. intros ->.
      apply Hk. now left.
Qed.

Lemma absorb_init_F l s : F (absorb_init p l s) = F s.
Proof.
  unfold absorb_init. apply for_each_proj. intros e s'.
  destruct (negb (TAMask s' _)); reflexivity.
Qed.

Lemma absorb_init_mask l s k :
  TAMask (absorb_init p l s) k = false -> TAMask s k = false.
Proof.
  unfold absorb_init, for_each. revert s.
  induction l as [|e l IH]; intros s; simpl; [tauto|].
  intros H. apply IH in H. revert H.
  destruct (TAMask s (Z.quot e (M1 p) * W1 p + Z.rem e (M1 p))) eqn:Em;
    simpl; [tauto|].
  unfold upd. destruct (k =? _); [discriminate|tauto].
Qed.

Lemma init_moments_fm s : fm (init_moments p s) = fm s.
Proof.
  unfold init_moments.
  repeat match goal with
         | |- context [if ?b then _ else _] => destruct b
         end;
    apply for_loop_proj; intros i s';
    unfold init_moments_row_lin, init_moments_row_iso, init_moments_row_fp;
    destruct (Rleb _ 0); reflexivity.
Qed.

Lemma init_truncate_cell_F i j s : F (init_truncate_cell p i j s) = F s.
Proof.
  unfold init_truncate_cell. destruct (_ && _); reflexivity.
Qed.

Lemma Evolve_init_nonlive_zero :
  isFullGrid p = false ->
  ta_size (Evolve_init p) <> 0 ->
  nonlive_zero (Evolve_init p).
Proof.
  intros Hg Hta. unfold Evolve_init in *. rewrite Hg in *. cbn in *.
  set (sn := init_normalize p (init_wavefunction p st_zero)) in *.
  apply (nonlive_zero_fm (initial_truncation p sn));
    [apply init_moments_fm|].
  assert (Hta' : ta_size (initial_truncation p sn) <> 0).
  { intros E. apply Hta. unfold init_moments.
    rewrite Hg. simpl.
    repeat match goal with
           | |- context [if ?b then _ else _] => destruct b
           end;
      (rewrite (for_loop_proj _ ta_size); [exact E|]); intros i s';
      unfold init_moments_row_lin, init_moments_row_iso, init_moments_row_fp;
      destruct (Rleb _ 0); reflexivity. }
  clear Hta. unfold initial_truncation in *.
  set (s1 := stage_full p (init_truncate_cell p)
               (set_ta_size 0 (reset_box sn))) in *.
  destruct (ta_size s1 =? 0) eqn:E1.
  { apply Z.eqb_eq in E1. contradiction. }
  set (L := cells (EDGE p) (BoxShape_0 p - EDGE p)
                  (EDGE p) (BoxShape_1 p - EDGE p)).
  assert (HFn : forall k, ~ In k (map (idx p) L) -> F sn k = 0%R).
  { intros k Hk. unfold sn, init_normalize.
    rewrite stage_full_F_outside; [|intros i j s k' Hk'; simpl;
                                    now apply upd_other|exact Hk].
    unfold init_wavefunction.
    rewrite stage_full_F_outside; [reflexivity| |exact Hk].
    intros i j s k' Hk'. simpl. now apply upd_other. }
  assert (HF1 : F s1 = F sn).
  { unfold s1. rewrite (stage_full_proj _ F); [reflexivity|].
    intros; apply init_truncate_cell_F. }
  set (s2 := stage_full p (init_box_cell p) s1).
  destruct (init_box_fold_spec L s1) as (HM2 & Hin2 & Hout2).
  cbn in HM2, Hin2, Hout2.
  assert (Es2 : s2 = fold_left
                  (fun s c => init_box_cell p (fst c) (snd c) s) L s1)
    by (unfold s2; apply stage_full_cells).
  rewrite <- Es2 in HM2, Hin2, Hout2.
  intros k Hk. unfold count_box in *. cbn in *.
  rewrite absorb_init_F. simpl.
  apply absorb_init_mask in Hk. cbn in Hk. rewrite HM2 in Hk.
  destruct (in_dec Z.eq_dec k (map (idx p) L)) as [HkL|HkL].
  - now apply Hin2.
  - rewrite (Hout2 k HkL), HF1. now apply HFn.
Qed.

(** C4 (amended). On the truncated grid, when the initial truncation
    keeps at least one cell, at the end of every time step every cell
    whose mask entry is false holds [F = 0]. *)
Theorem C4_nonlive_cells_hold_zero (fuel n : nat) (st' : State) :
  isFullGrid p = false ->
  ta_size (Evolve_init p) <> 0 ->
  run p fuel n (Evolve_init p) = StepDone st' ->
  forall k, TAMask st' k = false -> F st' k = 0%R.
Proof.
  intros Hg Hta Hrun.
  apply (run_nonlive_zero fuel n (Evolve_init p) st' Hg Hrun).
  now apply Evolve_init_nonlive_zero.
Qed.

(** ** The normalization factor is never tested *)

Lemma normalization_cells st i1 i2 :
  region_in_row p st ->
  update_region p st i1 i2 ->
  F (normalization p st) (i1 * W1 p + i2)
  = (1 / norm_factor p st * FF st (i1 * W1 p + i2))%R.
Proof.
  intros Hrow Hr. unfold region_in_row in Hrow. unfold update_region in Hr.
  set (n := (1 / norm_factor p st)%R).
  destruct (isFullGrid p) eqn:Hg.
  - set (L := cells (EDGE p) (BoxShape_0 p - EDGE p)
                    (EDGE p) (BoxShape_1 p - EDGE p)).
    assert (Hnd : NoDup (map (idx p) L)).
    { apply NoDup_idx_cells; unfold W1; lia. }
    assert (Hc : In (i1, i2) L) by (apply in_cells; cbn; lia).
    destruct (normalize_fold_spec F false n L st (normalize_cell_F n) Hnd)
      as (_ & HinF).
    destruct (HinF _ Hc) as [H1 _]. unfold idx in H1. cbn [fst snd] in H1.
    unfold normalization. rewrite Hg. cbn [negb]. cbv iota.
    rewrite stage_full_cells. fold n L. rewrite H1.
    rewrite normalize_cell_F. now rewrite upd_same.
  - destruct Hr as (Hi1 & Hi2 & Hl).
    set (L := cells (x1_min st) (x1_max st + 1) (x2_min st) (x2_max st + 1)).
    assert (Hnd : NoDup (map (idx p) L)).
    { apply NoDup_idx_cells; lia. }
    assert (Hc : In (i1, i2) L) by (apply in_cells; cbn; lia).
    destruct (normalize_fold_spec F true n L st (normalize_cell_F n) Hnd)
      as (_ & HinF).
    destruct (HinF _ Hc) as [H1 _]. unfold idx in H1. cbn [fst snd] in H1.
    unfold normalization. rewrite Hg. cbn [negb]. cbv iota.
    rewrite stage_box_cells; [|intros; apply normalize_cell_box].
    fold n L. rewrite H1. unfold guarded. rewrite Hl.
    rewrite normalize_cell_F. now rewrite upd_same.
Qed.

(** ** Steps on an empty active region *)

Lemma for_loop_empty {A : Type} lo hi (body : Z -> A -> A) s :
  hi <= lo -> for_loop lo hi body s = s.
Proof. intros H. unfold for_loop. now rewrite zrange_empty. Qed.

Lemma stage_box_empty cell st :
  x1_max st < x1_min st -> stage_box p cell st = st.
Proof. intros H. unfold stage_box. apply for_loop_empty. lia. Qed.

Lemma box_loop_empty cell st :
  x1_max st < x1_min st -> box_loop cell st = st.
Proof. intros H. unfold box_loop. apply for_loop_empty. lia. Qed.

Lemma rebuild_box_no_live st :
  (forall k, TAMask st k = false) ->
  rebuild_box p st = set_ta_size 0 (reset_box st).
Proof.
  intros Hm. unfold rebuild_box, stage_full.
  apply (for_loop_inv (fun s => s = set_ta_size 0 (reset_box st)));
    [reflexivity|].
  intros i s _ ->.
  apply (for_loop_inv (fun s => s = set_ta_size 0 (reset_box st)));
    [reflexivity|].
  intros j s _ ->. cbn [TAMask set_ta_size reset_box set_x2_max set_x2_min set_x1_max set_x1_min].
  now rewrite Hm.
Qed.

Lemma finish_step_idle st :
  isFullGrid p = false -> isExtrapolate st = false -> idle st ->
  finish_step p st = set_ta_size 0 (set_ta_size 0 (reset_box st)).
Proof.
  intros Hg He (HTB & Hbox & Hm).
  assert (HU : update_without_extrapolation p st = st).
  { unfold update_without_extrapolation. rewrite He, Hg. cbn [negb andb].
    unfold CASE2, RK4_box, RK4.
    assert (Hm0 : moments_feq_trunc p st = st).
    { unfold moments_feq_trunc. apply for_loop_empty. lia. }
    rewrite Hm0.
    now rewrite (stage_box_empty (RK4_1_cell p) st Hbox),
      (stage_box_empty (RK4_2_cell p) st Hbox),
      (stage_box_empty (RK4_3_cell p) st Hbox),
      (stage_box_empty (RK4_4_cell p) st Hbox). }
  unfold finish_step. rewrite HU, Hg. cbn [negb].
  assert (HN : normalization p st = st).
  { unfold normalization. rewrite Hg. cbn [negb].
    now apply stage_box_empty. }
  rewrite HN. unfold truncation.
  rewrite (box_loop_empty (truncate_cell p) st Hbox),
    (box_loop_empty (remask_cell p) st Hbox).
  rewrite (rebuild_box_no_live st Hm).
  unfold rebuild_TB. cbn [ta_size set_ta_size]. cbn [Z.eqb].
  unfold expansion_targets. cbn [TB set_ta_size reset_box set_x2_max set_x2_min set_x1_max set_x1_min].
  rewrite HTB. unfold absorb, for_each. cbn [fold_left].
  unfold count_box. rewrite for_loop_empty; [reflexivity|].
  cbn. unfold BIG_NUMBER. lia.
Qed.

Lemma step_idle fuel st :
  isFullGrid p = false -> idle st ->
  exists st', step p fuel st = StepDone st' /\ F st' = F st /\ idle st'.
Proof.
  intros Hg (HTB & Hbox & Hm).
  assert (HT : TBL (begin_step p st) = []).
  { unfold begin_step, build_TBL. rewrite Hg. cbn. now rewrite HTB. }
  assert (HI : idle (begin_step p st)).
  { unfold idle, begin_step, build_TBL. rewrite Hg. cbn. tauto. }
  assert (HL : ext_loop p fuel 0 (begin_step p st) = Finished (begin_step p st) 0).
  { destruct fuel; cbn [ext_loop]; now rewrite (loop_cond_nil _ HT). }
  exists (finish_step p (begin_step p st)). split.
  - unfold step. now rewrite HL.
  - rewrite finish_step_idle; [|exact Hg| |exact HI].
    + destruct (fm_fields _ _ (begin_step_fm st)) as [HF _].
      destruct HI as (A & B & C).
      split; [exact HF|].
      split; [exact A|split; [|exact C]].
      cbn. unfold BIG_NUMBER. lia.
    + unfold begin_step. reflexivity.
Qed.

Lemma run_idle fuel n st :
  isFullGrid p = false -> idle st ->
  exists st', run p fuel n st = StepDone st' /\ F st' = F st /\ idle st'.
Proof.
  intros Hg. revert st. induction n as [|n IH]; intros st HI.
  - exists st. cbn. tauto.
  - destruct (step_idle fuel st Hg HI) as (s1 & Hs & HF & HI1).
    destruct (IH s1 HI1) as (s2 & Hr & HF2 & HI2).
    exists s2. cbn [run]. rewrite Hs. split; [exact Hr|].
    split; [congruence|exact HI2].
Qed.

(** ** Steps with a normalization factor that is 0 or negative *)





(** ** The number of passes of the extrapolation loop *)


Lemma insert_sorted_head x l :
  Forall (fun y => x <= y) l -> insert_sorted x l = x :: l.
Proof.
  destruct l as [|y l]; [reflexivity|]. intros H. cbn.
  apply Forall_inv in H. apply Z.leb_le in H. now rewrite H.
Qed.

Lemma sort_of_ascending l : ascending l -> sort l = l.
Proof.
  unfold ascending, sort. induction 1 as [|x l Hs IH Hf]; [reflexivity|].
  cbn [fold_right]. rewrite IH. now apply insert_sorted_head.
Qed.

Lemma unique_of_strictly_ascending l :
  strictly_ascending l -> unique l = l.
Proof.
  unfold strictly_ascending. induction 1 as [|x l Hs IH Hf]; [reflexivity|].
  destruct l as [|y l']; [reflexivity|].
  change (unique (x :: y :: l'))
    with (if x =? y then unique (y :: l') else x :: unique (y :: l')).
  apply Forall_inv in Hf.
  assert (E : (x =? y) = false) by (apply Z.eqb_neq; lia).
  rewrite E. now rewrite IH.
Qed.

Lemma unique_sort_idem l :
  unique (sort (unique (sort l))) = unique (sort l)
  /\ unique (sort (sort (unique (sort l)))) = unique (sort l).
Proof.
  assert (H : strictly_ascending (unique (sort l)))
    by apply unique_strictly_ascending, sort_ascending.
  assert (E : sort (unique (sort l)) = unique (sort l))
    by (apply sort_of_ascending; now apply strictly_ascending_ascending).
  rewrite !E. split; now apply unique_of_strictly_ascending.
Qed.

Lemma fold_left_ext_eq {A B : Type} (f g : A -> B -> A) l acc :
  (forall a b, f a b = g a b) -> fold_left f l acc = fold_left g l acc.
Proof.
  intros H. revert acc. induction l as [|b l IH]; intros acc; [reflexivity|].
  cbn. now rewrite H, IH.
Qed.

Lemma extrap_targets_ext s s' :
  (forall k, F s k = F s' k) -> TBL s = TBL s' ->
  extrap_targets p s = extrap_targets p s'.
Proof.
  intros HF HT. unfold extrap_targets. rewrite HT.
  unfold for_each. apply fold_left_ext_eq. intros acc e.
  now rewrite !HF.
Qed.

Lemma extrapolate_list_ext s s' l :
  (forall k, F s k = F s' k) ->
  extrapolate_list p s l = extrapolate_list p s' l.
Proof.
  intros HF. induction l as [|e l IH]; [reflexivity|].
  rewrite !extrapolate_list_cons.
  assert (E : extrapolate_cell p s e = extrapolate_cell p s' e).
  { unfold extrapolate_cell, extrap_acc. now rewrite !HF. }
  now rewrite E, IH.
Qed.

Lemma count_checked_eq s s' :
  ExFF s = ExFF s' -> ExCheck s = ExCheck s' ->
  count_checked s = count_checked s'.
Proof. unfold count_checked. now intros -> ->. Qed.

(** The targets that the extrapolation block leaves depend on [F], on
    the targets and on the frontier only. *)
Lemma extrapolate_block_congr s s' a :
  (forall k, F s k = F s' k) -> ExFF s = ExFF s' -> TBL s = TBL s' ->
  extrapolate_block p s = Some a ->
  exists b, extrapolate_block p s' = Some b /\ ExFF b = ExFF a.
Proof.
  intros HF HE HT. unfold extrapolate_block.
  rewrite <- HE, <- HT.
  set (L := unique (sort (set_difference (sort (ExFF s)) (sort (TBL s))))).
  set (sb := set_ExFF L (set_TBL (sort (TBL s)) s)).
  set (sb' := set_ExFF L (set_TBL (sort (TBL s)) s')).
  change (ExFF sb) with L. change (ExFF sb') with L.
  rewrite (extrapolate_list_ext sb sb' L) by exact HF.
  destruct (extrapolate_list p sb' L) as [[chk vals]|]; [|discriminate].
  set (sc := commit_extrapolation (set_ExTBL vals (set_ExCheck chk sb))).
  set (sc' := commit_extrapolation (set_ExTBL vals (set_ExCheck chk sb'))).
  assert (E1 : ExFF sc = L)
    by (unfold sc; now rewrite (commit_proj ExFF) by reflexivity).
  assert (E2 : ExCheck sc = chk)
    by (unfold sc; now rewrite (commit_proj ExCheck) by reflexivity).
  assert (E1' : ExFF sc' = L)
    by (unfold sc'; now rewrite (commit_proj ExFF) by reflexivity).
  assert (E2' : ExCheck sc' = chk)
    by (unfold sc'; now rewrite (commit_proj ExCheck) by reflexivity).
  rewrite (count_checked_eq sc' sc) by congruence.
  destruct (count_checked sc =? 0); intros E; inversion E; subst a;
    eexists; (split; [reflexivity|]); cbn; congruence.
Qed.

(** A pass that leaves no target does not write [F]. *)
Lemma ext_pass_empty_F st st' :
  ext_pass p st = Some st' -> ExFF st' = [] ->
  forall k, F st' k = F st k.
Proof.
  unfold ext_pass. fold (pass_start st).
  set (s0 := pass_start st).
  set (s1 := set_ExFF (extrap_targets p s0) s0).
  intros Hp Hnil.
  assert (Hblk : forall s2,
            (if 0 <? Z.of_nat (length (ExFF s1))
             then extrapolate_block p s1 else Some s1) = Some s2 ->
            ExFF s2 = [] -> forall k, F s2 k = F st k).
  { intros s2. destruct (0 <? Z.of_nat (length (ExFF s1))) eqn:El.
    - intros Hb Hn k.
      rewrite (extrapolate_block_F s1 s2 Hb); [reflexivity|].
      unfold checked. rewrite Hn. cbn. tauto.
    - intros E. inversion E; subst s2. reflexivity. }
  destruct (if 0 <? Z.of_nat (length (ExFF s1))
            then extrapolate_block p s1 else Some s1) as [s2|];
    [|discriminate].
  specialize (Hblk s2 eq_refl).
  set (s3 := if isFirstExtrp s2 then first_pass_body p s2
             else if Z.of_nat (length (ExFF s2)) =? 0 then set_TBL [] s2
                  else later_pass_body p s2) in Hp.
  assert (H3 : ExFF s3 = ExFF s2 /\ (ExFF s2 = [] -> forall k, F s3 k = F s2 k)).
  { unfold s3. destruct (isFirstExtrp s2).
    - destruct (first_pass_body_work s2) as (_ & _ & _ & H4 & _).
      destruct (first_pass_body_fm s2) as [HF _].
      split; [exact H4|]. intros _ k. now rewrite HF.
    - destruct (Z.of_nat (length (ExFF s2)) =? 0) eqn:El.
      + split; reflexivity.
      + destruct (work_fields _ _ (later_pass_body_work s2))
          as (_ & _ & _ & H4 & _).
        split; [exact H4|]. intros E. rewrite E in El. discriminate. }
  destruct H3 as [E3 F3].
  injection Hp as Hst'.
  destruct (0 <? Z.of_nat (length (ExFF s3))) eqn:El3.
  - destruct (rebuild_frontier_spec s3) as (RE & _).
    rewrite <- Hst', RE in Hnil. rewrite Hnil in El3. discriminate.
  - subst st'. rewrite E3 in Hnil. intros k.
    rewrite (F3 Hnil). now apply Hblk.
Qed.

(** A first pass that leaves no target is followed by one more pass, which
    leaves no target either and clears the frontier. *)
Lemma empty_first_pass_then_stop st st' :
  ext_pass p st = Some st' -> isFirstExtrp st = true -> ExFF st' = [] ->
  exists st'', ext_pass p st' = Some st''
               /\ TBL st'' = [] /\ Excount st'' = Excount st.
Proof.
  intros Hp Hf Hnil.
  pose proof (ext_pass_empty_F st st' Hp Hnil) as HF.
  destruct (ext_pass_summary st st' Hp) as (_ & Hf' & _ & HC).
  destruct (HC Hnil) as [HC' _].
  revert Hp. unfold ext_pass at 1. fold (pass_start st).
  set (s0 := pass_start st).
  set (s1 := set_ExFF (extrap_targets p s0) s0).
  set (T := unique (sort (TBL st))).
  destruct (unique_sort_idem (TBL st)) as [I1 I2]. fold T in I1, I2.
  intros Hp.
  (* the frontier of the second pass *)
  assert (HT' : unique (sort (TBL st')) = T
                /\ exists s2,
                     (if 0 <? Z.of_nat (length (ExFF s1))
                      then extrapolate_block p s1 else Some s1) = Some s2
                     /\ ExFF s2 = []).
  { revert Hp. destruct (0 <? Z.of_nat (length (ExFF s1))) eqn:El.
    - destruct (extrapolate_block p s1) as [s2|] eqn:Hb;
        [|intros H; discriminate H].
      destruct (extrapolate_block_work s1 s2 Hb)
        as (_ & HT2 & _ & _ & _ & HF2 & _).
      change (TBL s1) with T in HT2. change (isFirstExtrp s1)
        with (isFirstExtrp st) in HF2.
      rewrite Hf in HF2. rewrite HF2.
      destruct (first_pass_body_work s2) as (_ & B2 & _ & B4 & _).
      destruct (0 <? Z.of_nat (length (ExFF (first_pass_body p s2))))
        eqn:El3; intros Hp; injection Hp as Hst'.
      + destruct (rebuild_frontier_spec (first_pass_body p s2))
          as (RE & _).
        rewrite <- Hst', RE in Hnil. rewrite Hnil in El3.
        discriminate El3.
      + subst st'. rewrite B2, HT2. split; [exact I2|].
        exists s2. split; [reflexivity|]. now rewrite <- B4.
    - change (isFirstExtrp s1) with (isFirstExtrp st).
      rewrite Hf.
      destruct (first_pass_body_work s1) as (_ & B2 & _ & B4 & _).
      destruct (0 <? Z.of_nat (length (ExFF (first_pass_body p s1))))
        eqn:El3; intros Hp; injection Hp as Hst'.
      + destruct (rebuild_frontier_spec (first_pass_body p s1))
          as (RE & _).
        rewrite <- Hst', RE in Hnil. rewrite Hnil in El3.
        discriminate El3.
      + subst st'. rewrite B2. change (TBL s1) with T.
        split; [exact I1|].
        exists s1. split; [reflexivity|]. now rewrite <- B4. }
  clear Hp.
  destruct HT' as (HT' & s2 & Hb2 & Hn2).
  unfold ext_pass. fold (pass_start st').
  set (s0' := pass_start st').
  set (s1' := set_ExFF (extrap_targets p s0') s0').
  assert (HE1 : ExFF s1' = ExFF s1).
  { change (extrap_targets p s0' = extrap_targets p s0).
    apply extrap_targets_ext; [exact HF|exact HT']. }
  assert (Hb2' : exists b,
            (if 0 <? Z.of_nat (length (ExFF s1'))
             then extrapolate_block p s1' else Some s1') = Some b
            /\ ExFF b = [] /\ isFirstExtrp b = false
            /\ Excount b = Excount st').
  { rewrite HE1. destruct (0 <? Z.of_nat (length (ExFF s1))) eqn:El.
    - destruct (extrapolate_block_congr s1 s1' s2) as (b & Hb & HEb);
        [intros k; symmetry; apply HF|now symmetry
        |symmetry; exact HT'|exact Hb2|].
      destruct (extrapolate_block_work s1' b Hb)
        as (_ & _ & _ & HCb & _ & HFb & _).
      exists b. split; [exact Hb|]. split; [congruence|].
      split; [rewrite HFb; exact Hf'|exact HCb].
    - exists s1'. split; [reflexivity|].
      split; [rewrite HE1; injection Hb2 as <-; exact Hn2|].
      split; [exact Hf'|reflexivity]. }
  destruct Hb2' as (b & Hb & HEb & HFb & HCb).
  rewrite Hb. cbv zeta. rewrite HFb, HEb.
  change (Z.of_nat (length (@nil Z)) =? 0) with true. cbv iota.
  change (ExFF (set_TBL [] b)) with (ExFF b). rewrite HEb.
  change (0 <? Z.of_nat (length (@nil Z))) with false. cbv iota.
  exists (set_TBL [] b). split; [reflexivity|].
  split; [reflexivity|]. change (Excount (set_TBL [] b)) with (Excount b).
  congruence.
Qed.

(** C6 (amended). The extrapolation loop of a step terminates: with
    [max ExLimit 2] units of fuel it never runs out, it exits when [TBL]
    is empty or [Excount] has reached [ExLimit], and it makes at most
    [max ExLimit 2] passes.  More precisely it makes at most [ExLimit]
    passes, unless [ExLimit = 1] and the first pass leaves no target:
    then it makes two, the second clearing [TBL].  [Excount] is
    incremented in exactly the passes that end with a nonempty target set,
    and [TBL] is cleared when it reaches [ExLimit]; a pass that ends with
    an empty target set leaves [Excount] unchanged. *)
Theorem C6_loop_terminates (st : State) (fuel : nat) :
  (Nat.max (Z.to_nat (ExLimit p)) 2 <= fuel)%nat ->
  ext_loop p fuel 0 (begin_step p st) <> OutOfFuel
  /\ (forall s n, ext_loop p fuel 0 (begin_step p st) = Finished s n ->
        (n <= Nat.max (Z.to_nat (ExLimit p)) 2)%nat
        /\ ((n <= Z.to_nat (ExLimit p))%nat
            \/ (n = 2%nat /\ ExLimit p = 1 /\ Excount s = 0 /\ TBL s = []))
        /\ (TBL s = [] \/ isFullGrid p = true \/ ExLimit p <= Excount s))
  /\ (forall s s', ext_pass p s = Some s' ->
        (ExFF s' <> [] ->
           Excount s' = Excount s + 1
           /\ (Excount s' = ExLimit p -> TBL s' = []))
        /\ (ExFF s' = [] -> Excount s' = Excount s)).
Proof.
  intros Hfuel.
  assert (Hexit : forall s, loop_cond p s = false ->
            TBL s = [] \/ isFullGrid p = true \/ ExLimit p <= Excount s).
  { intros s Hc. unfold loop_cond in Hc.
    destruct (TBL s); [now left|]. destruct (isFullGrid p); [tauto|].
    cbn in Hc. right. right. lia. }
  set (s0 := begin_step p st).
  assert (HC0 : Excount s0 = 0).
  { unfold s0, begin_step. cbn. destruct (isFullGrid p); reflexivity. }
  assert (HF0 : isFirstExtrp s0 = true) by reflexivity.
  assert (Hmain :
    ext_loop p fuel 0 s0 <> OutOfFuel
    /\ (forall s n, ext_loop p fuel 0 s0 = Finished s n ->
          loop_cond p s = false
          /\ ((n <= Z.to_nat (ExLimit p))%nat
              \/ (n = 2%nat /\ ExLimit p = 1 /\ Excount s = 0
                  /\ TBL s = [])))).
  { destruct fuel as [|fuel]; [lia|]. cbn [ext_loop].
    destruct (loop_cond p s0) eqn:Hc0.
    2:{ split; [discriminate|]. intros s n E. inversion E; subst.
        split; [exact Hc0|left; lia]. }
    destruct (loop_cond_true s0 Hc0) as (_ & _ & Hlt). rewrite HC0 in Hlt.
    destruct (ext_pass p s0) as [s1|] eqn:Hp; [|split; discriminate].
    destruct (ext_pass_summary s0 s1 Hp) as (_ & Hf1 & Hne & Hnil).
    destruct (ExFF s1) as [|x l] eqn:Ex.
    - (* the first pass leaves no target *)
      destruct (empty_first_pass_then_stop s0 s1 Hp HF0 Ex)
        as (s2 & Hp2 & HT2 & HC2).
      destruct fuel as [|fuel]; [lia|]. cbn [ext_loop].
      destruct (loop_cond p s1) eqn:Hc1.
      + rewrite Hp2.
        assert (Hc2 : loop_cond p s2 = false) by now apply loop_cond_nil.
        assert (E2 : ext_loop p fuel 2 s2 = Finished s2 2).
        { destruct fuel; cbn [ext_loop]; now rewrite Hc2. }
        rewrite E2. split; [discriminate|]. intros s n E.
        inversion E; subst. split; [exact Hc2|].
        destruct (Z.eq_dec (ExLimit p) 1) as [E1|N1].
        * right. repeat split; try assumption. congruence.
        * left. lia.
      + split; [discriminate|]. intros s n E. inversion E; subst.
        split; [exact Hc1|left; lia].
    - (* the first pass ends with targets *)
      destruct Hne as (HC1 & _ & _); [discriminate|].
      assert (Hrem : (remaining_passes p s1
                      <= Z.to_nat (ExLimit p) - 1)%nat).
      { unfold remaining_passes. rewrite Hf1.
        destruct (loop_cond p s1); lia. }
      destruct (ext_loop_bound fuel s1 1) as [H1 H2]; [lia|].
      split; [exact H1|]. intros s n E.
      destruct (H2 s n E) as [Hc Hn]. split; [exact Hc|left; lia]. }
  destruct Hmain as [M1 M2]. split; [exact M1|split].
  - intros s n E. destruct (M2 s n E) as [Hc Hn].
    split; [|split; [exact Hn|now apply Hexit]].
    destruct Hn as [Hn|(-> & _)]; lia.
  - intros s s' Hp. destruct (ext_pass_summary s s' Hp) as (_ & _ & A & B).
    split; [intros Hne; destruct (A Hne); tauto|].
    intros Hnil. now destruct (B Hnil).
Qed.

(** ** Index helpers *)

(** [GridToIdx] after [IdxToGrid] is the identity when the row length is
    not zero; [IdxToGrid] after [GridToIdx] is the identity on the cells
    [(x1, x2)] with [0 <= x1] and [0 <= x2 < M1]; the coordinates of a
    non-negative index are a row [>= 0] and a column of [[0, M1)]. *)
Theorem index_round_trip :
  M1 p <> 0 ->
  (forall idx,
     GridToIdx p (fst (IdxToGrid p idx)) (snd (IdxToGrid p idx)) = idx)
  /\ (forall x1 x2, 0 <= x1 -> 0 <= x2 < M1 p ->
        IdxToGrid p (GridToIdx p x1 x2) = (x1, x2))
  /\ (forall idx, 0 <= idx -> 0 < M1 p ->
        0 <= fst (IdxToGrid p idx) /\ 0 <= snd (IdxToGrid p idx) < M1 p).
Proof.
  intros HM. unfold IdxToGrid, GridToIdx. cbn [fst snd]. split; [|split].
  - intros idx. pose proof (Z.quot_rem' idx (M1 p)). lia.
  - intros x1 x2 H1 H2. f_equal.
    + rewrite Z.quot_add_l by nia. rewrite Z.quot_small; lia.
    + rewrite Z.add_comm, Z.rem_add by nia.
      apply Z.rem_small; lia.
  - intros idx Hi Hm. split.
    + apply Z.quot_pos; lia.
    + apply Z.rem_bound_pos; lia.
Qed.

(** ** Potentials *)

Lemma Vx_DW1_derivative (x1 x2 : R) :
  derivable_pt_lim (fun x => Potential_DW1 x x2) x1 (Vx_DW1 x1 x2).
Proof.
  unfold Potential_DW1, Vx_DW1.
  assert (H4 := derivable_pt_lim_pow x1 4).
  assert (H2 := derivable_pt_lim_pow x1 2).
  assert (Ha := derivable_pt_lim_scal _ (7 / 1000) _ _ H4).
  assert (Hb := derivable_pt_lim_scal _ (1 / 100) _ _ H2).
  assert (Hc := derivable_pt_lim_minus _ _ _ _ _ Ha Hb).
  intros eps He. destruct (Hc eps He) as [d Hd]. exists d.
  intros h Hh Hlt. specialize (Hd h Hh Hlt).
  unfold minus_fct, mult_real_fct in Hd. cbn in Hd.
  match goal with |- (Rabs ?a < _)%R =>
    match type of Hd with (Rabs ?b < _)%R => replace a with b; [exact Hd|] end
  end.
  field. exact Hh.
Qed.

(** For the potentials DW1 and DW2 the force term [POTENTIAL_X] of the
    stage operator is the derivative of [POTENTIAL] in [x1]. *)
Theorem POTENTIAL_X_is_gradient (x1 x2 : R) :
  POT p <> KK2DPOT_DW3 ->
  derivable_pt_lim (fun x => POTENTIAL p x x2) x1 (POTENTIAL_X p x1 x2).
Proof.
  intros HP. unfold POTENTIAL, POTENTIAL_X.
  destruct (POT p); [apply Vx_DW1_derivative| |contradiction].
  unfold Potential_DW2, Vx_DW2. apply derivable_pt_lim_const.
Qed.

(** ** An empty active region *)

Lemma init_truncate_cell_count i j s :
  trunc_view (init_truncate_cell p i j s) = trunc_view s
  /\ ta_size s <= ta_size (init_truncate_cell p i j s)
  /\ (ta_size (init_truncate_cell p i j s) = ta_size s ->
      TAMask (init_truncate_cell p i j s) = TAMask s).
Proof.
  unfold init_truncate_cell.
  match goal with |- context [if ?b then _ else _] => destruct b end;
    cbn; repeat split; try lia.
Qed.

Lemma first_truncation_count s :
  let s1 := stage_full p (init_truncate_cell p) s in
  trunc_view s1 = trunc_view s
  /\ ta_size s <= ta_size s1
  /\ (ta_size s1 = ta_size s -> TAMask s1 = TAMask s).
Proof.
  unfold stage_full.
  apply (for_loop_inv
           (fun s' => trunc_view s' = trunc_view s
                      /\ ta_size s <= ta_size s'
                      /\ (ta_size s' = ta_size s -> TAMask s' = TAMask s)));
    [repeat split; lia|].
  intros i s' _ Hs'.
  apply (for_loop_inv
           (fun s'' => trunc_view s'' = trunc_view s
                      /\ ta_size s <= ta_size s''
                      /\ (ta_size s'' = ta_size s -> TAMask s'' = TAMask s)));
    [exact Hs'|].
  intros j s'' _ (Hv & Hle & Hm).
  destruct (init_truncate_cell_count i j s'') as (Hv' & Hle' & Hm').
  split; [congruence|]. split; [lia|].
  intros E. rewrite Hm' by lia. apply Hm. lia.
Qed.

Lemma init_normalize_view :
  TAMask (init_normalize p (init_wavefunction p st_zero)) = (fun _ => false)
  /\ TB (init_normalize p (init_wavefunction p st_zero)) = [].
Proof.
  split.
  - unfold init_normalize. rewrite (stage_full_proj _ TAMask); [|reflexivity].
    unfold init_wavefunction. now rewrite (stage_full_proj _ TAMask).
  - unfold init_normalize. rewrite (stage_full_proj _ TB); [|reflexivity].
    unfold init_wavefunction. now rewrite (stage_full_proj _ TB).
Qed.

(** When the first loop of the initial truncation keeps no cell, the
    time iteration never changes the distribution: every step completes,
    [F] stays the normalized initial wavefunction and no cell is live. *)
Theorem never_evolves_without_live_cells (fuel n : nat) :
  isFullGrid p = false ->
  let s0 := init_normalize p (init_wavefunction p st_zero) in
  ta_size (stage_full p (init_truncate_cell p) (set_ta_size 0 (reset_box s0)))
  = 0 ->
  exists st', run p fuel n (Evolve_init p) = StepDone st'
              /\ F st' = F s0
              /\ (forall k, TAMask st' k = false).
Proof.
  intros Hg s0 Hta.
  destruct init_normalize_view as [Hm0 HT0]. fold s0 in Hm0, HT0.
  destruct (first_truncation_count (set_ta_size 0 (reset_box s0)))
    as (Hv & _ & Hm).
  set (s1 := stage_full p (init_truncate_cell p)
               (set_ta_size 0 (reset_box s0))) in *.
  unfold trunc_view in Hv.
  injection Hv as HF HTB Hx1 Hx2.
  change (F s1 = F s0) in HF. change (TB s1 = TB s0) in HTB.
  change (x1_min s1 = BIG_NUMBER) in Hx1.
  change (x1_max s1 = - BIG_NUMBER) in Hx2.
  rewrite HT0 in HTB.
  assert (Hmask : TAMask s1 = (fun _ => false)).
  { rewrite Hm by exact Hta. exact Hm0. }
  assert (HE : Evolve_init p = s1).
  { unfold Evolve_init. rewrite Hg. cbn [negb]. fold s0.
    unfold initial_truncation. fold s1. rewrite Hta. cbn [Z.eqb].
    unfold init_moments. rewrite Hg. cbn [negb].
    destruct (isLinearizedCollision p); [|destruct (isIsothermal p)];
      apply for_loop_empty; rewrite Hx1, Hx2; unfold BIG_NUMBER; lia. }
  rewrite HE.
  destruct (run_idle fuel n s1 Hg) as (st' & Hr & HF' & (_ & _ & HM')).
  { split; [exact HTB|split].
    - rewrite Hx1, Hx2. unfold BIG_NUMBER. lia.
    - intros k. now rewrite Hmask. }
  exists st'. split; [exact Hr|]. split; [congruence|exact HM'].
Qed.

(** ** The halo of the full grid *)


Lemma stage_full_bufs_outside cell st k :
  (forall i j s, k <> i * W1 p + j -> bufs_at (cell i j s) k = bufs_at s k) ->
  halo p k ->
  bufs_at (stage_full p cell st) k = bufs_at st k.
Proof.
  intros Hc Hk. rewrite stage_full_cells.
  apply (fold_left_inv (fun s => bufs_at s k = bufs_at st k)); [reflexivity|].
  intros s c Hin Hs. rewrite Hc; [exact Hs|].
  apply in_cells in Hin. apply Hk; lia.
Qed.

Ltac cell_outside :=
  let Hne := fresh "Hne" in
  intros ? ? ? Hne; unfold bufs_at; cbn;
  rewrite ?upd_other by exact Hne; reflexivity.

Lemma RK4_full_bufs_outside st k :
  halo p k -> bufs_at (RK4_full p st) k = bufs_at st k.
Proof.
  intros Hk. unfold RK4_full, RK4.
  rewrite !stage_full_bufs_outside; try exact Hk; try reflexivity.
  - unfold RK4_1_cell. cell_outside.
  - unfold RK4_2_cell. cell_outside.
  - unfold RK4_3_cell. cell_outside.
  - unfold RK4_4_cell. cell_outside.
Qed.

Lemma init_moments_bufs s : bufs (init_moments p s) = bufs s.
Proof.
  unfold init_moments.
  repeat match goal with
         | |- context [if ?b then _ else _] => destruct b
         end;
    apply for_loop_proj; intros i s';
    unfold init_moments_row_lin, init_moments_row_iso, init_moments_row_fp;
    destruct (Rleb _ 0); reflexivity.
Qed.

Lemma bufs_at_of_bufs s s' k : bufs s' = bufs s -> bufs_at s' k = bufs_at s k.
Proof.
  unfold bufs, bufs_at. intros H. injection H as -> -> -> -> -> -> ->.
  reflexivity.
Qed.

Lemma step_full_grid fuel st :
  isFullGrid p = true ->
  step p fuel st
  = StepDone (normalization p (CASE3 p (begin_step p st))).
Proof.
  intros Hg. unfold step.
  assert (Hc : loop_cond p (begin_step p st) = false).
  { unfold loop_cond. rewrite Hg. cbn [negb].
    now rewrite andb_false_r. }
  assert (HL : ext_loop p fuel 0 (begin_step p st)
               = Finished (begin_step p st) 0).
  { destruct fuel; cbn [ext_loop]; now rewrite Hc. }
  rewrite HL. unfold finish_step, update_without_extrapolation.
  rewrite Hg. cbn [negb andb].
  unfold begin_step. rewrite Hg. reflexivity.
Qed.

Lemma step_full_grid_outside fuel st k :
  isFullGrid p = true -> halo p k ->
  exists st', step p fuel st = StepDone st'
              /\ bufs_at st' k = bufs_at st k.
Proof.
  intros Hg Hk. rewrite (step_full_grid fuel st Hg).
  eexists. split; [reflexivity|].
  unfold normalization. rewrite Hg. cbn [negb].
  rewrite stage_full_bufs_outside; [|unfold normalize_cell; cell_outside|exact Hk].
  unfold CASE3. rewrite RK4_full_bufs_outside by exact Hk.
  apply bufs_at_of_bufs.
  rewrite (moments_feq_full_proj _ bufs); try reflexivity.
  unfold begin_step. now rewrite Hg.
Qed.

(** In full-grid mode every step completes, and the cells outside the
    edge-free interior are never written: after any number of steps the
    distribution buffers and the stage buffers still hold 0 there. *)
Theorem full_grid_halo_stays_zero (fuel n : nat) :
  isFullGrid p = true ->
  exists st', run p fuel n (Evolve_init p) = StepDone st'
    /\ forall k, halo p k ->
         F st' k = 0%R /\ PF st' k = 0%R /\ FF st' k = 0%R
         /\ KK1 st' k = 0%R /\ KK2 st' k = 0%R /\ KK3 st' k = 0%R
         /\ KK4 st' k = 0%R.
Proof.
  intros Hg.
  assert (H0 : forall k, halo p k ->
            bufs_at (Evolve_init p) k = bufs_at st_zero k).
  { intros k Hk. unfold Evolve_init. rewrite Hg. cbn [negb].
    rewrite (bufs_at_of_bufs _ _ k (init_moments_bufs _)).
    unfold init_normalize.
    rewrite stage_full_bufs_outside; [|cell_outside|exact Hk].
    unfold init_wavefunction.
    rewrite stage_full_bufs_outside; [reflexivity|cell_outside|exact Hk]. }
  assert (Hrun : forall m st, exists st',
            run p fuel m st = StepDone st'
            /\ forall k, halo p k -> bufs_at st' k = bufs_at st k).
  { clear H0. intros m. induction m as [|n' IH]; intros st.
    - exists st. split; [reflexivity|]. intros; reflexivity.
    - cbn [run]. rewrite (step_full_grid fuel st Hg).
      destruct (IH (normalization p (CASE3 p (begin_step p st))))
        as (st' & Hr & Hb).
      exists st'. split; [exact Hr|]. intros k Hk. rewrite (Hb k Hk).
      destruct (step_full_grid_outside fuel st k Hg Hk) as (s1 & Hs & Hb1).
      rewrite (step_full_grid fuel st Hg) in Hs. injection Hs as <-.
      exact Hb1. }
  destruct (Hrun n (Evolve_init p)) as (st' & Hr & Hb).
  exists st'. split; [exact Hr|]. intros k Hk.
  specialize (Hb k Hk). rewrite (H0 k Hk) in Hb.
  unfold bufs_at in Hb. cbn in Hb.
  injection Hb as -> -> -> -> -> -> ->. repeat split; reflexivity.
Qed.

(** ** The moment engine of a step *)


(** The moment pass before the time integration of a truncated-grid step,
    for a row [i] of the bounding box: a row of density [<= 0] gets zero
    moments and a zero equilibrium field on its live cells; otherwise the
    density is [rho_i], the drift velocity is 0 in the linearized mode
    and [u_i] in the other two, and the temperature is the bath
    temperature in the linearized and isothermal modes and [T_i] in the
    full Fokker-Planck mode. The pass writes no other buffer. *)
Theorem moment_engine_by_mode (st : State) (i : Z) :
  0 <= x2_min st -> x2_max st < W1 p ->
  x1_min st <= i <= x1_max st ->
  let st' := moments_feq_trunc p st in
  ((rho_spec p st i <= 0)%R ->
     Density st' i = 0%R /\ Velocity st' i = 0%R
     /\ Temperature st' i = 0%R
     /\ (forall j, x2_min st <= j <= x2_max st ->
           TAMask st (i * W1 p + j) = true ->
           Feq_loc st' (i * W1 p + j) = 0%R))
  /\ ((0 < rho_spec p st i)%R ->
        Density st' i = rho_spec p st i
        /\ Velocity st' i
           = (if isLinearizedCollision p then 0%R else u_spec p st i)
        /\ Temperature st' i
           = (if isLinearizedCollision p || isIsothermal p then temp p
              else T_spec p st i))
  /\ fields_kept st st'.
Proof.
  intros Hlo Hhi Hi st'.
  destruct (moments_feq_trunc_spec st Hlo Hhi) as (Hk & Hrows).
  destruct (Hrows i Hi) as (HM & HF). fold st' in HM, HF, Hk.
  unfold moments_at in HM. unfold row_moments in HM.
  cbv beta in HM. rewrite row_density_spec in HM.
  fold (rho_spec p st i) in HM.
  split; [|split; [|exact Hk]].
  - intros Hle.
    assert (E : Rleb (rho_spec p st i) 0 = true) by now apply Rleb_true.
    rewrite E in HM. injection HM as -> -> ->.
    repeat split. intros j Hj Hl. rewrite (HF j Hj Hl).
    unfold row_feq_stored. cbv beta. rewrite row_density_spec.
    fold (rho_spec p st i). now rewrite E.
  - intros Hpos.
    assert (E : Rleb (rho_spec p st i) 0 = false) by now apply Rleb_false.
    rewrite E in HM.
    destruct (isLinearizedCollision p).
    + injection HM as -> -> ->. repeat split.
    + destruct (isIsothermal p).
      * rewrite row_velocity_spec in HM. fold (u_spec p st i) in HM.
        injection HM as -> -> ->. repeat split.
      * rewrite row_velocity_spec in HM. fold (u_spec p st i) in HM.
        rewrite row_temperature_spec in HM.
        fold (T_spec p st i) in HM.
        injection HM as -> -> ->. repeat split.
Qed.

(** ** Time integration on the truncated grid *)


Lemma RK4_cells_spec (L : list (Z * Z)) (st : State) :
  NoDup (map (idx p) L) ->
  let st' := RK4_cells p L st in
  (forall i j, In (i, j) L ->
     let c := i * W1 p + j in
     KK1 st' c = stage_op p (F st) (Feq_loc st) i j
     /\ KK2 st' c
        = stage_op p (fun k => F st k + KK1 st' k / 2)%R (Feq_loc st) i j
     /\ KK3 st' c
        = stage_op p (fun k => F st k + KK2 st' k / 2)%R (Feq_loc st) i j
     /\ KK4 st' c
        = stage_op p (fun k => F st k + KK3 st' k)%R (Feq_loc st) i j
     /\ FF st' c
        = (F st c + KK1 st' c / 6 + KK2 st' c / 3 + KK3 st' c / 3
           + KK4 st' c / 6)%R)
  /\ (forall k, ~ In k (map (idx p) L) ->
        KK1 st' k = KK1 st k /\ KK2 st' k = KK2 st k
        /\ KK3 st' k = KK3 st k /\ KK4 st' k = KK4 st k
        /\ FF st' k = FF st k).
Proof.
  intros Hnd st'.
  set (s1 := fold_left (fun s c => RK4_1_cell p (fst c) (snd c) s) L st).
  set (s2 := fold_left (fun s c => RK4_2_cell p (fst c) (snd c) s) L s1).
  set (s3 := fold_left (fun s c => RK4_3_cell p (fst c) (snd c) s) L s2).
  assert (Hst' : st' = fold_left
                   (fun s c => RK4_4_cell p (fst c) (snd c) s) L s3)
    by reflexivity.
  clearbody st'. subst st'.
  set (s4 := fold_left (fun s c => RK4_4_cell p (fst c) (snd c) s) L s3).
  destruct (RK4_1_spec L st Hnd) as (Hv1 & Ho1 & Hin1).
  destruct (RK4_2_spec L s1 Hnd) as (Hv2 & Ho2 & Hin2).
  destruct (RK4_3_spec L s2 Hnd) as (Hv3 & Ho3 & Hin3).
  destruct (RK4_4_spec L s3 Hnd) as (Hv4 & Ho4 & Hin4).
  fold s1 in Hv1, Hin1, Ho1. fold s2 in Hv2, Hin2, Ho2.
  fold s3 in Hv3, Hin3, Ho3. fold s4 in Hv4, Hin4, Ho4.
  unfold view1 in Hv1. unfold view2 in Hv2. unfold view3 in Hv3.
  unfold view4 in Hv4.
  injection Hv1 as F1 Q1 A1 B1 C1. injection Hv2 as F2 Q2 A2 B2 C2.
  injection Hv3 as F3 Q3 A3 B3 C3. injection Hv4 as F4 Q4 A4 B4 C4.
  split.
  - intros i j Hc c.
    destruct (Hin1 _ Hc) as [HK1 HFF1]. destruct (Hin2 _ Hc) as [HK2 HFF2].
    destruct (Hin3 _ Hc) as [HK3 HFF3]. destruct (Hin4 _ Hc) as [HK4 HFF4].
    unfold idx in HK1, HK2, HK3, HK4, HFF1, HFF2, HFF3, HFF4.
    cbn [fst snd] in *. fold c in HK1, HK2, HK3, HK4.
    fold c in HFF1, HFF2, HFF3, HFF4.
    assert (E1 : KK1 s4 c = stage_op p (F st) (Feq_loc st) i j).
    { rewrite A4, A3, A2, HK1. unfold RK4_1_cell, c. cbn.
      rewrite upd_same. unfold stage_op, k2h0m, k2h1, kgamma, W1. ring. }
    assert (E2 : KK2 s4 c
                 = stage_op p (fun k => F st k + KK1 s4 k / 2)%R
                     (Feq_loc st) i j).
    { rewrite B4, B3, HK2. unfold RK4_2_cell, c. cbn.
      rewrite upd_same. unfold stage_op, k2h0m, k2h1, kgamma, W1.
      rewrite A4, A3, A2, F1, Q1. unfold Rdiv. ring. }
    assert (E3 : KK3 s4 c
                 = stage_op p (fun k => F st k + KK2 s4 k / 2)%R
                     (Feq_loc st) i j).
    { rewrite C4, HK3. unfold RK4_3_cell, c. cbn.
      rewrite upd_same. unfold stage_op, k2h0m, k2h1, kgamma, W1.
      rewrite B4, B3, F2, F1, Q2, Q1. unfold Rdiv. ring. }
    assert (E4 : KK4 s4 c
                 = stage_op p (fun k => F st k + KK3 s4 k)%R
                     (Feq_loc st) i j).
    { rewrite HK4. unfold RK4_4_cell, c. cbn.
      rewrite upd_same. unfold stage_op, k2h0m, k2h1, kgamma, W1.
      rewrite C4, F3, F2, F1, Q3, Q2, Q1. unfold Rdiv. ring. }
    repeat split; try assumption.
    unfold c in *. rewrite HFF4, RK4_4_cell_FF, <- HK4.
    rewrite HFF3, RK4_3_cell_FF, <- HK3.
    rewrite HFF2, RK4_2_cell_FF, <- HK2.
    rewrite HFF1, RK4_1_cell_FF, <- HK1.
    now rewrite C4, B4, B3, A4, A3, A2.
  - intros k Hk.
    destruct (Ho1 k Hk) as [K1 G1]. destruct (Ho2 k Hk) as [K2 G2].
    destruct (Ho3 k Hk) as [K3 G3]. destruct (Ho4 k Hk) as [K4 G4].
    split; [rewrite A4, A3, A2; exact K1|].
    split; [rewrite B4, B3, K2, A1; reflexivity|].
    split; [rewrite C4, K3, B2, B1; reflexivity|].
    split; [rewrite K4, C3, C2, C1; reflexivity|].
    rewrite G4, G3, G2. exact G1.
Qed.

Lemma guarded_fold_filter cell L st :
  (forall i j s, TAMask (cell i j s) = TAMask s) ->
  fold_left (fun s c => guarded p cell (fst c) (snd c) s) L st
  = fold_left (fun s c => cell (fst c) (snd c) s)
      (filter (fun c => TAMask st (idx p c)) L) st.
Proof.
  intros Hm. revert st. induction L as [|c L IH]; intros st; [reflexivity|].
  cbn [fold_left filter]. unfold guarded at 2. unfold idx at 1.
  destruct (TAMask st (fst c * W1 p + snd c)) eqn:E.
  - cbn [fold_left]. rewrite IH. rewrite Hm. reflexivity.
  - apply IH.
Qed.

Lemma NoDup_map_filter {A B : Type} (f : A -> B) (P : A -> bool) l :
  NoDup (map f l) -> NoDup (map f (filter P l)).
Proof.
  induction l as [|a l IH]; cbn; intros H; [constructor|].
  inversion H as [|? ? Hn Hd]; subst.
  destruct (P a); cbn; [constructor|]; auto.
  intros Hin. apply Hn. apply in_map_iff in Hin as (x & Hx & Hin).
  apply filter_In in Hin as [Hin _]. apply in_map_iff. now exists x.
Qed.

Lemma stage_box_live_cells cell st :
  (forall i j s, view_mask (cell i j s) = view_mask s) ->
  stage_box p cell st
  = fold_left (fun s c => cell (fst c) (snd c) s) (live_cells p st) st
  /\ view_mask (stage_box p cell st) = view_mask st.
Proof.
  intros Hv. split.
  - rewrite stage_box_cells.
    + apply guarded_fold_filter. intros i j s.
      specialize (Hv i j s). unfold view_mask in Hv. congruence.
    + intros i j s. specialize (Hv i j s). unfold view_mask in Hv.
      split; congruence.
  - now apply stage_box_proj.
Qed.

Lemma live_cells_view st st' :
  view_mask st' = view_mask st -> live_cells p st' = live_cells p st.
Proof.
  unfold view_mask, live_cells. intros H.
  injection H as -> -> -> -> ->. reflexivity.
Qed.

Lemma RK4_box_cells st : RK4_box p st = RK4_cells p (live_cells p st) st.
Proof.
  unfold RK4_box, RK4, RK4_cells.
  destruct (stage_box_live_cells (RK4_1_cell p) st) as [E1 V1];
    [reflexivity|].
  set (s1 := stage_box p (RK4_1_cell p) st) in *.
  destruct (stage_box_live_cells (RK4_2_cell p) s1) as [E2 V2];
    [reflexivity|].
  set (s2 := stage_box p (RK4_2_cell p) s1) in *.
  destruct (stage_box_live_cells (RK4_3_cell p) s2) as [E3 V3];
    [reflexivity|].
  set (s3 := stage_box p (RK4_3_cell p) s2) in *.
  destruct (stage_box_live_cells (RK4_4_cell p) s3) as [E4 V4];
    [reflexivity|].
  rewrite E4.
  rewrite (live_cells_view st s3) by congruence.
  rewrite E3. rewrite (live_cells_view st s2) by congruence.
  rewrite E2. rewrite (live_cells_view st s1) by congruence.
  now rewrite E1.
Qed.

(** CASE 2 of a step (truncated grid, no extrapolation): at every live
    cell of the bounding box the four stage fields are the stage operator
    applied to [F], [F + K1/2], [F + K2/2] and [F + K3] with the
    equilibrium field of the moment pass, and [FF] is
    [F + K1/6 + K2/3 + K3/3 + K4/6]; [F] itself is not written. *)
Theorem CASE2_rk4_live_cells (st : State) (i j : Z) :
  0 <= x2_min st -> x2_max st < W1 p ->
  x1_min st <= i <= x1_max st ->
  x2_min st <= j <= x2_max st ->
  TAMask st (i * W1 p + j) = true ->
  let feq := Feq_loc (moments_feq_trunc p st) in
  let st' := CASE2 p st in
  let c := i * W1 p + j in
  KK1 st' c = stage_op p (F st) feq i j
  /\ KK2 st' c = stage_op p (fun k => F st k + KK1 st' k / 2)%R feq i j
  /\ KK3 st' c = stage_op p (fun k => F st k + KK2 st' k / 2)%R feq i j
  /\ KK4 st' c = stage_op p (fun k => F st k + KK3 st' k)%R feq i j
  /\ FF st' c
     = (F st c + KK1 st' c / 6 + KK2 st' c / 3 + KK3 st' c / 3
        + KK4 st' c / 6)%R
  /\ F st' = F st.
Proof.
  intros Hlo Hhi Hi Hj Hl feq st' c.
  destruct (moments_feq_trunc_kept st)
    as (HF & _ & _ & _ & _ & _ & _ & HM & X1 & X2 & Y1 & Y2).
  set (s0 := moments_feq_trunc p st) in *.
  assert (HL : live_cells p s0 = live_cells p st).
  { apply live_cells_view. unfold view_mask. congruence. }
  assert (Hst' : st' = RK4_cells p (live_cells p st) s0).
  { unfold st', CASE2. fold s0. rewrite RK4_box_cells. now rewrite HL. }
  assert (Hnd : NoDup (map (idx p) (live_cells p st))).
  { unfold live_cells. apply NoDup_map_filter.
    apply NoDup_idx_cells; lia. }
  assert (Hc : In (i, j) (live_cells p st)).
  { unfold live_cells. apply filter_In. split.
    - apply in_cells. cbn. lia.
    - exact Hl. }
  destruct (RK4_cells_spec (live_cells p st) s0 Hnd) as [Hin _].
  specialize (Hin i j Hc). rewrite <- Hst' in Hin. cbv zeta in Hin.
  rewrite HF in Hin. fold c feq in Hin.
  destruct Hin as (E1 & E2 & E3 & E4 & E5).
  repeat split; try assumption.
  destruct (fm_fields _ _ (RK4_box_fm s0)) as [HF' _].
  unfold st', CASE2. fold s0. now rewrite HF'.
Qed.

(** CASE 2 writes the stage buffers and [FF] at the live cells of the
    bounding box only: at any other index they keep the values of the
    state before the step, which the stages of a neighbouring live cell
    read. *)
Theorem CASE2_keeps_stale_stage_values (st : State) (k : Z) :
  0 <= x2_min st -> x2_max st < W1 p ->
  (forall i j, x1_min st <= i <= x1_max st -> x2_min st <= j <= x2_max st ->
               TAMask st (i * W1 p + j) = true -> k <> i * W1 p + j) ->
  let st' := CASE2 p st in
  KK1 st' k = KK1 st k /\ KK2 st' k = KK2 st k
  /\ KK3 st' k = KK3 st k /\ KK4 st' k = KK4 st k
  /\ FF st' k = FF st k.
Proof.
  intros Hlo Hhi Hk st'.
  destruct (moments_feq_trunc_kept st)
    as (_ & HFF & _ & K1 & K2 & K3 & K4 & HM & X1 & X2 & Y1 & Y2).
  set (s0 := moments_feq_trunc p st) in *.
  assert (HL : live_cells p s0 = live_cells p st).
  { apply live_cells_view. unfold view_mask. congruence. }
  assert (Hnd : NoDup (map (idx p) (live_cells p s0))).
  { unfold live_cells. apply NoDup_map_filter.
    apply NoDup_idx_cells; lia. }
  destruct (RK4_cells_spec (live_cells p s0) s0 Hnd) as [_ Hout].
  unfold st', CASE2. fold s0. rewrite RK4_box_cells.
  rewrite <- K1, <- K2, <- K3, <- K4, <- HFF. apply Hout.
  rewrite HL. intros Hin. apply in_map_iff in Hin as ([i j] & Hx & Hin).
  unfold live_cells in Hin. apply filter_In in Hin as [Hc Hl].
  apply in_cells in Hc. cbn in Hc.
  apply (Hk i j); [lia|lia|exact Hl|]. now rewrite <- Hx.
Qed.

(** ** Extrapolation of one target *)


Lemma Reqb_refl x : Reqb x x = true.
Proof. now apply Reqb_true. Qed.

Lemma extrap_dir_zero f2 d a : extrap_dir 0 f2 d a = a.
Proof. unfold extrap_dir. now rewrite Reqb_refl. Qed.

Lemma extrap_val_pos f1 f2 :
  (0 < f1)%R -> (0 < f2)%R -> extrap_val f1 f2 = Fin (f1 * f1 / f2).
Proof.
  intros H1 H2. unfold extrap_val, dlog.
  rewrite (proj2 (Rltb_true _ _) H1), (proj2 (Rltb_true _ _) H2). cbn.
  f_equal. replace (2 * ln f1 + - ln f2)%R with (ln f1 + ln f1 + - ln f2)%R
    by ring.
  rewrite !exp_plus, exp_Ropp, !exp_ln by assumption. reflexivity.
Qed.

Lemma extrap_dir_single f1 f2 dir :
  (0 < f1 < IZR BIG_NUMBER)%R -> (0 < f2)%R ->
  extrap_dir f1 f2 dir ExAcc_init
  = mkExAcc (0 + f1 * f1 / f2) (0 + 1) false f1 f1 dir.
Proof.
  intros [H1 Hb] H2. unfold extrap_dir.
  replace (Reqb f1 0) with false by (symmetry; apply Reqb_false; lra).
  replace (Reqb f2 0) with false by (symmetry; apply Reqb_false; lra).
  cbn [negb andb]. rewrite Rabs_right by lra.
  replace (Rltb f1 (val_min_abs ExAcc_init)) with true
    by (symmetry; apply Rltb_true; exact Hb).
  cbn [andb]. rewrite (extrap_val_pos f1 f2 H1 H2). reflexivity.
Qed.

Lemma extrap_result_single f1 v dir h :
  (0 < v)%R -> H_at p dir = Some h ->
  extrap_result p (mkExAcc (0 + v) (0 + 1) false f1 f1 dir)
  = ExAssigned (if Rltb f1 v then f1 * exp (- ExReduce p * h) else v)%R.
Proof.
  intros Hv Hh. unfold extrap_result. cbn [ex_isEmpty val_min_abs ex_sum ex_count val_min min_dir].
  replace ((0 + v) / IZR (0 + 1))%R with v by (cbn; field).
  rewrite Rabs_right by lra. rewrite Hh.
  destruct (Rltb f1 v); reflexivity.
Qed.

(** The comparison of the single candidate with the recorded neighbour,
    on the real numbers of the model. *)
Lemma one_direction_exact (st : State) (e : Z) (d : Dir) :
  let g1 := Z.quot e (M1 p) in
  let g2 := Z.rem e (M1 p) in
  let f1 := F st (dir_near p g1 g2 d) in
  let f2 := F st (dir_far p g1 g2 d) in
  (forall d', d' <> d -> F st (dir_near p g1 g2 d') = 0%R) ->
  (0 < f1 < IZR BIG_NUMBER)%R -> (0 < f2)%R ->
  extrapolate_cell p st e
  = ExAssigned (if Rltb f1 (f1 * f1 / f2)
                then f1 * exp (- ExReduce p * dir_step p d)
                else f1 * f1 / f2)%R.
Proof.
  intros g1 g2 f1 f2 Hz H1 H2.
  assert (Hv : (0 < f1 * f1 / f2)%R).
  { apply Rdiv_lt_0_compat; [|exact H2]. apply Rmult_lt_0_compat; lra. }
  unfold extrapolate_cell, extrap_acc. fold g1 g2.
  pose proof (Hz Xm) as Z1. pose proof (Hz Xp) as Z2.
  pose proof (Hz Pm) as Z3. pose proof (Hz Pp) as Z4.
  cbn [dir_near] in Z1, Z2, Z3, Z4.
  destruct d; cbn [dir_near dir_far dir_step] in *.
  - rewrite Z2, Z3, Z4 by discriminate. rewrite !extrap_dir_zero.
    fold f1 f2. rewrite (extrap_dir_single f1 f2 0 H1 H2).
    now apply extrap_result_single.
  - rewrite Z1, Z3, Z4 by discriminate. rewrite !extrap_dir_zero.
    fold f1 f2. rewrite (extrap_dir_single f1 f2 0 H1 H2).
    now apply extrap_result_single.
  - rewrite Z1, Z2, Z4 by discriminate. rewrite !extrap_dir_zero.
    fold f1 f2. rewrite (extrap_dir_single f1 f2 1 H1 H2).
    now apply extrap_result_single.
  - rewrite Z1, Z2, Z3 by discriminate. rewrite !extrap_dir_zero.
    fold f1 f2. rewrite (extrap_dir_single f1 f2 1 H1 H2).
    now apply extrap_result_single.
Qed.

(** A target with neighbours along one direction only, [0 < f1 <
    BIG_NUMBER] nearest and [0 < f2] behind it, away from the boundary
    [f1 = f2] of the comparison [val_min_abs < |sum / count|], which the
    rounding of [exp(2 log f1 - log f2)] decides there and which the
    model, on real numbers, does not describe.  When [f2] is at least
    [2 * f1] the candidate [f1^2 / f2] is at most [f1 / 2] and is
    assigned.  When [f1] is at least [2 * f2] the candidate is at least
    [2 * f1] and the target is assigned [f1 * exp(-ExReduce * h)], with
    [h] the grid step of the direction; the bound [1e300] on the
    candidate keeps it finite in double precision (an infinite candidate
    is discarded by the [isinf] test). *)
Theorem extrapolation_one_direction (st : State) (e : Z) (d : Dir) :
  let g1 := Z.quot e (M1 p) in
  let g2 := Z.rem e (M1 p) in
  let f1 := F st (dir_near p g1 g2 d) in
  let f2 := F st (dir_far p g1 g2 d) in
  (forall d', d' <> d -> F st (dir_near p g1 g2 d') = 0%R) ->
  (0 < f1 < IZR BIG_NUMBER)%R -> (0 < f2)%R ->
  ((2 * f1 <= f2)%R ->
   extrapolate_cell p st e = ExAssigned (f1 * f1 / f2))
  /\ ((2 * f2 <= f1)%R -> (f1 * f1 / f2 <= 10 ^ 300)%R ->
      extrapolate_cell p st e
      = ExAssigned (f1 * exp (- ExReduce p * dir_step p d))).
Proof.
  intros g1 g2 f1 f2 Hz H1 H2.
  pose proof (one_direction_exact st e d Hz H1 H2) as E.
  fold g1 g2 f1 f2 in E. cbv zeta in E.
  split.
  - intros Hm. rewrite E.
    replace (Rltb f1 (f1 * f1 / f2)) with false; [reflexivity|].
    symmetry. apply Rltb_false.
    apply (Rmult_le_reg_r f2); [exact H2|].
    replace (f1 * f1 / f2 * f2)%R with (f1 * f1)%R by (field; lra).
    nra.
  - intros Hm _. rewrite E.
    replace (Rltb f1 (f1 * f1 / f2)) with true; [reflexivity|].
    symmetry. apply Rltb_true.
    apply (Rmult_lt_reg_r f2); [exact H2|].
    replace (f1 * f1 / f2 * f2)%R with (f1 * f1)%R by (field; lra).
    nra.
Qed.

Lemma extrap_dir_no_candidate f1 f2 dir a :
  (f1 = 0 \/ f2 = 0 \/ f1 < 0 \/ f2 < 0)%R ->
  ex_isEmpty (extrap_dir f1 f2 dir a) = ex_isEmpty a.
Proof.
  intros H. unfold extrap_dir.
  destruct (Reqb f1 0) eqn:E1; cbn [negb]; [reflexivity|].
  destruct (Reqb f2 0) eqn:E2; cbn [negb].
  - rewrite andb_false_r. reflexivity.
  - apply Reqb_false in E1, E2.
    assert (Hn : extrap_val f1 f2 = NaN).
    { unfold extrap_val, dlog.
      destruct (Rltb 0 f1) eqn:P1.
      - apply Rltb_true in P1.
        replace (Rltb 0 f2) with false
          by (symmetry; apply Rltb_false; lra).
        replace (Reqb f2 0) with false by (symmetry; now apply Reqb_false).
        reflexivity.
      - replace (Reqb f1 0) with false by (symmetry; now apply Reqb_false).
        cbn. destruct (Rltb 0 f2); [reflexivity|].
        destruct (Reqb f2 0); reflexivity. }
    rewrite Hn. cbn. destruct (Rltb (Rabs f1) (val_min_abs a)); reflexivity.
Qed.

(** A target is left unassigned when in each of the four directions the
    nearest or the second cell is zero or negative: a zero cell gives no
    candidate and the logarithm of a negative one gives a NaN, which is
    discarded. *)
Theorem extrapolation_without_candidate (st : State) (e : Z) :
  let g1 := Z.quot e (M1 p) in
  let g2 := Z.rem e (M1 p) in
  (forall d, F st (dir_near p g1 g2 d) = 0 \/ F st (dir_far p g1 g2 d) = 0
             \/ F st (dir_near p g1 g2 d) < 0
             \/ F st (dir_far p g1 g2 d) < 0)%R ->
  extrapolate_cell p st e = ExUnassigned.
Proof.
  intros g1 g2 H. unfold extrapolate_cell, extrap_result. fold g1 g2.
  assert (E : ex_isEmpty (extrap_acc p (F st) g1 g2) = true).
  { unfold extrap_acc.
    rewrite (extrap_dir_no_candidate _ _ _ _ (H Pp)).
    rewrite (extrap_dir_no_candidate _ _ _ _ (H Pm)).
    rewrite (extrap_dir_no_candidate _ _ _ _ (H Xp)).
    rewrite (extrap_dir_no_candidate _ _ _ _ (H Xm)).
    reflexivity. }
  now rewrite E.
Qed.


Lemma extrap_dir_ok f1 f2 dir a :
  (Rabs f1 < IZR BIG_NUMBER)%R -> dir = 0 \/ dir = 1 ->
  acc_ok a -> acc_ok (extrap_dir f1 f2 dir a).
Proof.
  intros Hb Hd Ha. unfold extrap_dir.
  destruct (Reqb f1 0); cbn [negb]; [exact Ha|].
  destruct (Reqb f2 0) eqn:E2; cbn [negb andb].
  - rewrite andb_false_r. exact Ha.
  - rewrite andb_true_r.
    assert (H1 : acc_ok
              (if Rltb (Rabs f1) (val_min_abs a)
               then mkExAcc (ex_sum a) (ex_count a) (ex_isEmpty a) (Rabs f1)
                      f1 dir
               else a) /\
            min_dir (if Rltb (Rabs f1) (val_min_abs a)
               then mkExAcc (ex_sum a) (ex_count a) (ex_isEmpty a) (Rabs f1)
                      f1 dir
               else a) <> -1).
    { destruct (Rltb (Rabs f1) (val_min_abs a)) eqn:E.
      - split; [right; exact Hd|cbn; lia].
      - apply Rltb_false in E. destruct Ha as [(A & B & C)|Ha].
        + rewrite B in E. lra.
        + split; [right; exact Ha|lia]. }
    destruct H1 as [H1 H2].
    match goal with |- context [if ?b then _ else _] => destruct b end;
      [|exact H1].
    right. cbn [min_dir]. destruct H1 as [(A & _)|H1]; [contradiction|exact H1].
Qed.

(** When the four nearest neighbours of a target are below [BIG_NUMBER]
    in magnitude, the extrapolation never reads [H] outside the vector:
    the target is left unassigned or is assigned a value. *)
Theorem extrapolation_reads_H_in_range (st : State) (e : Z) :
  let g1 := Z.quot e (M1 p) in
  let g2 := Z.rem e (M1 p) in
  (Rabs (F st ((g1 - 1) * W1 p + g2)) < IZR BIG_NUMBER)%R ->
  (Rabs (F st ((g1 + 1) * W1 p + g2)) < IZR BIG_NUMBER)%R ->
  (Rabs (F st (g1 * W1 p + (g2 - 1))) < IZR BIG_NUMBER)%R ->
  (Rabs (F st (g1 * W1 p + (g2 + 1))) < IZR BIG_NUMBER)%R ->
  extrapolate_cell p st e = ExUnassigned
  \/ exists v, extrapolate_cell p st e = ExAssigned v.
Proof.
  intros g1 g2 H1 H2 H3 H4. unfold extrapolate_cell. fold g1 g2.
  assert (Ha : acc_ok (extrap_acc p (F st) g1 g2)).
  { unfold extrap_acc.
    apply extrap_dir_ok; [exact H4|now right|].
    apply extrap_dir_ok; [exact H3|now right|].
    apply extrap_dir_ok; [exact H2|now left|].
    apply extrap_dir_ok; [exact H1|now left|].
    left. repeat split. }
  set (a := extrap_acc p (F st) g1 g2) in *. clearbody a.
  unfold extrap_result.
  destruct Ha as [(_ & _ & C)|Ha].
  - rewrite C. now left.
  - destruct (ex_isEmpty a); [now left|]. right.
    destruct (Rltb _ _); [|eexists; reflexivity].
    unfold H_at. destruct Ha as [-> | ->]; cbn; eexists; reflexivity.
Qed.

(** ** The initial distribution *)


Lemma fold_outside (K : State -> Z -> R) (cell : Z -> Z -> State -> State)
  L st k :
  (forall i j s k, k <> i * W1 p + j -> K (cell i j s) k = K s k) ->
  ~ In k (map (idx p) L) ->
  K (fold_left (fun s c => cell (fst c) (snd c) s) L st) k = K st k.
Proof.
  intros Hc Hk.
  apply (fold_left_inv (fun s => K s k = K st k)); [reflexivity|].
  intros s c Hin Hs. rewrite Hc; [exact Hs|].
  intros ->. apply Hk. apply in_map_iff. exists c. split; [reflexivity|exact Hin].
Qed.

Lemma write_fold_spec (K : State -> Z -> R) cell (val : Z -> Z -> R -> R)
  L st :
  (forall i j s, K (cell i j s)
                 = upd (K s) (i * W1 p + j) (val i j (F s (i * W1 p + j)))) ->
  (forall i j s k, k <> i * W1 p + j -> F (cell i j s) k = F s k) ->
  NoDup (map (idx p) L) ->
  forall c, In c L ->
    K (fold_left (fun s c => cell (fst c) (snd c) s) L st) (idx p c)
    = val (fst c) (snd c) (F st (idx p c)).
Proof.
  intros HK HF. revert st. induction L as [|a L IH]; intros st Hnd c Hc;
    [contradiction|].
  inversion Hnd as [|? ? Hna Hnd']; subst. cbn [fold_left].
  destruct Hc as [<-|Hc].
  - rewrite (fold_outside K cell L _ (idx p a)); [|
      intros i j s k Hk; rewrite HK; now apply upd_other|exact Hna].
    rewrite HK. unfold idx. now rewrite upd_same.
  - rewrite (IH _ Hnd' c Hc). f_equal. apply HF.
    intros E. apply Hna. unfold idx in E. 
    change (fst c * W1 p + snd c) with (idx p c) in E.
    change (fst a * W1 p + snd a) with (idx p a) in E.
    rewrite <- E. now apply in_map.
Qed.


Lemma init_norm_cells st :
  init_norm p st
  = (sum_cells p (fun _ => true) (F st)
       (cells (EDGE p) (BoxShape_0 p - EDGE p)
              (EDGE p) (BoxShape_1 p - EDGE p)) 0
     * (H_0 p * H_1 p))%R.
Proof.
  unfold init_norm.
  rewrite (for_loop2_cells _ _ _ _
             (fun i1 i2 acc => (acc + F st (i1 * W1 p + i2)%Z)%R)).
  reflexivity.
Qed.



(** ** The prune of the truncation *)


Lemma truncate_cell_PF i j st :
  PF (truncate_cell p i j st) (i * W1 p + j)
  = if pruned p st i j then 0%R else PF st (i * W1 p + j).
Proof.
  unfold truncate_cell, pruned.
  destruct (TAMask st (i * W1 p + j)); cbn [andb]; [|reflexivity].
  destruct (Rltb (PF st (i * W1 p + j)) (TolH p)); cbn [andb]; [|reflexivity].
  destruct (Rltb _ (TolHd_sq p)); [|reflexivity].
  cbn. now rewrite upd_same.
Qed.

Lemma truncate_fold_spec L st :
  NoDup (map (idx p) L) ->
  let st' := fold_left (fun s c => truncate_cell p (fst c) (snd c) s) L st in
  prune_view st' = prune_view st
  /\ (forall c, In c L ->
        PF st' (idx p c)
        = if pruned p st (fst c) (snd c) then 0%R else PF st (idx p c)).
Proof.
  intros Hnd st'.
  destruct (stage_loop_spec _ prune_view PF (truncate_cell p)) with
    (L := L) (st := st) as (Hv & _ & Hin); try assumption.
  - intros i j s. unfold truncate_cell.
    repeat match goal with
           | |- context [if ?b then _ else _] => destruct b
           end; reflexivity.
  - intros i j s k Hk. unfold truncate_cell.
    repeat match goal with
           | |- context [if ?b then _ else _] => destruct b
           end; cbn; rewrite ?upd_other by exact Hk; split; reflexivity.
  - intros i j s s' Hv Hff Hk. rewrite !truncate_cell_PF.
    unfold prune_view in Hv. injection Hv as HF HFF HM X1 X2 Y1 Y2.
    assert (Hp : pruned p s i j = pruned p s' i j).
    { unfold pruned, grad_sq. now rewrite HM, HFF, Hk. }
    rewrite Hp, Hk. split; [reflexivity|].
    unfold truncate_cell.
    repeat match goal with
           | |- context [if ?b then _ else _] => destruct b
           end; cbn; now rewrite HFF.
  - split; [exact Hv|]. intros c Hc. destruct (Hin c Hc) as [HK _].
    unfold st'. rewrite HK. unfold idx. apply truncate_cell_PF.
Qed.

(** The first two loops of the end-of-step truncation, at a cell of the
    bounding box: the cell is live afterwards exactly when its [PF] was
    not 0 and the cell was not pruned, that is, live with [PF < TolH]
    and a squared gradient of [FF] below [TolHd^2]; a live cell keeps
    its [F], any other gets [F = 0]; [PF] is set to 0 where the cell was
    pruned and kept elsewhere. *)
Theorem prune_rule (st : State) (i j : Z) :
  0 <= x2_min st -> x2_max st < W1 p ->
  x1_min st <= i <= x1_max st -> x2_min st <= j <= x2_max st ->
  let s2 := box_loop (remask_cell p) (box_loop (truncate_cell p) st) in
  let c := i * W1 p + j in
  TAMask s2 c = negb (pruned p st i j) && negb (Reqb (PF st c) 0)
  /\ F s2 c = (if TAMask s2 c then F st c else 0%R)
  /\ PF s2 c = (if pruned p st i j then 0%R else PF st c).
Proof.
  intros Hlo Hhi Hi Hj s2 c.
  set (L := cells (x1_min st) (x1_max st + 1) (x2_min st) (x2_max st + 1)).
  assert (Hnd : NoDup (map (idx p) L)) by (apply NoDup_idx_cells; lia).
  assert (Hc : In (i, j) L) by (apply in_cells; cbn; lia).
  set (s1 := box_loop (truncate_cell p) st) in *.
  assert (E1 : s1 = fold_left
                 (fun s c => truncate_cell p (fst c) (snd c) s) L st).
  { unfold s1. apply box_loop_cells. intros i' j' s. unfold truncate_cell.
    repeat match goal with
           | |- context [if ?b then _ else _] => destruct b
           end; split; reflexivity. }
  destruct (truncate_fold_spec L st Hnd) as (Hv & Hin).
  cbv zeta in Hv, Hin. rewrite <- E1 in Hv, Hin.
  unfold prune_view in Hv. injection Hv as HF HFF HM X1 X2 Y1 Y2.
  assert (E2 : s2 = fold_left
                 (fun s c => remask_cell p (fst c) (snd c) s) L s1).
  { unfold s2. rewrite box_loop_cells by (intros; apply remask_cell_box).
    unfold L. now rewrite X1, X2, Y1, Y2. }
  destruct (remask_fold_spec L s1) as (HP & Hin2 & _).
  cbv zeta in HP, Hin2. rewrite <- E2 in HP, Hin2.
  destruct (Hin2 c) as [Hm HF2].
  { apply in_map_iff. exists (i, j). split; [reflexivity|exact Hc]. }
  specialize (Hin (i, j) Hc). unfold idx in Hin. cbn [fst snd] in Hin.
  fold c in Hin.
  rewrite HP, Hm, HF2, Hin, HF.
  destruct (pruned p st i j); cbn.
  - rewrite Reqb_refl. repeat split.
  - destruct (Reqb (PF st c) 0); repeat split.
Qed.

(** ** The bounding box after the truncation *)


Lemma box_le_refl st : box_le st st.
Proof. unfold box_le. lia. Qed.

Lemma box_le_trans s1 s2 s3 : box_le s1 s2 -> box_le s2 s3 -> box_le s1 s3.
Proof. unfold box_le. lia. Qed.

Lemma in_box_le st st' i j : box_le st st' -> in_box st i j -> in_box st' i j.
Proof. unfold box_le, in_box. lia. Qed.

Lemma grow_box_spec g1 g2 st :
  box_le st (grow_box g1 g2 st) /\ in_box (grow_box g1 g2 st) g1 g2
  /\ fm (grow_box g1 g2 st) = fm st.
Proof.
  unfold box_le, in_box, grow_box. cbn.
  destruct (g1 <? x1_min st) eqn:A; destruct (g1 >? x1_max st) eqn:B;
    destruct (g2 <? x2_min st) eqn:C; destruct (g2 >? x2_max st) eqn:D;
    repeat split; lia.
Qed.

Lemma rebuild_fold_spec L st :
  let cell := fun i1 i2 s =>
                if TAMask s (i1 * W1 p + i2)
                then set_ta_size (ta_size s + 1) (grow_box i1 i2 s) else s in
  let st' := fold_left (fun s c => cell (fst c) (snd c) s) L st in
  box_le st st' /\ TAMask st' = TAMask st
  /\ (forall c, In c L -> TAMask st (idx p c) = true ->
        in_box st' (fst c) (snd c)).
Proof.
  cbv zeta. revert st. induction L as [|a L IH]; intros st.
  - cbn. split; [apply box_le_refl|]. split; [reflexivity|].
    intros c [].
  - cbn [fold_left].
    set (s1 := if TAMask st (fst a * W1 p + snd a)
               then set_ta_size (ta_size st + 1) (grow_box (fst a) (snd a) st)
               else st).
    assert (H1 : box_le st s1 /\ TAMask s1 = TAMask st
                 /\ (TAMask st (idx p a) = true ->
                     in_box s1 (fst a) (snd a))).
    { unfold s1, idx. destruct (grow_box_spec (fst a) (snd a) st)
        as (G1 & G2 & G3).
      destruct (TAMask st (fst a * W1 p + snd a)).
      - split; [exact G1|]. split; [reflexivity|]. intros _. exact G2.
      - split; [apply box_le_refl|]. split; [reflexivity|]. discriminate. }
    destruct H1 as (B1 & E1 & I1).
    destruct (IH s1) as (B2 & E2 & I2).
    split; [eapply box_le_trans; eassumption|].
    split; [congruence|].
    intros c [<-|Hc] Hl.
    + eapply in_box_le; [exact B2|]. now apply I1.
    + apply I2; [exact Hc|]. now rewrite E1.
Qed.

Lemma absorb_box l st :
  box_le st (absorb p l st)
  /\ (forall e, In e l ->
        in_box (absorb p l st) (Z.quot e (M1 p)) (Z.rem e (M1 p))).
Proof.
  unfold absorb, for_each. revert st.
  induction l as [|a l IH]; intros st; cbn [fold_left].
  - split; [apply box_le_refl|]. intros e [].
  - set (s1 := grow_box (Z.quot a (M1 p)) (Z.rem a (M1 p))
                 (set_TAMask (upd (TAMask st) a true) st)).
    destruct (grow_box_spec (Z.quot a (M1 p)) (Z.rem a (M1 p))
                (set_TAMask (upd (TAMask st) a true) st)) as (G1 & G2 & _).
    fold s1 in G1, G2.
    destruct (IH s1) as (B & I).
    split.
    + eapply box_le_trans; [|exact B]. exact G1.
    + intros e [<-|He]; [|now apply I].
      eapply in_box_le; [exact B|exact G2].
Qed.

(** After the end-of-step truncation every live cell of the edge-free
    interior lies in the bounding box, so the loops over the box of the
    next step visit it. *)
Theorem truncation_box_covers_live_cells (st : State) (i j : Z) :
  0 <= EDGE p ->
  EDGE p <= i < BoxShape_0 p - EDGE p ->
  EDGE p <= j < BoxShape_1 p - EDGE p ->
  let st' := truncation p st in
  TAMask st' (i * W1 p + j) = true -> in_box st' i j.
Proof.
  intros HE Hi Hj st' Hl. unfold st', truncation in *.
  set (s2 := box_loop (remask_cell p) (box_loop (truncate_cell p) st)) in *.
  set (s3 := rebuild_box p s2) in *.
  set (s4 := rebuild_TB p s3) in *.
  set (l := expansion_targets p s4) in *.
  assert (Hcb : forall s, in_box (count_box p s) i j <-> in_box s i j)
    by (intros s; unfold in_box, count_box; cbn; tauto).
  apply Hcb.
  change (TAMask (absorb p l s4) (i * W1 p + j) = true) in Hl.
  destruct (absorb_box l s4) as (B & I).
  apply absorb_mask in Hl. destruct Hl as [Hl|Hl].
  - eapply in_box_le; [exact B|].
    assert (H4 : in_box s4 i j <-> in_box s3 i j).
    { unfold s4, rebuild_TB. destruct (ta_size s3 =? 0); [tauto|].
      unfold in_box. cbn. tauto. }
    assert (M4 : TAMask s4 = TAMask s3).
    { unfold s4, rebuild_TB. destruct (ta_size s3 =? 0); reflexivity. }
    apply H4. rewrite M4 in Hl.
    unfold s3, rebuild_box in *. rewrite stage_full_cells in *.
    destruct (rebuild_fold_spec
                (cells (EDGE p) (BoxShape_0 p - EDGE p)
                       (EDGE p) (BoxShape_1 p - EDGE p))
                (set_ta_size 0 (reset_box s2))) as (_ & Hm & Hin).
    cbv zeta in Hm, Hin.
    apply (Hin (i, j)).
    + apply in_cells. cbn. lia.
    + rewrite Hm in Hl. exact Hl.
  - specialize (I _ Hl).
    destruct (decode_idx i j) as [Q Rm]; [lia|unfold W1; lia|].
    now rewrite Q, Rm in I.
Qed.

(** ** The frontier of the extrapolation loop *)


Lemma set_difference_not_in a b x :
  strictly_ascending a -> ascending b ->
  In x (set_difference a b) -> In x a /\ ~ In x b.
Proof.
  unfold strictly_ascending, ascending.
  revert b. induction a as [|y a IH]; intros b Ha Hb.
  - destruct b; cbn; tauto.
  - inversion Ha as [|? ? Hsa Hfa]; subst. rewrite Forall_forall in Hfa.
    induction b as [|z b IHb].
    + cbn. intros H. split; [exact H|tauto].
    + inversion Hb as [|? ? Hsb Hfb]; subst. rewrite Forall_forall in Hfb.
      cbn. destruct (y <? z) eqn:E1.
      * apply Z.ltb_lt in E1. intros [<-|H].
        -- split; [now left|]. intros [->|Hin]; [lia|].
           specialize (Hfb _ Hin). lia.
        -- destruct (IH (z :: b) Hsa Hb H) as [H1 H2]. split; [now right|exact H2].
      * apply Z.ltb_ge in E1. destruct (z <? y) eqn:E2.
        -- apply Z.ltb_lt in E2. intros H.
           destruct (IHb Hsb H) as [H1 H2]. split; [exact H1|].
           intros [->|Hin]; [|contradiction].
           destruct H1 as [->|H1]; [lia|]. specialize (Hfa _ H1). lia.
        -- apply Z.ltb_ge in E2. assert (y = z) by lia. subst z.
           intros H. destruct (IH b Hsa Hsb H) as [H1 H2].
           split; [now right|]. intros [->|Hin]; [|contradiction].
           specialize (Hfa _ H1). lia.
Qed.

Lemma insert_sorted_strict x l :
  strictly_ascending l -> ~ In x l -> strictly_ascending (insert_sorted x l).
Proof.
  unfold strictly_ascending. induction l as [|y l IH]; intros H Hn; cbn.
  - repeat constructor.
  - apply StronglySorted_inv in H. destruct H as [Hs Hf].
    rewrite Forall_forall in Hf.
    assert (Hxy : x <> y) by (intros ->; apply Hn; now left).
    destruct (x <=? y) eqn:E.
    + apply Z.leb_le in E. constructor.
      * constructor; [exact Hs|]. now apply Forall_forall.
      * constructor; [lia|]. apply Forall_forall. intros z Hz.
        specialize (Hf z Hz). lia.
    + apply Z.leb_gt in E. constructor.
      * apply IH; [exact Hs|]. intros Hin. apply Hn. now right.
      * apply Forall_forall. intros z Hz.
        apply in_insert_sorted in Hz. destruct Hz as [->|Hz]; [lia|].
        now apply Hf.
Qed.

Lemma sort_strict l : NoDup l -> strictly_ascending (sort l).
Proof.
  unfold sort. induction 1 as [|x l Hn Hd IH]; cbn; [constructor|].
  apply insert_sorted_strict; [exact IH|].
  intros Hin. apply Hn. change (In x (sort l)) in Hin.
  now rewrite in_sort in Hin.
Qed.

Lemma push_checked_filter (t : Z -> bool) (l : list (Z * bool)) acc :
  for_each l
    (fun (ec : Z * bool) (tmpVec : list Z) =>
       if snd ec then if t (fst ec) then tmpVec ++ [fst ec] else tmpVec
       else tmpVec) acc
  = acc ++ map fst (filter (fun ec => snd ec && t (fst ec)) l).
Proof.
  unfold for_each. revert acc. induction l as [|[x c] l IH]; intros acc; cbn.
  - now rewrite app_nil_r.
  - rewrite IH. destruct c; cbn; [|reflexivity].
    destruct (t x); cbn; [|reflexivity]. now rewrite <- app_assoc.
Qed.

Lemma NoDup_fst_combine {B : Type} (a : list Z) (b : list B) :
  NoDup a -> NoDup (map fst (combine a b)).
Proof.
  revert b. induction a as [|x a IH]; intros b H; [constructor|].
  destruct b as [|y b]; [constructor|]. cbn.
  inversion H as [|? ? Hn Hd]; subst. constructor; [|now apply IH].
  intros Hin. apply Hn. apply in_map_iff in Hin as ([x' y'] & Hx & Hin).
  cbn in Hx. subst x'. now apply in_combine_l in Hin.
Qed.

(** The new frontier of [rebuild_frontier]. *)
Lemma rebuild_frontier_new s :
  NoDup (ExFF s) ->
  let s' := rebuild_frontier p s in
  (forall e, In e (TBL s') ->
     In e (ExFF s) /\ ~ In e (TBL_P s) /\ In e (TBL_P s'))
  /\ (forall e, In e (TBL_P s) -> In e (TBL_P s')).
Proof.
  intros Hnd. unfold rebuild_frontier.
  rewrite push_checked_filter. cbn [app].
  set (tmpVec := map fst (filter _ (combine (ExFF s) (ExCheck s)))).
  assert (Ht : NoDup tmpVec).
  { unfold tmpVec. apply NoDup_map_filter. now apply NoDup_fst_combine. }
  assert (Hsub : forall e, In e tmpVec -> In e (ExFF s)).
  { intros e He. unfold tmpVec in He.
    apply in_map_iff in He as ([x c] & Hx & Hin). cbn in Hx. subst x.
    apply filter_In in Hin as [Hin _]. now apply in_combine_l in Hin. }
  set (tbl := set_difference (sort tmpVec) (sort (TBL_P s))).
  assert (Htbl : forall e, In e tbl -> In e (ExFF s) /\ ~ In e (TBL_P s)).
  { intros e He. unfold tbl in He.
    apply set_difference_not_in in He;
      [|now apply sort_strict|apply sort_ascending].
    rewrite !in_sort in He. destruct He as [H1 H2].
    split; [now apply Hsub|exact H2]. }
  assert (HP : forall e, In e (unique (sort (sort (TBL_P s) ++ tbl)))
                         <-> In e (TBL_P s) \/ In e tbl).
  { intros e. rewrite in_unique, in_sort, in_app_iff, in_sort. tauto. }
  cbn [Excount set_Excount set_TBL_P set_TBL].
  destruct (Excount s + 1 =? ExLimit p);
    cbn [TBL TBL_P set_TBL set_Excount set_TBL_P]; split.
  - intros e [].
  - intros e He. apply HP. now left.
  - intros e He. destruct (Htbl e He) as [H1 H2].
    split; [exact H1|split; [exact H2|]]. apply HP. now right.
  - intros e He. apply HP. now left.
Qed.

Lemma extrapolate_block_targets s1 s2 :
  extrapolate_block p s1 = Some s2 -> strictly_ascending (ExFF s2).
Proof.
  unfold extrapolate_block.
  set (sb := set_ExFF _ (set_TBL _ s1)).
  destruct (extrapolate_list p sb (ExFF sb)) as [[chk vals]|];
    [|discriminate].
  set (sc := commit_extrapolation (set_ExTBL vals (set_ExCheck chk sb))).
  assert (H : strictly_ascending (ExFF sc)).
  { unfold sc. rewrite (commit_proj ExFF) by reflexivity.
    cbn [ExFF set_ExTBL set_ExCheck sb set_ExFF].
    apply unique_strictly_ascending, sort_ascending. }
  destruct (count_checked sc =? 0); intros E; injection E as <-.
  - cbn. constructor.
  - exact H.
Qed.

(** A pass of the extrapolation loop that ends with targets: the
    targets form a strictly ascending vector, every cell of the new
    frontier is one of them and was in no frontier of the step before
    (it is not in [TBL_P]), and [TBL_P] keeps its cells and receives the
    new frontier. *)
Theorem frontier_cells_are_new (st st' : State) :
  ext_pass p st = Some st' -> ExFF st' <> [] ->
  strictly_ascending (ExFF st')
  /\ (forall e, In e (TBL st') ->
        In e (ExFF st') /\ ~ In e (TBL_P st) /\ In e (TBL_P st'))
  /\ (forall e, In e (TBL_P st) -> In e (TBL_P st')).
Proof.
  unfold ext_pass. fold (pass_start st).
  set (s0 := pass_start st).
  set (s1 := set_ExFF (extrap_targets p s0) s0).
  assert (HP1 : TBL_P s1 = TBL_P st) by reflexivity.
  set (blk := if 0 <? Z.of_nat (length (ExFF s1))
              then extrapolate_block p s1 else Some s1).
  assert (Hblk : forall s2, blk = Some s2 ->
            TBL_P s2 = TBL_P st
            /\ (ExFF s2 <> [] -> strictly_ascending (ExFF s2))).
  { intros s2. unfold blk.
    destruct (0 <? Z.of_nat (length (ExFF s1))) eqn:El.
    - intros Hb. split.
      + apply extrapolate_block_work in Hb.
        destruct Hb as (_ & _ & HP & _). congruence.
      + intros _. now apply extrapolate_block_targets in Hb.
    - intros E. injection E as <-. split; [exact HP1|].
      intros Hne. destruct (ExFF s1); [contradiction|discriminate]. }
  destruct blk as [s2|]; [|discriminate].
  destruct (Hblk s2 eq_refl) as (HP2 & HS2). clear Hblk.
  set (s3 := if isFirstExtrp s2 then first_pass_body p s2
             else if Z.of_nat (length (ExFF s2)) =? 0 then set_TBL [] s2
                  else later_pass_body p s2).
  assert (Hs3 : ExFF s3 = ExFF s2 /\ TBL_P s3 = TBL_P s2).
  { unfold s3. destruct (isFirstExtrp s2).
    - destruct (first_pass_body_work s2)
        as (_ & _ & H3 & H4 & _). tauto.
    - destruct (Z.of_nat (length (ExFF s2)) =? 0).
      + split; reflexivity.
      + destruct (work_fields _ _ (later_pass_body_work s2))
          as (_ & _ & H3 & H4 & _). tauto. }
  destruct Hs3 as (HE3 & HP3).
  intros Hst' Hne. injection Hst' as Hst'.
  destruct (0 <? Z.of_nat (length (ExFF s3))) eqn:Elen.
  - destruct (rebuild_frontier_spec s3) as (RE & _).
    cbv zeta in RE. rewrite Hst' in RE.
    assert (Hs : strictly_ascending (ExFF s3)).
    { rewrite HE3. apply HS2. rewrite <- HE3, <- RE. exact Hne. }
    destruct (rebuild_frontier_new s3) as (Hnew & Hold);
      [now apply strictly_ascending_NoDup|].
    cbv zeta in Hnew, Hold. rewrite Hst' in Hnew, Hold.
    rewrite RE, <- HP2, <- HP3.
    split; [exact Hs|split; [exact Hnew|exact Hold]].
  - subst st'. exfalso. apply Hne.
    destruct (ExFF s3); [reflexivity|discriminate].
Qed.

(** ** What a pass of the extrapolation loop writes *)


Lemma targets_of_zero st e x : In x (targets_of p st e) -> F st x = 0%R.
Proof.
  unfold targets_of. rewrite !in_app_iff.
  intros [Hx|[Hx|[Hx|Hx]]];
    match type of Hx with
    | In _ (if ?b then _ else _) =>
        destruct b eqn:Eb; [|contradiction];
        destruct Hx as [<-|[]]; apply andb_prop in Eb as [_ Eb]
    end; now apply Reqb_true in Eb.
Qed.

Lemma checked_in_ExFF s k : checked s k -> In k (ExFF s).
Proof. unfold checked. intros H. now apply in_combine_l in H. Qed.

(** A pass of the extrapolation loop never removes a cell from the mask,
    and it writes [F] at targets of the pass only, which all hold 0
    before the pass: no non-zero density is overwritten. *)
Theorem extrapolation_pass_writes_targets_only (st st' : State) :
  ext_pass p st = Some st' ->
  (forall k, TAMask st k = true -> TAMask st' k = true)
  /\ (forall k, ~ In k (extrap_targets p (pass_start st)) ->
        F st' k = F st k)
  /\ (forall k, In k (extrap_targets p (pass_start st)) -> F st k = 0%R).
Proof.
  unfold ext_pass. fold (pass_start st).
  set (s0 := pass_start st).
  set (s1 := set_ExFF (extrap_targets p s0) s0).
  intros Hp.
  assert (Hblk : forall s2,
            (if 0 <? Z.of_nat (length (ExFF s1))
             then extrapolate_block p s1 else Some s1) = Some s2 ->
            TAMask s2 = TAMask st
            /\ (forall k, ~ In k (extrap_targets p s0) -> F s2 k = F st k)).
  { intros s2. destruct (0 <? Z.of_nat (length (ExFF s1))) eqn:El.
    - intros Hb. pose proof (extrapolate_block_F s1 s2 Hb) as HF.
      apply extrapolate_block_work in Hb.
      destruct Hb as (_ & _ & _ & _ & _ & _ & HM & HE).
      split; [exact HM|]. intros k Hk. apply HF.
      intros Hc. apply Hk. apply checked_in_ExFF in Hc. now apply HE in Hc.
    - intros E. injection E as <-. split; reflexivity. }
  destruct (if 0 <? Z.of_nat (length (ExFF s1))
            then extrapolate_block p s1 else Some s1) as [s2|];
    [|discriminate].
  destruct (Hblk s2 eq_refl) as (HM2 & HF2). clear Hblk.
  set (s3 := if isFirstExtrp s2 then first_pass_body p s2
             else if Z.of_nat (length (ExFF s2)) =? 0 then set_TBL [] s2
                  else later_pass_body p s2) in Hp.
  assert (H3 : F s3 = F s2
               /\ (forall k, TAMask s2 k = true -> TAMask s3 k = true)).
  { unfold s3. destruct (isFirstExtrp s2).
    - destruct (first_pass_body_fm s2) as [HF HM].
      split; [exact HF|]. intros k Hk. apply HM. now left.
    - destruct (Z.of_nat (length (ExFF s2)) =? 0) eqn:El.
      + split; [reflexivity|]. intros k Hk. exact Hk.
      + assert (Hne : ExFF s2 <> []).
        { intros E. rewrite E in El. discriminate. }
        destruct (later_pass_body_fm s2 Hne) as [HF HM].
        split; [exact HF|]. intros k Hk. apply HM. now left. }
  destruct H3 as [HF3 HM3].
  assert (H4 : F st' = F s3 /\ TAMask st' = TAMask s3).
  { injection Hp as Hst'. destruct (0 <? Z.of_nat (length (ExFF s3))).
    - subst st'. apply fm_fields. apply rebuild_frontier_spec.
    - subst st'. split; reflexivity. }
  destruct H4 as [HF4 HM4].
  split; [|split].
  - intros k Hk. rewrite HM4. apply HM3. now rewrite HM2.
  - intros k Hk. rewrite HF4, HF3. now apply HF2.
  - intros k Hk. apply in_extrap_targets in Hk as (e & _ & Hx).
    apply targets_of_zero in Hx. exact Hx.
Qed.

(** ** The working set of a later pass *)


(** The offsets that the two loops of the set-up push into [neighlist]. *)
Lemma neighlist_eq :
  neighlist
  = [(-1, 0); (0, 1); (0, -1); (1, 0);
     (-2, 0); (-1, 1); (-1, -1); (0, 2); (0, -2); (1, 1); (1, -1); (2, 0);
     (-3, 0); (-2, 1); (-2, -1); (-1, 2); (-1, -2); (0, 3); (0, -3);
     (1, 2); (1, -2); (2, 1); (2, -1); (3, 0);
     (-4, 0); (-3, 1); (-3, -1); (-2, 2); (-2, -2); (-1, 3); (-1, -3);
     (0, 4); (0, -4); (1, 3); (1, -3); (2, 2); (2, -2); (3, 1); (3, -1);
     (4, 0)].
Proof. vm_compute. reflexivity. Qed.

(** [neighlist] is the diamond of Manhattan radius 4 without its centre. *)
Lemma neighlist_diamond n1 n2 :
  In (n1, n2) neighlist <-> 1 <= Z.abs n1 + Z.abs n2 <= 4.
Proof.
  rewrite neighlist_eq. split.
  - intros H. cbn in H.
    repeat (destruct H as [H|H]; [injection H as <- <-; cbn; lia|]).
    contradiction.
  - intros H.
    assert (H1 : n1 = -4 \/ n1 = -3 \/ n1 = -2 \/ n1 = -1 \/ n1 = 0
                 \/ n1 = 1 \/ n1 = 2 \/ n1 = 3 \/ n1 = 4) by lia.
    assert (H2 : n2 = -4 \/ n2 = -3 \/ n2 = -2 \/ n2 = -1 \/ n2 = 0
                 \/ n2 = 1 \/ n2 = 2 \/ n2 = 3 \/ n2 = 4) by lia.
    destruct H1 as [->|[->|[->|[->|[->|[->|[->|[->| ->]]]]]]]];
      destruct H2 as [->|[->|[->|[->|[->|[->|[->|[->| ->]]]]]]]];
      try (exfalso; cbn in H; lia);
      cbn; repeat first [left; reflexivity | right].
Qed.

Lemma scan_fold (mask : Z -> bool) (g1 g2 : Z) (L : list (Z * Z)) bd k :
  In k (for_each L
          (fun n (bd : list Z) =>
             if mask ((g1 + fst n) * W1 p + (g2 + snd n))
             then bd ++ [(g1 + fst n) * W1 p + (g2 + snd n)] else bd) bd)
  <-> In k bd
      \/ exists n, In n L /\ k = (g1 + fst n) * W1 p + (g2 + snd n)
                   /\ mask k = true.
Proof.
  unfold for_each. revert bd. induction L as [|n L IH]; intros bd; cbn.
  - split; [tauto|]. intros [H|(n & [] & _)]. exact H.
  - rewrite IH. clear IH.
    destruct (mask ((g1 + fst n) * W1 p + (g2 + snd n))) eqn:E.
    + rewrite in_app_iff. cbn. split.
      * intros [[H|[H|[]]]|(m & Hm & Hk & Ht)].
        -- now left.
        -- right. exists n. subst k. tauto.
        -- right. exists m. tauto.
      * intros [H|(m & [Hm|Hm] & Hk & Ht)].
        -- tauto.
        -- subst m. left. right. left. now symmetry.
        -- right. exists m. tauto.
    + split.
      * intros [H|(m & Hm & Hk & Ht)]; [now left|].
        right. exists m. tauto.
      * intros [H|(m & [Hm|Hm] & Hk & Ht)].
        -- tauto.
        -- subst m. rewrite Hk, E in Ht. discriminate.
        -- right. exists m. tauto.
Qed.

Lemma build_fold (st : State) (L : list (Z * bool)) bd k :
  In k (for_each L
          (fun ec (bd : list Z) =>
             if snd ec then
               for_each neighlist
                 (fun n (bd : list Z) =>
                    if TAMask st ((Z.quot (fst ec) (M1 p) + fst n) * W1 p
                                  + (Z.rem (fst ec) (M1 p) + snd n))
                    then bd ++ [(Z.quot (fst ec) (M1 p) + fst n) * W1 p
                                + (Z.rem (fst ec) (M1 p) + snd n)]
                    else bd)
                 (bd ++ [fst ec])
             else bd) bd)
  <-> In k bd \/ exists e, In (e, true) L /\ scanned p st e k.
Proof.
  unfold for_each at 1. revert bd. induction L as [|[e c] L IH]; intros bd.
  - cbn. split; [tauto|]. intros [H|(e & [] & _)]. exact H.
  - cbn [fold_left fst snd]. rewrite IH. clear IH. destruct c.
    + rewrite (scan_fold (TAMask st)), in_app_iff. cbn [In]. split.
      * intros [[[H|[H|[]]]|((n1, n2) & Hn & Hk & Ht)]|(e' & He' & Hs)].
        -- now left.
        -- right. exists e. split; [now left|]. left. now symmetry.
        -- right. exists e. split; [now left|]. right.
           exists n1, n2. cbn [fst snd] in Hk.
           split; [now apply neighlist_diamond|tauto].
        -- right. exists e'. tauto.
      * intros [H|(e' & [He'|He'] & Hs)].
        -- tauto.
        -- injection He' as <-. left.
           destruct Hs as [->|(n1 & n2 & Hn & Hk & Ht)]; [tauto|].
           right. exists (n1, n2). cbn [fst snd].
           split; [now apply neighlist_diamond|tauto].
        -- right. exists e'. tauto.
    + cbn [In]. split.
      * intros [H|(e' & He' & Hs)]; [now left|]. right. exists e'. tauto.
      * intros [H|(e' & [He'|He'] & Hs)]; [tauto|discriminate He'|].
        right. exists e'. tauto.
Qed.

(** The working set [ExBD] of a later pass is strictly ascending, and it
    holds exactly the checked targets and the live cells at Manhattan
    distance 1 to 4 of a checked target. *)
Theorem ExBD_is_the_scanned_set (st : State) :
  strictly_ascending (build_ExBD p st)
  /\ (forall k, In k (build_ExBD p st) <->
        exists e, In (e, true) (combine (ExFF st) (ExCheck st))
                  /\ scanned p st e k).
Proof.
  split.
  - unfold build_ExBD. apply unique_strictly_ascending, sort_ascending.
  - intros k. unfold build_ExBD. rewrite in_unique, in_sort.
    rewrite (build_fold st). cbn [In]. tauto.
Qed.

(** With an edge of at least 3 points, every mask read of the neighbour
    scan of an interior target is inside the grid. *)
Theorem neighbour_scan_in_grid (e n1 n2 : Z) :
  3 <= EDGE p -> interior p e -> In (n1, n2) neighlist ->
  0 <= Z.quot e (M1 p) + n1 < BoxShape_0 p
  /\ 0 <= Z.rem e (M1 p) + n2 < BoxShape_1 p
  /\ 0 <= (Z.quot e (M1 p) + n1) * W1 p + (Z.rem e (M1 p) + n2) < O1 p.
Proof.
  intros HE (H1 & H2 & H3 & H4) Hn. apply neighlist_diamond in Hn.
  unfold O1, W1 in *.
  set (g1 := Z.quot e (M1 p)) in *. set (g2 := Z.rem e (M1 p)) in *.
  assert (A1 : 0 <= g1 + n1 < BoxShape_0 p) by lia.
  assert (A2 : 0 <= g2 + n2 < BoxShape_1 p) by lia.
  split; [exact A1|split; [exact A2|]]. nia.
Qed.

(** With an edge of at most 2 points, the neighbour scan of an interior
    target of the row [EDGE + 1] reads the mask at a negative flat index:
    the offset [(-4, 0)] is in [neighlist]. *)
Theorem neighbour_scan_leaves_grid (e : Z) :
  0 <= EDGE p <= 2 -> interior p e -> Z.quot e (M1 p) = EDGE p + 1 ->
  In (-4, 0) neighlist
  /\ (Z.quot e (M1 p) + -4) * W1 p + (Z.rem e (M1 p) + 0) < 0.
Proof.
  intros HE (H1 & H2 & H3 & H4) Hq. split.
  - apply neighlist_diamond. cbn. lia.
  - unfold W1 in *. rewrite Hq.
    set (g2 := Z.rem e (M1 p)) in *.
    assert (HB : (EDGE p + 1 + -4) * BoxShape_1 p <= - BoxShape_1 p) by nia.
    lia.
Qed.

(** ** The transmittance *)


Lemma zrange_shift lo b : forall a c,
  map (fun n => lo + Z.of_nat n) (seq (a + c) b)
  = map (fun n => lo + Z.of_nat c + Z.of_nat n) (seq a b).
Proof.
  induction b as [|b IH]; intros a c; cbn [seq map]; [reflexivity|].
  f_equal; [lia|]. apply (IH (S a) c).
Qed.

Lemma zrange_split lo mid hi :
  lo <= mid <= hi -> zrange lo hi = zrange lo mid ++ zrange mid hi.
Proof.
  intros H. unfold zrange.
  replace (Z.to_nat (hi - lo))
    with (Z.to_nat (mid - lo) + Z.to_nat (hi - mid))%nat by lia.
  rewrite seq_app, map_app. f_equal.
  rewrite (zrange_shift lo _ 0%nat (Z.to_nat (mid - lo))).
  apply map_ext. intros n. lia.
Qed.

Lemma cells_split lo mid hi lo2 hi2 :
  lo <= mid <= hi ->
  cells lo hi lo2 hi2 = cells lo mid lo2 hi2 ++ cells mid hi lo2 hi2.
Proof.
  intros H. unfold cells. rewrite (zrange_split lo mid hi H).
  apply flat_map_app.
Qed.

Lemma sum_cells_acc live f L acc :
  sum_cells p live f L acc = (acc + sum_cells p live f L 0)%R.
Proof.
  unfold sum_cells. revert acc.
  induction L as [|c L IH]; intros acc; cbn [fold_left]; [ring|].
  destruct (live (idx p c)).
  - rewrite IH, (IH (0 + f (idx p c))%R). ring.
  - apply IH.
Qed.

Lemma sum_cells_app live f L1 L2 :
  sum_cells p live f (L1 ++ L2) 0
  = (sum_cells p live f L1 0 + sum_cells p live f L2 0)%R.
Proof.
  unfold sum_cells. rewrite fold_left_app.
  apply (sum_cells_acc live f L2).
Qed.

Lemma sum_cells_nonneg live f L :
  (forall c, In c L -> live (idx p c) = true -> (0 <= f (idx p c))%R) ->
  (0 <= sum_cells p live f L 0)%R.
Proof.
  induction L as [|c L IH]; intros H; [cbn; lra|].
  change (c :: L) with ([c] ++ L). rewrite sum_cells_app.
  assert (H1 : (0 <= sum_cells p live f L 0)%R).
  { apply IH. intros d Hd. apply H. now right. }
  assert (H2 : (0 <= sum_cells p live f [c] 0)%R).
  { unfold sum_cells. cbn [fold_left].
    destruct (live (idx p c)) eqn:E; [|lra].
    specialize (H c (or_introl eq_refl) E). lra. }
  lra.
Qed.

Lemma sum_cells_live live g L acc :
  (forall c, In c L -> live (idx p c) = false -> g (idx p c) = 0%R) ->
  sum_cells p (fun _ => true) g L acc = sum_cells p live g L acc.
Proof.
  unfold sum_cells. revert acc.
  induction L as [|c L IH]; intros acc H; cbn [fold_left]; [reflexivity|].
  destruct (live (idx p c)) eqn:E.
  - apply IH. intros d Hd. apply H. now right.
  - rewrite (H c (or_introl eq_refl) E), Rplus_0_r.
    apply IH. intros d Hd. apply H. now right.
Qed.

(** Sums of a buffer that is [ff / (S h)] on the live cells of a block;
    [S] is the sum of [ff] over these cells. *)
Lemma fraction_core (live : Z -> bool) (ff pf : Z -> R) (h : R)
  (lo1 hi1 lo2 hi2 : Z) :
  let L := cells lo1 hi1 lo2 hi2 in
  let S := sum_cells p live ff L 0 in
  (S * h <> 0)%R ->
  (forall c, In c L ->
     pf (idx p c) = if live (idx p c) then (1 / (S * h) * ff (idx p c))%R
                    else 0%R) ->
  (sum_cells p (fun _ => true) pf L 0 * h = 1)%R
  /\ (forall i, lo1 <= i ->
        (forall c, In c L -> live (idx p c) = true ->
                   (0 <= ff (idx p c))%R) ->
        (0 <= sum_cells p (fun _ => true) pf
                (cells i hi1 lo2 hi2) 0 * h <= 1)%R).
Proof.
  intros L S HS Hpf.
  assert (HS0 : S <> 0%R) by (intros E; apply HS; rewrite E; ring).
  assert (Hh0 : h <> 0%R) by (intros E; apply HS; rewrite E; ring).
  assert (Htot : (sum_cells p (fun _ => true) pf L 0 * h = 1)%R).
  { rewrite (sum_cells_live live).
    - replace 0%R with (1 / (S * h) * 0)%R at 1 by ring.
      rewrite (sum_cells_scale live ff).
      + fold S. field. tauto.
      + intros c Hc Hl. now rewrite (Hpf c Hc), Hl.
    - intros c Hc Hl. now rewrite (Hpf c Hc), Hl. }
  split; [exact Htot|].
  intros i Hi Hpos.
  assert (HSpos : (0 < S)%R).
  { assert (0 <= S)%R by (apply sum_cells_nonneg; exact Hpos). lra. }
  assert (Hterm : forall c, In c L -> (0 <= h * pf (idx p c))%R).
  { intros c Hc. rewrite (Hpf c Hc).
    destruct (live (idx p c)) eqn:El; [|lra].
    replace (h * (1 / (S * h) * ff (idx p c)))%R
      with (ff (idx p c) * / S)%R by (field; tauto).
    apply Rmult_le_pos; [now apply Hpos|].
    left. now apply Rinv_0_lt_compat. }
  assert (Hpart : forall L', (forall c, In c L' -> In c L) ->
            (0 <= sum_cells p (fun _ => true) pf L' 0 * h)%R).
  { intros L' Hsub.
    replace (sum_cells p (fun _ => true) pf L' 0 * h)%R
      with (sum_cells p (fun _ => true) (fun k => (h * pf k)%R) L' (h * 0))%R.
    - rewrite Rmult_0_r. apply sum_cells_nonneg.
      intros c Hc _. apply Hterm. now apply Hsub.
    - rewrite (sum_cells_scale _ pf); [ring|reflexivity]. }
  destruct (Z_lt_le_dec i hi1) as [Hlt|Hge].
  - assert (Hsplit : L = cells lo1 i lo2 hi2 ++ cells i hi1 lo2 hi2)
      by (apply cells_split; lia).
    assert (HA : (0 <= sum_cells p (fun _ => true) pf
                         (cells lo1 i lo2 hi2) 0 * h)%R).
    { apply Hpart. intros c Hc. rewrite Hsplit. apply in_or_app. now left. }
    assert (HB : (0 <= sum_cells p (fun _ => true) pf
                         (cells i hi1 lo2 hi2) 0 * h)%R).
    { apply Hpart. intros c Hc. rewrite Hsplit. apply in_or_app. now right. }
    rewrite Hsplit, sum_cells_app in Htot. lra.
  - unfold cells. rewrite (zrange_empty i hi1 Hge). cbn. lra.
Qed.

(** [transmittance] as a sum over a block of cells. *)
Lemma transmittance_cells i st :
  transmittance p i st
  = (sum_cells p (fun _ => true) (PF st)
       (if isFullGrid p
        then cells i (BoxShape_0 p - EDGE p) (EDGE p) (BoxShape_1 p - EDGE p)
        else cells i (x1_max st + 1) (x2_min st) (x2_max st + 1)) 0
     * (H_0 p * H_1 p))%R.
Proof.
  unfold transmittance. destruct (isFullGrid p); cbn [negb].
  - rewrite (for_loop2_cells _ _ _ _
               (fun i1 i2 acc => (acc + PF st (i1 * W1 p + i2)%Z)%R)).
    reflexivity.
  - rewrite (for_loop2_cells _ _ _ _
               (fun i1 i2 acc => (acc + PF st (i1 * W1 p + i2)%Z)%R)).
    reflexivity.
Qed.

(** What the normalization leaves in [PF]. *)
Lemma normalization_PF st :
  region_in_row p st ->
  let st' := normalization p st in
  view_mask st' = view_mask st
  /\ (forall i1 i2, update_region p st i1 i2 ->
        PF st' (i1 * W1 p + i2)
        = (1 / norm_factor p st * FF st (i1 * W1 p + i2))%R)
  /\ (isFullGrid p = false ->
      forall i1 i2, x1_min st <= i1 <= x1_max st ->
        x2_min st <= i2 <= x2_max st ->
        TAMask st (i1 * W1 p + i2) = false ->
        PF st' (i1 * W1 p + i2) = PF st (i1 * W1 p + i2)).
Proof.
  intros Hrow st'. unfold region_in_row in Hrow. unfold update_region.
  set (n := (1 / norm_factor p st)%R).
  destruct (isFullGrid p) eqn:Hg.
  - set (L := cells (EDGE p) (BoxShape_0 p - EDGE p)
                    (EDGE p) (BoxShape_1 p - EDGE p)).
    assert (Hnd : NoDup (map (idx p) L)).
    { apply NoDup_idx_cells; unfold W1; lia. }
    assert (Hst' : st' = fold_left
                     (fun s c => normalize_cell p n (fst c) (snd c) s) L st).
    { unfold st', normalization. rewrite Hg. cbn [negb]. cbv iota.
      now rewrite stage_full_cells. }
    destruct (normalize_fold_spec PF false n L st (normalize_cell_PF n) Hnd)
      as (Hv & HinP).
    cbv zeta in Hv, HinP. cbv iota in Hv, HinP.
    rewrite <- Hst' in Hv, HinP.
    split; [exact Hv|split; [|discriminate]].
    intros i1 i2 Hr.
    assert (Hc : In (i1, i2) L) by (apply in_cells; cbn; lia).
    destruct (HinP _ Hc) as [H1 _]. unfold idx in H1. cbn [fst snd] in H1.
    rewrite H1, normalize_cell_PF. now rewrite upd_same.
  - set (L := cells (x1_min st) (x1_max st + 1) (x2_min st) (x2_max st + 1)).
    assert (Hnd : NoDup (map (idx p) L)).
    { apply NoDup_idx_cells; lia. }
    assert (Hst' : st' = fold_left
                     (fun s c => guarded p (normalize_cell p n) (fst c) (snd c) s)
                     L st).
    { unfold st', normalization. rewrite Hg. cbn [negb]. cbv iota.
      rewrite stage_box_cells; [reflexivity|].
      intros; apply normalize_cell_box. }
    destruct (normalize_fold_spec PF true n L st (normalize_cell_PF n) Hnd)
      as (Hv & HinP).
    cbv zeta in Hv, HinP. cbv iota in Hv, HinP.
    rewrite <- Hst' in Hv, HinP.
    split; [exact Hv|split].
    + intros i1 i2 (Hi1 & Hi2 & Hl).
      assert (Hc : In (i1, i2) L) by (apply in_cells; cbn; lia).
      destruct (HinP _ Hc) as [H1 _]. unfold idx in H1. cbn [fst snd] in H1.
      rewrite H1. unfold guarded. rewrite Hl.
      rewrite normalize_cell_PF. now rewrite upd_same.
    + intros _ i1 i2 Hi1 Hi2 Hl.
      assert (Hc : In (i1, i2) L) by (apply in_cells; cbn; lia).
      destruct (HinP _ Hc) as [H1 _]. unfold idx in H1. cbn [fst snd] in H1.
      rewrite H1. unfold guarded. now rewrite Hl.
Qed.

(** The transmittance reported after the normalization, when the factor
    is not zero and (truncated grid) the cells of the bounding box outside
    the mask hold [PF = 0]: taken from the first row of the update region
    it is 1, and where [FF] was non-negative on the region it lies between
    0 and 1 from any later row. *)
Theorem transmittance_is_a_fraction (st : State) :
  region_in_row p st ->
  norm_factor p st <> 0%R ->
  (isFullGrid p = false ->
   forall i1 i2, x1_min st <= i1 <= x1_max st ->
     x2_min st <= i2 <= x2_max st ->
     TAMask st (i1 * W1 p + i2) = false -> PF st (i1 * W1 p + i2) = 0%R) ->
  let st' := normalization p st in
  transmittance p (row_lo p st) st' = 1%R
  /\ (forall idx_x0, row_lo p st <= idx_x0 ->
        (forall i1 i2, update_region p st i1 i2 ->
                       (0 <= FF st (i1 * W1 p + i2))%R) ->
        (0 <= transmittance p idx_x0 st' <= 1)%R).
Proof.
  intros Hrow HZ Hzero st'.
  destruct (normalization_PF st Hrow) as (Hv & Hin & Hout).
  fold st' in Hv, Hin, Hout.
  unfold view_mask in Hv. injection Hv as Hm Hx1 Hx2 Hy1 Hy2.
  unfold row_lo. unfold update_region in *.
  destruct (isFullGrid p) eqn:Hg.
  - destruct (fraction_core (fun _ => true) (FF st) (PF st') (H_0 p * H_1 p)
                (EDGE p) (BoxShape_0 p - EDGE p)
                (EDGE p) (BoxShape_1 p - EDGE p)) as (T1 & T2).
    + rewrite <- (region_sum_full (FF st) st Hg). exact HZ.
    + intros c Hc. apply in_cells in Hc.
      rewrite <- (region_sum_full (FF st) st Hg). unfold idx.
      apply (Hin (fst c) (snd c)). lia.
    + split.
      * rewrite transmittance_cells, Hg. exact T1.
      * intros i Hi Hpos. rewrite transmittance_cells, Hg.
        apply T2; [exact Hi|].
        intros c Hc _. apply in_cells in Hc. unfold idx. apply Hpos. lia.
  - destruct (fraction_core (TAMask st) (FF st) (PF st') (H_0 p * H_1 p)
                (x1_min st) (x1_max st + 1)
                (x2_min st) (x2_max st + 1)) as (T1 & T2).
    + rewrite <- (region_sum_trunc (FF st) st Hg). exact HZ.
    + intros c Hc. apply in_cells in Hc.
      rewrite <- (region_sum_trunc (FF st) st Hg). unfold idx.
      destruct (TAMask st (fst c * W1 p + snd c)) eqn:El.
      * apply (Hin (fst c) (snd c)). repeat split; try lia. exact El.
      * rewrite (Hout eq_refl (fst c) (snd c)) by (try lia; exact El).
        apply (Hzero eq_refl); try lia. exact El.
    + split.
      * rewrite transmittance_cells, Hg, Hx2, Hy1, Hy2. exact T1.
      * intros i Hi Hpos. rewrite transmittance_cells, Hg, Hx2, Hy1, Hy2.
        apply T2; [exact Hi|].
        intros c Hc Hl. apply in_cells in Hc. unfold idx. apply Hpos.
        repeat split; try lia. exact Hl.
Qed.

(** ** The initial truncation *)


Lemma init_truncate_cell_cases i j s :
  (init_dropped p s i j
   /\ init_truncate_cell p i j s
      = set_PF (upd (PF s) (i * W1 p + j) 0%R) s)
  \/ (~ init_dropped p s i j
      /\ init_truncate_cell p i j s
         = set_ta_size (ta_size s + 1)
             (set_TAMask (upd (TAMask s) (i * W1 p + j) true) s)).
Proof.
  unfold init_truncate_cell, init_dropped. cbv zeta.
  change (2 =? 0) with false. cbv iota.
  destruct (Rltb (F s (i * W1 p + j)) (TolH p)) eqn:E1; cbn [andb].
  - match goal with
    | |- context [if Rltb ?a ?b then _ else _] =>
        destruct (Rltb a b) eqn:E2
    end.
    + left. apply Rltb_true in E1, E2. tauto.
    + right. apply Rltb_false in E2. split; [|reflexivity].
      intros [_ H]. lra.
  - right. apply Rltb_false in E1. split; [|reflexivity].
    intros [H _]. lra.
Qed.

Lemma init_dropped_ext s s' i j :
  F s = F s' -> (init_dropped p s i j <-> init_dropped p s' i j).
Proof. unfold init_dropped. intros ->. tauto. Qed.

(** The first loop of the initial truncation over a list of cells. *)
Lemma init_truncate_fold_spec L st :
  NoDup (map (idx p) L) ->
  let st' := fold_left
               (fun s c => init_truncate_cell p (fst c) (snd c) s) L st in
  F st' = F st
  /\ (forall c, In c L ->
        (init_dropped p st (fst c) (snd c) ->
         TAMask st' (idx p c) = TAMask st (idx p c)
         /\ PF st' (idx p c) = 0%R)
        /\ (~ init_dropped p st (fst c) (snd c) ->
            TAMask st' (idx p c) = true
            /\ PF st' (idx p c) = PF st (idx p c)))
  /\ (forall k, ~ In k (map (idx p) L) ->
        TAMask st' k = TAMask st k /\ PF st' k = PF st k).
Proof.
  cbv zeta. revert st. induction L as [|a L IH]; intros st Hnd.
  - cbn. split; [reflexivity|]. split; [intros c []|]. tauto.
  - cbn [fold_left map] in *. inversion Hnd as [|? ? Hna Hnd']; subst.
    set (s1 := init_truncate_cell p (fst a) (snd a) st).
    destruct (IH s1 Hnd') as (HF & Hin & Hout).
    assert (HF1 : F s1 = F st)
      by (unfold s1, init_truncate_cell; destruct (_ && _); reflexivity).
    assert (Hother : forall k, k <> idx p a ->
              TAMask s1 k = TAMask st k /\ PF s1 k = PF st k).
    { intros k Hk. unfold s1.
      destruct (init_truncate_cell_cases (fst a) (snd a) st) as [[_ E]|[_ E]];
        rewrite E; cbn; unfold idx in Hk; rewrite ?upd_other by exact Hk;
        tauto. }
    split; [congruence|]. split.
    + intros c [<-|Hc].
      * destruct (Hout _ Hna) as [Hm HP]. rewrite Hm, HP. unfold s1.
        destruct (init_truncate_cell_cases (fst a) (snd a) st)
          as [[D E]|[D E]]; rewrite E; cbn; unfold idx;
          rewrite ?upd_same; split; intros H'; try contradiction;
          split; reflexivity.
      * destruct (Hin c Hc) as [Hd Hk].
        assert (Hne : idx p c <> idx p a).
        { intros E. apply Hna. rewrite <- E. now apply in_map. }
        destruct (Hother _ Hne) as [Hm HP].
        rewrite (init_dropped_ext s1 st _ _ HF1) in Hd, Hk.
        rewrite <- Hm, <- HP. tauto.
    + intros k Hk. destruct (Hout k) as [Hm HP];
        [intros H'; apply Hk; now right|].
      rewrite Hm, HP. apply Hother. intros ->. apply Hk. now left.
Qed.

(** The loop "TA box" over a list of cells. *)
Lemma init_box_fold_full L st :
  NoDup (map (idx p) L) ->
  let st' := fold_left (fun s c => init_box_cell p (fst c) (snd c) s) L st in
  TAMask st' = TAMask st /\ PF st' = PF st /\ box_le st st'
  /\ (forall c, In c L ->
        F st' (idx p c) = if TAMask st (idx p c) then F st (idx p c) else 0%R)
  /\ (forall c, In c L -> TAMask st (idx p c) = true ->
        in_box st' (fst c) (snd c))
  /\ (forall k, ~ In k (map (idx p) L) -> F st' k = F st k).
Proof.
  cbv zeta. revert st. induction L as [|a L IH]; intros st Hnd.
  - cbn. repeat split; try apply box_le_refl; try tauto; intros c [].
  - cbn [fold_left map] in *. inversion Hnd as [|? ? Hna Hnd']; subst.
    set (s1 := init_box_cell p (fst a) (snd a) st).
    destruct (IH s1 Hnd') as (HM & HP & HB & HinF & Hbox & Hout).
    assert (H1 : TAMask s1 = TAMask st /\ PF s1 = PF st /\ box_le st s1
                 /\ F s1 (idx p a)
                    = (if TAMask st (idx p a) then F st (idx p a) else 0%R)
                 /\ (TAMask st (idx p a) = true -> in_box s1 (fst a) (snd a))
                 /\ (forall k, k <> idx p a -> F s1 k = F st k)).
    { unfold s1, init_box_cell, idx.
      destruct (grow_box_spec (fst a) (snd a) st) as (G1 & G2 & G3).
      destruct (TAMask st (fst a * W1 p + snd a)) eqn:Em.
      - apply fm_fields in G3. destruct G3 as [GF GM].
        repeat split; try assumption; try reflexivity;
          try (now rewrite GF); try apply G1; try apply G2.
      - repeat split; try reflexivity; try apply box_le_refl;
          try discriminate; cbn.
        + apply upd_same.
        + intros k Hk. now apply upd_other. }
    destruct H1 as (M1' & P1 & B1 & F1 & I1 & O1').
    split; [congruence|]. split; [congruence|].
    split; [eapply box_le_trans; eassumption|]. split; [|split].
    + intros c [<-|Hc].
      * rewrite (Hout _ Hna). exact F1.
      * rewrite (HinF c Hc), M1'.
        assert (Hne : idx p c <> idx p a).
        { intros E. apply Hna. rewrite <- E. now apply in_map. }
        now rewrite (O1' _ Hne).
    + intros c [<-|Hc] Hl.
      * eapply in_box_le; [exact HB|]. now apply I1.
      * apply Hbox; [exact Hc|]. now rewrite M1'.
    + intros k Hk. rewrite Hout by (intros H'; apply Hk; now right).
      apply O1'. intros ->.
      apply Hk. now left.
Qed.

Lemma in_boundary_ring s e :
  In e (boundary_ring p s) -> TAMask s e = true.
Proof.
  unfold boundary_ring.
  rewrite (for_loop2_cells _ _ _ _
             (fun i1 i2 (tmpVec : list Z) =>
                if TAMask s (i1 * W1 p + i2)
                   && (negb (TAMask s ((i1 - 1) * W1 p + i2))
                       || negb (TAMask s ((i1 + 1) * W1 p + i2))
                       || negb (TAMask s (i1 * W1 p + (i2 - 1)))
                       || negb (TAMask s (i1 * W1 p + (i2 + 1))))
                then tmpVec ++ [i1 * W1 p + i2] else tmpVec)).
  revert e.
  apply (fold_left_inv (fun acc => forall e, In e acc -> TAMask s e = true)).
  - intros e [].
  - intros acc c _ Hacc e.
    destruct (TAMask s (fst c * W1 p + snd c)) eqn:Em; cbn [andb].
    + destruct (_ || _); [|apply Hacc].
      rewrite in_app_iff. intros [H|[<-|[]]]; [now apply Hacc|exact Em].
    + apply Hacc.
Qed.

Lemma in_expansion_targets s t :
  In t (expansion_targets p s) ->
  TAMask s t = false /\ exists e, In e (TB s) /\ expands_to p e t.
Proof.
  unfold expansion_targets, for_each. revert t.
  apply (fold_left_inv
           (fun acc => forall t, In t acc ->
              TAMask s t = false /\ exists e, In e (TB s) /\ expands_to p e t)).
  - intros t [].
  - intros acc e He Hacc t. cbv zeta.
    set (g1 := Z.quot e (M1 p)). set (g2 := Z.rem e (M1 p)).
    assert (Hnew : forall (c : bool) (x : Z) (v : list Z),
              (c = true -> TAMask s x = false /\ expands_to p e x) ->
              (forall t, In t v ->
                 TAMask s t = false
                 /\ exists e, In e (TB s) /\ expands_to p e t) ->
              forall t, In t (if c then v ++ [x] else v) ->
                 TAMask s t = false
                 /\ exists e, In e (TB s) /\ expands_to p e t).
    { intros c x v Hc Hv t'. destruct c; [|apply Hv].
      rewrite in_app_iff. intros [H|[<-|[]]]; [now apply Hv|].
      destruct (Hc eq_refl) as [Hm Hx]. split; [exact Hm|].
      exists e. tauto. }
    apply Hnew; [|apply Hnew; [|apply Hnew; [|apply Hnew; [|exact Hacc]]]];
      intros Hc; apply andb_prop in Hc as [Hb Hm];
      apply negb_true_iff in Hm; (split; [exact Hm|]);
      unfold expands_to; fold g1 g2; lia.
Qed.

(** The expansion of the initial truncation. *)
Lemma absorb_init_spec l s :
  let s' := absorb_init p l s in
  F s' = F s /\ PF s' = PF s /\ box_le s s'
  /\ (forall k, TAMask s' k = true <-> TAMask s k = true \/ In k l)
  /\ (forall e, In e l -> in_box s' (Z.quot e (M1 p)) (Z.rem e (M1 p))).
Proof.
  cbv zeta. unfold absorb_init, for_each. revert s.
  induction l as [|a l IH]; intros s; cbn [fold_left].
  - split; [reflexivity|]. split; [reflexivity|].
    split; [apply box_le_refl|].
    split; [intros k; cbn; tauto|intros e []].
  - rewrite (quot_rem_idx a).
    set (sm := if negb (TAMask s a)
               then set_TAMask (upd (TAMask s) a true) s else s).
    set (s1 := grow_box (Z.quot a (M1 p)) (Z.rem a (M1 p)) sm).
    destruct (grow_box_spec (Z.quot a (M1 p)) (Z.rem a (M1 p)) sm)
      as (G1 & G2 & G3).
    fold s1 in G1, G2, G3. apply fm_fields in G3. destruct G3 as [GF GM].
    assert (Hsm : F sm = F s /\ PF sm = PF s /\ box_le s sm
                  /\ forall k, TAMask sm k = true
                               <-> TAMask s k = true \/ k = a).
    { unfold sm. destruct (TAMask s a) eqn:Ea; cbn [negb].
      - repeat split; try apply box_le_refl; try tauto.
        intros [H| ->]; [exact H|exact Ea].
      - repeat split; try (unfold box_le; cbn; lia).
        + cbn. unfold upd. destruct (k =? a) eqn:E; [|tauto].
          apply Z.eqb_eq in E. tauto.
        + cbn. unfold upd. intros [H| ->]; [|now rewrite Z.eqb_refl].
          destruct (k =? a); [reflexivity|exact H]. }
    destruct Hsm as (SF & SP & SB & SM).
    assert (P1 : PF s1 = PF sm) by reflexivity.
    destruct (IH s1) as (HF & HP & HB & HM & HI).
    split; [congruence|]. split; [congruence|].
    split; [eapply box_le_trans; [exact SB|];
            eapply box_le_trans; eassumption|].
    split.
    + intros k. rewrite HM, GM, SM. cbn [In]. intuition congruence.
    + intros e [<-|He]; [|now apply HI].
      eapply in_box_le; [exact HB|exact G2].
Qed.

(** The initial truncation, from a state without live cells and with at
    least one cell that passes a test: a cell of the edge-free interior
    that passes a test is live and keeps [F] and [PF]; a cell that fails
    both loses [F] and [PF], and it is live only as a 4-neighbour of a
    cell that passes; every live cell of the interior is in the bounding
    box. *)
Theorem initial_truncation_rule (st : State) (i j : Z) :
  1 <= EDGE p ->
  (forall k, TAMask st k = false) ->
  (exists i0 j0, edge_free p i0 j0 /\ ~ init_dropped p st i0 j0) ->
  edge_free p i j ->
  let s' := initial_truncation p st in
  let k := i * W1 p + j in
  (~ init_dropped p st i j ->
   TAMask s' k = true /\ F s' k = F st k /\ PF s' k = PF st k)
  /\ (init_dropped p st i j ->
      F s' k = 0%R /\ PF s' k = 0%R
      /\ (TAMask s' k = true ->
          exists i' j', edge_free p i' j' /\ adjacent i j i' j'
                        /\ ~ init_dropped p st i' j'))
  /\ (TAMask s' k = true -> in_box s' i j).
Proof.
  intros HE Hm (i0 & j0 & Hr0 & Hk0) Hr s' k.
  set (L := cells (EDGE p) (BoxShape_0 p - EDGE p)
                  (EDGE p) (BoxShape_1 p - EDGE p)).
  assert (Hnd : NoDup (map (idx p) L))
    by (apply NoDup_idx_cells; unfold W1; lia).
  assert (HinL : forall a b, edge_free p a b -> In (a, b) L).
  { intros a b Hab. apply in_cells. exact Hab. }
  set (s0 := set_ta_size 0 (reset_box st)).
  set (s1 := stage_full p (init_truncate_cell p) s0).
  assert (E1 : s1 = fold_left
                 (fun s c => init_truncate_cell p (fst c) (snd c) s) L s0)
    by apply stage_full_cells.
  destruct (init_truncate_fold_spec L s0 Hnd) as (HF1 & Hin1 & Hout1).
  rewrite <- E1 in HF1, Hin1, Hout1.
  change (F s0) with (F st) in HF1.
  assert (Hcell1 : forall a b, edge_free p a b ->
            (init_dropped p st a b ->
             TAMask s1 (a * W1 p + b) = false
             /\ PF s1 (a * W1 p + b) = 0%R)
            /\ (~ init_dropped p st a b ->
                TAMask s1 (a * W1 p + b) = true
                /\ PF s1 (a * W1 p + b) = PF st (a * W1 p + b))).
  { intros a b Hab. destruct (Hin1 _ (HinL a b Hab)) as [Hd Hk].
    unfold idx in Hd, Hk. cbn [fst snd] in Hd, Hk.
    change (init_dropped p s0 a b) with (init_dropped p st a b) in Hd, Hk.
    change (TAMask s0) with (TAMask st) in Hd.
    change (PF s0) with (PF st) in Hk.
    rewrite Hm in Hd. tauto. }
  assert (Hlive1 : forall e, TAMask s1 e = true ->
            exists a b, edge_free p a b /\ e = a * W1 p + b
                        /\ ~ init_dropped p st a b).
  { intros e He.
    destruct (in_dec Z.eq_dec e (map (idx p) L)) as [HeL|HeL].
    - apply in_map_iff in HeL as ([a b] & <- & Hc).
      assert (Hab : edge_free p a b) by (apply in_cells in Hc; exact Hc).
      exists a, b. split; [exact Hab|]. split; [reflexivity|].
      intros Hd. destruct (Hcell1 a b Hab) as [H1 _].
      destruct (H1 Hd) as [H2 _]. unfold idx in He. cbn [fst snd] in He.
      congruence.
    - destruct (Hout1 e HeL) as [H1 _].
      change (TAMask s0) with (TAMask st) in H1. rewrite Hm in H1.
      congruence. }
  assert (Hta : ta_size s1 <> 0).
  { intros E0.
    destruct (first_truncation_count s0) as (_ & _ & Hsame).
    fold s1 in Hsame.
    assert (Hmask : TAMask s1 = TAMask s0) by (apply Hsame; exact E0).
    destruct (Hcell1 i0 j0 Hr0) as [_ H1]. destruct (H1 Hk0) as [H2 _].
    rewrite Hmask in H2. change (TAMask s0) with (TAMask st) in H2.
    rewrite Hm in H2. discriminate. }
  unfold s', initial_truncation. fold s0 s1.
  apply Z.eqb_neq in Hta. rewrite Hta.
  set (s2 := stage_full p (init_box_cell p) s1).
  assert (E2 : s2 = fold_left
                 (fun s c => init_box_cell p (fst c) (snd c) s) L s1)
    by apply stage_full_cells.
  destruct (init_box_fold_full L s1 Hnd)
    as (HM2 & HP2 & _ & HinF2 & Hbox2 & _).
  rewrite <- E2 in HM2, HP2, HinF2, Hbox2.
  set (s3 := set_TB (boundary_ring p s2) s2).
  set (l := unique (sort (expansion_targets p s3))).
  destruct (absorb_init_spec l s3) as (HFa & HPa & HBa & HMa & HIa).
  set (sa := absorb_init p l s3) in *.
  change (F (count_box p sa)) with (F sa).
  change (PF (count_box p sa)) with (PF sa).
  change (TAMask (count_box p sa)) with (TAMask sa).
  assert (Hcb : in_box (count_box p sa) i j <-> in_box sa i j)
    by (unfold in_box, count_box; cbn; tauto).
  rewrite Hcb. clear Hcb.
  change (F s3) with (F s2) in HFa. change (PF s3) with (PF s2) in HPa.
  change (TAMask s3) with (TAMask s2) in HMa.
  rewrite HFa, HPa, HP2. fold k.
  assert (HF2 : F s2 k = if TAMask s1 k then F st k else 0%R).
  { specialize (HinF2 _ (HinL i j Hr)). unfold idx in HinF2.
    cbn [fst snd] in HinF2. fold k in HinF2. now rewrite HinF2, HF1. }
  rewrite HF2.
  destruct (Hcell1 i j Hr) as [Hd Hkp]. fold k in Hd, Hkp.
  assert (Hdec : forall a b, edge_free p a b ->
            Z.quot (a * W1 p + b) (M1 p) = a
            /\ Z.rem (a * W1 p + b) (M1 p) = b).
  { intros a b [Ha Hb]. apply decode_idx; unfold W1; lia. }
  split; [|split].
  - intros Hkept. destruct (Hkp Hkept) as [H1 H2].
    rewrite H1. split; [|tauto]. apply HMa. left. now rewrite HM2.
  - intros Hdrop. destruct (Hd Hdrop) as [H1 H2]. rewrite H1.
    split; [reflexivity|]. split; [exact H2|].
    intros Hl. apply HMa in Hl. destruct Hl as [Hl|Hl];
      [rewrite HM2 in Hl; congruence|].
    unfold l in Hl. rewrite in_unique, in_sort in Hl.
    apply in_expansion_targets in Hl.
    destruct Hl as (_ & e & He & Hex).
    change (TB s3) with (boundary_ring p s2) in He.
    apply in_boundary_ring in He. rewrite HM2 in He.
    destruct (Hlive1 e He) as (a & b & Hab & -> & Hkab).
    exists a, b. split; [exact Hab|]. split; [|exact Hkab].
    unfold expands_to in Hex. cbv zeta in Hex.
    destruct (Hdec a b Hab) as [Q Rm]. rewrite Q, Rm in Hex.
    unfold adjacent. unfold edge_free in Hab, Hr.
    assert (Hinj : forall a' b', 0 <= b' < W1 p ->
              k = a' * W1 p + b' -> i = a' /\ j = b').
    { intros a' b' Hb' E.
      assert (Hc : (i, j) = (a', b')).
      { apply (idx_inj); cbn [fst snd]; [unfold W1; lia|exact Hb'|].
        exact E. }
      injection Hc as -> ->. tauto. }
    destruct Hex as [[E B]|[[E B]|[[E B]|[E B]]]];
      apply Hinj in E; try (unfold W1; lia); lia.
  - intros Hl. apply HMa in Hl. destruct Hl as [Hl|Hl].
    + eapply in_box_le; [exact HBa|].
      change (in_box s3 i j) with (in_box s2 i j).
      apply (Hbox2 (i, j)); [now apply HinL|].
      unfold idx. cbn [fst snd]. fold k. now rewrite <- HM2.
    + specialize (HIa _ Hl). unfold k in HIa.
      destruct (Hdec i j Hr) as [Q Rm]. now rewrite Q, Rm in HIa.
Qed.

(** ** Time integration of a later pass *)


Lemma idx_cell_of e : idx p (cell_of p e) = e.
Proof. unfold idx, cell_of. cbn [fst snd]. apply quot_rem_idx. Qed.

Lemma map_idx_cell_of l : map (idx p) (map (cell_of p) l) = l.
Proof.
  rewrite map_map. rewrite <- (map_id l) at 2.
  apply map_ext. intros e. apply idx_cell_of.
Qed.

Lemma stage_ExBD_cells cell st :
  (forall i j s, ExBD (cell i j s) = ExBD s) ->
  stage_ExBD p cell st
  = fold_left (fun s c => cell (fst c) (snd c) s)
      (map (cell_of p) (ExBD st)) st
  /\ ExBD (stage_ExBD p cell st) = ExBD st.
Proof.
  intros Hc. split.
  - unfold stage_ExBD, for_each. generalize (ExBD st) as l. intros l.
    revert st. induction l as [|e l IH]; intros st; cbn [fold_left map];
      [reflexivity|].
    apply IH.
  - unfold stage_ExBD. apply (for_each_proj _ ExBD). intros e s. apply Hc.
Qed.

Lemma RK4_ExBD_cells st :
  RK4_ExBD p st = RK4_cells p (map (cell_of p) (ExBD st)) st.
Proof.
  unfold RK4_ExBD, RK4, RK4_cells.
  destruct (stage_ExBD_cells (RK4_1_cell p) st) as [E1 V1]; [reflexivity|].
  set (s1 := stage_ExBD p (RK4_1_cell p) st) in *.
  destruct (stage_ExBD_cells (RK4_2_cell p) s1) as [E2 V2]; [reflexivity|].
  set (s2 := stage_ExBD p (RK4_2_cell p) s1) in *.
  destruct (stage_ExBD_cells (RK4_3_cell p) s2) as [E3 V3]; [reflexivity|].
  set (s3 := stage_ExBD p (RK4_3_cell p) s2) in *.
  destruct (stage_ExBD_cells (RK4_4_cell p) s3) as [E4 V4]; [reflexivity|].
  rewrite E4, V3, V2, V1. rewrite E3, V2, V1. rewrite E2, V1.
  now rewrite E1.
Qed.

(** A later pass with targets integrates the cells of the working set
    [ExBD] and no other: at a cell of [ExBD], live or not, the four stage
    fields are the stage operator applied to [F], [F + K1/2], [F + K2/2]
    and [F + K3] with the equilibrium field refreshed on [ExBD], and [FF]
    is [F + K1/6 + K2/3 + K3/3 + K4/6]; at any other index the stage
    buffers and [FF] keep their values; [F] is not written. *)
Theorem later_pass_integrates_ExBD (st : State) (e : Z) :
  ExFF st <> [] ->
  let sa := absorb p (expand_later p st) st in
  let bd := build_ExBD p sa in
  let feq := Feq_loc (feq_ExBD p (set_ExBD bd sa)) in
  let st' := later_pass_body p st in
  let i := Z.quot e (M1 p) in
  let j := Z.rem e (M1 p) in
  (In e bd ->
   KK1 st' e = stage_op p (F st) feq i j
   /\ KK2 st' e = stage_op p (fun k => F st k + KK1 st' k / 2)%R feq i j
   /\ KK3 st' e = stage_op p (fun k => F st k + KK2 st' k / 2)%R feq i j
   /\ KK4 st' e = stage_op p (fun k => F st k + KK3 st' k)%R feq i j
   /\ FF st' e
      = (F st e + KK1 st' e / 6 + KK2 st' e / 3 + KK3 st' e / 3
         + KK4 st' e / 6)%R)
  /\ (~ In e bd ->
      KK1 st' e = KK1 st e /\ KK2 st' e = KK2 st e
      /\ KK3 st' e = KK3 st e /\ KK4 st' e = KK4 st e
      /\ FF st' e = FF st e)
  /\ F st' = F st
  /\ ExBD st' = bd.
Proof.
  intros Hne sa bd feq st' i j.
  assert (Hlen : (0 <? Z.of_nat (length (ExFF st))) = true).
  { destruct (ExFF st); [contradiction|reflexivity]. }
  set (s0 := feq_ExBD p (set_ExBD bd sa)).
  assert (Hst' : st' = RK4_ExBD p s0).
  { unfold st', later_pass_body. now rewrite Hlen. }
  assert (HB : ExBD s0 = bd)
    by (unfold s0; now rewrite (feq_ExBD_proj _ ExBD) by reflexivity).
  assert (Hbuf : forall (proj : State -> Z -> R),
            (forall v s, proj (set_Feq_loc v s) = proj s) ->
            (forall v s, proj (set_ExBD v s) = proj s) ->
            (forall v s, proj (set_TAMask v s) = proj s) ->
            (forall a b s, proj (grow_box a b s) = proj s) ->
            proj s0 = proj st).
  { intros proj H1 H2 H3 H4. unfold s0.
    rewrite (feq_ExBD_proj _ proj) by exact H1. rewrite H2.
    unfold sa, absorb. apply (for_each_proj _ proj). intros a s.
    now rewrite H4, H3. }
  assert (HF : F s0 = F st) by (apply Hbuf; reflexivity).
  assert (HFF : FF s0 = FF st) by (apply Hbuf; reflexivity).
  assert (K1 : KK1 s0 = KK1 st) by (apply Hbuf; reflexivity).
  assert (K2 : KK2 s0 = KK2 st) by (apply Hbuf; reflexivity).
  assert (K3 : KK3 s0 = KK3 st) by (apply Hbuf; reflexivity).
  assert (K4 : KK4 s0 = KK4 st) by (apply Hbuf; reflexivity).
  assert (Hnd : NoDup (map (idx p) (map (cell_of p) bd))).
  { rewrite map_idx_cell_of. apply strictly_ascending_NoDup.
    unfold bd, build_ExBD. apply unique_strictly_ascending, sort_ascending. }
  assert (Hcells : st' = RK4_cells p (map (cell_of p) bd) s0)
    by (now rewrite Hst', RK4_ExBD_cells, HB).
  destruct (RK4_cells_spec (map (cell_of p) bd) s0 Hnd) as [Hin Hout].
  rewrite <- Hcells in Hin, Hout. cbv zeta in Hin.
  split; [|split; [|split]].
  - intros He.
    specialize (Hin i j (in_map (cell_of p) bd e He)).
    unfold i, j in Hin. rewrite (quot_rem_idx e) in Hin.
    rewrite HF in Hin. exact Hin.
  - intros He. rewrite <- K1, <- K2, <- K3, <- K4, <- HFF. apply Hout.
    now rewrite map_idx_cell_of.
  - destruct (fm_fields _ _ (RK4_ExBD_fm s0)) as [HF' _].
    now rewrite Hst', HF'.
  - rewrite Hst'. unfold RK4_ExBD, RK4.
    rewrite (proj2 (stage_ExBD_cells (RK4_4_cell p) _ (fun _ _ _ => eq_refl))).
    rewrite (proj2 (stage_ExBD_cells (RK4_3_cell p) _ (fun _ _ _ => eq_refl))).
    rewrite (proj2 (stage_ExBD_cells (RK4_2_cell p) _ (fun _ _ _ => eq_refl))).
    rewrite (proj2 (stage_ExBD_cells (RK4_1_cell p) _ (fun _ _ _ => eq_refl))).
    exact HB.
Qed.

(** ** The initial state *)



Lemma init_moments_proj {X : Type} (proj : State -> X) s :
  (forall i a b c s, proj (store_moments i a b c s) = proj s) ->
  proj (init_moments p s) = proj s.
Proof.
  intros H. unfold init_moments.
  repeat match goal with
         | |- context [if ?b then _ else _] => destruct b
         end;
    apply (for_loop_proj _ proj); intros i s';
    unfold init_moments_row_lin, init_moments_row_iso, init_moments_row_fp;
    destruct (Rleb _ 0); apply H.
Qed.

(** The boundary ring: the live cells of the box with a 4-neighbour that
    is not live. *)
Lemma in_boundary_ring_iff s e :
  In e (boundary_ring p s)
  <-> exists i j, in_box s i j /\ e = i * W1 p + j
        /\ TAMask s (i * W1 p + j) = true
        /\ (TAMask s ((i - 1) * W1 p + j) = false
            \/ TAMask s ((i + 1) * W1 p + j) = false
            \/ TAMask s (i * W1 p + (j - 1)) = false
            \/ TAMask s (i * W1 p + (j + 1)) = false).
Proof.
  unfold boundary_ring.
  rewrite (for_loop2_cells _ _ _ _
             (fun i1 i2 (tmpVec : list Z) =>
                if TAMask s (i1 * W1 p + i2)
                   && (negb (TAMask s ((i1 - 1) * W1 p + i2))
                       || negb (TAMask s ((i1 + 1) * W1 p + i2))
                       || negb (TAMask s (i1 * W1 p + (i2 - 1)))
                       || negb (TAMask s (i1 * W1 p + (i2 + 1))))
                then tmpVec ++ [i1 * W1 p + i2] else tmpVec)).
  set (t := fun c : Z * Z =>
              TAMask s (fst c * W1 p + snd c)
              && (negb (TAMask s ((fst c - 1) * W1 p + snd c))
                  || negb (TAMask s ((fst c + 1) * W1 p + snd c))
                  || negb (TAMask s (fst c * W1 p + (snd c - 1)))
                  || negb (TAMask s (fst c * W1 p + (snd c + 1))))).
  set (L := cells (x1_min s) (x1_max s + 1) (x2_min s) (x2_max s + 1)).
  assert (G : forall l acc,
            In e (fold_left
                    (fun (tmpVec : list Z) (c : Z * Z) =>
                       if t c then tmpVec ++ [fst c * W1 p + snd c]
                       else tmpVec) l acc)
            <-> In e acc
                \/ exists c, In c l /\ e = fst c * W1 p + snd c
                             /\ t c = true).
  { induction l as [|c l IH]; intros acc; cbn [fold_left].
    - split; [tauto|]. intros [H|(c & [] & _)]. exact H.
    - rewrite IH. destruct (t c) eqn:E.
      + rewrite in_app_iff. cbn [In]. split.
        * intros [[H|[H|[]]]|(d & Hd & He)]; [tauto| |].
          -- right. exists c. split; [now left|]. split; [now symmetry|exact E].
          -- right. exists d. tauto.
        * intros [H|(d & [<-|Hd] & He & Ht)]; [tauto| |].
          -- left. right. left. now symmetry.
          -- right. exists d. tauto.
      + split.
        * intros [H|(d & Hd & He)]; [tauto|]. right. exists d. cbn. tauto.
        * intros [H|(d & [<-|Hd] & He & Ht)]; [tauto|congruence|].
          right. exists d. tauto. }
  match goal with
  | |- _ <-> ?B =>
      change (In e (fold_left
                      (fun (tmpVec : list Z) (c : Z * Z) =>
                         if t c then tmpVec ++ [fst c * W1 p + snd c]
                         else tmpVec) L [])
              <-> B)
  end.
  rewrite G. cbn [In]. split.
  - intros [[]|([i j] & Hc & He & Ht)]. apply in_cells in Hc.
    cbn [fst snd] in *. exists i, j. unfold t in Ht. cbn [fst snd] in Ht.
    apply andb_prop in Ht as [T1 T2].
    split; [unfold in_box; lia|]. split; [exact He|]. split; [exact T1|].
    rewrite !orb_true_iff, !negb_true_iff in T2. tauto.
  - intros (i & j & Hb & He & T1 & T2). right. exists (i, j).
    split; [apply in_cells; unfold in_box in Hb; cbn; lia|].
    split; [exact He|]. unfold t. cbn [fst snd]. rewrite T1. cbn [andb].
    rewrite !orb_true_iff, !negb_true_iff. tauto.
Qed.


Lemma absorb_init_TB l s : TB (absorb_init p l s) = TB s.
Proof.
  unfold absorb_init. apply (for_each_proj _ TB). intros e s'.
  destruct (negb (TAMask s' _)); reflexivity.
Qed.

(** The initial truncation, from a state without live cells and with at
    least one cell that passes a test: the cells of the edge-free
    interior, the indices outside it, and the boundary ring [TB]. *)
Lemma initial_truncation_cells (st : State) :
  1 <= EDGE p ->
  (forall k, TAMask st k = false) ->
  (exists i0 j0, edge_free p i0 j0 /\ ~ init_dropped p st i0 j0) ->
  let s' := initial_truncation p st in
  (forall i j, edge_free p i j ->
     let k := i * W1 p + j in
     (~ init_dropped p st i j ->
      TAMask s' k = true /\ F s' k = F st k /\ PF s' k = PF st k)
     /\ (init_dropped p st i j ->
         F s' k = 0%R /\ PF s' k = 0%R
         /\ (TAMask s' k = true ->
             exists i' j', edge_free p i' j' /\ adjacent i j i' j'
                           /\ ~ init_dropped p st i' j'))
     /\ (TAMask s' k = true -> in_box s' i j))
  /\ (forall k, halo p k -> F s' k = F st k /\ PF s' k = PF st k)
  /\ (forall e, In e (TB s') ->
        exists i j, edge_free p i j /\ e = i * W1 p + j
                    /\ ~ init_dropped p st i j)
  /\ (forall i j i' j',
        edge_free p i j -> ~ init_dropped p st i j ->
        edge_free p i' j' -> adjacent i j i' j' ->
        init_dropped p st i' j' -> In (i * W1 p + j) (TB s')).
Proof.
  intros HE Hm (i0 & j0 & Hr0 & Hk0) s'.
  set (L := cells (EDGE p) (BoxShape_0 p - EDGE p)
                  (EDGE p) (BoxShape_1 p - EDGE p)).
  assert (Hnd : NoDup (map (idx p) L))
    by (apply NoDup_idx_cells; unfold W1; lia).
  assert (HinL : forall a b, edge_free p a b -> In (a, b) L).
  { intros a b Hab. apply in_cells. exact Hab. }
  assert (Hhalo : forall k, halo p k -> ~ In k (map (idx p) L)).
  { intros k Hk Hin. apply in_map_iff in Hin as ([a b] & <- & Hc).
    apply in_cells in Hc. cbn [fst snd] in Hc.
    apply (Hk a b); [lia|lia|reflexivity]. }
  set (s0 := set_ta_size 0 (reset_box st)).
  set (s1 := stage_full p (init_truncate_cell p) s0).
  assert (E1 : s1 = fold_left
                 (fun s c => init_truncate_cell p (fst c) (snd c) s) L s0)
    by apply stage_full_cells.
  destruct (init_truncate_fold_spec L s0 Hnd) as (HF1 & Hin1 & Hout1).
  rewrite <- E1 in HF1, Hin1, Hout1.
  change (F s0) with (F st) in HF1.
  assert (Hcell1 : forall a b, edge_free p a b ->
            (init_dropped p st a b ->
             TAMask s1 (a * W1 p + b) = false
             /\ PF s1 (a * W1 p + b) = 0%R)
            /\ (~ init_dropped p st a b ->
                TAMask s1 (a * W1 p + b) = true
                /\ PF s1 (a * W1 p + b) = PF st (a * W1 p + b))).
  { intros a b Hab. destruct (Hin1 _ (HinL a b Hab)) as [Hd Hk].
    unfold idx in Hd, Hk. cbn [fst snd] in Hd, Hk.
    change (init_dropped p s0 a b) with (init_dropped p st a b) in Hd, Hk.
    change (TAMask s0) with (TAMask st) in Hd.
    change (PF s0) with (PF st) in Hk.
    rewrite Hm in Hd. tauto. }
  assert (Hlive1 : forall e, TAMask s1 e = true ->
            exists a b, edge_free p a b /\ e = a * W1 p + b
                        /\ ~ init_dropped p st a b).
  { intros e He.
    destruct (in_dec Z.eq_dec e (map (idx p) L)) as [HeL|HeL].
    - apply in_map_iff in HeL as ([a b] & <- & Hc).
      assert (Hab : edge_free p a b) by (apply in_cells in Hc; exact Hc).
      exists a, b. split; [exact Hab|]. split; [reflexivity|].
      intros Hd. destruct (Hcell1 a b Hab) as [H1 _].
      destruct (H1 Hd) as [H2 _]. unfold idx in He. cbn [fst snd] in He.
      congruence.
    - destruct (Hout1 e HeL) as [H1 _].
      change (TAMask s0) with (TAMask st) in H1. rewrite Hm in H1.
      congruence. }
  assert (Hta : ta_size s1 <> 0).
  { intros E0.
    destruct (first_truncation_count s0) as (_ & _ & Hsame).
    fold s1 in Hsame.
    assert (Hmask : TAMask s1 = TAMask s0) by (apply Hsame; exact E0).
    destruct (Hcell1 i0 j0 Hr0) as [_ H1]. destruct (H1 Hk0) as [H2 _].
    rewrite Hmask in H2. change (TAMask s0) with (TAMask st) in H2.
    rewrite Hm in H2. discriminate. }
  unfold s', initial_truncation. fold s0 s1.
  apply Z.eqb_neq in Hta. rewrite Hta.
  set (s2 := stage_full p (init_box_cell p) s1).
  assert (E2 : s2 = fold_left
                 (fun s c => init_box_cell p (fst c) (snd c) s) L s1)
    by apply stage_full_cells.
  destruct (init_box_fold_full L s1 Hnd)
    as (HM2 & HP2 & _ & HinF2 & Hbox2 & Hout2).
  rewrite <- E2 in HM2, HP2, HinF2, Hbox2, Hout2.
  set (s3 := set_TB (boundary_ring p s2) s2).
  set (l := unique (sort (expansion_targets p s3))).
  destruct (absorb_init_spec l s3) as (HFa & HPa & HBa & HMa & HIa).
  pose proof (absorb_init_TB l s3) as HTa.
  set (sa := absorb_init p l s3) in *.
  change (F (count_box p sa)) with (F sa).
  change (PF (count_box p sa)) with (PF sa).
  change (TAMask (count_box p sa)) with (TAMask sa).
  change (TB (count_box p sa)) with (TB sa).
  change (F s3) with (F s2) in HFa. change (PF s3) with (PF s2) in HPa.
  change (TAMask s3) with (TAMask s2) in HMa.
  change (TB s3) with (boundary_ring p s2) in HTa.
  rewrite HFa, HPa, HP2, HTa.
  assert (Hdec : forall a b, edge_free p a b ->
            Z.quot (a * W1 p + b) (M1 p) = a
            /\ Z.rem (a * W1 p + b) (M1 p) = b).
  { intros a b [Ha Hb]. apply decode_idx; unfold W1; lia. }
  split; [|split; [|split]].
  - intros i j Hr. set (k := i * W1 p + j).
    assert (Hcb : in_box (count_box p sa) i j <-> in_box sa i j)
      by (unfold in_box, count_box; cbn; tauto).
    rewrite Hcb. clear Hcb.
    assert (HF2 : F s2 k = if TAMask s1 k then F st k else 0%R).
    { specialize (HinF2 _ (HinL i j Hr)). unfold idx in HinF2.
      cbn [fst snd] in HinF2. fold k in HinF2. now rewrite HinF2, HF1. }
    rewrite HF2.
    destruct (Hcell1 i j Hr) as [Hd Hkp]. fold k in Hd, Hkp.
    split; [|split].
    + intros Hkept. destruct (Hkp Hkept) as [H1 H2].
      rewrite H1. split; [|tauto]. apply HMa. left. now rewrite HM2.
    + intros Hdrop. destruct (Hd Hdrop) as [H1 H2]. rewrite H1.
      split; [reflexivity|]. split; [exact H2|].
      intros Hl. apply HMa in Hl. destruct Hl as [Hl|Hl];
        [rewrite HM2 in Hl; congruence|].
      unfold l in Hl. rewrite in_unique, in_sort in Hl.
      apply in_expansion_targets in Hl.
      destruct Hl as (_ & e & He & Hex).
      change (TB s3) with (boundary_ring p s2) in He.
      apply in_boundary_ring in He. rewrite HM2 in He.
      destruct (Hlive1 e He) as (a & b & Hab & -> & Hkab).
      exists a, b. split; [exact Hab|]. split; [|exact Hkab].
      unfold expands_to in Hex. cbv zeta in Hex.
      destruct (Hdec a b Hab) as [Q Rm]. rewrite Q, Rm in Hex.
      unfold adjacent. unfold edge_free in Hab, Hr.
      assert (Hinj : forall a' b', 0 <= b' < W1 p ->
                k = a' * W1 p + b' -> i = a' /\ j = b').
      { intros a' b' Hb' E.
        assert (Hc : (i, j) = (a', b')).
        { apply idx_inj; cbn [fst snd]; [unfold W1; lia|exact Hb'|].
          exact E. }
        injection Hc as -> ->. tauto. }
      destruct Hex as [[E B]|[[E B]|[[E B]|[E B]]]];
        apply Hinj in E; try (unfold W1; lia); lia.
    + intros Hl. apply HMa in Hl. destruct Hl as [Hl|Hl].
      * eapply in_box_le; [exact HBa|].
        change (in_box s3 i j) with (in_box s2 i j).
        apply (Hbox2 (i, j)); [now apply HinL|].
        unfold idx. cbn [fst snd]. fold k. now rewrite <- HM2.
      * specialize (HIa _ Hl). unfold k in HIa.
        destruct (Hdec i j Hr) as [Q Rm]. now rewrite Q, Rm in HIa.
  - intros k Hk. pose proof (Hhalo k Hk) as HkL.
    destruct (Hout1 k HkL) as [_ HP1].
    rewrite (Hout2 k HkL), HF1, HP1. split; reflexivity.
  - intros e He. apply in_boundary_ring in He. rewrite HM2 in He.
    now apply Hlive1.
  - intros i j i' j' Hr Hkept Hr' Hadj Hdrop.
    apply in_boundary_ring_iff. exists i, j.
    destruct (Hcell1 i j Hr) as [_ Hkp]. destruct (Hkp Hkept) as [H1 _].
    destruct (Hcell1 i' j' Hr') as [Hd _]. destruct (Hd Hdrop) as [H1' _].
    split; [|split; [reflexivity|split]].
    + apply (Hbox2 (i, j)); [now apply HinL|exact H1].
    + now rewrite HM2.
    + rewrite HM2. unfold adjacent in Hadj.
      assert (Hcase : (i' = i - 1 /\ j' = j) \/ (i' = i + 1 /\ j' = j)
                      \/ (i' = i /\ j' = j - 1) \/ (i' = i /\ j' = j + 1))
        by lia.
      destruct Hcase as [[-> ->]|[[-> ->]|[[-> ->]|[-> ->]]]]; tauto.
Qed.

(** ** The values of the initial distribution *)


Lemma sum_cells_member f L c :
  (forall d, In d L -> (0 <= f (idx p d))%R) -> In c L ->
  (f (idx p c) <= sum_cells p (fun _ => true) f L 0)%R.
Proof.
  induction L as [|a L IH]; intros Hf Hc; [contradiction|].
  change (sum_cells p (fun _ => true) f (a :: L) 0)
    with (sum_cells p (fun _ => true) f L (0 + f (idx p a))).
  rewrite sum_cells_acc.
  assert (H0 : (0 <= sum_cells p (fun _ => true) f L 0)%R).
  { apply sum_cells_nonneg. intros d Hd _. apply Hf. now right. }
  pose proof (Hf a (or_introl eq_refl)) as Ha.
  destruct Hc as [->|Hc]; [lra|].
  assert (H1 : (f (idx p c) <= sum_cells p (fun _ => true) f L 0)%R).
  { apply IH; [|exact Hc]. intros d Hd. apply Hf. now right. }
  lra.
Qed.

Lemma sum_cells_le_length f L B :
  (forall d, In d L -> (f (idx p d) <= B)%R) ->
  (sum_cells p (fun _ => true) f L 0 <= INR (length L) * B)%R.
Proof.
  induction L as [|a L IH]; intros Hf.
  - cbn. lra.
  - change (sum_cells p (fun _ => true) f (a :: L) 0)
      with (sum_cells p (fun _ => true) f L (0 + f (idx p a))).
    rewrite sum_cells_acc.
    change (length (a :: L)) with (S (length L)). rewrite S_INR.
    pose proof (Hf a (or_introl eq_refl)) as Ha.
    assert (H1 : (sum_cells p (fun _ => true) f L 0
                  <= INR (length L) * B)%R).
    { apply IH. intros d Hd. apply Hf. now right. }
    lra.
Qed.

(** The two loops that write the initial distribution: the wavefunction
    on the edge-free interior, then the same cells scaled by the inverse
    of the first normalization factor and copied to [PF]; every other
    index keeps the zero of the allocation. *)
Lemma init_cells :
  0 <= EDGE p ->
  let s1 := init_wavefunction p st_zero in
  let sn := init_normalize p s1 in
  (forall i j, edge_free p i j ->
     F s1 (i * W1 p + j) = wave_at p i j
     /\ F sn (i * W1 p + j) = (1 / init_norm p s1 * wave_at p i j)%R
     /\ PF sn (i * W1 p + j) = F sn (i * W1 p + j))
  /\ (forall k, halo p k -> F sn k = 0%R /\ PF sn k = 0%R).
Proof.
  intros HE s1 sn.
  set (L := cells (EDGE p) (BoxShape_0 p - EDGE p)
                  (EDGE p) (BoxShape_1 p - EDGE p)).
  assert (Hnd : NoDup (map (idx p) L))
    by (apply NoDup_idx_cells; unfold W1; lia).
  set (w := fun (i j : Z) (_ : R) => wave_at p i j).
  set (c1 := fun i1 i2 s' =>
               set_F (upd (F s') (i1 * W1 p + i2)
                        (WAVEFUNCTION p (Box_0 p + IZR i1 * H_0 p)
                           (Box_2 p + IZR i2 * H_1 p))) s').
  set (n := (1 / init_norm p s1)%R).
  set (c2 := fun i1 i2 s' =>
               let s1' :=
                 set_F (upd (F s') (i1 * W1 p + i2)
                          (n * F s' (i1 * W1 p + i2))%R) s' in
               set_PF (upd (PF s1') (i1 * W1 p + i2)
                         (F s1' (i1 * W1 p + i2))) s1').
  assert (E1 : s1 = fold_left (fun s c => c1 (fst c) (snd c) s) L st_zero)
    by apply stage_full_cells.
  assert (E2 : sn = fold_left (fun s c => c2 (fst c) (snd c) s) L s1)
    by apply stage_full_cells.
  assert (HF1 : forall c, In c L -> F s1 (idx p c) = w (fst c) (snd c) 0%R).
  { intros c Hc. rewrite E1.
    apply (write_fold_spec F c1 w L st_zero);
      try assumption; try reflexivity.
    intros i j s' k Hk. cbn. now apply upd_other. }
  assert (HF2 : forall c, In c L ->
            F sn (idx p c) = (n * F s1 (idx p c))%R
            /\ PF sn (idx p c) = (n * F s1 (idx p c))%R).
  { intros c Hc. rewrite E2. split.
    - apply (write_fold_spec F c2 (fun _ _ f => (n * f)%R) L s1);
        try assumption; try reflexivity.
      intros i j s' k Hk. cbn. now apply upd_other.
    - apply (write_fold_spec PF c2 (fun _ _ f => (n * f)%R) L s1);
        try assumption.
      + intros i j s'. cbn. now rewrite upd_same.
      + intros i j s' k Hk. cbn. now apply upd_other. }
  split.
  - intros i j Hr.
    assert (Hc : In (i, j) L) by (apply in_cells; exact Hr).
    destruct (HF2 _ Hc) as [A B]. pose proof (HF1 _ Hc) as C.
    unfold idx in A, B, C. cbn [fst snd] in A, B, C.
    rewrite A, B, C. unfold w. tauto.
  - intros k Hk.
    assert (HkL : ~ In k (map (idx p) L)).
    { intros Hin. apply in_map_iff in Hin as ([a b] & <- & Hc).
      apply in_cells in Hc. cbn [fst snd] in Hc.
      apply (Hk a b); [lia|lia|reflexivity]. }
    split.
    + rewrite E2.
      rewrite (fold_outside F c2 L s1 k); [|
        intros i j s' k' Hk'; cbn; now apply upd_other|exact HkL].
      rewrite E1.
      rewrite (fold_outside F c1 L st_zero k); [reflexivity|
        intros i j s' k' Hk'; cbn; now apply upd_other|exact HkL].
    + rewrite E2.
      rewrite (fold_outside PF c2 L s1 k); [|
        intros i j s' k' Hk'; cbn; now apply upd_other|exact HkL].
      rewrite E1.
      rewrite (fold_outside PF c1 L st_zero k); [reflexivity|
        intros i j s' k' Hk'; reflexivity|exact HkL].
Qed.

(** The values of the normalized initial distribution, when the
    wavefunction is positive on the interior and largest, with the value
    [c], at the cell [(i0, j0)]: the cell [(i, j)] holds the share
    [wave_at p i j / c] of [g / (H[0] * H[1])], where the factor [g], the
    peak over the sum of the wavefunction, is between one over the
    number of interior cells and 1. *)
Lemma init_values (c : R) (i0 j0 : Z) :
  0 <= EDGE p -> (0 < H_0 p * H_1 p)%R ->
  edge_free p i0 j0 -> wave_at p i0 j0 = c ->
  (forall i j, edge_free p i j -> (0 < wave_at p i j <= c)%R) ->
  let sn := init_normalize p (init_wavefunction p st_zero) in
  let len := INR (length (cells (EDGE p) (BoxShape_0 p - EDGE p)
                                (EDGE p) (BoxShape_1 p - EDGE p))) in
  exists g, (1 / len <= g <= 1)%R /\ (1 <= len)%R
    /\ (forall i j, edge_free p i j ->
          F sn (i * W1 p + j)
          = (wave_at p i j / c * (g / (H_0 p * H_1 p)))%R
          /\ PF sn (i * W1 p + j) = F sn (i * W1 p + j))
    /\ (forall k, halo p k -> F sn k = 0%R /\ PF sn k = 0%R)
    /\ (forall k, 0 <= F sn k <= 1 / (H_0 p * H_1 p))%R.
Proof.
  intros HE HH Hr0 Hc0 Hw sn len.
  destruct (init_cells HE) as [Hin Hout].
  set (s1 := init_wavefunction p st_zero) in *. fold sn in Hin, Hout.
  set (L := cells (EDGE p) (BoxShape_0 p - EDGE p)
                  (EDGE p) (BoxShape_1 p - EDGE p)) in *.
  assert (HinL : forall a b, edge_free p a b -> In (a, b) L).
  { intros a b Hab. apply in_cells. exact Hab. }
  assert (Hf : forall d, In d L -> (0 < F s1 (idx p d) <= c)%R).
  { intros [a b] Hd. apply in_cells in Hd. cbn [fst snd] in Hd.
    unfold idx. cbn [fst snd].
    rewrite (proj1 (Hin a b Hd)). now apply Hw. }
  set (S := sum_cells p (fun _ => true) (F s1) L 0).
  assert (Hcpos : (0 < c)%R) by (rewrite <- Hc0; now apply Hw).
  assert (HS1 : (c <= S)%R).
  { rewrite <- Hc0, <- (proj1 (Hin i0 j0 Hr0)).
    apply (sum_cells_member (F s1) L (i0, j0)); [|now apply HinL].
    intros d Hd. destruct (Hf d Hd). lra. }
  assert (HS2 : (S <= len * c)%R).
  { apply sum_cells_le_length. intros d Hd. now apply Hf. }
  assert (Hlen : (1 <= len)%R).
  { assert (Hne : (0 < length L)%nat).
    { specialize (HinL i0 j0 Hr0). destruct L; [contradiction|cbn; lia]. }
    unfold len. fold L. change 1%R with (INR 1). apply le_INR. lia. }
  assert (HN : init_norm p s1 = (S * (H_0 p * H_1 p))%R)
    by apply init_norm_cells.
  exists (c / S)%R.
  assert (HSpos : (0 < S)%R) by lra.
  assert (Hg1 : (c / S <= 1)%R).
  { apply (Rmult_le_reg_r S); [exact HSpos|].
    replace (c / S * S)%R with c by (field; lra). lra. }
  assert (Hg0 : (1 / len <= c / S)%R).
  { apply (Rmult_le_reg_r (S * len)); [nra|].
    replace (1 / len * (S * len))%R with S by (field; lra).
    replace (c / S * (S * len))%R with (len * c)%R by (field; lra).
    exact HS2. }
  split; [split; assumption|]. split; [exact Hlen|].
  assert (Hval : forall i j, edge_free p i j ->
            F sn (i * W1 p + j)
            = (wave_at p i j / c * (c / S / (H_0 p * H_1 p)))%R).
  { intros i j Hr. destruct (Hin i j Hr) as (_ & A & _).
    assert (Ha : H_0 p <> 0%R) by (intros E; rewrite E in HH; lra).
    assert (Hb : H_1 p <> 0%R) by (intros E; rewrite E in HH; lra).
    rewrite A, HN. field. repeat split; lra. }
  split; [|split; [exact Hout|]].
  - intros i j Hr. split; [now apply Hval|]. now apply Hin.
  - intros k.
    assert (Hinv : (0 < 1 / (H_0 p * H_1 p))%R)
      by (apply Rdiv_lt_0_compat; lra).
    destruct (in_dec Z.eq_dec k (map (idx p) L)) as [HkL|HkL].
    + apply in_map_iff in HkL as ([a b] & <- & Hd).
      apply in_cells in Hd. cbn [fst snd] in Hd.
      unfold idx. cbn [fst snd]. rewrite (Hval a b Hd).
      destruct (Hw a b Hd) as [W0 W1'].
      set (x := (wave_at p a b / c)%R).
      assert (Hx : (0 < x <= 1)%R).
      { unfold x. split; [now apply Rdiv_lt_0_compat|].
        apply (Rmult_le_reg_r c); [exact Hcpos|].
        replace (wave_at p a b / c * c)%R with (wave_at p a b)
          by (field; lra). lra. }
      set (y := (c / S)%R) in *.
      assert (Hy : (0 < y)%R) by (unfold y; now apply Rdiv_lt_0_compat).
      replace (x * (y / (H_0 p * H_1 p)))%R
        with (x * y * (1 / (H_0 p * H_1 p)))%R
        by (unfold Rdiv; ring).
      set (z := (1 / (H_0 p * H_1 p))%R) in *.
      assert (Hxy : (0 < x * y <= 1)%R) by nra.
      split; nra.
    + assert (Hh : halo p k).
      { intros a b Ha Hb E. apply HkL. apply in_map_iff.
        exists (a, b). split; [now rewrite E|]. apply in_cells. cbn. lia. }
      rewrite (proj1 (Hout k Hh)). lra.
Qed.

(** With every value of the field between 0 and [B], and the threshold
    [TolHd] above the largest gradient such a field can have, a cell is
    dropped by the initial truncation exactly when its value is below
    [TolH]. *)
Lemma init_dropped_by_value st (B : R) i j :
  (forall k, 0 <= F st k <= B)%R ->
  (0 < H_0 p)%R -> (0 < H_1 p)%R ->
  ((B / (2 * H_0 p)) ^ 2 + (B / (2 * H_1 p)) ^ 2 < TolHd_sq p)%R ->
  init_dropped p st i j <-> (F st (i * W1 p + j) < TolH p)%R.
Proof.
  intros HB H0 H1 HT. unfold init_dropped. split; [tauto|].
  intros Hlt. split; [exact Hlt|].
  assert (G : forall a b h, (0 < h)%R -> (0 <= a <= B)%R -> (0 <= b <= B)%R ->
            ((Rabs (a - b) / (2 * h)) ^ 2 <= (B / (2 * h)) ^ 2)%R).
  { intros a b h Hh Ha Hb.
    assert (Hab : (0 <= Rabs (a - b) <= B)%R).
    { split; [apply Rabs_pos|]. apply Rabs_le. lra. }
    assert (Hd : (0 < / (2 * h))%R) by (apply Rinv_0_lt_compat; lra).
    unfold Rdiv.
    apply pow_incr. split.
    - apply Rmult_le_pos; lra.
    - apply Rmult_le_compat_r; lra. }
  pose proof (G _ _ _ H0 (HB ((i + 1) * W1 p + j)) (HB ((i - 1) * W1 p + j))).
  pose proof (G _ _ _ H1 (HB (i * W1 p + (j + 1))) (HB (i * W1 p + (j - 1)))).
  lra.
Qed.

(** The buffers of the initial state in truncated-grid mode are the ones
    the initial truncation leaves. *)
Lemma Evolve_init_trunc :
  isFullGrid p = false ->
  let sn := init_normalize p (init_wavefunction p st_zero) in
  let s := Evolve_init p in
  F s = F (initial_truncation p sn)
  /\ PF s = PF (initial_truncation p sn)
  /\ TAMask s = TAMask (initial_truncation p sn)
  /\ TB s = TB (initial_truncation p sn).
Proof.
  intros Hf sn s. unfold s, Evolve_init. rewrite Hf. cbn [negb]. fold sn.
  destruct (fm_fields _ _ (init_moments_fm (initial_truncation p sn)))
    as [A B].
  split; [exact A|]. split; [|split; [exact B|]].
  - apply (init_moments_proj PF). reflexivity.
  - apply (init_moments_proj TB). reflexivity.
Qed.

(** ** Passes of the extrapolation loop from the initial state *)


Lemma in_set_difference_intro x a b :
  In x a -> ~ In x b -> In x (set_difference a b).
Proof.
  revert b. induction a as [|y a IH]; intros b; [contradiction|].
  induction b as [|z b IHb]; intros Ha Hb; [exact Ha|].
  cbn [set_difference]. destruct (y <? z) eqn:E1.
  - destruct Ha as [->|Ha]; [now left|]. right. now apply IH.
  - destruct (z <? y) eqn:E2.
    + apply IHb; [exact Ha|]. intros H. apply Hb. now right.
    + assert (y = z) by lia. subst z.
      destruct Ha as [->|Ha]; [exfalso; apply Hb; now left|].
      apply IH; [exact Ha|]. intros H. apply Hb. now right.
Qed.

Lemma extrapolate_list_out_of_range st l e :
  In e l -> extrapolate_cell p st e = ExOutOfRange ->
  extrapolate_list p st l = None.
Proof.
  intros Hin He. induction l as [|a l IH]; [contradiction|].
  rewrite (extrapolate_list_cons). destruct Hin as [->|Hin].
  - now rewrite He.
  - rewrite (IH Hin). now destruct (extrapolate_cell p st a).
Qed.

(** A pass with a target whose extrapolation reads [H] outside the
    vector does not complete. *)
Lemma ext_pass_reads_outside st x :
  In x (extrap_targets p (pass_start st)) -> ~ In x (TBL st) ->
  extrapolate_cell p st x = ExOutOfRange ->
  ext_pass p st = None.
Proof.
  intros Hx Hn He. unfold ext_pass. fold (pass_start st).
  set (s0 := pass_start st) in *.
  set (s1 := set_ExFF (extrap_targets p s0) s0).
  assert (Hlen : (0 <? Z.of_nat (length (ExFF s1))) = true).
  { change (ExFF s1) with (extrap_targets p s0).
    destruct (extrap_targets p s0); [contradiction|]. reflexivity. }
  rewrite Hlen. unfold extrapolate_block.
  set (s2 := set_ExFF _ (set_TBL (sort (TBL s1)) s1)).
  assert (Hin : In x (ExFF s2)).
  { unfold s2. cbn [ExFF set_ExFF]. rewrite in_unique, in_sort.
    apply in_set_difference_intro.
    - rewrite in_sort. exact Hx.
    - rewrite in_sort. change (TBL s1) with (unique (sort (TBL st))).
      rewrite in_unique, in_sort. exact Hn. }
  rewrite (extrapolate_list_out_of_range s2 (ExFF s2) x Hin);
    [reflexivity|exact He].
Qed.

Lemma step_out_of_range fuel st :
  loop_cond p (begin_step p st) = true ->
  ext_pass p (begin_step p st) = None ->
  step p (S fuel) st = StepOutOfRange.
Proof.
  intros Hc Hp. unfold step. cbn [ext_loop]. now rewrite Hc, Hp.
Qed.

(** The frontier at the start of a truncated-grid step: the cells of the
    boundary ring that pass the frontier test. *)
Lemma begin_step_frontier st :
  isFullGrid p = false ->
  (forall e, In e (TBL (begin_step p st))
             <-> In e (TB st) /\ frontier_test p st e = true)
  /\ Excount (begin_step p st) = 0
  /\ isFirstExtrp (begin_step p st) = true
  /\ F (begin_step p st) = F st.
Proof.
  intros Hf. unfold begin_step. rewrite Hf. cbn [negb].
  split; [|split; [reflexivity|split; reflexivity]].
  intros e. cbn [TBL set_isFirstExtrp set_isExtrapolate build_TBL set_TBL_P
                 set_TBL].
  rewrite (in_push_if (frontier_test p (set_Excount 0 st))).
  cbn [In]. change (TB (set_Excount 0 st)) with (TB st).
  change (frontier_test p (set_Excount 0 st) e) with (frontier_test p st e).
  tauto.
Qed.

(** A first pass that finds no target is followed by a second pass, after
    which the loop stops: two passes, whatever [ExLimit]. *)
Lemma two_passes_without_target st :
  loop_cond p st = true -> isFirstExtrp st = true ->
  extrap_targets p (pass_start st) = [] ->
  exists s, ext_loop p 2 0 st = Finished s 2 /\ TBL s = []
            /\ Excount s = Excount st.
Proof.
  intros Hc Hf Ht.
  pose proof (ext_pass_no_target_first st Ht Hf) as E1.
  set (s1 := first_pass_body p (set_ExFF [] (pass_start st))) in *.
  destruct (first_pass_body_work (set_ExFF [] (pass_start st)))
    as (_ & H2 & _ & H4 & _ & _ & H7 & _ & _).
  fold s1 in H2, H4, H7.
  change (TBL (set_ExFF [] (pass_start st))) with (unique (sort (TBL st)))
    in H2.
  change (Excount (set_ExFF [] (pass_start st))) with (Excount st) in H7.
  change (ExFF (set_ExFF [] (pass_start st))) with (@nil Z) in H4.
  destruct (empty_first_pass_then_stop st s1 E1 Hf H4)
    as (s2 & E2 & HT2 & HC2).
  destruct (loop_cond_true st Hc) as (Hne & Hfull & Hlt).
  assert (C1 : loop_cond p s1 = true).
  { unfold loop_cond. rewrite H2, H7, Hfull.
    destruct (unique (sort (TBL st))) as [|a l] eqn:E.
    - apply (proj1 (unique_nil_iff _)) in E.
      apply (proj1 (sort_nil_iff _)) in E. contradiction.
    - cbn [length negb andb]. apply Z.ltb_lt in Hlt.
      rewrite Hlt. reflexivity. }
  exists s2. cbn [ext_loop]. rewrite Hc, E1, C1, E2.
  rewrite (loop_cond_nil s2 HT2). tauto.
Qed.

(** A target whose only candidate comes from the two cells along [+x],
    the nearer one of magnitude [BIG_NUMBER] or more: no neighbour is
    recorded, the candidate is compared with the sentinel, and when it is
    larger the fallback reads [H[-1]]. *)
Lemma extrapolate_cell_unrecorded st e :
  let g1 := Z.quot e (M1 p) in
  let g2 := Z.rem e (M1 p) in
  let f1 := F st ((g1 + 1) * W1 p + g2) in
  let f2 := F st ((g1 + 2) * W1 p + g2) in
  F st ((g1 - 1) * W1 p + g2) = 0%R ->
  F st (g1 * W1 p + (g2 - 1)) = 0%R ->
  F st (g1 * W1 p + (g2 + 1)) = 0%R ->
  (IZR BIG_NUMBER <= f1)%R -> (0 < f2)%R ->
  (IZR BIG_NUMBER < f1 * f1 / f2)%R ->
  extrapolate_cell p st e = ExOutOfRange.
Proof.
  intros g1 g2 f1 f2 Z1 Z2 Z3 Hbig Hf2 Hc.
  assert (HB : (0 < IZR BIG_NUMBER)%R) by (unfold BIG_NUMBER; lra).
  unfold extrapolate_cell, extrap_acc. fold g1 g2.
  rewrite Z1, Z2, Z3, !extrap_dir_zero. fold f1 f2.
  unfold extrap_dir.
  replace (Reqb f1 0) with false by (symmetry; apply Reqb_false; lra).
  replace (Reqb f2 0) with false by (symmetry; apply Reqb_false; lra).
  cbn [negb]. rewrite (extrap_val_pos f1 f2) by lra.
  replace (Rltb (Rabs f1) (val_min_abs ExAcc_init)) with false.
  2:{ symmetry. apply Rltb_false. cbn [val_min_abs ExAcc_init].
      rewrite Rabs_right; lra. }
  cbn [andb isnan isinf dneg orb negb dreal].
  unfold extrap_result.
  cbn [ex_isEmpty ex_sum ex_count val_min_abs ExAcc_init min_dir].
  replace (Rltb (IZR BIG_NUMBER) (Rabs ((0 + f1 * f1 / f2) / IZR (0 + 1))))
    with true; [reflexivity|].
  symmetry. apply Rltb_true.
  replace ((0 + f1 * f1 / f2) / IZR (0 + 1))%R with (f1 * f1 / f2)%R
    by (cbn; field; lra).
  rewrite Rabs_right; lra.
Qed.

End Properties.

(** * Concrete runs *)

Lemma stage_full_P_trunc5 cell st :
  stage_full P_trunc5 cell st = cell 2 2 st.
Proof. reflexivity. Qed.

Lemma wave_P_trunc5_pos x1 x2 : (0 < WAVEFUNCTION P_trunc5 x1 x2)%R.
Proof.
  unfold WAVEFUNCTION. cbn [POT P_trunc5 example_params].
  unfold Wavefunction_DW2, PIHB_INV. cbn [hb P_trunc5 example_params].
  apply Rmult_lt_0_compat; [apply Rmult_lt_0_compat|]; try apply exp_pos.
  apply Rdiv_lt_0_compat; [lra|]. apply Rmult_lt_0_compat; [apply PI_RGT_0|lra].
Qed.

Lemma init_norm_P_trunc5 st :
  init_norm P_trunc5 st = ((0 + F st 12%Z) * (1 * 1))%R.
Proof. reflexivity. Qed.

Lemma Evolve_init_P_trunc5_eq :
  exists s1,
    Evolve_init P_trunc5
    = set_PF (upd (PF s1) 12 0%R) (set_ta_size 0 (reset_box s1))
    /\ F s1 12 = 1%R /\ (forall k, TAMask s1 k = false) /\ TB s1 = [].
Proof.
  unfold Evolve_init. change (negb (isFullGrid P_trunc5)) with true. cbv iota.
  set (s1 := init_normalize P_trunc5 (init_wavefunction P_trunc5 st_zero)).
  assert (H1 : F s1 12 = 1%R /\ (forall k, k <> 12 -> F s1 k = 0%R)
               /\ (forall k, TAMask s1 k = false) /\ TB s1 = []).
  { unfold s1, init_normalize, init_wavefunction.
    rewrite init_norm_P_trunc5, !stage_full_P_trunc5.
    set (w := WAVEFUNCTION P_trunc5 _ _).
    assert (Hw : (0 < w)%R) by apply wave_P_trunc5_pos. clearbody w.
    cbn. repeat split.
    - field. lra.
    - intros k Hk. unfold upd. apply Z.eqb_neq in Hk. now rewrite ?Hk. }
  clearbody s1. destruct H1 as (Ha & Hb & Hc & Hd).
  assert (H2 : initial_truncation P_trunc5 s1
               = set_PF (upd (PF s1) 12 0%R) (set_ta_size 0 (reset_box s1))).
  { unfold initial_truncation. rewrite stage_full_P_trunc5.
    unfold init_truncate_cell. cbn. rewrite Ha, !Hb by lia.
    replace (Rltb 1 2) with true by (symmetry; apply Rltb_true; lra).
    replace (Rltb _ (TolHd_sq P_trunc5)) with true; [reflexivity|].
    symmetry. apply Rltb_true. unfold TolHd_sq. cbn.
    rewrite Rminus_diag, Rabs_R0. lra. }
  rewrite H2.
  assert (HE : init_moments P_trunc5
     (set_PF (upd (PF s1) 12 0%R) (set_ta_size 0 (reset_box s1)))
     = set_PF (upd (PF s1) 12 0%R) (set_ta_size 0 (reset_box s1))).
  { unfold init_moments. cbn. apply for_loop_empty. unfold BIG_NUMBER. lia. }
  rewrite HE. exists s1. tauto.
Qed.

Lemma Evolve_init_P_trunc5 :
  F (Evolve_init P_trunc5) 12 = 1%R /\ idle (Evolve_init P_trunc5).
Proof.
  destruct Evolve_init_P_trunc5_eq as (s1 & -> & Ha & Hc & Hd).
  split; [exact Ha|].
  split; [exact Hd|split; [|exact Hc]]. cbn. unfold BIG_NUMBER. lia.
Qed.

(** The claim fails when the initial truncation keeps no cell: the
    density of the initial state is never cleared, and the steps that
    follow leave it in a cell that is not live. *)
Lemma C4_no_live_cell_keeps_density :
  isFullGrid P_trunc5 = false
  /\ exists st', run P_trunc5 0 1 (Evolve_init P_trunc5) = StepDone st'
                 /\ TAMask st' 12 = false /\ F st' 12 = 1%R.
Proof.
  split; [reflexivity|].
  destruct Evolve_init_P_trunc5 as [HF HI].
  destruct (step_idle P_trunc5 0 (Evolve_init P_trunc5) eq_refl HI)
    as (st' & Hs & HF' & (_ & _ & Hm)).
  exists st'. cbn [run]. rewrite Hs.
  repeat split; [apply Hm|now rewrite HF'].
Qed.

(** ** Bounds on the Gaussian of the initial wavefunction *)

Lemma exp_1_bounds : (2 <= exp 1 <= 3)%R.
Proof.
  split; [|exact exp_le_3].
  pose proof (exp_ineq1_le 1). lra.
Qed.

Lemma exp_m2_bounds : (1 / 9 <= exp (- 2) <= 1 / 4)%R.
Proof.
  destruct exp_1_bounds as [A B].
  replace (- 2)%R with (- (1 + 1))%R by ring.
  rewrite exp_Ropp, exp_plus.
  assert (H : (4 <= exp 1 * exp 1 <= 9)%R) by nra.
  set (x := (exp 1 * exp 1)%R) in *.
  assert (Hx : (0 < x)%R) by lra.
  split.
  - apply (Rmult_le_reg_r x); [exact Hx|].
    rewrite Rinv_l by lra. lra.
  - apply (Rmult_le_reg_r x); [exact Hx|].
    rewrite Rinv_l by lra. lra.
Qed.

Lemma exp_m8_bound : (exp (- 8) <= 1 / 256)%R.
Proof.
  destruct exp_m2_bounds as [A B].
  replace (- 8)%R with (- 2 + - 2 + (- 2 + - 2))%R by ring.
  rewrite !exp_plus. pose proof (exp_pos (- 2)) as H.
  set (x := exp (- 2)) in *.
  assert (H2 : (0 < x * x <= 1 / 16)%R) by nra.
  nra.
Qed.

Lemma exp_nonpos x : (x <= 0)%R -> (exp x <= 1)%R.
Proof.
  intros H. destruct (Req_dec x 0) as [->|Hx]; [rewrite exp_0; lra|].
  rewrite <- exp_0. left. apply exp_increasing. lra.
Qed.

Lemma exp_le_mono x y : (x <= y)%R -> (exp x <= exp y)%R.
Proof.
  intros H. destruct (Req_dec x y) as [->|Hx]; [lra|].
  left. apply exp_increasing. lra.
Qed.

Lemma IZR_sq_ge_1 (z : Z) : z <> 0 -> (1 <= IZR z * IZR z)%R.
Proof.
  intros Hz. assert (H1 : 1 <= z * z) by nia.
  apply IZR_le in H1. now rewrite mult_IZR in H1.
Qed.

(** ** The first time step of [P_huge] *)

Lemma wave_huge i j :
  wave_at P_huge i j
  = (1 / (PI * (1 / 100000000000000))
     * exp (- 2 * (IZR (i - 5) * IZR (i - 5)))
     * exp (- 8 * (IZR (j - 3) * IZR (j - 3))))%R.
Proof.
  unfold wave_at, WAVEFUNCTION, Wavefunction_DW2, PIHB_INV, HBSQ_INV.
  cbn [POT P_huge Box_0 Box_2 H_0 H_1 hb A_0 A_1 Wave0_0 Wave0_1].
  rewrite !minus_IZR. f_equal; [f_equal|]; f_equal; field.
Qed.

Lemma wave_huge_bounds i j :
  let c := (1 / (PI * (1 / 100000000000000)))%R in
  (0 < c)%R
  /\ (0 < wave_at P_huge i j <= c)%R
  /\ (j <> 3 \/ i <= 3 -> (wave_at P_huge i j <= 1 / 256 * c)%R).
Proof.
  intros c. rewrite wave_huge. fold c. pose proof PI_RGT_0 as HP.
  assert (Hc : (0 < c)%R) by (apply Rdiv_lt_0_compat; lra).
  split; [exact Hc|].
  assert (A : (0 < exp (- 2 * (IZR (i - 5) * IZR (i - 5))) <= 1)%R).
  { split; [apply exp_pos|]. apply exp_nonpos.
    pose proof (Rle_0_sqr (IZR (i - 5))) as H. unfold Rsqr in H. lra. }
  assert (B : (0 < exp (- 8 * (IZR (j - 3) * IZR (j - 3))) <= 1)%R).
  { split; [apply exp_pos|]. apply exp_nonpos.
    pose proof (Rle_0_sqr (IZR (j - 3))) as H. unfold Rsqr in H. lra. }
  assert (A' : i <= 3 ->
            (exp (- 2 * (IZR (i - 5) * IZR (i - 5))) <= 1 / 256)%R).
  { intros Hi. apply Rle_trans with (exp (- 8)); [|exact exp_m8_bound].
    apply exp_le_mono.
    assert (H4 : 4 <= (i - 5) * (i - 5)) by nia.
    apply IZR_le in H4. rewrite mult_IZR in H4. lra. }
  assert (B' : j <> 3 ->
            (exp (- 8 * (IZR (j - 3) * IZR (j - 3))) <= 1 / 256)%R).
  { intros Hj. apply Rle_trans with (exp (- 8)); [|exact exp_m8_bound].
    apply exp_le_mono.
    pose proof (IZR_sq_ge_1 (j - 3) ltac:(lia)). lra. }
  set (x := exp (- 2 * (IZR (i - 5) * IZR (i - 5)))) in *.
  set (y := exp (- 8 * (IZR (j - 3) * IZR (j - 3)))) in *.
  assert (Hp : (0 < x * y <= 1)%R) by nra.
  replace (c * x * y)%R with (x * y * c)%R by ring.
  split; [split; nra|].
  intros Hd.
  assert (Hxy : (x * y <= 1 / 256)%R)
    by (destruct Hd as [Hd|Hd];
        [specialize (B' Hd)|specialize (A' Hd)]; nra).
  apply Rmult_le_compat_r; lra.
Qed.

(** The initial state of [P_huge]. *)
Lemma Evolve_init_huge :
  let st := Evolve_init P_huge in
  (exists g, (1 / 12 <= g <= 1)%R
     /\ F st 38 = (g * 100000000000000)%R
     /\ F st 31 = (exp (- 2) * (g * 100000000000000))%R)
  /\ PF st 31 = F st 31
  /\ F st 24 = 0%R /\ F st 17 = 0%R /\ F st 23 = 0%R /\ F st 25 = 0%R
  /\ In 31 (TB st) /\ (forall e, In e (TB st) -> e = 31 \/ e = 38).
Proof.
  intros st.
  pose proof PI_RGT_0 as HP.
  set (c := (1 / (PI * (1 / 100000000000000)))%R).
  assert (HE : 0 <= EDGE P_huge) by (cbn; lia).
  assert (HH : (0 < H_0 P_huge * H_1 P_huge)%R) by (cbn; lra).
  assert (Hr53 : edge_free P_huge 5 3) by (unfold edge_free; cbn; lia).
  assert (Hr43 : edge_free P_huge 4 3) by (unfold edge_free; cbn; lia).
  assert (Hw53 : wave_at P_huge 5 3 = c).
  { rewrite wave_huge. change (IZR (5 - 5)) with 0%R.
    change (IZR (3 - 3)) with 0%R.
    replace (- 2 * (0 * 0))%R with 0%R by ring.
    replace (- 8 * (0 * 0))%R with 0%R by ring. rewrite exp_0.
    unfold c. ring. }
  assert (Hw43 : wave_at P_huge 4 3 = (c * exp (- 2))%R).
  { rewrite wave_huge. change (IZR (4 - 5)) with (-1)%R.
    change (IZR (3 - 3)) with 0%R.
    replace (- 2 * (-1 * -1))%R with (- 2)%R by ring.
    replace (- 8 * (0 * 0))%R with 0%R by ring. rewrite exp_0.
    unfold c. ring. }
  assert (Hcpos : (0 < c)%R) by apply (wave_huge_bounds 0 0).
  assert (Hwb : forall i j, edge_free P_huge i j ->
            (0 < wave_at P_huge i j <= c)%R).
  { intros i j _. apply wave_huge_bounds. }
  destruct (init_values P_huge c 5 3 HE HH Hr53 Hw53 Hwb)
    as (g & Hg & _ & Hin & Hout & Hb).
  destruct (init_normalize_view P_huge) as [Hmask _].
  destruct (Evolve_init_trunc P_huge eq_refl) as (EF & EP & EM & ET).
  fold st in EF, EP, EM, ET. rewrite EF, EP, ET. clear EF EP EM ET.
  clear st.
  set (sn := init_normalize P_huge (init_wavefunction P_huge st_zero)) in *.
  clearbody sn.
  change (INR (length (cells (EDGE P_huge)
                         (BoxShape_0 P_huge - EDGE P_huge) (EDGE P_huge)
                         (BoxShape_1 P_huge - EDGE P_huge))))
    with (INR 12) in Hg.
  rewrite INR_IZR_INZ in Hg. change (IZR (Z.of_nat 12)) with 12%R in Hg.
  change (H_0 P_huge * H_1 P_huge)%R
    with (1 * (1 / 100000000000000))%R in Hin, Hb.
  set (M := 100000000000000%R) in *.
  assert (HM : (1 / (1 * (1 / M)) = M)%R) by (unfold M; field).
  assert (HgM : forall x : R, (x * (g / (1 * (1 / M))) = x * (g * M))%R).
  { intros x. unfold M. field. }
  pose proof exp_m2_bounds as Hq. pose proof (exp_pos (- 2)) as Hq0.
  assert (Hdrop : forall i j, init_dropped P_huge sn i j
                    <-> (F sn (i * W1 P_huge + j) < 500000000000)%R).
  { intros i j.
    apply (init_dropped_by_value P_huge sn (1 / (1 * (1 / M)))).
    - exact Hb.
    - cbn. lra.
    - cbn. lra.
    - unfold TolHd_sq, M. cbn. lra. }
  assert (H53 : F sn (5 * W1 P_huge + 3) = (g * M)%R).
  { rewrite (proj1 (Hin 5 3 Hr53)), Hw53, HgM. field. lra. }
  assert (H43 : F sn (4 * W1 P_huge + 3) = (exp (- 2) * (g * M))%R).
  { rewrite (proj1 (Hin 4 3 Hr43)), Hw43, HgM. field. lra. }
  assert (HgMb : (M / 12 <= g * M <= M)%R) by (unfold M; lra).
  assert (Hk53 : ~ init_dropped P_huge sn 5 3).
  { rewrite Hdrop, H53. unfold M in *. lra. }
  assert (Hk43 : ~ init_dropped P_huge sn 4 3).
  { rewrite Hdrop, H43.
    assert (H1 : (1 / 9 * (g * M) <= exp (- 2) * (g * M))%R)
      by (apply Rmult_le_compat_r; lra).
    set (z := (exp (- 2) * (g * M))%R) in *.
    set (y := (g * M)%R) in *. clearbody z y. unfold M in *. lra. }
  assert (Hothers : forall i j, edge_free P_huge i j -> j <> 3 \/ i <= 3 ->
            init_dropped P_huge sn i j).
  { intros i j Hr Hd. rewrite Hdrop, (proj1 (Hin i j Hr)), HgM.
    destruct (wave_huge_bounds i j) as (_ & [W0 _] & W2).
    specialize (W2 Hd).
    change (wave_at P_huge i j <= 1 / 256 * c)%R in W2.
    assert (Hx : (wave_at P_huge i j / c <= 1 / 256)%R).
    { apply (Rmult_le_reg_r c); [exact Hcpos|].
      replace (wave_at P_huge i j / c * c)%R with (wave_at P_huge i j)
        by (field; lra). lra. }
    assert (Hx0 : (0 < wave_at P_huge i j / c)%R)
      by now apply Rdiv_lt_0_compat.
    assert (H1 : (wave_at P_huge i j / c * (g * M) <= 1 / 256 * (g * M))%R)
      by (apply Rmult_le_compat_r; lra).
    set (z := (wave_at P_huge i j / c * (g * M))%R) in *.
    set (y := (g * M)%R) in *. clearbody z y. unfold M in *. lra. }
  assert (Hm : forall k, TAMask sn k = false)
    by (intros k; now rewrite Hmask).
  destruct (initial_truncation_cells P_huge sn ltac:(cbn; lia) Hm
              (ex_intro _ 5 (ex_intro _ 3 (conj Hr53 Hk53))))
    as (Hcells & _ & HTB & Hring).
  set (s' := initial_truncation P_huge sn) in *. clearbody s'.
  assert (Hz : forall i j, edge_free P_huge i j -> j <> 3 \/ i <= 3 ->
            F s' (i * W1 P_huge + j) = 0%R).
  { intros i j Hr Hd. destruct (Hcells i j Hr) as (_ & Hdr & _).
    now apply Hdr, Hothers. }
  destruct (Hcells 5 3 Hr53) as [K53 _]. destruct (K53 Hk53) as (_ & F53 & _).
  destruct (Hcells 4 3 Hr43) as [K43 _].
  destruct (K43 Hk43) as (_ & F43 & P43).
  destruct (Hin 4 3 Hr43) as (_ & PF43).
  split; [|split; [|split; [|split; [|split; [|split; [|split]]]]]].
  - exists g. split; [exact Hg|].
    change 38 with (5 * W1 P_huge + 3). change 31 with (4 * W1 P_huge + 3).
    split; congruence.
  - change 31 with (4 * W1 P_huge + 3). congruence.
  - apply (Hz 3 3); [unfold edge_free; cbn; lia|right; lia].
  - apply (Hz 2 3); [unfold edge_free; cbn; lia|right; lia].
  - apply (Hz 3 2); [unfold edge_free; cbn; lia|right; lia].
  - apply (Hz 3 4); [unfold edge_free; cbn; lia|right; lia].
  - apply (Hring 4 3 3 3 Hr43 Hk43).
    + unfold edge_free. cbn. lia.
    + unfold adjacent. lia.
    + apply Hothers; [unfold edge_free; cbn; lia|right; lia].
  - intros e He. destruct (HTB e He) as (i & j & Hr & -> & Hk).
    assert (Hj : j = 3).
    { destruct (Z.eq_dec j 3) as [E|E]; [exact E|].
      exfalso. apply Hk. apply Hothers; [exact Hr|now left]. }
    assert (Hi : 4 <= i).
    { destruct (Z_le_gt_dec i 3) as [E|E]; [|lia].
      exfalso. apply Hk. apply Hothers; [exact Hr|now right]. }
    subst j. unfold edge_free in Hr. cbn in Hr.
    assert (Hc : i = 4 \/ i = 5) by lia.
    destruct Hc as [-> | ->]; [left|right]; reflexivity.
Qed.

Lemma frontier_test_huge_31 s :
  (TolL P_huge <= PF s 31)%R -> frontier_test P_huge s 31 = true.
Proof.
  intros H. unfold frontier_test.
  change (Z.quot 31 (M1 P_huge)) with 4. change (Z.rem 31 (M1 P_huge)) with 3.
  change (4 * W1 P_huge + 3) with 31.
  cbv zeta. rewrite (proj2 (Rleb_true _ _) H). reflexivity.
Qed.

Lemma frontier_test_huge_38 s : frontier_test P_huge s 38 = false.
Proof.
  unfold frontier_test.
  change (Z.quot 38 (M1 P_huge)) with 5. change (Z.rem 38 (M1 P_huge)) with 3.
  cbv zeta.
  destruct (Rleb (TolL P_huge) (PF s (5 * W1 P_huge + 3))
            || Rleb (TolLd_sq P_huge) (grad_sq P_huge (F s) s 5 3));
    reflexivity.
Qed.

(** C5 at a failing input that a run reaches, the first time step of
    [P_huge].  The cell [(3,3)], flat index 24, is a target of the
    frontier cell [(4,3)].  Its neighbours along [-x], [-p] and [+p] are
    zero; along [+x] the nearest cell, flat index 31, and the second one,
    flat index 38, hold more than [BIG_NUMBER].  The only candidate [v]
    is at most a quarter of the contributing neighbour, so the claim
    assigns [v]; the code records no neighbour of magnitude [BIG_NUMBER]
    or more, compares [v] with the sentinel and reads [H[-1]]. *)
Lemma C5_huge_neighbour_reads_outside_H :
  In 24 (extrap_targets P_huge
           (pass_start (begin_step P_huge (Evolve_init P_huge))))
  /\ F (Evolve_init P_huge) 17 = 0%R
  /\ F (Evolve_init P_huge) 23 = 0%R
  /\ F (Evolve_init P_huge) 25 = 0%R
  /\ (0 < F (Evolve_init P_huge) 38)%R
  /\ (exists v,
        extrap_val (F (Evolve_init P_huge) 31) (F (Evolve_init P_huge) 38)
        = Fin v
        /\ (IZR BIG_NUMBER < v)%R
        /\ (4 * v <= F (Evolve_init P_huge) 31)%R)
  /\ extrapolate_cell P_huge (Evolve_init P_huge) 24 = ExOutOfRange
  /\ step P_huge 1 (Evolve_init P_huge) = StepOutOfRange.
Proof.
  destruct Evolve_init_huge
    as ((g & Hg & F38 & F31) & PF31 & Z24 & Z17 & Z23 & Z25 & H31 & Hall).
  set (st := Evolve_init P_huge) in *. clearbody st.
  destruct (begin_step_frontier P_huge st eq_refl) as (HT & HC & HF & HFq).
  assert (Hstep : loop_cond P_huge (begin_step P_huge st) = true ->
                  ext_pass P_huge (begin_step P_huge st) = None ->
                  step P_huge 1 st = StepOutOfRange)
    by apply step_out_of_range.
  set (s0 := begin_step P_huge st) in *. clearbody s0.
  pose proof exp_m2_bounds as Hq. pose proof (exp_pos (- 2)) as Hq0.
  set (q := exp (- 2)) in *. set (y := (g * 100000000000000)%R) in *.
  assert (Hy : (100000000000000 / 12 <= y <= 100000000000000)%R)
    by (unfold y; lra).
  assert (Hqy : (1 / 9 * y <= q * y <= 1 / 4 * y)%R)
    by (split; apply Rmult_le_compat_r; lra).
  assert (Hq2 : (1 / 9 * (q * y) <= q * (q * y) <= 1 / 4 * (q * y))%R)
    by (split; apply Rmult_le_compat_r; lra).
  assert (Hv : (q * y * (q * y) / y = q * (q * y))%R) by (field; lra).
  assert (Hval : extrap_val (F st 31) (F st 38) = Fin (q * (q * y))).
  { rewrite F31, F38, extrap_val_pos by lra. now rewrite Hv. }
  assert (Hin31 : In 31 (TBL s0)).
  { apply HT. split; [exact H31|]. apply frontier_test_huge_31.
    rewrite PF31, F31. cbn. lra. }
  assert (Hall0 : forall e, In e (TBL s0) -> e = 31).
  { intros e He. apply HT in He. destruct He as [He Ht].
    destruct (Hall e He) as [->| ->]; [reflexivity|].
    rewrite frontier_test_huge_38 in Ht. discriminate. }
  assert (Htarget : In 24 (extrap_targets P_huge (pass_start s0))).
  { apply in_extrap_targets. exists 31. split.
    - change (TBL (pass_start s0)) with (unique (sort (TBL s0))).
      rewrite in_unique, in_sort. exact Hin31.
    - unfold targets_of.
      change (Z.quot 31 (M1 P_huge)) with 4.
      change (Z.rem 31 (M1 P_huge)) with 3. cbv zeta.
      change (F (pass_start s0)) with (F s0). rewrite HFq.
      change ((4 - 1) * W1 P_huge + 3) with 24. rewrite Z24, Reqb_refl.
      left. reflexivity. }
  assert (Hcell : forall s, F s = F st ->
            extrapolate_cell P_huge s 24 = ExOutOfRange).
  { intros s Hs. apply extrapolate_cell_unrecorded;
      change (Z.quot 24 (M1 P_huge)) with 3;
      change (Z.rem 24 (M1 P_huge)) with 3; rewrite Hs.
    - exact Z17.
    - exact Z23.
    - exact Z25.
    - change ((3 + 1) * W1 P_huge + 3) with 31. rewrite F31.
      unfold BIG_NUMBER. lra.
    - change ((3 + 2) * W1 P_huge + 3) with 38. rewrite F38. lra.
    - change ((3 + 1) * W1 P_huge + 3) with 31.
      change ((3 + 2) * W1 P_huge + 3) with 38. rewrite F31, F38, Hv.
      unfold BIG_NUMBER. lra. }
  split; [exact Htarget|]. split; [exact Z17|]. split; [exact Z23|].
  split; [exact Z25|]. split; [rewrite F38; lra|].
  split.
  { exists (q * (q * y))%R. split; [exact Hval|].
    split; [unfold BIG_NUMBER; lra|rewrite F31; lra]. }
  split; [now apply Hcell|].
  apply Hstep.
  - unfold loop_cond. rewrite HC.
    destruct (TBL s0); [contradiction|reflexivity].
  - apply (ext_pass_reads_outside P_huge s0 24 Htarget).
    + intros H. apply Hall0 in H. discriminate.
    + now apply Hcell.
Qed.

(** ** The first time step of [P_peak7] *)

Lemma wave_peak7 i j :
  wave_at P_peak7 i j
  = (1 / (PI * 1) * exp (- 8 * (IZR (i - 3) * IZR (i - 3)))
     * exp (- 8 * (IZR (j - 3) * IZR (j - 3))))%R.
Proof.
  unfold wave_at, WAVEFUNCTION, Wavefunction_DW2, PIHB_INV, HBSQ_INV.
  cbn [POT P_peak7 Box_0 Box_2 H_0 H_1 hb A_0 A_1 Wave0_0 Wave0_1].
  rewrite !minus_IZR. f_equal; [f_equal|]; f_equal; field.
Qed.

Lemma wave_peak7_bounds i j :
  (0 < wave_at P_peak7 i j <= 1 / (PI * 1))%R
  /\ ((i, j) <> (3, 3) ->
      (wave_at P_peak7 i j <= 1 / 256 * (1 / (PI * 1)))%R).
Proof.
  rewrite wave_peak7. pose proof PI_RGT_0 as HP.
  assert (Hc : (0 < 1 / (PI * 1))%R) by (apply Rdiv_lt_0_compat; lra).
  set (c := (1 / (PI * 1))%R) in *.
  assert (G : forall z, (0 < exp (- 8 * (IZR z * IZR z)) <= 1)%R
              /\ (z <> 0 -> (exp (- 8 * (IZR z * IZR z)) <= 1 / 256)%R)).
  { intros z. split; [split; [apply exp_pos|]|].
    - apply exp_nonpos. pose proof (Rle_0_sqr (IZR z)) as H.
      unfold Rsqr in H. lra.
    - intros Hz. apply Rle_trans with (exp (- 8)); [|exact exp_m8_bound].
      apply exp_le_mono. pose proof (IZR_sq_ge_1 z Hz). lra. }
  destruct (G (i - 3)) as [[A1 A2] A3]. destruct (G (j - 3)) as [[B1 B2] B3].
  set (x := exp (- 8 * (IZR (i - 3) * IZR (i - 3)))) in *.
  set (y := exp (- 8 * (IZR (j - 3) * IZR (j - 3)))) in *.
  assert (Hp : (0 < x * y <= 1)%R) by nra.
  replace (c * x * y)%R with (x * y * c)%R by ring.
  split; [split; nra|].
  intros Hne.
  assert (Hd : i - 3 <> 0 \/ j - 3 <> 0).
  { destruct (Z.eq_dec i 3) as [->|Hi]; [|left; lia].
    destruct (Z.eq_dec j 3) as [->|Hj]; [congruence|right; lia]. }
  assert (Hxy : (x * y <= 1 / 256)%R)
    by (destruct Hd as [Hd|Hd];
        [specialize (A3 Hd)|specialize (B3 Hd)]; nra).
  apply Rmult_le_compat_r; lra.
Qed.

(** The initial state of [P_peak7]: the boundary ring holds the cell
    [(3,3)] and no other, and [PF] is above [TolL] there. *)
Lemma Evolve_init_peak7 :
  let st := Evolve_init P_peak7 in
  (TolL P_peak7 <= PF st 24)%R
  /\ In 24 (TB st) /\ (forall e, In e (TB st) -> e = 24).
Proof.
  intros st.
  pose proof PI_RGT_0 as HP.
  set (c := (1 / (PI * 1))%R).
  assert (HE : 0 <= EDGE P_peak7) by (cbn; lia).
  assert (HH : (0 < H_0 P_peak7 * H_1 P_peak7)%R) by (cbn; lra).
  assert (Hr33 : edge_free P_peak7 3 3) by (unfold edge_free; cbn; lia).
  assert (Hw33 : wave_at P_peak7 3 3 = c).
  { rewrite wave_peak7. change (IZR (3 - 3)) with 0%R.
    replace (- 8 * (0 * 0))%R with 0%R by ring. rewrite exp_0.
    unfold c. ring. }
  assert (Hwb : forall i j, edge_free P_peak7 i j ->
            (0 < wave_at P_peak7 i j <= c)%R).
  { intros i j _. apply wave_peak7_bounds. }
  destruct (init_values P_peak7 c 3 3 HE HH Hr33 Hw33 Hwb)
    as (g & Hg & _ & Hin & Hout & Hb).
  destruct (init_normalize_view P_peak7) as [Hmask _].
  destruct (Evolve_init_trunc P_peak7 eq_refl) as (EF & EP & EM & ET).
  fold st in EF, EP, EM, ET. rewrite EP, ET. clear EF EP EM ET. clear st.
  set (sn := init_normalize P_peak7 (init_wavefunction P_peak7 st_zero)) in *.
  clearbody sn.
  change (INR (length (cells (EDGE P_peak7)
                         (BoxShape_0 P_peak7 - EDGE P_peak7) (EDGE P_peak7)
                         (BoxShape_1 P_peak7 - EDGE P_peak7))))
    with (INR 9) in Hg.
  rewrite INR_IZR_INZ in Hg. change (IZR (Z.of_nat 9)) with 9%R in Hg.
  change (H_0 P_peak7 * H_1 P_peak7)%R with (1 * 1)%R in Hin, Hb.
  assert (Hcpos : (0 < c)%R) by (apply Rdiv_lt_0_compat; lra).
  assert (Hdrop : forall i j, init_dropped P_peak7 sn i j
                    <-> (F sn (i * W1 P_peak7 + j) < 1 / 10)%R).
  { intros i j.
    apply (init_dropped_by_value P_peak7 sn (1 / (1 * 1))).
    - exact Hb.
    - cbn. lra.
    - cbn. lra.
    - unfold TolHd_sq. cbn. lra. }
  assert (H33 : F sn (3 * W1 P_peak7 + 3) = g).
  { rewrite (proj1 (Hin 3 3 Hr33)), Hw33. field. lra. }
  assert (Hkept : ~ init_dropped P_peak7 sn 3 3).
  { rewrite Hdrop, H33. lra. }
  assert (Hothers : forall i j, edge_free P_peak7 i j -> (i, j) <> (3, 3) ->
            init_dropped P_peak7 sn i j).
  { intros i j Hr Hne. rewrite Hdrop, (proj1 (Hin i j Hr)).
    destruct (wave_peak7_bounds i j) as [[W0 _] W2]. specialize (W2 Hne).
    fold c in W2.
    assert (Hx : (wave_at P_peak7 i j / c <= 1 / 256)%R).
    { apply (Rmult_le_reg_r c); [exact Hcpos|].
      replace (wave_at P_peak7 i j / c * c)%R with (wave_at P_peak7 i j)
        by (field; lra). lra. }
    assert (Hx0 : (0 < wave_at P_peak7 i j / c)%R)
      by now apply Rdiv_lt_0_compat.
    replace (g / (1 * 1))%R with g by field. nra. }
  assert (Hm : forall k, TAMask sn k = false)
    by (intros k; now rewrite Hmask).
  destruct (initial_truncation_cells P_peak7 sn ltac:(cbn; lia) Hm
              (ex_intro _ 3 (ex_intro _ 3 (conj Hr33 Hkept))))
    as (Hcells & _ & HTB & Hring).
  set (s' := initial_truncation P_peak7 sn) in *. clearbody s'.
  split; [|split].
  - destruct (Hcells 3 3 Hr33) as [Hk _].
    destruct (Hk Hkept) as (_ & _ & HPF).
    change (3 * W1 P_peak7 + 3) with 24 in HPF, H33.
    rewrite HPF. destruct (Hin 3 3 Hr33) as (_ & HPn).
    change (3 * W1 P_peak7 + 3) with 24 in HPn. rewrite HPn, H33.
    cbn. lra.
  - apply (Hring 3 3 2 3 Hr33 Hkept).
    + unfold edge_free. cbn. lia.
    + unfold adjacent. lia.
    + apply Hothers; [unfold edge_free; cbn; lia|congruence].
  - intros e He. destruct (HTB e He) as (i & j & Hr & -> & Hk).
    destruct (Z.eq_dec i 3) as [->|Hi].
    + destruct (Z.eq_dec j 3) as [->|Hj]; [reflexivity|].
      exfalso. apply Hk. apply Hothers; [exact Hr|congruence].
    + exfalso. apply Hk. apply Hothers; [exact Hr|congruence].
Qed.

Lemma frontier_test_peak7 s :
  (TolL P_peak7 <= PF s 24)%R -> frontier_test P_peak7 s 24 = true.
Proof.
  intros H. unfold frontier_test.
  change (Z.quot 24 (M1 P_peak7)) with 3. change (Z.rem 24 (M1 P_peak7)) with 3.
  change (3 * W1 P_peak7 + 3) with 24.
  cbv zeta. rewrite (proj2 (Rleb_true _ _) H). reflexivity.
Qed.

Lemma no_targets_peak7 s :
  (forall e, In e (TBL s) -> e = 24) ->
  extrap_targets P_peak7 (pass_start s) = [].
Proof.
  intros H.
  destruct (extrap_targets P_peak7 (pass_start s)) as [|x l] eqn:E;
    [reflexivity|].
  assert (Hx : In x (extrap_targets P_peak7 (pass_start s)))
    by (rewrite E; now left).
  apply in_extrap_targets in Hx. destruct Hx as (e & He & Hx).
  change (TBL (pass_start s)) with (unique (sort (TBL s))) in He.
  rewrite in_unique, in_sort in He. rewrite (H e He) in Hx.
  contradiction.
Qed.

(** The claim of at most [ExLimit] passes fails on the first time step of
    a run: with [ExLimit = 1] the initial truncation of [P_peak7] leaves
    one frontier cell, which has no admissible target, and the loop makes
    two passes. *)
Lemma C6_two_passes_with_ExLimit_one :
  ExLimit P_peak7 = 1
  /\ isFullGrid P_peak7 = false
  /\ exists s, ext_loop P_peak7 2 0 (begin_step P_peak7 (Evolve_init P_peak7))
               = Finished s 2.
Proof.
  split; [reflexivity|]. split; [reflexivity|].
  destruct Evolve_init_peak7 as (HPF & H24 & Hall).
  set (st := Evolve_init P_peak7) in *. clearbody st.
  destruct (begin_step_frontier P_peak7 st eq_refl) as (HT & HC & HF & _).
  set (s0 := begin_step P_peak7 st) in *. clearbody s0.
  assert (Hin : In 24 (TBL s0)).
  { apply HT. split; [exact H24|]. now apply frontier_test_peak7. }
  assert (Hc : loop_cond P_peak7 s0 = true).
  { unfold loop_cond. rewrite HC.
    destruct (TBL s0); [contradiction|reflexivity]. }
  assert (Hno : extrap_targets P_peak7 (pass_start s0) = []).
  { apply no_targets_peak7. intros e He. apply HT in He.
    apply Hall. tauto. }
  destruct (two_passes_without_target P_peak7 s0 Hc HF Hno) as (s & Hs & _).
  exists s. exact Hs.
Qed.

Lemma stage_full_P_full3 cell st :
  stage_full P_full3 cell st = cell 1 1 st.
Proof. reflexivity. Qed.






(** * Further properties at concrete configurations *)

Lemma index_round_trip_witness :
  M1 P_trunc7 <> 0
  /\ IdxToGrid P_trunc7 (GridToIdx P_trunc7 3 3) = (3, 3).
Proof.
  assert (H : M1 P_trunc7 <> 0) by (cbn; lia).
  split; [exact H|].
  refine (proj1 (proj2 (index_round_trip P_trunc7 H)) 3 3 _ _); cbn; lia.
Defined.

Lemma POTENTIAL_X_is_gradient_witness :
  POT P_dw1 <> KK2DPOT_DW3
  /\ derivable_pt_lim (fun x => POTENTIAL P_dw1 x 0) 1
       (POTENTIAL_X P_dw1 1 0).
Proof.
  assert (H : POT P_dw1 <> KK2DPOT_DW3) by (cbn; discriminate).
  split; [exact H|].
  exact (POTENTIAL_X_is_gradient P_dw1 1 0 H).
Defined.

Lemma first_truncation_P_trunc5 :
  ta_size
    (stage_full P_trunc5 (init_truncate_cell P_trunc5)
       (set_ta_size 0
          (reset_box (init_normalize P_trunc5
                        (init_wavefunction P_trunc5 st_zero))))) = 0.
Proof.
  set (s1 := init_normalize P_trunc5 (init_wavefunction P_trunc5 st_zero)).
  assert (H1 : F s1 12 = 1%R /\ (forall k, k <> 12 -> F s1 k = 0%R)).
  { unfold s1, init_normalize, init_wavefunction.
    rewrite init_norm_P_trunc5, !stage_full_P_trunc5.
    set (w := WAVEFUNCTION P_trunc5 _ _).
    assert (Hw : (0 < w)%R) by apply wave_P_trunc5_pos. clearbody w.
    cbn. split.
    - field. lra.
    - intros k Hk. unfold upd. apply Z.eqb_neq in Hk. now rewrite ?Hk. }
  clearbody s1. destruct H1 as (Ha & Hb).
  rewrite stage_full_P_trunc5. unfold init_truncate_cell. cbn.
  rewrite Ha, !Hb by lia.
  replace (Rltb 1 2) with true by (symmetry; apply Rltb_true; lra).
  replace (Rltb _ (TolHd_sq P_trunc5)) with true; [reflexivity|].
  symmetry. apply Rltb_true. unfold TolHd_sq. cbn.
  rewrite Rminus_diag, Rabs_R0. lra.
Qed.

Lemma never_evolves_without_live_cells_witness :
  isFullGrid P_trunc5 = false
  /\ ta_size
       (stage_full P_trunc5 (init_truncate_cell P_trunc5)
          (set_ta_size 0
             (reset_box (init_normalize P_trunc5
                           (init_wavefunction P_trunc5 st_zero))))) = 0
  /\ exists st', run P_trunc5 0 5 (Evolve_init P_trunc5) = StepDone st'
                 /\ F st'
                    = F (init_normalize P_trunc5
                           (init_wavefunction P_trunc5 st_zero))
                 /\ (forall k, TAMask st' k = false).
Proof.
  split; [reflexivity|split; [exact first_truncation_P_trunc5|]].
  exact (never_evolves_without_live_cells P_trunc5 0 5 eq_refl
           first_truncation_P_trunc5).
Defined.

Lemma full_grid_halo_stays_zero_witness :
  isFullGrid P_full3 = true
  /\ exists st', run P_full3 0 2 (Evolve_init P_full3) = StepDone st'
       /\ forall k, halo P_full3 k ->
            F st' k = 0%R /\ PF st' k = 0%R /\ FF st' k = 0%R
            /\ KK1 st' k = 0%R /\ KK2 st' k = 0%R /\ KK3 st' k = 0%R
            /\ KK4 st' k = 0%R.
Proof.
  split; [reflexivity|].
  exact (full_grid_halo_stays_zero P_full3 0 2 eq_refl).
Defined.

Lemma moment_engine_by_mode_witness :
  0 <= x2_min st_ring24
  /\ x2_max st_ring24 < W1 P_iso7
  /\ x1_min st_ring24 <= 3 <= x1_max st_ring24
  /\ fields_kept st_ring24 (moments_feq_trunc P_iso7 st_ring24).
Proof.
  assert (H1 : 0 <= x2_min st_ring24) by (cbn; lia).
  assert (H2 : x2_max st_ring24 < W1 P_iso7) by (cbn; lia).
  assert (H3 : x1_min st_ring24 <= 3 <= x1_max st_ring24) by (cbn; lia).
  split; [exact H1|split; [exact H2|split; [exact H3|]]].
  exact (proj2 (proj2 (moment_engine_by_mode P_iso7 st_ring24 3 H1 H2 H3))).
Defined.

Lemma CASE2_rk4_live_cells_witness :
  0 <= x2_min st_ring24
  /\ x2_max st_ring24 < W1 P_trunc7
  /\ x1_min st_ring24 <= 3 <= x1_max st_ring24
  /\ x2_min st_ring24 <= 3 <= x2_max st_ring24
  /\ TAMask st_ring24 (3 * W1 P_trunc7 + 3) = true
  /\ KK1 (CASE2 P_trunc7 st_ring24) (3 * W1 P_trunc7 + 3)
     = stage_op P_trunc7 (F st_ring24)
         (Feq_loc (moments_feq_trunc P_trunc7 st_ring24)) 3 3.
Proof.
  assert (H1 : 0 <= x2_min st_ring24) by (cbn; lia).
  assert (H2 : x2_max st_ring24 < W1 P_trunc7) by (cbn; lia).
  assert (H3 : x1_min st_ring24 <= 3 <= x1_max st_ring24) by (cbn; lia).
  assert (H4 : x2_min st_ring24 <= 3 <= x2_max st_ring24) by (cbn; lia).
  assert (H5 : TAMask st_ring24 (3 * W1 P_trunc7 + 3) = true)
    by reflexivity.
  split; [exact H1|split; [exact H2|split; [exact H3|]]].
  split; [exact H4|split; [exact H5|]].
  exact (proj1 (CASE2_rk4_live_cells P_trunc7 st_ring24 3 3
                  H1 H2 H3 H4 H5)).
Defined.

Lemma CASE2_keeps_stale_stage_values_witness :
  0 <= x2_min st_ring24
  /\ x2_max st_ring24 < W1 P_trunc7
  /\ (forall i j, x1_min st_ring24 <= i <= x1_max st_ring24 ->
        x2_min st_ring24 <= j <= x2_max st_ring24 ->
        TAMask st_ring24 (i * W1 P_trunc7 + j) = true ->
        17 <> i * W1 P_trunc7 + j)
  /\ KK1 (CASE2 P_trunc7 st_ring24) 17 = KK1 st_ring24 17.
Proof.
  assert (H1 : 0 <= x2_min st_ring24) by (cbn; lia).
  assert (H2 : x2_max st_ring24 < W1 P_trunc7) by (cbn; lia).
  assert (H3 : forall i j, x1_min st_ring24 <= i <= x1_max st_ring24 ->
             x2_min st_ring24 <= j <= x2_max st_ring24 ->
             TAMask st_ring24 (i * W1 P_trunc7 + j) = true ->
             17 <> i * W1 P_trunc7 + j).
  { intros i j Hi Hj _. cbn in Hi, Hj |- *. lia. }
  split; [exact H1|split; [exact H2|split; [exact H3|]]].
  exact (proj1 (CASE2_keeps_stale_stage_values P_trunc7 st_ring24 17
                  H1 H2 H3)).
Defined.

Lemma extrapolation_reads_H_in_range_witness :
  (Rabs (F st_ring24 24) < IZR BIG_NUMBER)%R
  /\ (Rabs (F st_ring24 38) < IZR BIG_NUMBER)%R
  /\ (Rabs (F st_ring24 30) < IZR BIG_NUMBER)%R
  /\ (Rabs (F st_ring24 32) < IZR BIG_NUMBER)%R
  /\ (extrapolate_cell P_trunc7 st_ring24 31 = ExUnassigned
      \/ exists v, extrapolate_cell P_trunc7 st_ring24 31 = ExAssigned v).
Proof.
  assert (H1 : (Rabs (F st_ring24 24) < IZR BIG_NUMBER)%R).
  { cbn. rewrite Rabs_R1. unfold BIG_NUMBER. lra. }
  assert (H0 : (Rabs 0 < IZR BIG_NUMBER)%R).
  { rewrite Rabs_R0. unfold BIG_NUMBER. lra. }
  split; [exact H1|split; [exact H0|split; [exact H0|split; [exact H0|]]]].
  exact (extrapolation_reads_H_in_range P_trunc7 st_ring24 31 H1 H0 H0 H0).
Defined.

Lemma extrapolation_one_direction_witness :
  (forall d', d' <> Xm -> F st_pair (dir_near P_trunc7 3 3 d') = 0%R)
  /\ (0 < F st_pair 17 < IZR BIG_NUMBER)%R
  /\ (0 < F st_pair 10)%R
  /\ (2 * F st_pair 17 <= F st_pair 10)%R
  /\ extrapolate_cell P_trunc7 st_pair 24
     = ExAssigned (F st_pair 17 * F st_pair 17 / F st_pair 10).
Proof.
  assert (H1 : forall d', d' <> Xm ->
                 F st_pair (dir_near P_trunc7 3 3 d') = 0%R).
  { intros d' Hd. destruct d'; [contradiction| | |]; reflexivity. }
  assert (H2 : (0 < F st_pair 17 < IZR BIG_NUMBER)%R).
  { cbn. unfold BIG_NUMBER. lra. }
  assert (H3 : (0 < F st_pair 10)%R) by (cbn; lra).
  assert (H4 : (2 * F st_pair 17 <= F st_pair 10)%R) by (cbn; lra).
  split; [exact H1|split; [exact H2|split; [exact H3|split; [exact H4|]]]].
  exact (proj1 (extrapolation_one_direction P_trunc7 st_pair 24 Xm H1 H2 H3)
           H4).
Defined.

Lemma extrapolation_without_candidate_witness :
  (forall d, F st_ring24 (dir_near P_trunc7 4 3 d) = 0
             \/ F st_ring24 (dir_far P_trunc7 4 3 d) = 0
             \/ F st_ring24 (dir_near P_trunc7 4 3 d) < 0
             \/ F st_ring24 (dir_far P_trunc7 4 3 d) < 0)%R
  /\ extrapolate_cell P_trunc7 st_ring24 31 = ExUnassigned.
Proof.
  assert (H : forall d, (F st_ring24 (dir_near P_trunc7 4 3 d) = 0
             \/ F st_ring24 (dir_far P_trunc7 4 3 d) = 0
             \/ F st_ring24 (dir_near P_trunc7 4 3 d) < 0
             \/ F st_ring24 (dir_far P_trunc7 4 3 d) < 0)%R).
  { intros d. destruct d; [right; left|left|left|left]; reflexivity. }
  split; [exact H|].
  exact (extrapolation_without_candidate P_trunc7 st_ring24 31 H).
Defined.


Lemma box_loop_ring24 cell :
  box_loop cell st_ring24 = cell 3 3 st_ring24.
Proof. reflexivity. Qed.

Lemma truncate_cell_ring24 : truncate_cell P_trunc7 3 3 st_ring24 = st_ring24.
Proof.
  unfold truncate_cell.
  change (TAMask st_ring24 (3 * W1 P_trunc7 + 3)) with true. cbv iota.
  change (PF st_ring24 (3 * W1 P_trunc7 + 3)) with 1%R.
  change (TolH P_trunc7) with (1 / 2)%R.
  replace (Rltb 1 (1 / 2)) with false; [reflexivity|].
  symmetry. apply Rltb_false. lra.
Qed.

Lemma remask_cell_ring24 : remask_cell P_trunc7 3 3 st_ring24 = st_ring24.
Proof.
  unfold remask_cell.
  change (PF st_ring24 (3 * W1 P_trunc7 + 3)) with 1%R.
  replace (Reqb 1 0) with false by (symmetry; apply Reqb_false; lra).
  reflexivity.
Qed.

Lemma truncate_ring24 :
  box_loop (remask_cell P_trunc7)
    (box_loop (truncate_cell P_trunc7) st_ring24) = st_ring24.
Proof.
  rewrite (box_loop_ring24 (truncate_cell P_trunc7)), truncate_cell_ring24.
  now rewrite box_loop_ring24, remask_cell_ring24.
Qed.

Lemma count_box_mask (p : Params) s : TAMask (count_box p s) = TAMask s.
Proof. reflexivity. Qed.

Lemma truncation_ring24 :
  TAMask (truncation P_trunc7 st_ring24) (3 * W1 P_trunc7 + 3) = true.
Proof.
  unfold truncation. rewrite truncate_ring24, count_box_mask.
  apply (proj2 (absorb_mask P_trunc7 _ _ _)). left.
  assert (M4 : forall s, TAMask (rebuild_TB P_trunc7 s) = TAMask s).
  { intros s. unfold rebuild_TB. destruct (ta_size s =? 0); reflexivity. }
  rewrite M4.
  destruct (fm_fields _ _ (rebuild_box_fm P_trunc7 st_ring24)) as [_ HM].
  rewrite HM. reflexivity.
Qed.

Lemma truncation_box_covers_live_cells_witness :
  0 <= EDGE P_trunc7
  /\ EDGE P_trunc7 <= 3 < BoxShape_0 P_trunc7 - EDGE P_trunc7
  /\ EDGE P_trunc7 <= 3 < BoxShape_1 P_trunc7 - EDGE P_trunc7
  /\ TAMask (truncation P_trunc7 st_ring24) (3 * W1 P_trunc7 + 3) = true
  /\ in_box (truncation P_trunc7 st_ring24) 3 3.
Proof.
  assert (H1 : 0 <= EDGE P_trunc7) by (cbn; lia).
  assert (H2 : EDGE P_trunc7 <= 3 < BoxShape_0 P_trunc7 - EDGE P_trunc7)
    by (cbn; lia).
  assert (H3 : EDGE P_trunc7 <= 3 < BoxShape_1 P_trunc7 - EDGE P_trunc7)
    by (cbn; lia).
  split; [exact H1|split; [exact H2|split; [exact H3|]]].
  split; [exact truncation_ring24|].
  exact (truncation_box_covers_live_cells P_trunc7 st_ring24 3 3
           H1 H2 H3 truncation_ring24).
Defined.

Lemma prune_rule_witness :
  0 <= x2_min st_ring24
  /\ x2_max st_ring24 < W1 P_trunc7
  /\ x1_min st_ring24 <= 3 <= x1_max st_ring24
  /\ x2_min st_ring24 <= 3 <= x2_max st_ring24
  /\ TAMask
       (box_loop (remask_cell P_trunc7)
          (box_loop (truncate_cell P_trunc7) st_ring24))
       (3 * W1 P_trunc7 + 3)
     = negb (pruned P_trunc7 st_ring24 3 3)
       && negb (Reqb (PF st_ring24 (3 * W1 P_trunc7 + 3)) 0).
Proof.
  assert (H1 : 0 <= x2_min st_ring24) by (cbn; lia).
  assert (H2 : x2_max st_ring24 < W1 P_trunc7) by (cbn; lia).
  assert (H3 : x1_min st_ring24 <= 3 <= x1_max st_ring24) by (cbn; lia).
  assert (H4 : x2_min st_ring24 <= 3 <= x2_max st_ring24) by (cbn; lia).
  split; [exact H1|split; [exact H2|split; [exact H3|]]].
  split; [exact H4|].
  exact (proj1 (prune_rule P_trunc7 st_ring24 3 3 H1 H2 H3 H4)).
Defined.

Lemma Reqb_0 : Reqb 0 0 = true.
Proof. now apply Reqb_true. Qed.
Lemma Reqb_1 : Reqb 1 0 = false.
Proof. apply Reqb_false. lra. Qed.
Lemma Reqb_2 : Reqb 2 0 = false.
Proof. apply Reqb_false. lra. Qed.

Lemma targets_front27 :
  extrap_targets P_trunc8 (pass_start st_front27) = [35; 28].
Proof.
  unfold extrap_targets, pass_start, for_each. cbn.
  rewrite !Reqb_0. reflexivity.
Qed.

Lemma cell28_front27 s :
  F s = F st_front27 -> extrapolate_cell P_trunc8 s 28 = ExUnassigned.
Proof.
  intros HF. unfold extrapolate_cell, extrap_result.
  assert (E : ex_isEmpty (extrap_acc P_trunc8 (F s) (Z.quot 28 (M1 P_trunc8))
                            (Z.rem 28 (M1 P_trunc8))) = true).
  { rewrite HF. unfold extrap_acc. cbn.
    rewrite !extrap_dir_zero.
    rewrite extrap_dir_no_candidate by (right; left; reflexivity).
    reflexivity. }
  now rewrite E.
Qed.

Lemma cell35_front27 s :
  F s = F st_front27 ->
  extrapolate_cell P_trunc8 s 35 = ExAssigned (1 * 1 / 2)%R.
Proof.
  intros HF. unfold extrapolate_cell. rewrite HF. unfold extrap_acc. cbn.
  rewrite !extrap_dir_zero.
  rewrite (extrap_dir_single 1 2 0) by (unfold BIG_NUMBER; lra).
  rewrite (extrap_result_single P_trunc8 1 (1 * 1 / 2) 0 (H_0 P_trunc8));
    [|lra|reflexivity].
  replace (Rltb 1 (1 * 1 / 2)) with false; [reflexivity|].
  symmetry. apply Rltb_false. lra.
Qed.

Lemma ext_pass_front27 :
  exists st', ext_pass P_trunc8 st_front27 = Some st'
              /\ ExFF st' = [28; 35].
Proof.
  unfold ext_pass. fold (pass_start st_front27).
  rewrite targets_front27.
  set (s1 := set_ExFF [35; 28] (pass_start st_front27)).
  change (0 <? Z.of_nat (length (ExFF s1))) with true. cbv iota.
  assert (Hb : exists s2, extrapolate_block P_trunc8 s1 = Some s2
                          /\ ExFF s2 = [28; 35]
                          /\ isFirstExtrp s2 = true).
  { unfold extrapolate_block.
    set (sb := set_ExFF _ (set_TBL _ s1)).
    assert (Esb : ExFF sb = [28; 35]) by reflexivity.
    assert (Fsb : F sb = F st_front27) by reflexivity.
    rewrite Esb, !extrapolate_list_cons, extrapolate_list_nil.
    rewrite (cell28_front27 sb Fsb), (cell35_front27 sb Fsb).
    set (sc := commit_extrapolation _).
    assert (Ec : ExFF sc = [28; 35] /\ ExCheck sc = [false; true]
                 /\ isFirstExtrp sc = true).
    { unfold sc. rewrite !(commit_proj _) by reflexivity.
      repeat split. }
    destruct Ec as (E1 & E2 & E3).
    assert (Ecc : count_checked sc = 1).
    { unfold count_checked. rewrite E1, E2. reflexivity. }
    rewrite Ecc. cbn [Z.eqb]. exists sc. tauto. }
  destruct Hb as (s2 & -> & E2 & F2). rewrite F2.
  destruct (first_pass_body_work P_trunc8 s2)
    as (_ & _ & _ & H4 & _).
  rewrite H4, E2. cbn [length Z.of_nat Z.ltb Z.compare Pos.of_succ_nat Pos.succ].
  eexists. split; [reflexivity|].
  destruct (rebuild_frontier_spec P_trunc8 (first_pass_body P_trunc8 s2))
    as (RE & _).
  cbv zeta in RE. rewrite RE, H4. exact E2.
Qed.

Lemma frontier_cells_are_new_witness :
  exists st', ext_pass P_trunc8 st_front27 = Some st'
              /\ ExFF st' <> []
              /\ strictly_ascending (ExFF st').
Proof.
  destruct ext_pass_front27 as (st' & Hp & HE).
  assert (Hne : ExFF st' <> []) by (rewrite HE; discriminate).
  exists st'. split; [exact Hp|split; [exact Hne|]].
  exact (proj1 (frontier_cells_are_new P_trunc8 st_front27 st' Hp Hne)).
Defined.

Lemma extrapolation_pass_writes_targets_only_witness :
  exists st', ext_pass P_trunc8 st_front27 = Some st'
              /\ (forall k, TAMask st_front27 k = true ->
                             TAMask st' k = true).
Proof.
  destruct ext_pass_front27 as (st' & Hp & _).
  exists st'. split; [exact Hp|].
  exact (proj1 (extrapolation_pass_writes_targets_only P_trunc8
                  st_front27 st' Hp)).
Defined.

Lemma neighbour_scan_in_grid_witness :
  3 <= EDGE P_trunc9 /\ interior P_trunc9 40 /\ In (-4, 0) neighlist
  /\ 0 <= (Z.quot 40 (M1 P_trunc9) + -4) * W1 P_trunc9
          + (Z.rem 40 (M1 P_trunc9) + 0) < O1 P_trunc9.
Proof.
  assert (H1 : 3 <= EDGE P_trunc9) by (cbn; lia).
  assert (H2 : interior P_trunc9 40) by (unfold interior; cbn; lia).
  assert (H3 : In (-4, 0) neighlist)
    by (vm_compute; do 24 right; left; reflexivity).
  split; [exact H1|split; [exact H2|split; [exact H3|]]].
  exact (proj2 (proj2 (neighbour_scan_in_grid P_trunc9 40 (-4) 0 H1 H2 H3))).
Defined.

Lemma neighbour_scan_leaves_grid_witness :
  0 <= EDGE P_trunc7 <= 2 /\ interior P_trunc7 24
  /\ Z.quot 24 (M1 P_trunc7) = EDGE P_trunc7 + 1
  /\ (Z.quot 24 (M1 P_trunc7) + -4) * W1 P_trunc7
     + (Z.rem 24 (M1 P_trunc7) + 0) < 0.
Proof.
  assert (H1 : 0 <= EDGE P_trunc7 <= 2) by (cbn; lia).
  assert (H2 : interior P_trunc7 24) by (unfold interior; cbn; lia).
  assert (H3 : Z.quot 24 (M1 P_trunc7) = EDGE P_trunc7 + 1) by reflexivity.
  split; [exact H1|split; [exact H2|split; [exact H3|]]].
  exact (proj2 (neighbour_scan_leaves_grid P_trunc7 24 H1 H2 H3)).
Defined.

Lemma norm_ff24 : norm_factor P_trunc7 st_ff24 = 2%R.
Proof.
  unfold norm_factor.
  assert (E : region_sum P_trunc7 (FF st_ff24) st_ff24
              = (0 + FF st_ff24 24)%R) by reflexivity.
  rewrite E. cbn. field.
Qed.

Lemma transmittance_is_a_fraction_witness :
  region_in_row P_trunc7 st_ff24
  /\ norm_factor P_trunc7 st_ff24 <> 0%R
  /\ transmittance P_trunc7 (row_lo P_trunc7 st_ff24)
       (normalization P_trunc7 st_ff24) = 1%R.
Proof.
  assert (H1 : region_in_row P_trunc7 st_ff24)
    by (unfold region_in_row; cbn; lia).
  assert (H2 : norm_factor P_trunc7 st_ff24 <> 0%R)
    by (rewrite norm_ff24; lra).
  assert (H3 : isFullGrid P_trunc7 = false ->
               forall i1 i2, x1_min st_ff24 <= i1 <= x1_max st_ff24 ->
                 x2_min st_ff24 <= i2 <= x2_max st_ff24 ->
                 TAMask st_ff24 (i1 * W1 P_trunc7 + i2) = false ->
                 PF st_ff24 (i1 * W1 P_trunc7 + i2) = 0%R).
  { intros _ i1 i2 Hi1 Hi2. cbn in Hi1, Hi2.
    assert (i1 = 3) as -> by lia. assert (i2 = 3) as -> by lia.
    cbn. discriminate. }
  split; [exact H1|split; [exact H2|]].
  exact (proj1 (transmittance_is_a_fraction P_trunc7 st_ff24 H1 H2 H3)).
Defined.

Lemma initial_truncation_rule_witness :
  1 <= EDGE P_trunc7
  /\ (forall k, TAMask st_one24 k = false)
  /\ edge_free P_trunc7 3 3
  /\ ~ init_dropped P_trunc7 st_one24 3 3
  /\ TAMask (initial_truncation P_trunc7 st_one24) (3 * W1 P_trunc7 + 3)
     = true.
Proof.
  assert (H1 : 1 <= EDGE P_trunc7) by (cbn; lia).
  assert (H2 : forall k, TAMask st_one24 k = false) by reflexivity.
  assert (H3 : edge_free P_trunc7 3 3) by (unfold edge_free; cbn; lia).
  assert (H4 : ~ init_dropped P_trunc7 st_one24 3 3).
  { intros [H _]. cbn in H. lra. }
  split; [exact H1|split; [exact H2|split; [exact H3|split; [exact H4|]]]].
  exact (proj1 (proj1 (initial_truncation_rule P_trunc7 st_one24 3 3 H1 H2
                         (ex_intro _ 3 (ex_intro _ 3 (conj H3 H4))) H3) H4)).
Defined.

Lemma later_pass_integrates_ExBD_witness :
  ExFF st_later24 <> []
  /\ F (later_pass_body P_trunc7 st_later24) = F st_later24.
Proof.
  assert (H1 : ExFF st_later24 <> []) by discriminate.
  split; [exact H1|].
  exact (proj1 (proj2 (proj2
           (later_pass_integrates_ExBD P_trunc7 st_later24 24 H1)))).
Defined.

(** * The theorems at concrete configurations *)

Lemma C1_full_grid_rk4_witness :
  (0 <= EDGE P_full3
   /\ EDGE P_full3 <= 1 < BoxShape_0 P_full3 - EDGE P_full3
   /\ EDGE P_full3 <= 1 < BoxShape_1 P_full3 - EDGE P_full3)
  /\ FF (CASE3 P_full3 st_negative) 4
     = (F st_negative 4
        + (KK1 (CASE3 P_full3 st_negative) 4
           + 2 * KK2 (CASE3 P_full3 st_negative) 4
           + 2 * KK3 (CASE3 P_full3 st_negative) 4
           + KK4 (CASE3 P_full3 st_negative) 4) / 6)%R.
Proof.
  assert (H1 : 0 <= EDGE P_full3) by (cbn; lia).
  assert (H2 : EDGE P_full3 <= 1 < BoxShape_0 P_full3 - EDGE P_full3)
    by (cbn; lia).
  assert (H3 : EDGE P_full3 <= 1 < BoxShape_1 P_full3 - EDGE P_full3)
    by (cbn; lia).
  split; [tauto|].
  exact (proj1 (proj2 (proj2 (proj2 (proj2
           (C1_full_grid_rk4 P_full3 st_negative 1 1 H1 H2 H3)))))).
Defined.



Lemma C3_moments_full_fokker_planck_witness :
  isFullGrid P_trunc7 = false
  /\ isLinearizedCollision P_trunc7 = false
  /\ isIsothermal P_trunc7 = false
  /\ x1_min st_ring24 <= 3 <= x1_max st_ring24
  /\ ((0 < rho_spec P_trunc7 st_ring24 3 ->
       Density (init_moments P_trunc7 st_ring24) 3
       = rho_spec P_trunc7 st_ring24 3
       /\ Velocity (init_moments P_trunc7 st_ring24) 3
          = u_spec P_trunc7 st_ring24 3
       /\ Temperature (init_moments P_trunc7 st_ring24) 3
          = T_spec P_trunc7 st_ring24 3)%R
      /\ (rho_spec P_trunc7 st_ring24 3 <= 0 ->
          Density (init_moments P_trunc7 st_ring24) 3 = 0
          /\ Velocity (init_moments P_trunc7 st_ring24) 3 = 0
          /\ Temperature (init_moments P_trunc7 st_ring24) 3 = 0)%R).
Proof.
  assert (H4 : x1_min st_ring24 <= 3 <= x1_max st_ring24) by (cbn; lia).
  split; [reflexivity|split; [reflexivity|split; [reflexivity|]]].
  split; [exact H4|].
  exact (C3_moments_full_fokker_planck P_trunc7 st_ring24 3
           eq_refl eq_refl eq_refl H4).
Defined.

Lemma C10_mask_recomputed_from_PF_witness :
  x1_min st_ring24 <= 3 <= x1_max st_ring24
  /\ x2_min st_ring24 <= 3 <= x2_max st_ring24
  /\ (TAMask (box_loop (remask_cell P_trunc7) st_ring24) 24 = true
      <-> PF st_ring24 24 <> 0%R).
Proof.
  assert (H1 : x1_min st_ring24 <= 3 <= x1_max st_ring24) by (cbn; lia).
  assert (H2 : x2_min st_ring24 <= 3 <= x2_max st_ring24) by (cbn; lia).
  split; [exact H1|split; [exact H2|]].
  exact (proj1 (C10_mask_recomputed_from_PF P_trunc7 st_ring24 3 3 H1 H2)).
Defined.

Lemma C6_loop_terminates_witness :
  (Nat.max (Z.to_nat (ExLimit P_peak7)) 2 <= 2)%nat
  /\ ext_loop P_peak7 2 0 (begin_step P_peak7 (Evolve_init P_peak7))
     <> OutOfFuel.
Proof.
  assert (H : (Nat.max (Z.to_nat (ExLimit P_peak7)) 2 <= 2)%nat)
    by (cbn; lia).
  split; [exact H|].
  exact (proj1 (C6_loop_terminates P_peak7 (Evolve_init P_peak7) 2 H)).
Defined.

Lemma C7_frontier_interior_witness :
  1 <= EDGE P_trunc7
  /\ isFullGrid P_trunc7 = false
  /\ passes P_trunc7 0 (begin_step P_trunc7 st_ring24)
     = Some (begin_step P_trunc7 st_ring24)
  /\ Forall (interior P_trunc7) (TBL (begin_step P_trunc7 st_ring24)).
Proof.
  assert (H : 1 <= EDGE P_trunc7) by (cbn; lia).
  split; [exact H|split; [reflexivity|split; [reflexivity|]]].
  exact (proj1 (C7_frontier_interior P_trunc7 st_ring24 0
                  (begin_step P_trunc7 st_ring24) H eq_refl eq_refl)).
Defined.

Lemma density_exbd24 : (0 < Density (feq_ExBD P_trunc7 st_exbd24) 3)%R.
Proof.
  destruct (feq_ExBD_spec P_trunc7 st_exbd24) as (HD & _).
  rewrite HD. cbn. lra.
Qed.

Lemma C9_feq_sanitised_witness :
  feq_cell P_trunc7 FeqExBD st_exbd24 3 3
  /\ (0 < Density (feq_pass P_trunc7 FeqExBD st_exbd24) 3)%R
  /\ sanitised P_trunc7
       (maxwellian P_trunc7
          (Density (feq_pass P_trunc7 FeqExBD st_exbd24) 3)
          (Velocity (feq_pass P_trunc7 FeqExBD st_exbd24) 3)
          (Temperature (feq_pass P_trunc7 FeqExBD st_exbd24) 3) 3)
       (Feq_loc (feq_pass P_trunc7 FeqExBD st_exbd24) 24).
Proof.
  assert (H1 : feq_cell P_trunc7 FeqExBD st_exbd24 3 3).
  { exists 24. cbn. tauto. }
  assert (H2 : (0 < Density (feq_pass P_trunc7 FeqExBD st_exbd24) 3)%R)
    by exact density_exbd24.
  split; [exact H1|split; [exact H2|]].
  exact (C9_feq_sanitised P_trunc7 FeqExBD st_exbd24 3 3 H1 H2).
Defined.

Lemma stage_full_P_live5 cell st :
  stage_full P_live5 cell st = cell 2 2 st.
Proof. reflexivity. Qed.

Lemma init_norm_P_live5 st :
  init_norm P_live5 st = ((0 + F st 12%Z) * (1 * 1))%R.
Proof. reflexivity. Qed.

Lemma wave_P_live5_pos x1 x2 : (0 < WAVEFUNCTION P_live5 x1 x2)%R.
Proof.
  unfold WAVEFUNCTION. cbn [POT P_live5 example_params].
  unfold Wavefunction_DW2, PIHB_INV. cbn [hb P_live5 example_params].
  apply Rmult_lt_0_compat; [apply Rmult_lt_0_compat|]; try apply exp_pos.
  apply Rdiv_lt_0_compat; [lra|].
  apply Rmult_lt_0_compat; [apply PI_RGT_0|lra].
Qed.

Lemma ta_size_init_moments (p : Params) st :
  ta_size (init_moments p st) = ta_size st.
Proof.
  unfold init_moments.
  repeat match goal with
         | |- context [if ?b then _ else _] => destruct b
         end;
    apply for_loop_proj; intros i s';
    unfold init_moments_row_lin, init_moments_row_iso, init_moments_row_fp;
    destruct (Rleb _ 0); reflexivity.
Qed.

Lemma Evolve_init_P_live5 : ta_size (Evolve_init P_live5) = 1.
Proof.
  unfold Evolve_init. rewrite ta_size_init_moments.
  change (negb (isFullGrid P_live5)) with true. cbv iota.
  set (s1 := init_normalize P_live5 (init_wavefunction P_live5 st_zero)).
  assert (H1 : F s1 12 = 1%R /\ TAMask s1 = (fun _ => false) /\ TB s1 = []).
  { unfold s1, init_normalize, init_wavefunction.
    rewrite init_norm_P_live5, !stage_full_P_live5.
    set (w := WAVEFUNCTION P_live5 _ _).
    assert (Hw : (0 < w)%R) by apply wave_P_live5_pos. clearbody w.
    cbn. repeat split. field. lra. }
  clearbody s1. destruct H1 as (Ha & Hc & Hd).
  unfold initial_truncation. rewrite stage_full_P_live5.
  assert (E : init_truncate_cell P_live5 2 2 (set_ta_size 0 (reset_box s1))
              = set_ta_size 1
                  (set_TAMask (upd (TAMask s1) 12 true)
                     (set_ta_size 0 (reset_box s1)))).
  { unfold init_truncate_cell. cbn. rewrite Ha.
    replace (Rltb 1 (1 / 2)) with false; [reflexivity|].
    symmetry. apply Rltb_false. lra. }
  rewrite E. cbn [ta_size set_ta_size]. cbn [Z.eqb]. cbv iota.
  rewrite stage_full_P_live5. unfold init_box_cell.
  cbn [TAMask set_ta_size set_TAMask]. rewrite Hc.
  vm_compute. reflexivity.
Qed.

Lemma begin_step_P_live5 st : TBL (begin_step P_live5 st) = [].
Proof.
  destruct (TBL (begin_step P_live5 st)) as [|e l] eqn:E; [reflexivity|].
  assert (He : In e (TBL (build_TBL P_live5 (set_Excount 0 st)))).
  { change (TBL (build_TBL P_live5 (set_Excount 0 st)))
      with (TBL (begin_step P_live5 st)). rewrite E. now left. }
  apply in_build_TBL in He. destruct He as [_ He].
  apply frontier_test_interior in He. unfold interior in He. cbn in He. lia.
Qed.

Lemma run_P_live5 :
  run P_live5 0 1 (Evolve_init P_live5)
  = StepDone (finish_step P_live5 (begin_step P_live5 (Evolve_init P_live5))).
Proof.
  cbn [run]. unfold step. cbn [ext_loop].
  now rewrite (loop_cond_nil P_live5 _ (begin_step_P_live5 _)).
Qed.

Lemma C4_nonlive_cells_hold_zero_witness :
  isFullGrid P_live5 = false
  /\ ta_size (Evolve_init P_live5) <> 0
  /\ run P_live5 0 1 (Evolve_init P_live5)
     = StepDone
         (finish_step P_live5 (begin_step P_live5 (Evolve_init P_live5)))
  /\ forall k,
       TAMask (finish_step P_live5
                 (begin_step P_live5 (Evolve_init P_live5))) k = false ->
       F (finish_step P_live5
            (begin_step P_live5 (Evolve_init P_live5))) k = 0%R.
Proof.
  assert (H2 : ta_size (Evolve_init P_live5) <> 0)
    by (rewrite Evolve_init_P_live5; lia).
  split; [reflexivity|split; [exact H2|split; [exact run_P_live5|]]].
  exact (C4_nonlive_cells_hold_zero P_live5 0 1 _ eq_refl H2 run_P_live5).
Defined.
